(** * MindGym: seeded RNG, Sudoku, crossword and the other games

    Shallow embedding of the deterministic core of the MindGym puzzle
    collection:

    - [createSeededRNG]  (src/services/geminiService.ts, lines 11-23),
    - [shuffle] and [generateBoard] of the Sudoku component, and its
      handlers [handleCellClick] and [handleNumberInput],
    - [canPlaceWord], [placeWord] and [generateGridLayout]
      (src/services/geminiService.ts, lines 112-231), and the numbering of
      the clues in [generateCrosswordPuzzle],
    - the handlers of the crossword component
      (src/components/CrosswordGame.tsx),
    - [getDailyISO] and the rounds of the sequence game
      (src/components/SpatialLogic.tsx),
    - the retries of [callGemini] (src/services/geminiService.ts),
    - the statistics of [handleGameComplete] (src/App.tsx),
    - the pages of the lobby,
    - the cipher game (src/components/CipherGame.tsx).

    JavaScript numbers are IEEE doubles.  Every number the modelled code
    manipulates is an integer or a dyadic rational, so we represent integers
    by [Z] and the outputs of the generator by [Q], and we write the
    conversions the operators perform ([ToInt32], [ToUint32], rounding of a
    sum to 53 significant bits) explicitly. *)

From Stdlib Require Import String Ascii.
From Stdlib Require Import ZArith NArith Nnat QArith Qround List Bool Lia Permutation.
From Stdlib Require Import DecimalString DecimalZ DecimalPos.
Import ListNotations.

Local Open Scope Z_scope.

(** ** JavaScript number operators *)

Module JS.

(** A string is its sequence of UTF-16 code units ([charCodeAt]). *)
Definition jsstring := list Z.

Definition str (s : string) : jsstring :=
  map (fun c => Z.of_nat (nat_of_ascii c)) (list_ascii_of_string s).

Definition ToUint32 (x : Z) : Z := x mod 2 ^ 32.

Definition ToInt32 (x : Z) : Z := (x + 2 ^ 31) mod 2 ^ 32 - 2 ^ 31.

(** [a ^ b] *)
Definition xor (a b : Z) : Z := Z.lxor (ToInt32 a) (ToInt32 b).

(** [a | b] *)
Definition or (a b : Z) : Z := Z.lor (ToInt32 a) (ToInt32 b).

(** [a >>> n] *)
Definition ushr (a n : Z) : Z := Z.shiftr (ToUint32 a) (n mod 32).

(** [Math.imul(a, b)] *)
Definition imul (a b : Z) : Z := ToInt32 (ToUint32 a * ToUint32 b).

(** Rounding of an integer to the nearest double, ties to even: a double
    has 53 significant bits.  (Faithful below 2^1024, where doubles
    overflow; the values met here stay far below.) *)
Definition roundDouble (x : Z) : Z :=
  let m := Z.abs x in
  let bits := Z.log2 m + 1 in
  if bits <=? 53 then x
  else
    let sh := bits - 53 in
    let q := Z.shiftr m sh in
    let r := m mod 2 ^ sh in
    let half := 2 ^ (sh - 1) in
    let q' := if r <? half then q
              else if half <? r then q + 1
              else if Z.even q then q else q + 1 in
    Z.sgn x * Z.shiftl q' sh.

(** [a + b] on integer-valued numbers. *)
Definition add (a b : Z) : Z := roundDouble (a + b).

(** [u / 4294967296] for an integer [u]: a power of two divides exactly. *)
Definition div2p32 (u : Z) : Q := u # 4294967296.

(** The constant added to [seed] at each call. *)
Definition increment : Z := 0x6D2B79F5.

(** [a === b] on strings *)
Definition streq (a b : jsstring) : bool :=
  if list_eq_dec Z.eq_dec a b then true else false.

(** [a[i] = x] for an index inside the array *)
Fixpoint set {A} (i : nat) (x : A) (a : list A) : list A :=
  match a, i with
  | [], _ => []
  | _ :: a', O => x :: a'
  | y :: a', S i' => y :: set i' x a'
  end.

End JS.

(** ** The seeded generator *)

Module RNG.
Import JS.

(** The loop of [createSeededRNG]: the value of [h] after the [for]. *)
Definition hashSeed (seedStr : jsstring) : Z :=
  fold_left (fun h c => imul (xor h c) 16777619) seedStr (ushr 2166136261 0).

(** [createSeededRNG seedStr] returns a closure over the variable [seed];
    the closure is represented by the current value of that variable. *)
Definition createSeededRNG (seedStr : jsstring) : Z := hashSeed seedStr.

(** One call of the returned function: the output and the new [seed]. *)
Definition rng (seed : Z) : Q * Z :=
  let seed := add seed increment in
  let t := seed in
  let t := imul (xor t (ushr t 15)) (or t 1) in
  let t := xor t (add t (imul (xor t (ushr t 7)) (or t 61))) in
  (div2p32 (ushr (xor t (ushr t 14)) 0), seed).

(** The lines of [rng] that compute the numerator of the output from the
    new value of [seed]. *)
Definition mix (t : Z) : Z :=
  let t := imul (xor t (ushr t 15)) (or t 1) in
  let t := xor t (add t (imul (xor t (ushr t 7)) (or t 61))) in
  ushr (xor t (ushr t 14)) 0.

(** The first [n] outputs of a generator whose variable holds [seed]. *)
Fixpoint outputs (n : nat) (seed : Z) : list Q :=
  match n with
  | O => []
  | S n' => let (r, seed') := rng seed in r :: outputs n' seed'
  end.

(** The variable [seed] after [n] calls. *)
Definition seedAfter (n : N) (seed : Z) : Z :=
  N.iter n (fun s => snd (rng s)) seed.

(** The output of call number [n] (counting from 0). *)
Definition nthOutput (n : N) (seed : Z) : Q := fst (rng (seedAfter n seed)).

(** *** Generators as objects

    Each call of [createSeededRNG] allocates a closure with its own
    variable [seed].  The heap holds one cell per closure; a generator is
    the index of its cell. *)

Definition Heap := list Z.

Definition create (seedStr : jsstring) (h : Heap) : nat * Heap :=
  (length h, h ++ [createSeededRNG seedStr]).

Definition call (g : nat) (h : Heap) : Q * Heap :=
  let (r, seed') := rng (nth g h 0) in (r, set g seed' h).

(** A client that calls two generators in the order given by [sched]
    ([true] for the first one) and records the outputs of each. *)
Fixpoint run (sched : list bool) (g1 g2 : nat) (h : Heap) : list Q * list Q :=
  match sched with
  | [] => ([], [])
  | b :: sched' =>
      let (r, h') := call (if b then g1 else g2) h in
      let (o1, o2) := run sched' g1 g2 h' in
      if b then (r :: o1, o2) else (o1, r :: o2)
  end.

(** The number of calls that [sched] makes to the first ([true]) or to
    the second ([false]) generator. *)
Definition callsOf (b : bool) (sched : list bool) : nat :=
  length (filter (Bool.eqb b) sched).

End RNG.

(** ** The generator described by the specification

    Reference definition following the words of the specification: every
    intermediate value is an unsigned 32-bit word. *)

Module RefRNG.

Definition w32 (x : Z) : Z := x mod 2 ^ 32.

Definition hash_ref (seedStr : list Z) : Z :=
  fold_left (fun acc c => w32 (w32 (Z.lxor acc c) * 16777619))
            seedStr 2166136261.

Definition advance_ref (state : Z) : Z := w32 (state + 0x6D2B79F5).

Definition mix_ref (state : Z) : Z :=
  let v := w32 (w32 (Z.lxor state (Z.shiftr state 15)) * w32 (Z.lor state 1)) in
  let p := w32 (w32 (Z.lxor v (Z.shiftr v 7)) * w32 (Z.lor v 61)) in
  let v := w32 (Z.lxor v (w32 (v + p))) in
  w32 (Z.lxor v (Z.shiftr v 14)).

Definition rng_ref (state : Z) : Q * Z :=
  let state := advance_ref state in
  (mix_ref state # 4294967296, state).

Definition stateAfter_ref (n : N) (state : Z) : Z :=
  N.iter n advance_ref state.

Definition nthOutput_ref (n : N) (state : Z) : Q :=
  fst (rng_ref (stateAfter_ref n state)).

End RefRNG.

(** ** The Sudoku generator *)

Module Sudoku.
Import JS RNG.

(** *** Threading the generator through the code

    A computation that may call [rng()]: it receives the current value of
    the closure's variable and returns the new one. *)

Definition Rand (A : Type) : Type := Z -> A * Z.

Definition ret {A} (a : A) : Rand A := fun s => (a, s).

Definition bind {A B} (m : Rand A) (k : A -> Rand B) : Rand B :=
  fun s => let (a, s') := m s in k a s'.

Definition draw : Rand Q := rng.

Declare Scope rand_scope.
Delimit Scope rand_scope with rand.
Notation "x <- m ;; k" := (bind m (fun x => k))
  (at level 61, m at next level, right associativity) : rand_scope.
Local Open Scope rand_scope.

(** [x > 0.5] *)
Definition gtHalf (x : Q) : bool := negb (Qle_bool x (1 # 2)).

(** *** Arrays *)

(** [[array[i], array[j]] = [array[j], array[i]]].  Both indices are
    inside the array whenever [shuffle] swaps (lemma [shuffle_index]);
    outside, where JavaScript would grow the array, the model leaves it
    as it is. *)
Definition swap {A} (array : list A) (i j : nat) : list A :=
  match nth_error array i, nth_error array j with
  | Some ai, Some aj => set j ai (set i aj array)
  | _, _ => array
  end.

(** [Math.floor(r * (i + 1))].  The product is exact in double precision
    for arrays of fewer than 2^21 elements, because [r] is a multiple of
    2^-32 below 1. *)
Definition pick (r : Q) (i : nat) : nat :=
  Z.to_nat (Qfloor (r * inject_Z (Z.of_nat i + 1))).

(** The loop of [shuffle], from index [i] down to 1. *)
Fixpoint shuffleFrom {A} (i : nat) (array : list A) : Rand (list A) :=
  match i with
  | O => ret array
  | S i' =>
      r <- draw ;;
      shuffleFrom i' (swap array i (pick r i))
  end.

Definition shuffle {A} (array : list A) : Rand (list A) :=
  shuffleFrom (length array - 1) array.

(** *** Grids *)

Definition Grid := list (list Z).

Definition baseGrid : Grid :=
  [ [5; 3; 4; 6; 7; 8; 9; 1; 2]; [6; 7; 2; 1; 9; 5; 3; 4; 8]; [1; 9; 8; 3; 4; 2; 5; 6; 7];
    [8; 5; 9; 7; 6; 1; 4; 2; 3]; [4; 2; 6; 8; 5; 3; 7; 9; 1]; [7; 1; 3; 9; 2; 4; 8; 5; 6];
    [9; 6; 1; 5; 3; 7; 2; 8; 4]; [2; 8; 7; 4; 1; 9; 6; 3; 5]; [3; 4; 5; 2; 8; 6; 1; 7; 9] ].

(** [g[0].map((_, colIndex) => g.map(row => row[colIndex]))].  A missing
    element ([undefined] in JavaScript) is written 0; grids here have nine
    rows of nine cells, so none is missing. *)
Definition transpose (g : Grid) : Grid :=
  map (fun colIndex => map (fun row => nth colIndex row 0) g)
      (seq 0 (length (nth 0 g []))).

(** [g.slice(from, to)] *)
Definition slice {A} (from to : nat) (a : list A) : list A :=
  firstn (to - from) (skipn from a).

(** 1. Transpose? *)
Definition maybeTranspose (g : Grid) : Rand Grid :=
  r <- draw ;;
  if gtHalf r then ret (transpose g) else ret g.

(** The body of the loops of steps 2 and 3, for the band starting at [b]. *)
Definition shuffleBand (b : nat) (g : Grid) : Rand Grid :=
  r <- draw ;;
  if gtHalf r then
    rows <- shuffle [nth b g []; nth (b + 1) g []; nth (b + 2) g []] ;;
    ret (set (b + 2) (nth 2 rows [])
           (set (b + 1) (nth 1 rows [])
              (set b (nth 0 rows []) g)))
  else ret g.

(** 2. Swap rows within bands: [for (let b = 0; b < 9; b += 3)]. *)
Definition swapRowsWithinBands (g : Grid) : Rand Grid :=
  g <- shuffleBand 0 g ;;
  g <- shuffleBand 3 g ;;
  shuffleBand 6 g.

(** 3. Swap columns within bands. *)
Definition swapColumnsWithinBands (g : Grid) : Rand Grid :=
  g <- swapRowsWithinBands (transpose g) ;;
  ret (transpose g).

(** 4. Swap bands. *)
Definition swapBands (g : Grid) : Rand Grid :=
  bands <- shuffle [slice 0 3 g; slice 3 6 g; slice 6 9 g] ;;
  ret (nth 0 bands [] ++ nth 1 bands [] ++ nth 2 bands []).

(** A [Map] with number keys, in insertion order. *)
Definition NumMap := list (Z * Z).

Fixpoint Map_set (m : NumMap) (k v : Z) : NumMap :=
  match m with
  | [] => [(k, v)]
  | (k', v') :: m' => if k' =? k then (k, v) :: m' else (k', v') :: Map_set m' k v
  end.

Fixpoint Map_get (m : NumMap) (k : Z) : option Z :=
  match m with
  | [] => None
  | (k', v) :: m' => if k' =? k then Some v else Map_get m' k
  end.

Definition nums : list Z := [1; 2; 3; 4; 5; 6; 7; 8; 9].

(** [nums.forEach((n, i) => map.set(n, permuted[i]))] *)
Definition digitMap (permuted : list Z) : NumMap :=
  fold_left (fun m ni => Map_set m (fst ni) (nth (snd ni) permuted 0))
            (combine nums (seq 0 (length nums))) [].

(** [map.get(val)]; a missing key ([undefined]) is written 0, and lemma
    [relabel_defined] shows that every cell of a grid is a key. *)
Definition relabel (m : NumMap) (val : Z) : Z :=
  match Map_get m val with Some v => v | None => 0 end.

(** 5. Permute numbers. *)
Definition permuteNumbers (g : Grid) : Rand Grid :=
  permuted <- shuffle nums ;;
  ret (map (fun row => map (relabel (digitMap permuted)) row) g).

(** The value passed to [setSolution]. *)
Definition generateSolution : Rand Grid :=
  g <- maybeTranspose baseGrid ;;
  g <- swapRowsWithinBands g ;;
  g <- swapColumnsWithinBands g ;;
  g <- swapBands g ;;
  permuteNumbers g.

(** *** The puzzle mask *)

Definition cellsToKeep (difficulty : jsstring) : nat :=
  if streq difficulty (str "Easy") then 45
  else if streq difficulty (str "Medium") then 35
  else 24.

(** [a.map((x, i) => f x i)] *)
Fixpoint mapiFrom {A B} (i : nat) (f : A -> nat -> B) (a : list A) : list B :=
  match a with
  | [] => []
  | x :: a' => f x i :: mapiFrom (S i) f a'
  end.

Definition mapi {A B} (f : A -> nat -> B) (a : list A) : list B := mapiFrom 0 f a.

(** [keptIndices.has(index)] for the [Set] built from an array. *)
Definition has (kept : list nat) (index : nat) : bool :=
  existsb (Nat.eqb index) kept.

Definition maskGrid (kept : list nat) (g : Grid) : list (list (option Z)) :=
  mapi (fun row r =>
          mapi (fun val c => if has kept (r * 9 + c) then Some val else None) row) g.

Definition createPuzzleMask (difficulty : jsstring) (g : Grid)
  : Rand (list (list (option Z))) :=
  indices <- shuffle (seq 0 81) ;;
  ret (maskGrid (slice 0 (cellsToKeep difficulty) indices) g).

Record Board := { solution : Grid; puzzle : list (list (option Z)) }.

(** [generateBoard], as a function of the local [seed] and of the
    [difficulty] property: the grids it passes to [setSolution] and
    [setBoard]. *)
Definition generateBoard (seed difficulty : jsstring) : Board :=
  let (sol, s) := generateSolution (createSeededRNG seed) in
  let (puz, _) := createPuzzleMask difficulty sol s in
  {| solution := sol; puzzle := puz |}.

(** *** Rows, columns and boxes *)

Definition row (g : Grid) (r : nat) : list Z := nth r g [].

Definition column (g : Grid) (c : nat) : list Z :=
  map (fun row => nth c row 0) g.

(** The box in band [br] (rows 3br..3br+2) and stack [bc]. *)
Definition box (g : Grid) (br bc : nat) : list Z :=
  flat_map (slice (3 * bc) (3 * bc + 3)) (slice (3 * br) (3 * br + 3) g).

(** [l] has nine cells and contains each of 1..9 exactly once. *)
Definition eachDigitOnce (l : list Z) : Prop :=
  length l = 9%nat /\
  forall d, 1 <= d <= 9 -> count_occ Z.eq_dec l d = 1%nat.

Definition validSolution (g : Grid) : Prop :=
  length g = 9%nat /\
  (forall r, (r < 9)%nat -> eachDigitOnce (row g r)) /\
  (forall c, (c < 9)%nat -> eachDigitOnce (column g c)) /\
  (forall br bc, (br < 3)%nat -> (bc < 3)%nat -> eachDigitOnce (box g br bc)).

(** The same, as an arrangement of [nums]. *)
Definition isPerm (l : list Z) : Prop := Permutation l nums.

Definition Valid (g : Grid) : Prop :=
  length g = 9%nat /\
  Forall isPerm g /\
  (forall c, (c < 9)%nat -> isPerm (column g c)) /\
  (forall br bc, (br < 3)%nat -> (bc < 3)%nat -> isPerm (box g br bc)).

(** *** Revealed cells *)

Definition isRevealed (x : option Z) : bool :=
  match x with Some _ => true | None => false end.

(** The number of non-null cells of a puzzle. *)
Definition revealed (p : list (list (option Z))) : nat :=
  length (filter isRevealed (concat p)).

(** Every non-null cell of [p] is the cell of [g] at the same place. *)
Definition subsetReveal (p : list (list (option Z))) (g : Grid) : Prop :=
  forall r c v,
    nth_error (nth r p []) c = Some (Some v) ->
    nth_error (nth r g []) c = Some v.

End Sudoku.

(** ** The generator in which every transformation is gated

    Reference definition following the words of the specification: each of
    the transformations (a) to (e), the band shuffle and the digit
    relabelling included, is applied only when a coin flip [rng() > 0.5]
    succeeds. *)

Module GatedSudoku.
Import Sudoku.

Local Open Scope rand_scope.

Definition gated (step : Grid -> Rand Grid) (g : Grid) : Rand Grid :=
  r <- draw ;;
  if gtHalf r then step g else ret g.

(** The body of the [if] of steps 2 and 3 of the code: the three rows from
    [b] on are shuffled and written back. *)
Definition shuffleRows (b : nat) (g : Grid) : Rand Grid :=
  rows <- shuffle [nth b g []; nth (b + 1) g []; nth (b + 2) g []] ;;
  ret (JS.set (b + 2) (nth 2 rows [])
         (JS.set (b + 1) (nth 1 rows [])
            (JS.set b (nth 0 rows []) g))).

Definition generateSolution_gated : Rand Grid :=
  g <- maybeTranspose baseGrid ;;
  g <- swapRowsWithinBands g ;;
  g <- swapColumnsWithinBands g ;;
  g <- gated swapBands g ;;
  gated permuteNumbers g.

End GatedSudoku.

(** ** The crossword layout *)

Module Crossword.
Import JS.

(** *** The grid

    [grid] is an array of [size] row arrays.  A row is a JavaScript array
    object: its [length] and its properties.  An element that was never
    written reads [undefined]; writing at an index at or beyond [length]
    grows the array, and writing at a negative index defines a property. *)

Inductive cell := undefined | null | letter (c : Z).

Record Row := { len : Z; prop : Z -> cell }.

Definition Grid := list Row.

(** [Array(size).fill(null)] *)
Definition newRow (size : Z) : Row :=
  {| len := size;
     prop := fun c => if (0 <=? c) && (c <? size) then null else undefined |}.

(** [Array(size).fill(null).map(() => Array(size).fill(null))]: the rows
    are distinct objects. *)
Definition newGrid (size : Z) : Grid := repeat (newRow size) (Z.to_nat size).

(** [grid[row]], [None] when it is [undefined]. *)
Definition getRow (grid : Grid) (row : Z) : option Row :=
  if row <? 0 then None else nth_error grid (Z.to_nat row).

(** [grid[row][col]]; [None] is the TypeError raised when [grid[row]] is
    [undefined]. *)
Definition getCell (grid : Grid) (row col : Z) : option cell :=
  match getRow grid row with
  | Some r => Some (prop r col)
  | None => None
  end.

Definition setProp (r : Row) (col : Z) (v : cell) : Row :=
  {| len := if (0 <=? col) && (len r <=? col) then col + 1 else len r;
     prop := fun c => if c =? col then v else prop r c |}.

(** [grid[row][col] = v] *)
Definition setCell (grid : Grid) (row col : Z) (v : cell) : option Grid :=
  match getRow grid row with
  | Some r => Some (set (Z.to_nat row) (setProp r col v) grid)
  | None => None
  end.

(** [c !== null] *)
Definition notNull (c : cell) : bool :=
  match c with null => false | _ => true end.

(** [c !== char] *)
Definition differs (c : cell) (char : Z) : bool :=
  match c with letter x => negb (x =? char) | _ => true end.

(** *** canPlaceWord *)

Inductive Direction := across | down.

(** [guard && grid[row][col] !== null] *)
Definition occupiedIf (guard : bool) (grid : Grid) (row col : Z) : option bool :=
  if guard then option_map notNull (getCell grid row col) else Some false.

(** [if (cond) return false; rest] *)
Definition rejectIf (cond : option bool) (rest : option bool) : option bool :=
  match cond with
  | None => None
  | Some true => Some false
  | Some false => rest
  end.

Fixpoint acrossLoop (grid : Grid) (height row col i : Z) (chars : list Z)
  : option bool :=
  match chars with
  | [] => Some true
  | char :: chars' =>
      match getCell grid row (col + i) with
      | None => None
      | Some cell =>
          rejectIf (Some (notNull cell && differs cell char))
            (if notNull cell then acrossLoop grid height row col (i + 1) chars'
             else
               rejectIf (occupiedIf (row >? 0) grid (row - 1) (col + i))
                 (rejectIf (occupiedIf (row <? height - 1) grid (row + 1) (col + i))
                    (acrossLoop grid height row col (i + 1) chars')))
      end
  end.

Fixpoint downLoop (grid : Grid) (width row col i : Z) (chars : list Z)
  : option bool :=
  match chars with
  | [] => Some true
  | char :: chars' =>
      match getCell grid (row + i) col with
      | None => None
      | Some cell =>
          rejectIf (Some (notNull cell && differs cell char))
            (if notNull cell then downLoop grid width row col (i + 1) chars'
             else
               rejectIf (occupiedIf (col >? 0) grid (row + i) (col - 1))
                 (rejectIf (occupiedIf (col <? width - 1) grid (row + i) (col + 1))
                    (downLoop grid width row col (i + 1) chars')))
      end
  end.

Definition canPlaceWord (grid : Grid) (word : jsstring) (row col : Z)
           (direction : Direction) : option bool :=
  let height := Z.of_nat (length grid) in
  match getRow grid 0 with
  | None => None
  | Some row0 =>
      let width := len row0 in
      let len := Z.of_nat (length word) in
      match direction with
      | across =>
          rejectIf (Some (col + len >? width))
            (rejectIf (occupiedIf (col >? 0) grid row (col - 1))
               (rejectIf (occupiedIf (col + len <? width) grid row (col + len))
                  (acrossLoop grid height row col 0 word)))
      | down =>
          rejectIf (Some (row + len >? height))
            (rejectIf (occupiedIf (row >? 0) grid (row - 1) col)
               (rejectIf (occupiedIf (row + len <? height) grid (row + len) col)
                  (downLoop grid width row col 0 word)))
      end
  end.

(** *** placeWord *)

Fixpoint placeLoop (grid : Grid) (row col i : Z) (direction : Direction)
         (chars : list Z) : option Grid :=
  match chars with
  | [] => Some grid
  | char :: chars' =>
      match (match direction with
             | across => setCell grid row (col + i) (letter char)
             | down => setCell grid (row + i) col (letter char)
             end) with
      | None => None
      | Some grid' => placeLoop grid' row col (i + 1) direction chars'
      end
  end.

Definition placeWord (grid : Grid) (word : jsstring) (row col : Z)
           (direction : Direction) : option Grid :=
  placeLoop grid row col 0 direction word.

(** *** generateGridLayout *)

Record WordEntry := { answer : jsstring; clue : jsstring }.

(** [{ ...w, row, col, direction }] *)
Record PlacedWord :=
  { entry : WordEntry; row : Z; col : Z; direction : Direction }.

Definition alen (w : WordEntry) : Z := Z.of_nat (length (answer w)).

(** [[...wordsData].sort((a, b) => b.answer.length - a.answer.length)]:
    [Array.prototype.sort] is stable, so the result is the one of any
    stable sort; we insert each word before the first shorter-or-equal
    word that followed it. *)
Fixpoint insertWord (w : WordEntry) (sorted : list WordEntry) : list WordEntry :=
  match sorted with
  | [] => [w]
  | x :: sorted' =>
      if alen w <? alen x then x :: insertWord w sorted' else w :: sorted
  end.

Definition sortWords (wordsData : list WordEntry) : list WordEntry :=
  fold_right insertWord [] wordsData.

(** The state of the loops: [grid], [placedWords] and the flag [placed]. *)
Definition LoopState : Type := Grid * list PlacedWord * bool.

(** The body of the [if (placedWord.answer[k] === char)]. *)
Definition tryIntersection (size : Z) (wordObj : WordEntry)
           (placedWord : PlacedWord) (j k : Z) (st : LoopState)
  : option LoopState :=
  let '(grid, placedWords, placed) := st in
  match direction placedWord with
  | across =>
      let intersectRow := row placedWord in
      let intersectCol := col placedWord + k in
      let startRow := intersectRow - j in
      let startCol := intersectCol in
      if (startRow >=? 0) && (startRow + alen wordObj <=? size) then
        match canPlaceWord grid (answer wordObj) startRow startCol down with
        | None => None
        | Some false => Some st
        | Some true =>
            match placeWord grid (answer wordObj) startRow startCol down with
            | None => None
            | Some grid' =>
                Some (grid',
                      placedWords ++
                        [{| entry := wordObj; row := startRow; col := startCol;
                            direction := down |}],
                      true)
            end
        end
      else Some st
  | down =>
      let intersectRow := row placedWord + k in
      let intersectCol := col placedWord in
      let startRow := intersectRow in
      let startCol := intersectCol - j in
      if (startCol >=? 0) && (startCol + alen wordObj <=? size) then
        match canPlaceWord grid (answer wordObj) startRow startCol across with
        | None => None
        | Some false => Some st
        | Some true =>
            match placeWord grid (answer wordObj) startRow startCol across with
            | None => None
            | Some grid' =>
                Some (grid',
                      placedWords ++
                        [{| entry := wordObj; row := startRow; col := startCol;
                            direction := across |}],
                      true)
            end
        end
      else Some st
  end.

(** [for (let k = 0; k < placedWord.answer.length; k++)]: the loop has no
    [break]. *)
Fixpoint kLoop (size : Z) (wordObj : WordEntry) (placedWord : PlacedWord)
         (j char k : Z) (pchars : list Z) (st : LoopState) : option LoopState :=
  match pchars with
  | [] => Some st
  | pc :: pchars' =>
      match (if pc =? char
             then tryIntersection size wordObj placedWord j k st
             else Some st) with
      | None => None
      | Some st' => kLoop size wordObj placedWord j char (k + 1) pchars' st'
      end
  end.

(** [for (let j = 0; j < wordObj.answer.length; j++)] *)
Fixpoint jLoop (size : Z) (wordObj : WordEntry) (placedWord : PlacedWord)
         (j : Z) (chars : list Z) (st : LoopState) : option LoopState :=
  match chars with
  | [] => Some st
  | char :: chars' =>
      if snd st then Some st
      else
        match kLoop size wordObj placedWord j char 0
                    (answer (entry placedWord)) st with
        | None => None
        | Some st' => jLoop size wordObj placedWord (j + 1) chars' st'
        end
  end.

(** [for (const placedWord of placedWords)].  The array grows only when
    [placed] becomes true, and the loop then stops at its next test, so it
    visits exactly the elements present when it starts. *)
Fixpoint ofLoop (size : Z) (wordObj : WordEntry) (todo : list PlacedWord)
         (st : LoopState) : option LoopState :=
  match todo with
  | [] => Some st
  | placedWord :: todo' =>
      if snd st then Some st
      else
        match jLoop size wordObj placedWord 0 (answer wordObj) st with
        | None => None
        | Some st' => ofLoop size wordObj todo' st'
        end
  end.

(** The body of [for (let i = 0; i < remaining.length; i++)]. *)
Definition tryWord (size : Z) (st : Grid * list PlacedWord) (wordObj : WordEntry)
  : option (Grid * list PlacedWord) :=
  let (grid, placedWords) := st in
  if existsb (fun w => streq (answer (entry w)) (answer wordObj)) placedWords
  then Some st
  else
    match ofLoop size wordObj placedWords (grid, placedWords, false) with
    | None => None
    | Some (grid', placedWords', _) => Some (grid', placedWords')
    end.

Fixpoint iLoop (size : Z) (remaining : list WordEntry) (st : Grid * list PlacedWord)
  : option (Grid * list PlacedWord) :=
  match remaining with
  | [] => Some st
  | wordObj :: remaining' =>
      match tryWord size st wordObj with
      | None => None
      | Some st' => iLoop size remaining' st'
      end
  end.

(** The grid and the list after the two passes.  [None] stands for an
    exception: the RangeError of [Array(size)] for a negative size, or a
    TypeError. *)
Definition layout (wordsData : list WordEntry) (size : Z)
  : option (Grid * list PlacedWord) :=
  if size <? 0 then None
  else
    let grid := newGrid size in
    match sortWords wordsData with
    | [] => Some (grid, [])
    | first :: remaining =>
        let startRow := size / 2 in
        let startCol := (size - alen first) / 2 in
        match placeWord grid (answer first) startRow startCol across with
        | None => None
        | Some grid =>
            let placedWords :=
              [{| entry := first; row := startRow; col := startCol;
                  direction := across |}] in
            match iLoop size remaining (grid, placedWords) with
            | None => None
            | Some st => iLoop size remaining st
            end
        end
    end.

Definition generateGridLayout (wordsData : list WordEntry) (size : Z)
  : option (list PlacedWord) :=
  option_map snd (layout wordsData size).

(** *** Cells of a placed word *)

(** The cell of the letter number [i]. *)
Definition cellAt (w : PlacedWord) (i : Z) : Z * Z :=
  match direction w with
  | across => (row w, col w + i)
  | down => (row w + i, col w)
  end.

Definition wlen (w : PlacedWord) : Z := alen (entry w).

Definition mkWord (a : string) : WordEntry :=
  {| answer := str a; clue := [] |}.

(** [(r, c)] is one of the cells of [w]. *)
Definition isCellOf (w : PlacedWord) (rc : Z * Z) : bool :=
  let (r, c) := rc in
  match direction w with
  | across => (r =? row w) && (col w <=? c) && (c <? col w + wlen w)
  | down => (c =? col w) && (row w <=? r) && (r <? row w + wlen w)
  end.

Definition sameDirection (w w' : PlacedWord) : bool :=
  match direction w, direction w' with
  | across, across | down, down => true
  | _, _ => false
  end.

(** The cell just before the start of [w], or the cell just after its end,
    is a letter cell of [w'], which runs in the same direction. *)
Definition touchesEnd (w w' : PlacedWord) : bool :=
  sameDirection w w' &&
  (isCellOf w' (cellAt w (-1)) || isCellOf w' (cellAt w (wlen w))).

(** [w] and [w'] give different letters to a common cell. *)
Definition conflicts (w w' : PlacedWord) : bool :=
  existsb (fun i =>
             existsb (fun i' =>
                        let (r, c) := cellAt w (Z.of_nat i) in
                        let (r', c') := cellAt w' (Z.of_nat i') in
                        (r =? r') && (c =? c') &&
                        negb (nth i (answer (entry w)) 0
                              =? nth i' (answer (entry w')) 0))
                     (seq 0 (length (answer (entry w')))))
          (seq 0 (length (answer (entry w)))).

(** The number of entries of [out] whose answer is [a]. *)
Definition occurrences (a : jsstring) (out : list PlacedWord) : nat :=
  length (filter (fun w => streq (answer (entry w)) a) out).

(** The index, along its direction, of the last cell of a word. *)
Definition lastIndex (w : PlacedWord) : Z :=
  match direction w with
  | across => col w + wlen w - 1
  | down => row w + wlen w - 1
  end.

(** A word placed down lies between the first and the last row. *)
Definition rowsInside (size : Z) (w : PlacedWord) : Prop :=
  direction w = down -> 0 <= row w /\ row w + wlen w <= size.

(** A word lies inside the [size] by [size] grid. *)
Definition inGrid (size : Z) (w : PlacedWord) : Prop :=
  0 <= row w /\ 0 <= col w /\
  match direction w with
  | across => col w + wlen w <= size /\ (0 < wlen w -> row w < size)
  | down => row w + wlen w <= size /\ (0 < wlen w -> col w < size)
  end.

Definition InvRows (size : Z) (grid : Grid) (placed : list PlacedWord) : Prop :=
  Z.of_nat (length grid) = size /\ Forall (rowsInside size) placed.

Definition InvInside (size : Z) (grid : Grid) (placed : list PlacedWord) : Prop :=
  Z.of_nat (length grid) = size /\ Forall (inGrid size) placed.

(** The cell of the letter number [i] of a word that starts at
    [(row, col)]. *)
Definition cellOf (d : Direction) (row col i : Z) : Z * Z :=
  match d with
  | across => (row, col + i)
  | down => (row + i, col)
  end.

(** The grid holds the letters of every placed word. *)
Definition holdsLetters (grid : Grid) (placed : list PlacedWord) : Prop :=
  forall w, In w placed ->
  forall m, 0 <= m < wlen w ->
    getCell grid (fst (cellAt w m)) (snd (cellAt w m))
    = Some (letter (nth (Z.to_nat m) (answer (entry w)) 0)).

Definition InvLetters (size : Z) (grid : Grid) (placed : list PlacedWord) : Prop :=
  Z.of_nat (length grid) = size /\
  Forall (rowsInside size) placed /\
  holdsLetters grid placed.

(** [w'] has no cell in [w]. *)
Definition disjointFrom (w w' : PlacedWord) : Prop :=
  forall m, 0 <= m < wlen w' -> isCellOf w (cellAt w' m) = false.

(** The cell before the start of [w'] and the cell after its end are not
    cells of [w]. *)
Definition endsClear (w w' : PlacedWord) : Prop :=
  isCellOf w (cellAt w' (-1)) = false /\
  isCellOf w (cellAt w' (wlen w')) = false.

(** Each word had clear ends, when it was placed, with respect to the words
    of its direction placed before it that it does not meet. *)
Definition laterClear (placed : list PlacedWord) : Prop :=
  forall i j w w',
    (i < j)%nat -> nth_error placed i = Some w -> nth_error placed j = Some w' ->
    sameDirection w w' = true -> disjointFrom w w' -> endsClear w w'.

(** A word placed across lies between the first and the last column, or it
    is a first word longer than the grid. *)
Definition colsInside (size : Z) (w : PlacedWord) : Prop :=
  direction w = across ->
  (0 <= col w /\ col w + wlen w <= size) \/
  (size < wlen w /\ col w = (size - wlen w) / 2).

(** Row 0 is at least [size] long. *)
Definition wideEnough (size : Z) (grid : Grid) : Prop :=
  0 < size -> exists row0, getRow grid 0 = Some row0 /\ size <= len row0.

Definition InvClear (size : Z) (grid : Grid) (placed : list PlacedWord) : Prop :=
  InvLetters size grid placed /\
  Forall (colsInside size) placed /\
  wideEnough size grid /\
  laterClear placed.

(** Outside the columns of the grid no cell is [null], and a letter is on
    the row of the first word. *)
Definition marginsKept (size : Z) (grid : Grid) : Prop :=
  forall r c, c < 0 \/ size <= c ->
    match getCell grid r c with
    | Some null => False
    | Some (letter _) => r = size / 2
    | _ => True
    end.

Definition InvLater (size : Z) (grid : Grid) (placed : list PlacedWord) : Prop :=
  Z.of_nat (length grid) = size /\
  Forall (rowsInside size) placed /\
  marginsKept size grid /\
  Forall (inGrid size) (tl placed).

(** [w] crosses [P]: the two run in different directions and share a cell,
    where they have the same letter. *)
Definition crosses (w P : PlacedWord) : Prop :=
  direction P <> direction w /\
  exists j k,
    0 <= j < wlen w /\ 0 <= k < wlen P /\
    cellAt w j = cellAt P k /\
    nth_error (answer (entry w)) (Z.to_nat j)
    = nth_error (answer (entry P)) (Z.to_nat k).

(** Every word but the first crosses a word placed before it. *)
Definition connected (placed : list PlacedWord) : Prop :=
  forall n w, nth_error placed (S n) = Some w ->
    exists m P, (m <= n)%nat /\ nth_error placed m = Some P /\ crosses w P.

Definition InvConnected (size : Z) (grid : Grid) (placed : list PlacedWord) : Prop :=
  InvRows size grid placed /\ connected placed.

(** Two letters side by side are cells of one word across, and two letters
    one above the other are cells of one word down. *)
Definition runsCovered (grid : Grid) (placed : list PlacedWord) : Prop :=
  (forall r c x y,
      getCell grid r c = Some (letter x) ->
      getCell grid r (c + 1) = Some (letter y) ->
      exists w, In w placed /\ direction w = across /\
                isCellOf w (r, c) = true /\ isCellOf w (r, c + 1) = true) /\
  (forall r c x y,
      getCell grid r c = Some (letter x) ->
      getCell grid (r + 1) c = Some (letter y) ->
      exists w, In w placed /\ direction w = down /\
                isCellOf w (r, c) = true /\ isCellOf w (r + 1, c) = true).

(** The letters outside the columns of the grid are those of the first
    word. *)
Definition outsideFirst (size : Z) (grid : Grid) (placed : list PlacedWord) : Prop :=
  exists first rest,
    placed = {| entry := first; row := size / 2; col := (size - alen first) / 2;
                direction := across |} :: rest /\
    forall r c x,
      c < 0 \/ size <= c ->
      getCell grid r c = Some (letter x) ->
      isCellOf {| entry := first; row := size / 2; col := (size - alen first) / 2;
                  direction := across |} (r, c) = true.

Definition InvRuns (size : Z) (grid : Grid) (placed : list PlacedWord) : Prop :=
  InvClear size grid placed /\
  InvLater size grid placed /\
  outsideFirst size grid placed /\
  runsCovered grid placed.

(** The outcome of a loop started with the list [placed]: no exception, a
    list that extends [placed], and a state that satisfies [Inv]. *)
Definition Extends (Inv : Grid -> list PlacedWord -> Prop)
           (placed : list PlacedWord) (r : option LoopState) : Prop :=
  exists grid' extra flag,
    r = Some (grid', placed ++ extra, flag) /\ Inv grid' (placed ++ extra).

(** The same for the loops over the words, whose state has no flag. *)
Definition Extends2 (Inv : Grid -> list PlacedWord -> Prop)
           (placed : list PlacedWord) (r : option (Grid * list PlacedWord)) : Prop :=
  exists grid' extra, r = Some (grid', placed ++ extra) /\ Inv grid' (placed ++ extra).

(** The first word, as [generateGridLayout] places it. *)
Definition firstPlaced (size : Z) (first : WordEntry) : PlacedWord :=
  {| entry := first; row := size / 2; col := (size - alen first) / 2;
     direction := across |}.

End Crossword.

(** ** The Sudoku game

    The handlers of the Sudoku component (lines 144-185) as functions on
    the state they read and write. *)

Module SudokuGame.
Import JS Sudoku.

(** [(number | null)[][]] *)
Definition Cells := list (list (option Z)).

Record State :=
  { board : Cells;
    solution : Grid;
    errors : list (list bool);
    selectedCell : option (nat * nat) }.

(** [copy[r][c] = x] on a copy of the rows.  [None] stands for the
    TypeError raised when [copy[r]] is [undefined]; it also stands for a
    column beyond the row, where JavaScript would grow the row: the
    handlers get [r] and [c] from a click on a cell of the board. *)
Definition assign {A} (grid : list (list A)) (r c : nat) (x : A)
  : option (list (list A)) :=
  match nth_error grid r with
  | Some cells =>
      if (c <? length cells)%nat then Some (set r (set c x cells) grid) else None
  | None => None
  end.

(** [num !== solution[r][c]] *)
Definition isErrorAt (solution : Grid) (r c : nat) (num : Z) : option bool :=
  match nth_error solution r with
  | Some cells =>
      Some (match nth_error cells c with
            | Some s => negb (num =? s)
            | None => true
            end)
  | None => None
  end.

(** [row.every((val, ci) => val === cells[ci])], from column [ci] on *)
Fixpoint everyCell (row : list (option Z)) (cells : list Z) (ci : nat) : bool :=
  match row with
  | [] => true
  | val :: row' =>
      match val, nth_error cells ci with
      | Some v, Some s => if v =? s then everyCell row' cells (S ci) else false
      | _, _ => false
      end
  end.

(** [newBoard.every((row, ri) => row.every((val, ci) => val === solution[ri][ci]))],
    from row [ri] on.  [solution[ri]] is read when the row has a cell. *)
Fixpoint everyRow (rows : Cells) (solution : Grid) (ri : nat) : option bool :=
  match rows with
  | [] => Some true
  | [] :: rows' => everyRow rows' solution (S ri)
  | row :: rows' =>
      match nth_error solution ri with
      | None => None
      | Some cells =>
          if everyCell row cells 0 then everyRow rows' solution (S ri) else Some false
      end
  end.

(** [handleCellClick] *)
Definition handleCellClick (r c : nat) (st : State) : State :=
  {| board := board st; solution := solution st; errors := errors st;
     selectedCell := Some (r, c) |}.

(** What a call of [handleNumberInput] leaves: the new state, the cell for
    which it has set the two-second timer, and whether it has called
    [onComplete]. *)
Record Outcome :=
  { next : State; timer : option (nat * nat); completed : bool }.

Definition handleNumberInput (num : Z) (st : State) : option Outcome :=
  match selectedCell st with
  | None => Some {| next := st; timer := None; completed := false |}
  | Some (r, c) =>
      match isErrorAt (solution st) r c num with
      | None => None
      | Some isError =>
          match assign (board st) r c (Some num),
                assign (errors st) r c isError with
          | Some newBoard, Some newErrors =>
              match everyRow newBoard (solution st) 0 with
              | None => None
              | Some done =>
                  Some {| next := {| board := newBoard;
                                     solution := solution st;
                                     errors := newErrors;
                                     selectedCell := selectedCell st |};
                          timer := if isError then Some (r, c) else None;
                          completed := done |}
              end
          | _, _ => None
          end
      end
  end.

(** The callback of the timer set for the cell [(r, c)]. *)
Definition onTimeout (rc : nat * nat) (st : State) : option State :=
  let (r, c) := rc in
  match assign (errors st) r c false, assign (board st) r c None with
  | Some updatedErrors, Some updatedBoard =>
      Some {| board := updatedBoard; solution := solution st;
              errors := updatedErrors; selectedCell := selectedCell st |}
  | _, _ => None
  end.

(** The state that [generateBoard] sets, in a component that has no cell
    selected. *)
Definition started (seed difficulty : jsstring) : State :=
  {| board := puzzle (generateBoard seed difficulty);
     solution := Sudoku.solution (generateBoard seed difficulty);
     errors := repeat (repeat false 9) 9;
     selectedCell := None |}.

(** A player who clicks a cell and presses a digit, move after move: the
    final state and what each [handleNumberInput] did. *)
Fixpoint play (moves : list (nat * nat * Z)) (st : State)
  : option (State * list (option (nat * nat) * bool)) :=
  match moves with
  | [] => Some (st, [])
  | (r, c, num) :: moves' =>
      match handleNumberInput num (handleCellClick r c st) with
      | None => None
      | Some o =>
          match play moves' (next o) with
          | None => None
          | Some (st', log) => Some (st', (timer o, completed o) :: log)
          end
      end
  end.

(** *** Notions used to state what the game does *)

(** The cell [(r, c)] of a grid. *)
Definition at_ {A} (grid : list (list A)) (rc : nat * nat) : option A :=
  match nth_error grid (fst rc) with
  | Some cells => nth_error cells (snd rc)
  | None => None
  end.

(** The empty cells of a board. *)
Definition isHidden (b : Cells) (rc : nat * nat) : Prop := at_ b rc = Some None.

(** The digit of the solution at a cell (0 outside). *)
Definition digit (solution : Grid) (rc : nat * nat) : Z :=
  match at_ solution rc with Some s => s | None => 0 end.

(** A board of the shape of the solution, each cell empty or equal to the
    cell of the solution. *)
Definition Fits (b : Cells) (solution : Grid) : Prop :=
  Forall2 (Forall2 (fun val s => val = None \/ val = Some s)) b solution.

(** No cell of the board is empty. *)
Definition full (b : Cells) : bool := forallb (forallb isRevealed) b.

(** The empty cells of a board, row by row and left to right. *)
Fixpoint hiddenInRow (row : list (option Z)) (r c : nat) : list (nat * nat) :=
  match row with
  | [] => []
  | val :: row' =>
      (if isRevealed val then [] else [(r, c)]) ++ hiddenInRow row' r (S c)
  end.

Fixpoint hiddenFrom (b : Cells) (r : nat) : list (nat * nat) :=
  match b with
  | [] => []
  | row :: b' => hiddenInRow row r 0 ++ hiddenFrom b' (S r)
  end.

Definition hiddenCells (b : Cells) : list (nat * nat) := hiddenFrom b 0.

(** The moves that put the digit of the solution in each cell of [order]. *)
Definition moves (solution : Grid) (order : list (nat * nat)) : list (nat * nat * Z) :=
  map (fun rc => (fst rc, snd rc, digit solution rc)) order.

(** What [n] calls of [handleNumberInput] did when none has set a timer and
    the last one alone has called [onComplete]. *)
Definition lastOnly (n : nat) : list (option (nat * nat) * bool) :=
  map (fun i => (None, (S i =? n)%nat)) (seq 0 n).

(** [rc] is the cell [(r, c)]. *)
Definition isCell (r c : nat) (rc : nat * nat) : bool :=
  ((fst rc =? r) && (snd rc =? c))%nat.

End SudokuGame.

(** ** Numbering the clues

    The part of [generateCrosswordPuzzle] (src/services/geminiService.ts,
    lines 425-473) that follows the parsing of the model's answer: the
    layout of the words on a grid of 12 by 12 cells and the numbering of the
    clues. *)

Module Puzzle.
Import JS Crossword.

Definition gridSize : Z := 12.

(** [`${n}`] for an integer [n]: its decimal digits, after a minus sign
    when it is negative. *)
Definition toString (n : Z) : string := NilEmpty.string_of_int (Z.to_int n).

(** [`${row}-${col}`] *)
Definition key (row col : Z) : string :=
  (toString row ++ "-" ++ toString col)%string.

(** The values of the map [startsAt]: [{ across?, down? }]. *)
Record Starts := { atAcross : option PlacedWord; atDown : option PlacedWord }.

(** A [Map] with string keys, in insertion order. *)
Definition StartsMap := list (string * Starts).

Fixpoint get (m : StartsMap) (k : string) : option Starts :=
  match m with
  | [] => None
  | (k', v) :: m' => if String.eqb k' k then Some v else get m' k
  end.

Definition has (m : StartsMap) (k : string) : bool :=
  match get m k with Some _ => true | None => false end.

Fixpoint set (m : StartsMap) (k : string) (v : Starts) : StartsMap :=
  match m with
  | [] => [(k, v)]
  | (k', v') :: m' =>
      if String.eqb k' k then (k, v) :: m' else (k', v') :: set m' k v
  end.

(** The body of [validWords.forEach]: the object stored under the key is
    updated where it stands. *)
Definition mark (startsAt : StartsMap) (w : PlacedWord) : StartsMap :=
  let key := key (row w) (col w) in
  let startsAt :=
    if has startsAt key then startsAt
    else set startsAt key {| atAcross := None; atDown := None |} in
  match get startsAt key with
  | Some cell =>
      set startsAt key
        (match direction w with
         | across => {| atAcross := Some w; atDown := atDown cell |}
         | down => {| atAcross := atAcross cell; atDown := Some w |}
         end)
  | None => startsAt
  end.

Definition startsAt (validWords : list PlacedWord) : StartsMap :=
  fold_left mark validWords [].

(** A clue object [{ ...w, answer, number, text, direction }]: [word] holds
    the fields of the spread word [w], of which [answer] and [direction] are
    given anew. *)
Record Clue :=
  { word : PlacedWord;
    upperAnswer : jsstring;
    number : Z;
    text : jsstring;
    clueDirection : Direction }.

(** [0, 1, ..., n - 1] *)
Definition range (n : Z) : list Z := map Z.of_nat (seq 0 (Z.to_nat n)).

(** The cells in the order of the two nested loops. *)
Definition cells : list (Z * Z) :=
  flat_map (fun r => map (fun c => (r, c)) (range gridSize)) (range gridSize).

Section Numbering.

(** [String.prototype.toUpperCase], which the numbering applies to the
    answers and which nothing else here depends on. *)
Variable toUpperCase : jsstring -> jsstring.

Definition clueOf (w : PlacedWord) (num : Z) (d : Direction) : Clue :=
  {| word := w;
     upperAnswer := toUpperCase (answer (entry w));
     number := num;
     text := clue (entry w);
     clueDirection := d |}.

(** The two [push]es for a start cell. *)
Definition cluesAt (cell : Starts) (num : Z) : list Clue :=
  (match atAcross cell with Some w => [clueOf w num across] | None => [] end) ++
  (match atDown cell with Some w => [clueOf w num down] | None => [] end).

(** The body of the inner loop, on [currentNumber] and [finalClues]. *)
Definition visit (startsAt : StartsMap) (st : Z * list Clue) (rc : Z * Z)
  : Z * list Clue :=
  let (currentNumber, finalClues) := st in
  let key := key (fst rc) (snd rc) in
  if has startsAt key then
    match get startsAt key with
    | Some cell => (currentNumber + 1, finalClues ++ cluesAt cell currentNumber)
    | None => st
    end
  else st.

Definition assignNumbers (validWords : list PlacedWord) : list Clue :=
  snd (fold_left (visit (startsAt validWords)) cells (1, [])).

(** [generateCrosswordPuzzle], from the parsed list [words] on; [None] is
    the [null] returned by the [catch]. *)
Definition generateCrosswordPuzzle (words : list WordEntry) : option (list Clue) :=
  option_map assignNumbers (generateGridLayout words gridSize).

End Numbering.

(** *** Notions used to state what the numbering does *)

(** [w] starts at the cell [rc]. *)
Definition startsHere (rc : Z * Z) (w : PlacedWord) : bool :=
  (row w =? fst rc) && (col w =? snd rc).

(** Some word of the list starts at [rc]. *)
Definition isStart (validWords : list PlacedWord) (rc : Z * Z) : bool :=
  existsb (startsHere rc) validWords.

(** The start cells inside the grid, in the order of the scan. *)
Definition startCells (validWords : list PlacedWord) : list (Z * Z) :=
  filter (isStart validWords) cells.

Definition sameKind (w w' : PlacedWord) : bool :=
  startsHere (row w, col w) w' && sameDirection w w'.

(** [w] is in the list, and no word after it starts at its cell in its
    direction. *)
Definition lastOfKind (validWords : list PlacedWord) (w : PlacedWord) : Prop :=
  exists pre post,
    validWords = pre ++ w :: post /\ forallb (fun w' => negb (sameKind w w')) post = true.

Definition dirb (d d' : Direction) : bool :=
  match d, d' with across, across | down, down => true | _, _ => false end.

(** The last word of the list that starts at [rc] in direction [d]. *)
Definition lastAt (d : Direction) (ws : list PlacedWord) (rc : Z * Z)
  : option PlacedWord :=
  find (fun w => startsHere rc w && dirb (direction w) d) (rev ws).

(** What the map holds for the cell [rc] after the words [ws] (lemma
    [get_startsAt]). *)
Definition entryFor (ws : list PlacedWord) (rc : Z * Z) : option Starts :=
  if isStart ws rc
  then Some {| atAcross := lastAt across ws rc; atDown := lastAt down ws rc |}
  else None.

(** The clues pushed for the cells [cs] when [currentNumber] is [n] (lemma
    [visit_fold]). *)
Fixpoint cluesFrom (toUpperCase : jsstring -> jsstring) (ws : list PlacedWord)
         (cs : list (Z * Z)) (n : Z) : list Clue :=
  match cs with
  | [] => []
  | rc :: cs' =>
      match entryFor ws rc with
      | Some cell => cluesAt toUpperCase cell n ++ cluesFrom toUpperCase ws cs' (n + 1)
      | None => cluesFrom toUpperCase ws cs' n
      end
  end.

(** [toUpperCase] on a string of ASCII code units. *)
Definition upperASCII (s : jsstring) : jsstring :=
  map (fun c => if (97 <=? c) && (c <=? 122) then c - 32 else c) s.

End Puzzle.

(** ** The crossword game

    The handlers of the component [CrosswordGame]
    (src/components/CrosswordGame.tsx): [initGame] from the clues on,
    [moveCursor], [handleCellClick], the click on a clue of the two lists,
    [handleKeyDown] and [checkWin]. *)

Module CrosswordGame.
Import JS Crossword.

Definition GRID_SIZE : Z := 12.

(** *** The two grids

    [grid] and [userGrid] are arrays of rows of strings.  A row is a
    JavaScript array: its [length] and its properties, [None] where a read
    gives [undefined]. *)
Record Line := { count : Z; item : Z -> option jsstring }.

Definition Board := list Line.

(** [Array(GRID_SIZE).fill(v)] *)
Definition filled (v : jsstring) : Line :=
  {| count := GRID_SIZE;
     item := fun c => if (0 <=? c) && (c <? GRID_SIZE) then Some v else None |}.

(** [Array(GRID_SIZE).fill(null).map(() => Array(GRID_SIZE).fill(v))] *)
Definition newBoard (v : jsstring) : Board :=
  repeat (filled v) (Z.to_nat GRID_SIZE).

(** [b[r]] *)
Definition line (b : Board) (r : Z) : option Line :=
  if r <? 0 then None else nth_error b (Z.to_nat r).

(** [b[r][c]]; the outer [None] is the TypeError raised when [b[r]] is
    [undefined]. *)
Definition read (b : Board) (r c : Z) : option (option jsstring) :=
  match line b r with
  | Some l => Some (item l c)
  | None => None
  end.

Definition store (l : Line) (c : Z) (v : jsstring) : Line :=
  {| count := if (0 <=? c) && (count l <=? c) then c + 1 else count l;
     item := fun c' => if c' =? c then Some v else item l c' |}.

(** [b[r][c] = v] *)
Definition write (b : Board) (r c : Z) (v : jsstring) : option Board :=
  match line b r with
  | Some l => Some (set (Z.to_nat r) (store l c v) b)
  | None => None
  end.

(** [[...row]]: the elements of the row and nothing else. *)
Definition copyLine (l : Line) : Line :=
  {| count := count l;
     item := fun c => if (0 <=? c) && (c <? count l) then item l c else None |}.

(** [[...b.map(row => [...row])]] *)
Definition copy (b : Board) : Board := map copyLine b.

(** [v === s] and [v !== s] for an element [v] and a string [s] *)
Definition holds (v : option jsstring) (s : jsstring) : bool :=
  match v with Some x => streq x s | None => false end.

Definition black : jsstring := str "#".

(** *** The state of the component *)

Record State :=
  { grid : Board;
    userGrid : Board;
    selectedCell : option (Z * Z);
    direction : Direction;
    clues : list Puzzle.Clue }.

Definition withCell (st : State) (rc : Z * Z) : State :=
  {| grid := grid st; userGrid := userGrid st; selectedCell := Some rc;
     direction := direction st; clues := clues st |}.

Definition withDirection (st : State) (d : Direction) : State :=
  {| grid := grid st; userGrid := userGrid st; selectedCell := selectedCell st;
     direction := d; clues := clues st |}.

Definition withUserGrid (st : State) (b : Board) : State :=
  {| grid := grid st; userGrid := b; selectedCell := selectedCell st;
     direction := direction st; clues := clues st |}.

(** [prev === 'across' ? 'down' : 'across'] *)
Definition other (d : Direction) : Direction :=
  match d with across => down | down => across end.

(** *** The clue objects

    The game reads [row] and [col], which the clue has from the placed word,
    and the [answer] and the [direction] that [generateCrosswordPuzzle] has
    given it. *)

(** The cell of the letter [i]: [r] and [c] in [initGame] and in
    [checkWin]. *)
Definition cellOfClue (cl : Puzzle.Clue) (i : Z) : Z * Z :=
  match Puzzle.clueDirection cl with
  | across => (row (Puzzle.word cl), col (Puzzle.word cl) + i)
  | down => (row (Puzzle.word cl) + i, col (Puzzle.word cl))
  end.

(** [clue.answer.length] *)
Definition answerLength (cl : Puzzle.Clue) : Z :=
  Z.of_nat (length (Puzzle.upperAnswer cl)).

(** *** initGame *)

(** [if (r < GRID_SIZE && c < GRID_SIZE) newGrid[r][c] = ''] *)
Definition openCell (newGrid : Board) (rc : Z * Z) : option Board :=
  let (r, c) := rc in
  if (r <? GRID_SIZE) && (c <? GRID_SIZE) then write newGrid r c [] else Some newGrid.

(** The loop over the letters of a clue, [n] letters from [i] on. *)
Fixpoint openLetters (cl : Puzzle.Clue) (n : nat) (i : Z) (newGrid : Board)
  : option Board :=
  match n with
  | O => Some newGrid
  | S n' =>
      match openCell newGrid (cellOfClue cl i) with
      | Some g => openLetters cl n' (i + 1) g
      | None => None
      end
  end.

(** The body of [newClues.forEach]. *)
Definition openClue (newGrid : option Board) (cl : Puzzle.Clue) : option Board :=
  match newGrid with
  | Some g => openLetters cl (length (Puzzle.upperAnswer cl)) 0 g
  | None => None
  end.

(** [initGame] once [generateCrosswordPuzzle] has given [newClues]: the
    grids and the clues are replaced, the selected cell and the direction
    are kept.  [None] when a TypeError is raised. *)
Definition initGame (newClues : list Puzzle.Clue) (st : State) : option State :=
  match fold_left openClue newClues (Some (newBoard black)) with
  | Some newGrid =>
      Some {| grid := newGrid; userGrid := newBoard [];
              selectedCell := selectedCell st; direction := direction st;
              clues := newClues |}
  | None => None
  end.

(** The component before a cell is selected. *)
Definition mounted : State :=
  {| grid := newBoard black; userGrid := newBoard [];
     selectedCell := None; direction := across; clues := [] |}.

(** *** getActiveClue *)

(** The test of [clues.find] for the cell [(r, c)] and the direction [d]. *)
Definition covers (d : Direction) (r c : Z) (cl : Puzzle.Clue) : bool :=
  match Puzzle.clueDirection cl, d with
  | across, across =>
      (r =? row (Puzzle.word cl)) && (col (Puzzle.word cl) <=? c)
      && (c <? col (Puzzle.word cl) + answerLength cl)
  | down, down =>
      (c =? col (Puzzle.word cl)) && (row (Puzzle.word cl) <=? r)
      && (r <? row (Puzzle.word cl) + answerLength cl)
  | _, _ => false
  end.

Definition getActiveClue (st : State) : option Puzzle.Clue :=
  match selectedCell st with
  | None => None
  | Some (r, c) => find (covers (direction st) r c) (clues st)
  end.

(** *** moveCursor *)

(** The [while] loop with [iterations] turns left: the cell it selects, if
    any. *)
Fixpoint seek (grid : Board) (d : Direction) (step : Z) (iterations : nat)
         (nextR nextC : Z) : option (option (Z * Z)) :=
  match iterations with
  | O => Some None
  | S n =>
      let nextR := match d with across => nextR | down => nextR + step end in
      let nextC := match d with across => nextC + step | down => nextC end in
      if (nextR <? 0) || (nextR >=? GRID_SIZE) || (nextC <? 0) || (nextC >=? GRID_SIZE)
      then Some None
      else
        match read grid nextR nextC with
        | None => None
        | Some v =>
            if holds v black then seek grid d step n nextR nextC
            else Some (Some (nextR, nextC))
        end
  end.

Definition moveCursor (step : Z) (st : State) : option State :=
  match selectedCell st with
  | None => Some st
  | Some (r, c) =>
      match seek (grid st) (direction st) step
                 (Z.to_nat (GRID_SIZE * GRID_SIZE)) r c with
      | None => None
      | Some None => Some st
      | Some (Some rc) => Some (withCell st rc)
      end
  end.

(** *** Clicks *)

Definition sameCell (a b : Z * Z) : bool :=
  (fst a =? fst b) && (snd a =? snd b).

Definition handleCellClick (r c : Z) (st : State) : option State :=
  match read (grid st) r c with
  | None => None
  | Some v =>
      if holds v black then Some st
      else
        match selectedCell st with
        | Some rc =>
            if sameCell rc (r, c) then Some (withDirection st (other (direction st)))
            else Some (withCell st (r, c))
        | None => Some (withCell st (r, c))
        end
  end.

(** The [onClick] of a clue in the list of its direction. *)
Definition handleClueClick (cl : Puzzle.Clue) (st : State) : State :=
  withDirection (withCell st (row (Puzzle.word cl), col (Puzzle.word cl)))
                (Puzzle.clueDirection cl).

(** *** checkWin *)

(** The [for] loop of a clue, [n] letters from [i] on: [Some false] at the
    first cell that differs. *)
Fixpoint lettersMatch (currentGrid : Board) (cl : Puzzle.Clue) (n : nat) (i : Z)
  : option bool :=
  match n with
  | O => Some true
  | S n' =>
      let (r, c) := cellOfClue cl i in
      match read currentGrid r c with
      | None => None
      | Some v =>
          if holds v [nth (Z.to_nat i) (Puzzle.upperAnswer cl) 0]
          then lettersMatch currentGrid cl n' (i + 1)
          else Some false
      end
  end.

(** [clues.every(...)] *)
Fixpoint isWin (currentGrid : Board) (clues : list Puzzle.Clue) : option bool :=
  match clues with
  | [] => Some true
  | cl :: clues' =>
      match lettersMatch currentGrid cl (length (Puzzle.upperAnswer cl)) 0 with
      | None => None
      | Some true => isWin currentGrid clues'
      | Some false => Some false
      end
  end.

(** [checkWin]: whether it calls [onComplete]. *)
Definition checkWin (currentGrid : Board) (st : State) : option bool :=
  isWin currentGrid (clues st).

(** *** handleKeyDown *)

(** [e.key.length === 1 && e.key.match(/[a-z]/i)]: without the flag [u] the
    class matches the letters of ASCII and no other code unit. *)
Definition isLetterKey (key : jsstring) : bool :=
  match key with
  | [c] => ((65 <=? c) && (c <=? 90)) || ((97 <=? c) && (c <=? 122))
  | _ => false
  end.

(** [setDirection(d); moveCursor(step)]: [moveCursor] reads the direction
    of the render in which the handler was created. *)
Definition arrow (d : Direction) (step : Z) (st : State) : option State :=
  match moveCursor step st with
  | Some st' => Some (withDirection st' d)
  | None => None
  end.

(** [handleKeyDown]: the next state and whether [onComplete] was called;
    [None] when a TypeError is raised. *)
Definition handleKeyDown (key : jsstring) (st : State) : option (State * bool) :=
  match selectedCell st with
  | None => Some (st, false)
  | Some (r, c) =>
      if streq key (str "Backspace") then
        let newUserGrid := copy (userGrid st) in
        match read newUserGrid r c with
        | None => None
        | Some v =>
            let wasEmpty := holds v [] in
            match write newUserGrid r c [] with
            | None => None
            | Some newUserGrid =>
                if wasEmpty then
                  option_map (fun st' => (st', false))
                             (moveCursor (-1) (withUserGrid st newUserGrid))
                else Some (withUserGrid st newUserGrid, false)
            end
        end
      else if streq key (str "ArrowRight") then
        option_map (fun st' => (st', false)) (arrow across 1 st)
      else if streq key (str "ArrowLeft") then
        option_map (fun st' => (st', false)) (arrow across (-1) st)
      else if streq key (str "ArrowDown") then
        option_map (fun st' => (st', false)) (arrow down 1 st)
      else if streq key (str "ArrowUp") then
        option_map (fun st' => (st', false)) (arrow down (-1) st)
      else if streq key (str "Tab") then
        Some (withDirection st (other (direction st)), false)
      else if isLetterKey key then
        let char := Puzzle.upperASCII key in
        match write (copy (userGrid st)) r c char with
        | None => None
        | Some newUserGrid =>
            match moveCursor 1 (withUserGrid st newUserGrid) with
            | None => None
            | Some st' =>
                match checkWin newUserGrid st with
                | None => None
                | Some done => Some (st', done)
                end
            end
        end
      else Some (st, false)
  end.

(** *** A session *)

Inductive Event :=
| CellClick (r c : Z)
| ClueClick (cl : Puzzle.Clue)
| KeyDown (key : jsstring).

Definition handle (e : Event) (st : State) : option (State * bool) :=
  match e with
  | CellClick r c => option_map (fun st' => (st', false)) (handleCellClick r c st)
  | ClueClick cl => Some (handleClueClick cl st, false)
  | KeyDown key => handleKeyDown key st
  end.

(** The events one after the other: the last state and, for each event,
    whether [onComplete] was called. *)
Fixpoint run (events : list Event) (st : State) : option (State * list bool) :=
  match events with
  | [] => Some (st, [])
  | e :: events' =>
      match handle e st with
      | None => None
      | Some (st', done) =>
          match run events' st' with
          | None => None
          | Some (st'', log) => Some (st'', done :: log)
          end
      end
  end.

(** *** Notions used to state what the game does *)

(** A cell of the grid of 12 by 12. *)
Definition inside (rc : Z * Z) : Prop :=
  0 <= fst rc < GRID_SIZE /\ 0 <= snd rc < GRID_SIZE.

(** Every letter of the clue has its cell in the grid. *)
Definition lies (cl : Puzzle.Clue) : Prop :=
  forall i, 0 <= i < answerLength cl -> inside (cellOfClue cl i).

(** The clue has a letter in the cell, by the test of [getActiveClue] for
    the direction of the clue. *)
Definition covering (rc : Z * Z) (cl : Puzzle.Clue) : bool :=
  covers across (fst rc) (snd rc) cl || covers down (fst rc) (snd rc) cl.

Definition isCovered (clues : list Puzzle.Clue) (rc : Z * Z) : bool :=
  existsb (covering rc) clues.

(** The cells of the grid in which a clue has a letter, row by row. *)
Definition openCells (clues : list Puzzle.Clue) : list (Z * Z) :=
  filter (isCovered clues) Puzzle.cells.

(** The index of the letter that the clue has in the cell. *)
Definition indexIn (cl : Puzzle.Clue) (rc : Z * Z) : Z :=
  match Puzzle.clueDirection cl with
  | across => snd rc - col (Puzzle.word cl)
  | down => fst rc - row (Puzzle.word cl)
  end.

(** The letter that the first clue with a letter in the cell has there. *)
Definition solutionAt (clues : list Puzzle.Clue) (rc : Z * Z) : Z :=
  match find (covering rc) clues with
  | Some cl => nth (Z.to_nat (indexIn cl rc)) (Puzzle.upperAnswer cl) 0
  | None => 0
  end.

(** A click on each cell of [order], followed by the key of the letter that
    the clues have there. *)
Definition typing (clues : list Puzzle.Clue) (order : list (Z * Z)) : list Event :=
  flat_map (fun rc => [CellClick (fst rc) (snd rc); KeyDown [solutionAt clues rc]])
           order.

(** A capital letter of ASCII. *)
Definition capital (c : Z) : Prop := 65 <= c <= 90.

(** [onComplete] is called by the last of [n] events and by no other. *)
Definition lastOnly (n : nat) : list bool :=
  map (fun i => (S i =? n)%nat) (seq 0 n).

(** An event that the rendered component can receive: a click on a cell of
    the grid, a click on a listed clue, any key. *)
Definition possible (clues : list Puzzle.Clue) (e : Event) : Prop :=
  match e with
  | CellClick r c => inside (r, c)
  | ClueClick cl => In cl clues
  | KeyDown _ => True
  end.

(** *** Notions used in the proofs *)

(** Every row has the length of the grid. *)
Definition counts (b : Board) : Prop := Forall (fun l => count l = GRID_SIZE) b.

(** The grid is white where [P] holds and black elsewhere. *)
Definition charted (g : Board) (P : Z * Z -> Prop) : Prop :=
  counts g /\ Z.of_nat (length g) = 12 /\
  forall rc, inside rc ->
    (read g (fst rc) (snd rc) = Some (Some []) /\ P rc) \/
    (read g (fst rc) (snd rc) = Some (Some black) /\ ~ P rc).

(** What the handlers keep of a state whose grid is [G] and whose clues are
    [cls]: the selected cell is a white cell of the grid, and the black
    cells are empty in [userGrid]. *)
Record Keeps (G : Board) (cls : list Puzzle.Clue) (st : State) : Prop :=
  { keeps_grid : grid st = G;
    keeps_clues : clues st = cls;
    keeps_cell : forall rc, selectedCell st = Some rc ->
                 inside rc /\ read G (fst rc) (snd rc) = Some (Some []);
    keeps_counts : counts (userGrid st);
    keeps_length : Z.of_nat (length (userGrid st)) = 12;
    keeps_black : forall rc, inside rc ->
                  read G (fst rc) (snd rc) = Some (Some black) ->
                  read (userGrid st) (fst rc) (snd rc) = Some (Some []) }.

(** The cells of [rest] are empty and the other cells of the clues hold
    their letters. *)
Definition Filled (cls : list Puzzle.Clue) (U : Board) (rest : list (Z * Z)) : Prop :=
  forall rc, inside rc -> isCovered cls rc = true ->
    (In rc rest /\ read U (fst rc) (snd rc) = Some (Some [])) \/
    (~ In rc rest /\ read U (fst rc) (snd rc) = Some (Some [solutionAt cls rc])).

(** No cell occurs twice in the list. *)
Fixpoint distinct (l : list (Z * Z)) : bool :=
  match l with
  | [] => true
  | x :: l' => negb (existsb (sameCell x) l') && distinct l'
  end.

End CrosswordGame.

(** ** The sequence game

    [getDailyISO] (src/services/geminiService.ts, lines 6-9) and the
    handlers of the component [SpatialLogic]
    (src/components/SpatialLogic.tsx, lines 99-155): [startNewRound],
    the end of [showSequence] and [handleNodeClick]. *)

Module SpatialLogic.
Import JS RNG Sudoku.

(** [getDailyISO] when the clock gives [getFullYear() = year],
    [getMonth() = month] and [getDate() = date]. *)
Definition getDailyISO (year month date : Z) : jsstring :=
  str (Puzzle.toString year ++ "-" ++ Puzzle.toString (month + 1) ++ "-"
       ++ Puzzle.toString date)%string.

Record State :=
  { sequence : list Z;
    userSequence : list Z;
    isPlaying : bool;
    isShowing : bool }.

(** Where [startNewRound] takes the new number from: the date string of
    the daily mode, or the value of [Math.random()]. *)
Inductive Mode := daily (iso : jsstring) | practice (random : Q).

(** [getDailyISO() + sequence.length] *)
Definition seedFor (iso : jsstring) (len : nat) : jsstring :=
  iso ++ str (Puzzle.toString (Z.of_nat len)).

(** [Math.floor(rng() * 8)] for the generator made from the seed of the
    round that follows a sequence of length [len]. *)
Definition dailyNode (iso : jsstring) (len : nat) : Z :=
  let seed := seedFor iso len in
  let rng := createSeededRNG seed in
  Z.of_nat (pick (fst (RNG.rng rng)) 7).

(** [newNum] *)
Definition newNum (mode : Mode) (sequence : list Z) : Z :=
  match mode with
  | daily iso => dailyNode iso (length sequence)
  | practice random => Z.of_nat (pick random 7)
  end.

(** [startNewRound], up to the first [await] of [showSequence]. *)
Definition startNewRound (mode : Mode) (st : State) : State :=
  let newSeq := sequence st ++ [newNum mode (sequence st)] in
  {| sequence := newSeq; userSequence := []; isPlaying := isPlaying st;
     isShowing := true |}.

(** The two updates at the end of [showSequence]. *)
Definition shown (st : State) : State :=
  {| sequence := sequence st; userSequence := userSequence st;
     isPlaying := true; isShowing := false |}.

(** What a call of [handleNodeClick] did. *)
Inductive Outcome :=
| ignored                        (* the early [return] *)
| accepted                       (* the click matched, the round goes on *)
| mismatch                       (* the sequence was reset *)
| roundDone (completed : bool).  (* [startNewRound] scheduled; [onComplete] called or not *)

Definition handleNodeClick (id : Z) (st : State) : State * Outcome :=
  if negb (isPlaying st) || isShowing st then (st, ignored)
  else
    let newUserSeq := userSequence st ++ [id] in
    let matches :=
      match nth_error (sequence st) (length newUserSeq - 1) with
      | Some x => id =? x
      | None => false
      end in
    if negb matches then
      ({| sequence := []; userSequence := newUserSeq; isPlaying := false;
          isShowing := isShowing st |}, mismatch)
    else if (length newUserSeq =? length (sequence st))%nat then
      ({| sequence := sequence st; userSequence := newUserSeq; isPlaying := false;
          isShowing := isShowing st |},
       roundDone (4 <=? length (sequence st))%nat)
    else
      ({| sequence := sequence st; userSequence := newUserSeq;
          isPlaying := isPlaying st; isShowing := isShowing st |}, accepted).

(** The clicks one after the other. *)
Fixpoint clicks (ids : list Z) (st : State) : State * list Outcome :=
  match ids with
  | [] => (st, [])
  | id :: ids' =>
      let (st1, o) := handleNodeClick id st in
      let (st2, log) := clicks ids' st1 in
      (st2, o :: log)
  end.

(** A round that the player gets right: [startNewRound], the show, and a
    click on each node of the sequence in its order. *)
Definition round (mode : Mode) (st : State) : State * list Outcome :=
  let st1 := shown (startNewRound mode st) in
  clicks (sequence st1) st1.

Definition calledOnComplete (o : Outcome) : bool :=
  match o with roundDone true => true | _ => false end.

(** [k] such rounds in the daily mode: the last state and the number of
    calls of [onComplete]. *)
Fixpoint rounds (iso : jsstring) (k : nat) (st : State) : State * nat :=
  match k with
  | O => (st, O)
  | S k' =>
      let (st1, log) := round (daily iso) st in
      let (st2, n) := rounds iso k' st1 in
      (st2, (length (filter calledOnComplete log) + n)%nat)
  end.

(** The sequence of the daily mode after [k] rounds. *)
Definition dailySequence (iso : jsstring) (k : nat) : list Z :=
  map (dailyNode iso) (seq 0 k).

(** The component when the stored sequence is empty. *)
Definition mounted : State :=
  {| sequence := []; userSequence := []; isPlaying := false; isShowing := false |}.

End SpatialLogic.

(** ** The retry helper

    [callGemini] (src/services/geminiService.ts, lines 79-108).  The
    request is a call of [ai.models.generateContent], which returns a
    response or throws an error; of the error the handler computes the two
    tests [isQuotaError] and [isRetryable]. *)

Module Retry.
Import JS.

(** [s.startsWith(t)] *)
Fixpoint startsWith (s t : jsstring) : bool :=
  match t, s with
  | [], _ => true
  | _ :: _, [] => false
  | y :: t', x :: s' => (x =? y) && startsWith s' t'
  end.

(** [s.includes(t)] *)
Fixpoint includes (s t : jsstring) : bool :=
  startsWith s t ||
  match s with
  | [] => false
  | _ :: s' => includes s' t
  end.

Definition flash : jsstring := str "gemini-3-flash-preview".

(** What a call does, one thing after the other: a request for a model
    ([ai.models.generateContent(config)]) or a wait ([await wait(delay)]). *)
Inductive Step :=
| request (model : jsstring)
| wait (ms : Z).

Section CallGemini.

Variable Response Error : Type.

(** The values of [isQuotaError] and [isRetryable] for an error. *)
Variable isQuotaError isRetryable : Error -> bool.

(** What the request number [n] does when it asks for [model]. *)
Variable generateContent : nat -> jsstring -> Response + Error.

(** What a call of [callGemini] did: the response it returned or the error
    it threw, the models it asked for, one per request, the delays it
    waited, in order, and the requests and the waits in the order in which
    they were made. *)
Record Run :=
  { result : Response + Error;
    models : list jsstring;
    waited : list Z;
    steps : list Step }.

(** The request for [model] and the wait that came before the run [r]. *)
Definition after (model : jsstring) (delay : list Z) (r : Run) : Run :=
  {| result := result r; models := model :: models r; waited := delay ++ waited r;
     steps := request model :: map wait delay ++ steps r |}.

(** [callGemini(config, retries, delay)] for [config.model = model] when
    [n] requests have been made before; [fuel] bounds the depth of the
    recursion, and [None] is returned when it is used up. *)
Fixpoint callGemini (fuel n : nat) (model : jsstring) (retries : nat) (delay : Z)
  : option Run :=
  match fuel with
  | O => None
  | S fuel' =>
      match generateContent n model with
      | inl response =>
          Some {| result := inl response; models := [model]; waited := [];
                  steps := [request model] |}
      | inr error =>
          if (isQuotaError error || (isRetryable error && includes model (str "pro")))
             && negb (streq model flash)
          then option_map (after model [])
                          (callGemini fuel' (S n) flash retries delay)
          else if (0 <? retries)%nat && (isRetryable error || isQuotaError error)
          then option_map (after model [delay])
                          (callGemini fuel' (S n) model (retries - 1) (delay * 2))
          else Some {| result := inr error; models := [model]; waited := [];
                       steps := [request model] |}
      end
  end.

(** The requests of a run, numbered from [n]: each but the last threw a
    quota error or a retryable error, and the last gave the result. *)
Inductive Attempts : nat -> list jsstring -> Response + Error -> Prop :=
| lastAttempt n model :
    Attempts n [model] (generateContent n model)
| failedAttempt n model error rest res :
    generateContent n model = inr error ->
    isQuotaError error || isRetryable error = true ->
    Attempts (S n) rest res ->
    Attempts n (model :: rest) res.

(** The largest number of requests of a call. *)
Definition limit (model : jsstring) (retries : nat) : nat :=
  if streq model flash then S retries else S (S retries).

End CallGemini.

Arguments result {Response Error} r.
Arguments models {Response Error} r.
Arguments waited {Response Error} r.
Arguments steps {Response Error} r.

(** [a + b + ...] *)
Definition total (l : list Z) : Z := fold_right Z.add 0 l.

(** The delays of [k] waits one after the other, the first of [delay]
    milliseconds: each call passes [delay * 2] on. *)
Fixpoint backoff (delay : Z) (k : nat) : list Z :=
  match k with
  | O => []
  | S k' => delay :: backoff (delay * 2) k'
  end.

(** The steps of the retries of [model] that wait [ws]: each waits and then
    asks again. *)
Definition retried (model : jsstring) (ws : list Z) : list Step :=
  flat_map (fun ms => [wait ms; request model]) ws.

End Retry.

(** ** The statistics of the player

    The two updates of [stats] in [handleGameComplete] (src/App.tsx, lines
    83-109) and the reading of the stored statistics (lines 44-58). *)

Module App.
Import JS.

Section Stats.

(** The type of the sculptures; the updates only move them. *)
Variable NeuralSculpture : Type.

Record GameStats :=
  { gamesPlayed : Z;
    streak : Z;
    lastPlayedDate : option jsstring;
    aptitudeScore : Z;
    sculptures : list NeuralSculpture }.

(** [difficulty === 'Hard' ? 20 : difficulty === 'Medium' ? 10 : 5] *)
Definition points (difficulty : jsstring) : Z :=
  if streq difficulty (str "Hard") then 20
  else if streq difficulty (str "Medium") then 10 else 5.

(** [prev.lastPlayedDate === today] *)
Definition playedOn (last : option jsstring) (today : jsstring) : bool :=
  match last with Some d => streq d today | None => false end.

(** The first update, for the value [today] of [new Date().toDateString()]. *)
Definition recordGame (difficulty today : jsstring) (prev : GameStats) : GameStats :=
  {| gamesPlayed := gamesPlayed prev + 1;
     streak := if playedOn (lastPlayedDate prev) today then streak prev
               else streak prev + 1;
     lastPlayedDate := Some today;
     aptitudeScore := aptitudeScore prev + points difficulty;
     sculptures := sculptures prev |}.

(** [l.slice(0, 5)] *)
Definition slice5 {A} (l : list A) : list A := firstn 5 l.

(** The second update, made when a sculpture was generated. *)
Definition addSculpture (newSculpture : NeuralSculpture) (prev : GameStats)
  : GameStats :=
  {| gamesPlayed := gamesPlayed prev;
     streak := streak prev;
     lastPlayedDate := lastPlayedDate prev;
     aptitudeScore := aptitudeScore prev;
     sculptures := slice5 (newSculpture :: sculptures prev) |}.

(** The statistics read from the storage: more than five sculptures are cut
    down to five. *)
Definition loaded (parsed : GameStats) : GameStats :=
  {| gamesPlayed := gamesPlayed parsed;
     streak := streak parsed;
     lastPlayedDate := lastPlayedDate parsed;
     aptitudeScore := aptitudeScore parsed;
     sculptures := if (5 <? length (sculptures parsed))%nat
                   then slice5 (sculptures parsed) else sculptures parsed |}.

(** What happens to the statistics: a game is completed, with the
    difficulty and the date of the moment, or a sculpture arrives. *)
Inductive Update :=
| game (difficulty today : jsstring)
| sculpture (newSculpture : NeuralSculpture).

Definition apply (st : GameStats) (u : Update) : GameStats :=
  match u with
  | game difficulty today => recordGame difficulty today st
  | sculpture s => addSculpture s st
  end.

(** *** Notions used to state what the updates do *)

(** The dates of the games, in order. *)
Fixpoint dates (us : list Update) : list jsstring :=
  match us with
  | [] => []
  | game _ today :: us' => today :: dates us'
  | sculpture _ :: us' => dates us'
  end.

(** The sculptures, the last one first. *)
Fixpoint arrived (us : list Update) : list NeuralSculpture :=
  match us with
  | [] => []
  | game _ _ :: us' => arrived us'
  | sculpture s :: us' => arrived us' ++ [s]
  end.

(** How many times the date changes along the list, starting from [last]. *)
Fixpoint dayChanges (last : option jsstring) (days : list jsstring) : Z :=
  match days with
  | [] => 0
  | d :: days' => (if playedOn last d then 0 else 1) + dayChanges (Some d) days'
  end.

End Stats.

Arguments gamesPlayed {NeuralSculpture} g.
Arguments streak {NeuralSculpture} g.
Arguments lastPlayedDate {NeuralSculpture} g.
Arguments aptitudeScore {NeuralSculpture} g.
Arguments sculptures {NeuralSculpture} g.

End App.

(** ** The pages of the lobby

    The pages of [GamesLobby] (src/services/geminiService.ts, lines
    657-680): [totalPages], [pagedGames] and [paginate], for any list of
    cards in the place of [gameCards]. *)

Module Lobby.
Import JS Sudoku.

Definition GAMES_PER_PAGE : nat := 4.

Section Pages.

Variable Card : Type.
Variable gameCards : list Card.

(** [Math.ceil(gameCards.length / GAMES_PER_PAGE)] *)
Definition totalPages : Z :=
  (Z.of_nat (length gameCards) + Z.of_nat GAMES_PER_PAGE - 1) / Z.of_nat GAMES_PER_PAGE.

(** The loop of [pagedGames] from [i] on, with [fuel] turns left; [None]
    when the turns are used up before the loop ends. *)
Fixpoint pagesFrom (fuel i : nat) (pages : list (list Card))
  : option (list (list Card)) :=
  if (i <? length gameCards)%nat then
    match fuel with
    | O => None
    | S fuel' =>
        pagesFrom fuel' (i + GAMES_PER_PAGE)
                  (pages ++ [slice i (i + GAMES_PER_PAGE) gameCards])
    end
  else Some pages.

(** [pagedGames]; the loop makes no more turns than there are cards. *)
Definition pagedGames : option (list (list Card)) :=
  pagesFrom (length gameCards) 0 [].

(** [paginate]: the next value of [currentPage]. *)
Definition paginate (newDirection currentPage : Z) : Z :=
  let nextPage := currentPage + newDirection in
  if (0 <=? nextPage) && (nextPage <? totalPages) then nextPage else currentPage.

End Pages.

End Lobby.

(** ** The cipher game

    The component [CipherGame] (src/components/CipherGame.tsx): the
    encryption of [initGame] (lines 48-67), [checkWin] (lines 92-103),
    [assignMapping] (lines 105-118) and [clearMapping] (lines 135-139), and
    the effect that calls [checkWin] when [userMapping] changes (lines
    76-86).  A string of one code unit is
    represented by the code unit. *)

Module Cipher.
Import JS.

(** ["ABCDEFGHIJKLMNOPQRSTUVWXYZ".split("")] *)
Definition ALPHABET : list Z := str "ABCDEFGHIJKLMNOPQRSTUVWXYZ".

(** [ALPHABET.includes(c)] *)
Definition isLetter (c : Z) : bool := existsb (Z.eqb c) ALPHABET.

(** A [Record<string, string>] whose keys and values are strings of one
    code unit: its properties, in the order of their creation. *)
Definition Mapping := list (Z * Z).

(** [m[k]] *)
Fixpoint get (m : Mapping) (k : Z) : option Z :=
  match m with
  | [] => None
  | (k', v) :: m' => if k' =? k then Some v else get m' k
  end.

(** [m[k] = v] *)
Fixpoint set (m : Mapping) (k v : Z) : Mapping :=
  match m with
  | [] => [(k, v)]
  | (k', v') :: m' => if k' =? k then (k, v) :: m' else (k', v') :: set m' k v
  end.

(** [delete m[k]] *)
Definition remove (m : Mapping) (k : Z) : Mapping :=
  filter (fun kv => negb (fst kv =? k)) m.

(** [Object.keys(m)] *)
Definition keys (m : Mapping) : list Z := map fst m.

(** The [map] of [initGame]: [ALPHABET.forEach((char, i) => map[char] =
    shuffled[i])], for a [shuffled] that has the length of [ALPHABET], as
    the sorted copy has. *)
Definition cipherMapOf (shuffled : list Z) : Mapping :=
  fold_left (fun map ci => set map (fst ci) (snd ci)) (combine ALPHABET shuffled) [].

(** [text.split("").map(f).join("")] when [f] gives a string of one code
    unit or [undefined], which [join] writes as the empty string. *)
Definition mapChars (f : Z -> option Z) (text : jsstring) : jsstring :=
  flat_map (fun c => match f c with Some x => [x] | None => [] end) text.

(** [enc], for the upper-cased message. *)
Definition encrypt (map : Mapping) (upper : jsstring) : jsstring :=
  mapChars (fun c => if isLetter c then get map c else Some c) upper.

Record State :=
  { originalMessage : jsstring;
    encryptedMessage : jsstring;
    cipherMap : Mapping;
    userMapping : Mapping;
    selectedChar : option Z }.

(** The state that [initGame] sets for the upper-cased message [upper] and
    the sorted copy [shuffled] of the alphabet; the selected character is
    the one of the component before, [null] when it is mounted. *)
Definition initGame (upper : jsstring) (shuffled : list Z) : State :=
  {| originalMessage := upper;
     encryptedMessage := encrypt (cipherMapOf shuffled) upper;
     cipherMap := cipherMapOf shuffled;
     userMapping := [];
     selectedChar := None |}.

(** [currentDecoded] *)
Definition currentDecoded (st : State) : jsstring :=
  mapChars (fun c => if negb (isLetter c) then Some c
                     else match get (userMapping st) c with
                          | Some v => Some v
                          | None => Some 95   (* "_" *)
                          end)
           (encryptedMessage st).

(** [checkWin]: whether it calls [onComplete]. *)
Definition checkWin (st : State) : bool :=
  streq (currentDecoded st) (originalMessage st).

(** The effect on [userMapping]: [checkWin] is called when
    [originalMessage] is not empty. *)
Definition effect (st : State) : bool :=
  match originalMessage st with
  | [] => false
  | _ => checkWin st
  end.

(** The click on a character of the encrypted message. *)
Definition select (char : Z) (st : State) : State :=
  if isLetter char then
    {| originalMessage := originalMessage st;
       encryptedMessage := encryptedMessage st;
       cipherMap := cipherMap st;
       userMapping := userMapping st;
       selectedChar := Some char |}
  else st.

(** The loop of [assignMapping] over [Object.keys(newUserMapping)]. *)
Definition unassign (decryptedChar : Z) (newUserMapping : Mapping) : Mapping :=
  fold_left (fun m key =>
               match get m key with
               | Some v => if v =? decryptedChar then remove m key else m
               | None => m
               end)
            (keys newUserMapping) newUserMapping.

(** [assignMapping], with what the effect then does. *)
Definition assignMapping (decryptedChar : Z) (st : State) : State * bool :=
  match selectedChar st with
  | None => (st, false)
  | Some selected =>
      let newUserMapping := unassign decryptedChar (userMapping st) in
      let st' :=
        {| originalMessage := originalMessage st;
           encryptedMessage := encryptedMessage st;
           cipherMap := cipherMap st;
           userMapping := set newUserMapping selected decryptedChar;
           selectedChar := None |} in
      (st', effect st')
  end.

(** [clearMapping(selectedChar)], with what the effect then does. *)
Definition clearMapping (st : State) : State * bool :=
  match selectedChar st with
  | None => (st, false)
  | Some char =>
      let st' :=
        {| originalMessage := originalMessage st;
           encryptedMessage := encryptedMessage st;
           cipherMap := cipherMap st;
           userMapping := remove (userMapping st) char;
           selectedChar := selectedChar st |} in
      (st', effect st')
  end.

Inductive Event :=
| Select (char : Z)   (* a click on a character of the message *)
| Assign (char : Z)   (* a click on a letter of the decoder *)
| Clear.              (* the button that clears the mapping *)

Definition handle (e : Event) (st : State) : State * bool :=
  match e with
  | Select char => (select char st, false)
  | Assign char => assignMapping char st
  | Clear => clearMapping st
  end.

(** The events one after the other: the last state and, for each event,
    whether [onComplete] was called. *)
Fixpoint run (events : list Event) (st : State) : State * list bool :=
  match events with
  | [] => (st, [])
  | e :: events' =>
      let (st1, done) := handle e st in
      let (st2, log) := run events' st1 in
      (st2, done :: log)
  end.

(** *** Notions used to state what the game does *)

(** The letter that the cipher writes as [c]. *)
Definition plainOf (map : Mapping) (c : Z) : Z :=
  match find (fun kv => snd kv =? c) map with
  | Some kv => fst kv
  | None => 0
  end.

(** The player selects each character of [order] and gives it the letter
    that the cipher writes so. *)
Definition solving (map : Mapping) (order : list Z) : list Event :=
  flat_map (fun c => [Select c; Assign (plainOf map c)]) order.

(** No letter is given to two characters. *)
Definition injective (m : Mapping) : Prop :=
  forall k k' v, get m k = Some v -> get m k' = Some v -> k = k'.

(** Whether [k] is among [ks]. *)
Definition mem (k : Z) (ks : list Z) : bool := existsb (Z.eqb k) ks.

(** No code unit occurs twice. *)
Fixpoint distinctZ (l : list Z) : bool :=
  match l with
  | [] => true
  | x :: l' => negb (existsb (Z.eqb x) l') && distinctZ l'
  end.

End Cipher.

Import JS RNG RefRNG.

Example hash_empty : createSeededRNG [] = 2166136261.
Proof. reflexivity. Qed.

(** ** Arithmetic modulo 2^32 *)

Section Mod32.

Lemma w32_range x : 0 <= w32 x < 2 ^ 32.
Proof. unfold w32. apply Z.mod_pos_bound. reflexivity. Qed.

Lemma w32_idem x : w32 (w32 x) = w32 x.
Proof. unfold w32. apply Z.mod_mod. discriminate. Qed.

Lemma w32_small x : 0 <= x < 2 ^ 32 -> w32 x = x.
Proof. intros H. unfold w32. now apply Z.mod_small. Qed.

Lemma ToInt32_range x : - 2 ^ 31 <= ToInt32 x < 2 ^ 31.
Proof.
  unfold ToInt32.
  pose proof (Z.mod_pos_bound (x + 2 ^ 31) (2 ^ 32) eq_refl). lia.
Qed.

Lemma w32_ToInt32 x : w32 (ToInt32 x) = w32 x.
Proof.
  unfold w32, ToInt32.
  rewrite Zminus_mod, Z.mod_mod, <- Zminus_mod by discriminate.
  f_equal. lia.
Qed.

Lemma w32_land x : w32 x = Z.land x (Z.ones 32).
Proof. unfold w32. now rewrite Z.land_ones. Qed.

Lemma w32_lxor a b : w32 (Z.lxor a b) = Z.lxor (w32 a) (w32 b).
Proof.
  rewrite !w32_land. apply Z.bits_inj'. intros n Hn.
  rewrite !Z.land_spec, !Z.lxor_spec, !Z.land_spec.
  now destruct (Z.testbit a n), (Z.testbit b n), (Z.testbit (Z.ones 32) n).
Qed.

Lemma w32_lor a b : w32 (Z.lor a b) = Z.lor (w32 a) (w32 b).
Proof. rewrite !w32_land. apply Z.land_lor_distr_l. Qed.

Lemma w32_mul a b : w32 (w32 a * w32 b) = w32 (a * b).
Proof. unfold w32. now rewrite <- Z.mul_mod by discriminate. Qed.

Lemma w32_add a b : w32 (w32 a + w32 b) = w32 (a + b).
Proof. unfold w32. now rewrite <- Z.add_mod by discriminate. Qed.

Lemma w32_shiftr x n : 0 <= n -> w32 (Z.shiftr (w32 x) n) = Z.shiftr (w32 x) n.
Proof.
  intros Hn. apply w32_small.
  pose proof (w32_range x) as Hx.
  rewrite Z.shiftr_div_pow2 by assumption.
  assert (0 < 2 ^ n) by (apply Z.pow_pos_nonneg; lia).
  split.
  - apply Z.div_pos; lia.
  - apply Z.le_lt_trans with (w32 x); [|lia].
    apply Z.div_le_upper_bound; nia.
Qed.

(** The operators of the source, read modulo 2^32. *)

Lemma w32_xor a b : w32 (xor a b) = Z.lxor (w32 a) (w32 b).
Proof. unfold xor. now rewrite w32_lxor, !w32_ToInt32. Qed.

Lemma w32_or a b : w32 (or a b) = Z.lor (w32 a) (w32 b).
Proof. unfold or. now rewrite w32_lor, !w32_ToInt32. Qed.

Lemma w32_imul a b : w32 (imul a b) = w32 (w32 a * w32 b).
Proof. unfold imul. now rewrite w32_ToInt32. Qed.

Lemma imul_range a b : - 2 ^ 31 <= imul a b < 2 ^ 31.
Proof. apply ToInt32_range. Qed.

Lemma roundDouble_exact x : Z.abs x < 2 ^ 53 -> roundDouble x = x.
Proof.
  intros H. unfold roundDouble.
  destruct (Z.leb_spec (Z.log2 (Z.abs x) + 1) 53) as [_|Hbig]; [reflexivity|].
  exfalso.
  destruct (Z.eq_dec (Z.abs x) 0) as [E|E].
  - rewrite E in Hbig. cbn in Hbig. lia.
  - assert (0 < Z.abs x) by lia.
    apply Z.log2_lt_pow2 in H; lia.
Qed.

End Mod32.

(** ** The generator agrees with the reference while sums are exact *)

Section Agreement.

Lemma w32_ushr t n : 0 <= n < 32 -> ushr t n = Z.shiftr (w32 t) n.
Proof. intros H. unfold ushr. now rewrite Z.mod_small. Qed.

Lemma w32_xor_ushr t n :
  0 <= n < 32 ->
  w32 (xor t (ushr t n)) = Z.lxor (w32 t) (Z.shiftr (w32 t) n).
Proof.
  intros H. rewrite w32_xor, w32_ushr by assumption.
  now rewrite w32_shiftr by lia.
Qed.

(** [Math.imul(t ^ t >>> n, t | m)] *)
Lemma w32_mulstep t n m :
  0 <= n < 32 -> 0 <= m < 2 ^ 32 ->
  w32 (imul (xor t (ushr t n)) (or t m)) =
  w32 (w32 (Z.lxor (w32 t) (Z.shiftr (w32 t) n)) * w32 (Z.lor (w32 t) m)).
Proof.
  intros Hn Hm.
  rewrite w32_imul, w32_xor_ushr, w32_or, (w32_small m) by assumption.
  symmetry. apply w32_mul.
Qed.

(** [t ^ (t + p)] for 32-bit [t] and [p] *)
Lemma w32_xor_add t p :
  - 2 ^ 31 <= t < 2 ^ 31 -> - 2 ^ 31 <= p < 2 ^ 31 ->
  w32 (xor t (add t p)) = w32 (Z.lxor (w32 t) (w32 (w32 t + w32 p))).
Proof.
  intros Ht Hp. unfold add. rewrite roundDouble_exact by lia.
  rewrite w32_xor, w32_add, w32_lxor. now rewrite !w32_idem.
Qed.

(** [(t ^ t >>> 14) >>> 0] *)
Lemma w32_final t :
  ushr (xor t (ushr t 14)) 0 = w32 (Z.lxor (w32 t) (Z.shiftr (w32 t) 14)).
Proof.
  rewrite (w32_ushr _ 0), Z.shiftr_0_r, w32_xor_ushr by lia.
  rewrite w32_lxor, w32_idem. now rewrite w32_shiftr by lia.
Qed.

Lemma rng_unfold seed :
  rng seed = (div2p32 (mix (add seed increment)), add seed increment).
Proof. unfold rng, mix. reflexivity. Qed.

Lemma mix_agrees t : mix t = mix_ref (w32 t).
Proof.
  unfold mix, mix_ref. cbv zeta.
  rewrite w32_final. f_equal.
  rewrite w32_xor_add by apply imul_range.
  rewrite !w32_mulstep by lia.
  reflexivity.
Qed.

(** The output of one call, read from the new value of [seed]. *)
Lemma rng_mix seed :
  rng seed = (div2p32 (mix_ref (w32 (add seed increment))), add seed increment).
Proof. rewrite rng_unfold. now rewrite mix_agrees. Qed.

Lemma seedAfter_succ n seed :
  seedAfter (N.succ n) seed = add (seedAfter n seed) increment.
Proof.
  unfold seedAfter. rewrite N.iter_succ.
  now rewrite rng_mix.
Qed.

Lemma stateAfter_ref_succ n state :
  stateAfter_ref (N.succ n) state = advance_ref (stateAfter_ref n state).
Proof. unfold stateAfter_ref. now rewrite N.iter_succ. Qed.

(** While the sum stays below 2^53 the variable is the exact sum. *)
Lemma seedAfter_exact n seed :
  Z.abs seed + Z.of_N n * increment < 2 ^ 53 ->
  seedAfter n seed = seed + Z.of_N n * increment.
Proof.
  induction n as [|n IH] using N.peano_ind; intros Hn.
  - cbn. lia.
  - unfold increment in *. rewrite seedAfter_succ, IH by lia.
    unfold add. rewrite roundDouble_exact; unfold increment; lia.
Qed.

Lemma stateAfter_ref_sum n state :
  w32 (stateAfter_ref n (w32 state)) = w32 (state + Z.of_N n * increment).
Proof.
  induction n as [|n IH] using N.peano_ind.
  - cbn. rewrite w32_idem. f_equal. lia.
  - rewrite stateAfter_ref_succ. unfold advance_ref.
    rewrite w32_idem, <- w32_add, IH, w32_add. f_equal. unfold increment. lia.
Qed.

Lemma advance_stateAfter_ref n seed :
  advance_ref (stateAfter_ref n (w32 seed)) =
  w32 (seed + (Z.of_N n + 1) * increment).
Proof.
  unfold advance_ref. fold increment.
  rewrite <- w32_add, stateAfter_ref_sum, w32_add. f_equal. lia.
Qed.

Lemma hash_fold_range l h :
  Z.abs h <= 2 ^ 32 ->
  Z.abs (fold_left (fun h c => imul (xor h c) 16777619) l h) <= 2 ^ 32.
Proof.
  revert h. induction l as [|c l IH]; intros h Hh; cbn [fold_left]; [assumption|].
  apply IH. pose proof (imul_range (xor h c) 16777619). lia.
Qed.

Lemma hashSeed_range seedStr : Z.abs (hashSeed seedStr) <= 2 ^ 32.
Proof. apply hash_fold_range. vm_compute. discriminate. Qed.

Lemma hash_fold_agrees l h a :
  w32 h = a ->
  w32 (fold_left (fun h c => imul (xor h c) 16777619) l h) =
  fold_left (fun acc c => w32 (w32 (Z.lxor acc c) * 16777619)) l a.
Proof.
  revert h a. induction l as [|c l IH]; intros h a Hh; cbn [fold_left].
  - assumption.
  - apply IH. subst a.
    rewrite w32_imul, w32_xor, (w32_lxor (w32 h) c), w32_idem.
    reflexivity.
Qed.

(** The hash of the source and the hash of the specification are the same
    32-bit word. *)
Lemma hashSeed_agrees seedStr : w32 (hashSeed seedStr) = hash_ref seedStr.
Proof. apply hash_fold_agrees. reflexivity. Qed.

Lemma mix_ref_range state : 0 <= mix_ref state < 2 ^ 32.
Proof. unfold mix_ref. apply w32_range. Qed.

Lemma nthOutput_range n seed :
  (0 <= nthOutput n seed /\ nthOutput n seed < 1)%Q.
Proof.
  unfold nthOutput. rewrite rng_mix. cbn [fst]. unfold div2p32, mix_ref.
  match goal with |- context [w32 ?x # _] => pose proof (w32_range x) as H end.
  unfold Qle, Qlt. cbn [Qnum Qden]. lia.
Qed.

(** The output of call [n] when the first [n] sums were exact. *)
Lemma nthOutput_at n seed :
  Z.abs seed + Z.of_N n * increment < 2 ^ 53 ->
  nthOutput n seed =
  mix_ref (w32 (roundDouble (seed + (Z.of_N n + 1) * increment))) # 4294967296.
Proof.
  intros H. unfold nthOutput.
  rewrite rng_mix. cbn [fst]. unfold div2p32.
  rewrite seedAfter_exact by assumption.
  unfold add. do 4 f_equal. ring.
Qed.

Lemma nthOutput_ref_at n seed :
  nthOutput_ref n (w32 seed) =
  mix_ref (w32 (seed + (Z.of_N n + 1) * increment)) # 4294967296.
Proof.
  unfold nthOutput_ref, rng_ref. cbn [fst].
  now rewrite advance_stateAfter_ref.
Qed.

Lemma nthOutput_exact n seed :
  Z.abs seed + (Z.of_N n + 1) * increment < 2 ^ 53 ->
  nthOutput n seed = nthOutput_ref n (w32 seed).
Proof.
  intros H. rewrite nthOutput_ref_at, nthOutput_at by (unfold increment in *; lia).
  rewrite roundDouble_exact by (unfold increment in *; lia).
  reflexivity.
Qed.

End Agreement.

(** ** Claims about the generator *)

(** C3, as it holds on the code.  [createSeededRNG] hashes the seed as the
    specification says, and the outputs of the first 4,900,000 calls of the
    returned function are those of the reference generator, whose arithmetic
    is all modulo 2^32; every output of every call lies in [0, 1).  (The
    variable [seed] of the source is not reduced modulo 2^32: it is an exact
    integer only while it stays below 2^53.) *)
Theorem createSeededRNG_matches_reference (seedStr : jsstring) (n : N) :
  (n < 4900000)%N ->
  w32 (createSeededRNG seedStr) = hash_ref seedStr /\
  nthOutput n (createSeededRNG seedStr) = nthOutput_ref n (hash_ref seedStr) /\
  (forall k seed, 0 <= nthOutput k seed /\ nthOutput k seed < 1)%Q.
Proof.
  intros Hn. split; [apply hashSeed_agrees|]. split; [|intros; apply nthOutput_range].
  rewrite <- hashSeed_agrees. apply nthOutput_exact.
  pose proof (hashSeed_range seedStr). unfold createSeededRNG, increment. lia.
Qed.

Lemma createSeededRNG_matches_reference_witness :
  w32 (createSeededRNG (str "2024-1-1")) = hash_ref (str "2024-1-1") /\
  nthOutput 9 (createSeededRNG (str "2024-1-1")) =
    nthOutput_ref 9 (hash_ref (str "2024-1-1")) /\
  (forall k seed, 0 <= nthOutput k seed /\ nthOutput k seed < 1)%Q.
Proof. apply (createSeededRNG_matches_reference (str "2024-1-1") 9). reflexivity. Defined.

(** C3 as stated fails: for the empty seed string, call number 4,917,757 (counted
    from 0) adds the constant to a [seed] that passes 2^53; the sum is
    rounded to an even number and the output differs from the reference. *)
Lemma createSeededRNG_leaves_reference :
  ~ (nthOutput 4917757 (createSeededRNG [])
     == nthOutput_ref 4917757 (hash_ref []))%Q.
Proof.
  rewrite <- hashSeed_agrees, nthOutput_ref_at.
  rewrite nthOutput_at by (vm_compute; reflexivity).
  vm_compute. discriminate.
Qed.

(** ** Independent generators *)

Section Independence.

Lemma length_set {A} i (x : A) a : length (set i x a) = length a.
Proof.
  revert i. induction a as [|y a IH]; intros [|i]; cbn; auto.
Qed.

Lemma nth_set_same {A} i (x d : A) a :
  (i < length a)%nat -> nth i (set i x a) d = x.
Proof.
  revert i. induction a as [|y a IH]; intros [|i] H; cbn in *; try lia; auto.
  apply IH. lia.
Qed.

Lemma nth_set_other {A} i j (x d : A) a :
  i <> j -> nth j (set i x a) d = nth j a d.
Proof.
  revert i j.
  induction a as [|y a IH]; intros [|i] [|j] H; cbn; auto; try contradiction.
Qed.

Lemma firstn_outputs n m seed :
  (n <= m)%nat -> firstn n (outputs m seed) = outputs n seed.
Proof.
  revert m seed. induction n as [|n IH]; intros m seed H; [reflexivity|].
  destruct m as [|m]; [lia|]. cbn [outputs].
  destruct (rng seed) as [r seed']. cbn [firstn]. f_equal. apply IH. lia.
Qed.

Lemma length_outputs n seed : length (outputs n seed) = n.
Proof.
  revert seed. induction n as [|n IH]; intros seed; [reflexivity|].
  cbn [outputs]. destruct (rng seed). cbn. now rewrite IH.
Qed.

(** Calls to one generator do not change the variable of the other: each
    generator produces the output sequence of its own variable. *)
Lemma run_outputs sched g1 g2 h :
  g1 <> g2 -> (g1 < length h)%nat -> (g2 < length h)%nat ->
  run sched g1 g2 h =
  (outputs (callsOf true sched) (nth g1 h 0),
   outputs (callsOf false sched) (nth g2 h 0)).
Proof.
  intros Hne. revert h.
  induction sched as [|b sched IH]; intros h H1 H2; [reflexivity|].
  cbn [run]. unfold call, callsOf.
  destruct b; cbn [filter Bool.eqb length outputs]; fold (callsOf true sched);
    fold (callsOf false sched).
  - destruct (rng (nth g1 h 0)) as [r s'].
    rewrite IH by (rewrite length_set; assumption).
    now rewrite nth_set_same, nth_set_other by congruence.
  - destruct (rng (nth g2 h 0)) as [r s'].
    rewrite IH by (rewrite length_set; assumption).
    now rewrite nth_set_same, nth_set_other by congruence.
Qed.

End Independence.

(** C2.  Two generators created independently from the same seed string
    produce the same outputs, whatever the order in which a client calls
    them: the first [N] outputs of one are the first [N] outputs of the
    other, and both are the sequence determined by the seed string. *)
Theorem independent_generators_agree
        (seedStr : jsstring) (h0 h1 h2 : Heap) (g1 g2 : nat)
        (sched : list bool) (o1 o2 : list Q) (N : nat) :
  create seedStr h0 = (g1, h1) ->
  create seedStr h1 = (g2, h2) ->
  run sched g1 g2 h2 = (o1, o2) ->
  (N <= length o1)%nat -> (N <= length o2)%nat ->
  firstn N o1 = firstn N o2 /\
  firstn N o1 = outputs N (createSeededRNG seedStr).
Proof.
  unfold create. intros C1 C2 R L1 L2.
  injection C1 as <- <-. injection C2 as <- <-.
  rewrite length_app in R. cbn [length] in R.
  rewrite run_outputs in R by (rewrite ?length_app; cbn [length]; lia).
  rewrite app_nth1, !app_nth2 in R by (rewrite ?length_app; cbn [length]; lia).
  rewrite length_app in R. cbn [length] in R.
  replace (length h0 + 1 - (length h0 + 1))%nat with 0%nat in R by lia.
  rewrite Nat.sub_diag in R. cbn [nth] in R.
  injection R as <- <-.
  rewrite length_outputs in L1, L2.
  now rewrite !firstn_outputs by assumption.
Qed.

Lemma independent_generators_agree_witness :
  firstn 2 (fst (run [true; false; false; true; true] 0 1
                     [createSeededRNG (str "2024-1-1");
                      createSeededRNG (str "2024-1-1")])) =
  firstn 2 (snd (run [true; false; false; true; true] 0 1
                     [createSeededRNG (str "2024-1-1");
                      createSeededRNG (str "2024-1-1")])).
Proof.
  refine (proj1 (independent_generators_agree
                   (str "2024-1-1") [] _ _ 0 1 [true; false; false; true; true]
                   _ _ 2 eq_refl eq_refl _ _ _)).
  - apply surjective_pairing.
  - vm_compute. lia.
  - vm_compute. lia.
Defined.

(** ** The Fisher-Yates shuffle permutes its array *)

Import Sudoku.

Section Shuffle.

Context {A : Type}.

Lemma nth_error_set_same i (x : A) a :
  (i < length a)%nat -> nth_error (set i x a) i = Some x.
Proof.
  revert i. induction a as [|y a IH]; intros [|i] H; cbn in *; try lia; auto.
  apply IH. lia.
Qed.

Lemma nth_error_set_other i j (x : A) a :
  i <> j -> nth_error (set i x a) j = nth_error a j.
Proof.
  revert i j.
  induction a as [|y a IH]; intros [|i] [|j] H; cbn; auto; try contradiction.
Qed.

(** Overwriting the element [x] at index [i] by [y]. *)
Lemma set_Permutation i (x y : A) a :
  nth_error a i = Some x -> Permutation (y :: a) (x :: set i y a).
Proof.
  revert i. induction a as [|z a IH]; intros [|i] H; cbn in *; try discriminate.
  - injection H as ->. apply perm_swap.
  - apply perm_trans with (z :: y :: a); [apply perm_swap|].
    apply perm_trans with (z :: x :: set i y a); [|apply perm_swap].
    apply perm_skip. now apply IH.
Qed.

Lemma swap_Permutation (a : list A) i j : Permutation a (swap a i j).
Proof.
  unfold swap.
  destruct (nth_error a i) as [ai|] eqn:Ei; [|reflexivity].
  destruct (nth_error a j) as [aj|] eqn:Ej; [|reflexivity].
  apply Permutation_cons_inv with (a := aj).
  apply perm_trans with (ai :: set i aj a).
  - now apply set_Permutation.
  - apply set_Permutation.
    destruct (Nat.eq_dec i j) as [->|Hij].
    + apply nth_error_set_same. apply nth_error_Some. congruence.
    + now rewrite nth_error_set_other.
Qed.

Lemma shuffleFrom_Permutation i (a : list A) s :
  Permutation a (fst (shuffleFrom i a s)).
Proof.
  revert a s. induction i as [|i IH]; intros a s; [reflexivity|].
  cbn [shuffleFrom]. unfold bind, draw.
  destruct (rng s) as [r s'].
  eapply perm_trans; [apply (swap_Permutation a (S i) (pick r (S i)))|apply IH].
Qed.

Lemma shuffle_Permutation (a : list A) s : Permutation a (fst (shuffle a s)).
Proof. apply shuffleFrom_Permutation. Qed.

(** The six arrangements of three elements. *)
Lemma Permutation_length_3_inv (x y z : A) l :
  Permutation [x; y; z] l ->
  l = [x; y; z] \/ l = [x; z; y] \/ l = [y; x; z] \/
  l = [y; z; x] \/ l = [z; x; y] \/ l = [z; y; x].
Proof.
  intros H.
  destruct (Permutation_vs_cons_inv (Permutation_sym H)) as (l1 & l2 & ->).
  apply Permutation_cons_app_inv in H.
  apply Permutation_length_2_inv in H.
  destruct l1 as [|a [|b [|c l1]]]; cbn in H |- *;
    destruct H as [H|H]; try discriminate H;
    try (injection H as -> ->); try (injection H as -> -> ->);
    subst; auto 10.
  all: destruct l1; discriminate.
Qed.

End Shuffle.

(** The index drawn by [shuffle] is inside the part still to be shuffled. *)
Lemma shuffle_index s i : (pick (fst (rng s)) i <= i)%nat.
Proof.
  unfold pick. rewrite rng_mix. cbn [fst]. unfold div2p32.
  match goal with |- context [mix_ref ?x] => pose proof (mix_ref_range x) as Hu;
    revert Hu; generalize (mix_ref x) end.
  intros u Hu. unfold Qmult, inject_Z, Qfloor. cbn [Qnum Qden].
  change (Z.pos (4294967296 * 1)) with (2 ^ 32).
  assert (u * (Z.of_nat i + 1) / 2 ^ 32 < Z.of_nat i + 1).
  { apply Z.div_lt_upper_bound; nia. }
  assert (0 <= u * (Z.of_nat i + 1) / 2 ^ 32) by (apply Z.div_pos; nia).
  lia.
Qed.

(** ** Every transformation keeps the grid valid *)

Section Validity.

Lemma length9_inv {A} (l : list A) :
  length l = 9%nat -> exists a b c d e f g h i, l = [a; b; c; d; e; f; g; h; i].
Proof.
  destruct l as [|a [|b [|c [|d [|e [|f [|g [|h [|i [|j l]]]]]]]]]];
    try discriminate.
  intros _. repeat eexists.
Qed.

Lemma isPerm_length l : isPerm l -> length l = 9%nat.
Proof. intros H. apply Permutation_length in H. exact H. Qed.

End Validity.

(** Solving [Permutation l l'] for two explicit lists with the same
    elements: each head of [l] is located in [l']. *)
Ltac perm_locate x l :=
  lazymatch l with
  | x :: ?t => let T := type of x in constr:((@nil T, t))
  | ?y :: ?t =>
      lazymatch perm_locate x t with
      | (?l1, ?l2) => constr:((y :: l1, l2))
      end
  end.

Ltac perm_solve :=
  lazymatch goal with
  | |- Permutation [] [] => apply perm_nil
  | |- Permutation (?x :: ?l) ?r =>
      lazymatch perm_locate x r with
      | (?l1, ?l2) => apply (Permutation_cons_app l1 l2 x); cbn [app]; perm_solve
      end
  end.

Ltac below3 n := destruct n as [|[|[|n]]]; [ | | | exfalso; lia].

Ltac below9 n :=
  destruct n as [|[|[|[|[|[|[|[|[|n]]]]]]]]]; [ | | | | | | | | | exfalso; lia].

(** Naming the nine rows of a valid grid, and the nine cells of each row. *)
Ltac explode_grid H :=
  let Hlen := fresh "Hlen" in
  let Hrows := fresh "Hrows" in
  let Hcols := fresh "Hcols" in
  let Hboxes := fresh "Hboxes" in
  destruct H as (Hlen & Hrows & Hcols & Hboxes);
  destruct (length9_inv _ Hlen) as (? & ? & ? & ? & ? & ? & ? & ? & ? & ->);
  clear Hlen;
  repeat match goal with
         | H' : Forall _ (_ :: _) |- _ => inversion_clear H'
         | H' : Forall _ [] |- _ => clear H'
         end.

Ltac explode_rows :=
  repeat match goal with
         | H : isPerm ?r |- _ =>
             is_var r;
             let L := fresh "L" in
             pose proof (isPerm_length _ H) as L;
             destruct (length9_inv _ L) as (? & ? & ? & ? & ? & ? & ? & ? & ? & ->);
             clear L
         end.

Section ValidityOfSteps.

Lemma Valid_baseGrid : Valid baseGrid.
Proof.
  unfold Valid, isPerm. split; [reflexivity|]. split; [|split].
  - repeat (apply Forall_cons || apply Forall_nil); unfold nums; perm_solve.
  - intros c Hc. below9 c; cbv [column map nth baseGrid nums]; perm_solve.
  - intros br bc Hbr Hbc. below3 br; below3 bc; vm_compute; perm_solve.
Qed.

Lemma Valid_transpose g : Valid g -> Valid (transpose g).
Proof.
  intros H. explode_grid H. explode_rows.
  split; [reflexivity|]. split; [|split].
  - cbv [transpose nth length seq map].
    repeat (apply Forall_cons || apply Forall_nil).
    + exact (Hcols 0%nat ltac:(lia)).
    + exact (Hcols 1%nat ltac:(lia)).
    + exact (Hcols 2%nat ltac:(lia)).
    + exact (Hcols 3%nat ltac:(lia)).
    + exact (Hcols 4%nat ltac:(lia)).
    + exact (Hcols 5%nat ltac:(lia)).
    + exact (Hcols 6%nat ltac:(lia)).
    + exact (Hcols 7%nat ltac:(lia)).
    + exact (Hcols 8%nat ltac:(lia)).
  - intros c Hc. below9 c; assumption.
  - intros br bc Hbr Hbc.
    below3 br; below3 bc;
      lazymatch goal with
      | |- isPerm (box _ ?i ?j) =>
          apply perm_trans with (2 := Hboxes j i ltac:(lia) ltac:(lia))
      end;
      cbv; perm_solve.
Qed.

(** A grid whose rows are those of a valid grid, rearranged inside each
    band or band by band, is valid. *)
Ltac rearranged_valid Hcols Hboxes :=
  split; [reflexivity|]; split; [|split];
  [ repeat (apply Forall_cons || apply Forall_nil); assumption
  | let c := fresh "c" in
    let Hc := fresh "Hc" in
    intros c Hc; apply perm_trans with (2 := Hcols c Hc);
    unfold column; cbn [map]; perm_solve
  | let br := fresh "br" in
    let bc := fresh "bc" in
    let Hbr := fresh "Hbr" in
    let Hbc := fresh "Hbc" in
    intros br bc Hbr Hbc; below3 br;
    first
      [ apply perm_trans with (2 := Hboxes 0%nat bc ltac:(lia) Hbc);
        apply Permutation_flat_map; cbn; perm_solve
      | apply perm_trans with (2 := Hboxes 1%nat bc ltac:(lia) Hbc);
        apply Permutation_flat_map; cbn; perm_solve
      | apply perm_trans with (2 := Hboxes 2%nat bc ltac:(lia) Hbc);
        apply Permutation_flat_map; cbn; perm_solve ] ].

Lemma Valid_shuffleBand b g s :
  (b = 0 \/ b = 3 \/ b = 6)%nat -> Valid g -> Valid (fst (shuffleBand b g s)).
Proof.
  intros Hb H. unfold shuffleBand, bind, draw, ret.
  destruct (rng s) as [r s1]. destruct (gtHalf r); [|assumption].
  pose proof (shuffle_Permutation [nth b g []; nth (b + 1) g []; nth (b + 2) g []] s1) as P.
  destruct (shuffle _ s1) as [rows s2]. cbn [fst] in *.
  apply Permutation_length_3_inv in P.
  explode_grid H.
  destruct Hb as [ -> | [ -> | -> ] ]; cbn [nth Nat.add] in P;
    destruct P as [ -> | [ -> | [ -> | [ -> | [ -> | -> ] ] ] ] ]; cbn [nth set Nat.add];
    rearranged_valid Hcols Hboxes.
Qed.

Lemma Valid_swapRowsWithinBands g s :
  Valid g -> Valid (fst (swapRowsWithinBands g s)).
Proof.
  intros H. unfold swapRowsWithinBands, bind.
  pose proof (Valid_shuffleBand 0 g s (or_introl eq_refl) H) as H0.
  destruct (shuffleBand 0 g s) as [g0 s0]. cbn [fst] in H0.
  pose proof (Valid_shuffleBand 3 g0 s0 (or_intror (or_introl eq_refl)) H0) as H3.
  destruct (shuffleBand 3 g0 s0) as [g3 s3]. cbn [fst] in H3.
  exact (Valid_shuffleBand 6 g3 s3 (or_intror (or_intror eq_refl)) H3).
Qed.

Lemma Valid_swapColumnsWithinBands g s :
  Valid g -> Valid (fst (swapColumnsWithinBands g s)).
Proof.
  intros H. unfold swapColumnsWithinBands, bind, ret.
  pose proof (Valid_swapRowsWithinBands (transpose g) s (Valid_transpose g H)) as H'.
  destruct (swapRowsWithinBands (transpose g) s) as [g' s']. cbn [fst] in *.
  now apply Valid_transpose.
Qed.

Lemma Valid_maybeTranspose g s : Valid g -> Valid (fst (maybeTranspose g s)).
Proof.
  intros H. unfold maybeTranspose, bind, draw, ret.
  destruct (rng s) as [r s1]. destruct (gtHalf r); cbn [fst]; [|assumption].
  now apply Valid_transpose.
Qed.

Lemma Valid_swapBands g s : Valid g -> Valid (fst (swapBands g s)).
Proof.
  intros H. unfold swapBands, bind, ret.
  pose proof (shuffle_Permutation [slice 0 3 g; slice 3 6 g; slice 6 9 g] s) as P.
  destruct (shuffle _ s) as [bands s1]. cbn [fst] in *.
  apply Permutation_length_3_inv in P.
  explode_grid H. cbn in P.
  destruct P as [ -> | [ -> | [ -> | [ -> | [ -> | -> ] ] ] ] ]; cbn [nth app];
    rearranged_valid Hcols Hboxes.
Qed.

(** Relabelling the digits by a bijection of 1..9. *)
Lemma Valid_map (f : Z -> Z) g :
  Permutation (map f nums) nums -> Valid g -> Valid (map (map f) g).
Proof.
  intros Hf H. explode_grid H. explode_rows.
  split; [reflexivity|]. split; [|split].
  - cbn [map]. repeat (apply Forall_cons || apply Forall_nil);
      (apply perm_trans with (2 := Hf));
      match goal with
      | H : isPerm _ |- _ => exact (Permutation_map f H)
      end.
  - intros c Hc. apply perm_trans with (2 := Hf).
    below9 c; lazymatch goal with
              | |- Permutation (column _ ?i) _ =>
                  exact (Permutation_map f (Hcols i ltac:(lia)))
              end.
  - intros br bc Hbr Hbc. apply perm_trans with (2 := Hf).
    below3 br; below3 bc;
      lazymatch goal with
      | |- Permutation (box _ ?i ?j) _ =>
          exact (Permutation_map f (Hboxes i j ltac:(lia) ltac:(lia)))
      end.
Qed.

(** Every digit 1..9 is a key of the map, so [map.get] never answers
    [undefined] on the cells of a valid grid. *)
Lemma relabel_defined permuted d :
  length permuted = 9%nat -> 1 <= d <= 9 ->
  Map_get (digitMap permuted) d = Some (nth (Z.to_nat (d - 1)) permuted 0).
Proof.
  intros L Hd.
  destruct (length9_inv _ L) as (p1 & p2 & p3 & p4 & p5 & p6 & p7 & p8 & p9 & ->).
  assert (C : d = 1 \/ d = 2 \/ d = 3 \/ d = 4 \/ d = 5 \/ d = 6 \/ d = 7 \/
              d = 8 \/ d = 9) by lia.
  repeat (destruct C as [->|C]; [reflexivity|]). subst d. reflexivity.
Qed.

Lemma relabel_nums p1 p2 p3 p4 p5 p6 p7 p8 p9 :
  map (relabel (digitMap [p1; p2; p3; p4; p5; p6; p7; p8; p9])) nums =
  [p1; p2; p3; p4; p5; p6; p7; p8; p9].
Proof. reflexivity. Qed.

Lemma Valid_permuteNumbers g s : Valid g -> Valid (fst (permuteNumbers g s)).
Proof.
  intros H. unfold permuteNumbers, bind, ret.
  pose proof (shuffle_Permutation nums s) as P.
  destruct (shuffle nums s) as [permuted s1]. cbn [fst] in *.
  assert (L : length permuted = 9%nat)
    by (apply Permutation_length in P; symmetry; exact P).
  destruct (length9_inv _ L) as (p1 & p2 & p3 & p4 & p5 & p6 & p7 & p8 & p9 & ->).
  apply Valid_map; [|assumption].
  rewrite relabel_nums. now apply Permutation_sym.
Qed.

Theorem generateSolution_Valid s : Valid (fst (generateSolution s)).
Proof.
  unfold generateSolution, bind.
  pose proof (Valid_maybeTranspose baseGrid s Valid_baseGrid) as H1.
  destruct (maybeTranspose baseGrid s) as [g1 s1]. cbn [fst] in H1.
  pose proof (Valid_swapRowsWithinBands g1 s1 H1) as H2.
  destruct (swapRowsWithinBands g1 s1) as [g2 s2]. cbn [fst] in H2.
  pose proof (Valid_swapColumnsWithinBands g2 s2 H2) as H3.
  destruct (swapColumnsWithinBands g2 s2) as [g3 s3]. cbn [fst] in H3.
  pose proof (Valid_swapBands g3 s3 H3) as H4.
  destruct (swapBands g3 s3) as [g4 s4]. cbn [fst] in H4.
  now apply Valid_permuteNumbers.
Qed.

Lemma isPerm_eachDigitOnce l : isPerm l -> eachDigitOnce l.
Proof.
  intros H. split; [now apply isPerm_length|].
  intros d Hd.
  rewrite (proj1 (Permutation_count_occ Z.eq_dec l nums) H d).
  assert (C : d = 1 \/ d = 2 \/ d = 3 \/ d = 4 \/ d = 5 \/ d = 6 \/ d = 7 \/
              d = 8 \/ d = 9) by lia.
  repeat (destruct C as [->|C]; [reflexivity|]). subst d. reflexivity.
Qed.

Lemma Valid_validSolution g : Valid g -> validSolution g.
Proof.
  intros (Hlen & Hrows & Hcols & Hboxes).
  split; [assumption|]. split; [|split].
  - intros r Hr. apply isPerm_eachDigitOnce. unfold row.
    rewrite Forall_forall in Hrows. apply Hrows. apply nth_In. lia.
  - intros c Hc. now apply isPerm_eachDigitOnce, Hcols.
  - intros br bc Hbr Hbc. now apply isPerm_eachDigitOnce, Hboxes.
Qed.

End ValidityOfSteps.

(** ** Claims about the Sudoku solution *)

(** C1.  For every seed string and every difficulty, the solution grid has
    nine rows, and each of its rows, columns and 3x3 boxes has nine cells
    and contains each digit 1..9 exactly once. *)
Theorem generateBoard_solution_valid (seed difficulty : jsstring) :
  validSolution (solution (generateBoard seed difficulty)).
Proof.
  unfold generateBoard.
  pose proof (generateSolution_Valid (createSeededRNG seed)) as H.
  destruct (generateSolution (createSeededRNG seed)) as [sol s].
  destruct (createPuzzleMask difficulty sol s) as [puz s'].
  cbn [solution fst] in *. now apply Valid_validSolution.
Qed.

(** ** The puzzle mask *)

Section Mask.

Variable kept : list nat.

Let maskRow (row : list Z) (r : nat) : list (option Z) :=
  mapi (fun val c => if has kept (r * 9 + c) then Some val else None) row.

Lemma mask_cell (h : nat -> bool) (row : list Z) off c v :
  nth_error (mapiFrom off (fun val c => if h c then Some val else None) row) c
  = Some (Some v) ->
  nth_error row c = Some v.
Proof.
  revert off c. induction row as [|x row IH]; intros off [|c] H; cbn in *;
    try discriminate.
  - destruct (h off); congruence.
  - eapply IH. eassumption.
Qed.

Lemma mask_rows (F : list Z -> nat -> list (option Z)) (g : Grid) off r c v :
  (forall row i c v, nth_error (F row i) c = Some (Some v) ->
                     nth_error row c = Some v) ->
  nth_error (nth r (mapiFrom off F g) []) c = Some (Some v) ->
  nth_error (nth r g []) c = Some v.
Proof.
  intros HF. revert off r. induction g as [|row g IH]; intros off [|r] H; cbn in *;
    try (destruct c; discriminate).
  - eapply HF. eassumption.
  - eapply IH. eassumption.
Qed.

Lemma maskGrid_subsetReveal g : subsetReveal (maskGrid kept g) g.
Proof.
  intros r c v H. unfold maskGrid, mapi in H.
  eapply mask_rows; [|exact H].
  intros row i c' v' H'.
  eapply (mask_cell (fun c => has kept (i * 9 + c))). exact H'.
Qed.

Lemma map_add_seq a off n :
  map (fun c => (a + c)%nat) (seq off n) = seq (a + off) n.
Proof.
  revert off. induction n as [|n IH]; intros off; [reflexivity|].
  cbn [seq map]. f_equal. rewrite IH. f_equal. lia.
Qed.

Lemma revealed_row (row : list Z) r off :
  length (filter isRevealed
            (mapiFrom off (fun val c => if has kept (r * 9 + c) then Some val else None) row))
  = length (filter (has kept) (seq (r * 9 + off) (length row))).
Proof.
  revert off. induction row as [|x row IH]; intros off; [reflexivity|].
  cbn [mapiFrom length seq filter].
  specialize (IH (S off)). replace (r * 9 + S off)%nat with (S (r * 9 + off)) in IH by lia.
  destruct (has kept (r * 9 + off)); cbn [isRevealed length]; now rewrite IH.
Qed.

Lemma revealed_rows (g : Grid) r :
  Forall (fun row => length row = 9%nat) g ->
  length (filter isRevealed (concat (mapiFrom r maskRow g)))
  = length (filter (has kept) (seq (r * 9) (length g * 9))).
Proof.
  intros H. revert r. induction H as [|row g Hrow Hg IH]; intros r; [reflexivity|].
  cbn [mapiFrom concat length]. rewrite filter_app, length_app.
  unfold maskRow at 1. unfold mapi. rewrite revealed_row, Hrow, IH.
  replace (S (length g) * 9)%nat with (9 + length g * 9)%nat by lia.
  rewrite seq_app, filter_app, length_app.
  replace (r * 9 + 0)%nat with (r * 9)%nat by lia.
  replace (S r * 9)%nat with (r * 9 + 9)%nat by lia.
  reflexivity.
Qed.

End Mask.

Section KeptIndices.

Lemma has_In kept i : has kept i = true <-> In i kept.
Proof.
  unfold has. rewrite existsb_exists. split.
  - intros (x & Hx & E). apply Nat.eqb_eq in E. now subst.
  - intros H. exists i. split; [assumption|apply Nat.eqb_refl].
Qed.

Lemma Permutation_filter_length {A} (f : A -> bool) l l' :
  Permutation l l' -> length (filter f l) = length (filter f l').
Proof.
  induction 1 as [|x l l' _ IH|x y l|l l' l'' _ IH1 _ IH2]; cbn.
  - reflexivity.
  - destruct (f x); cbn; now rewrite IH.
  - destruct (f x), (f y); reflexivity.
  - now rewrite IH1.
Qed.

(** The first [n] elements of a duplicate-free list select [n] of its
    elements. *)
Lemma filter_has_firstn idx n :
  NoDup idx -> (n <= length idx)%nat ->
  length (filter (has (firstn n idx)) idx) = n.
Proof.
  intros H. revert n. induction H as [|x l Hx Hl IH]; intros n Hn.
  - cbn in Hn. now replace n with 0%nat by lia.
  - destruct n as [|n]; cbn [firstn].
    + rewrite (filter_ext_in _ (fun _ => false)) by reflexivity.
      clear. now induction (x :: l).
    + assert (E : has (x :: firstn n l) x = true)
        by (apply has_In; left; reflexivity).
      cbn [filter]. rewrite E. cbn [length].
      f_equal. rewrite <- (IH n) at 2 by (cbn in Hn; lia).
      f_equal. apply filter_ext_in. intros y Hy.
      unfold has. cbn [existsb].
      destruct (Nat.eqb_spec y x) as [->|_]; [contradiction|reflexivity].
Qed.

Lemma cellsToKeep_le difficulty : (cellsToKeep difficulty <= 81)%nat.
Proof.
  unfold cellsToKeep.
  destruct (streq difficulty (str "Easy")); [lia|].
  destruct (streq difficulty (str "Medium")); lia.
Qed.

Lemma createPuzzleMask_spec difficulty g s :
  Valid g ->
  subsetReveal (fst (createPuzzleMask difficulty g s)) g /\
  revealed (fst (createPuzzleMask difficulty g s)) = cellsToKeep difficulty.
Proof.
  intros (Hlen & Hrows & _).
  unfold createPuzzleMask, bind, ret.
  pose proof (shuffle_Permutation (seq 0 81) s) as P.
  destruct (shuffle (seq 0 81) s) as [indices s']. cbn [fst] in *.
  split; [apply maskGrid_subsetReveal|].
  unfold revealed, maskGrid. unfold mapi at 1.
  rewrite revealed_rows, Hlen
    by (eapply Forall_impl; [|exact Hrows]; apply isPerm_length).
  cbn [Nat.mul Nat.add].
  rewrite (Permutation_filter_length _ _ _ P).
  unfold slice. rewrite Nat.sub_0_r. cbn [skipn].
  apply filter_has_firstn.
  - apply (Permutation_NoDup P), seq_NoDup.
  - rewrite <- (Permutation_length P), length_seq. apply cellsToKeep_le.
Qed.

End KeptIndices.

Lemma generateBoard_mask seed difficulty :
  subsetReveal (puzzle (generateBoard seed difficulty))
               (solution (generateBoard seed difficulty)) /\
  revealed (puzzle (generateBoard seed difficulty)) = cellsToKeep difficulty.
Proof.
  unfold generateBoard.
  pose proof (generateSolution_Valid (createSeededRNG seed)) as H.
  destruct (generateSolution (createSeededRNG seed)) as [sol s]. cbn [fst] in H.
  pose proof (createPuzzleMask_spec difficulty sol s H) as H'.
  destruct (createPuzzleMask difficulty sol s) as [puz s'].
  exact H'.
Qed.

(** C5.  The puzzle is a subset reveal of the solution: every non-null
    puzzle cell is the solution cell at the same place, and the number of
    non-null cells is the reveal count of the difficulty: 45 for Easy, 35
    for Medium, 24 for Hard. *)
Theorem generateBoard_puzzle_reveals (seed difficulty : jsstring) :
  subsetReveal (puzzle (generateBoard seed difficulty))
               (solution (generateBoard seed difficulty)) /\
  revealed (puzzle (generateBoard seed difficulty)) = cellsToKeep difficulty /\
  cellsToKeep (str "Easy") = 45%nat /\
  cellsToKeep (str "Medium") = 35%nat /\
  cellsToKeep (str "Hard") = 24%nat.
Proof.
  destruct (generateBoard_mask seed difficulty) as [H1 H2].
  repeat split; assumption || reflexivity.
Qed.

(** C6, as it holds on the code.  Every difficulty other than the literals Easy and
    Medium, so Hard and every unrecognised value, reveals 24 cells. *)
Theorem other_difficulty_reveals_24 (seed difficulty : jsstring) :
  difficulty <> str "Easy" ->
  difficulty <> str "Medium" ->
  cellsToKeep difficulty = 24%nat /\
  revealed (puzzle (generateBoard seed difficulty)) = 24%nat.
Proof.
  intros HE HM.
  assert (C : cellsToKeep difficulty = 24%nat).
  { unfold cellsToKeep, streq.
    destruct (list_eq_dec Z.eq_dec difficulty (str "Easy")); [contradiction|].
    destruct (list_eq_dec Z.eq_dec difficulty (str "Medium")); [contradiction|].
    reflexivity. }
  split; [assumption|].
  rewrite <- C. apply generateBoard_mask.
Qed.

Lemma other_difficulty_reveals_24_witness :
  cellsToKeep (str "Expert") = 24%nat /\
  revealed (puzzle (generateBoard (str "2024-1-1") (str "Expert"))) = 24%nat.
Proof.
  apply (other_difficulty_reveals_24 (str "2024-1-1") (str "Expert"));
    vm_compute; discriminate.
Defined.

(** C6 as stated fails: an unrecognised difficulty does not reveal 35
    cells. *)
Lemma unrecognised_difficulty_not_35 :
  cellsToKeep (str "Expert") <> 35%nat /\
  revealed (puzzle (generateBoard (str "2024-1-1") (str "Expert"))) <> 35%nat.
Proof. split; vm_compute; discriminate. Qed.

(** ** Which transformations are gated by a coin flip *)

Import GatedSudoku.

Section Gating.

Lemma seedAfter_succ_r n s :
  seedAfter (N.succ n) s = seedAfter n (snd (rng s)).
Proof. unfold seedAfter. now rewrite N.iter_succ_r. Qed.

(** [shuffle] calls the generator once per index from [length - 1] down to
    1, whatever the values drawn. *)
Lemma shuffleFrom_draws {A} i (a : list A) s :
  snd (shuffleFrom i a s) = seedAfter (N.of_nat i) s.
Proof.
  revert a s. induction i as [|i IH]; intros a s; [reflexivity|].
  rewrite Nat2N.inj_succ, seedAfter_succ_r.
  cbn [shuffleFrom]. unfold bind, draw.
  destruct (rng s) as [r s']. cbn [snd]. apply IH.
Qed.

Lemma seedAfter_add n m s : seedAfter (n + m) s = seedAfter n (seedAfter m s).
Proof. unfold seedAfter. now rewrite N.iter_add. Qed.

Lemma seedAfter_0 s : seedAfter 0 s = s.
Proof. reflexivity. Qed.

Lemma seedAfter_1 s : seedAfter 1 s = snd (rng s).
Proof. reflexivity. Qed.

Lemma seedAfter_next n s : seedAfter (N.succ n) s = snd (rng (seedAfter n s)).
Proof. unfold seedAfter. now rewrite N.iter_succ. Qed.

Lemma bind_eq {A B} (m : Rand A) (k : A -> Rand B) s :
  bind m k s = k (fst (m s)) (snd (m s)).
Proof. unfold bind. now destruct (m s). Qed.

Lemma gated_eq (step : Grid -> Rand Grid) g s :
  gated step g s
  = if gtHalf (fst (rng s)) then step g (snd (rng s)) else (g, snd (rng s)).
Proof.
  unfold gated, bind, draw, ret. destruct (rng s) as [r s1]. cbn [fst snd].
  now destruct (gtHalf r).
Qed.

Lemma shuffleRows_eq b g s :
  shuffleRows b g s
  = (let rows := fst (shuffle [nth b g []; nth (b + 1) g []; nth (b + 2) g []] s) in
     set (b + 2) (nth 2 rows []) (set (b + 1) (nth 1 rows []) (set b (nth 0 rows []) g)),
     seedAfter 2 s).
Proof.
  unfold shuffleRows, bind, ret.
  change 2%N with (N.of_nat 2).
  rewrite <- (shuffleFrom_draws 2 [nth b g []; nth (b + 1) g []; nth (b + 2) g []] s).
  change (shuffleFrom 2 ?a) with (shuffle a).
  now destruct (shuffle _ s).
Qed.

Lemma swapBands_eq g s :
  swapBands g s
  = (let bands := fst (shuffle [slice 0 3 g; slice 3 6 g; slice 6 9 g] s) in
     nth 0 bands [] ++ nth 1 bands [] ++ nth 2 bands [],
     seedAfter 2 s).
Proof.
  unfold swapBands, bind, ret.
  change 2%N with (N.of_nat 2).
  rewrite <- (shuffleFrom_draws 2 [slice 0 3 g; slice 3 6 g; slice 6 9 g] s).
  change (shuffleFrom 2 ?a) with (shuffle a).
  now destruct (shuffle _ s).
Qed.

Lemma permuteNumbers_eq g s :
  permuteNumbers g s
  = (map (fun row => map (relabel (digitMap (fst (shuffle nums s)))) row) g,
     seedAfter 8 s).
Proof.
  unfold permuteNumbers, bind, ret.
  change 8%N with (N.of_nat 8).
  rewrite <- (shuffleFrom_draws 8 nums s).
  change (shuffleFrom 8 nums) with (shuffle nums).
  now destruct (shuffle nums s).
Qed.

(** The generator of the code, step by step. *)
Lemma generateSolution_steps s :
  generateSolution s
  = (g <- gated (fun g => ret (transpose g)) baseGrid ;;
     g <- gated (shuffleRows 0) g ;;
     g <- gated (shuffleRows 3) g ;;
     g <- gated (shuffleRows 6) g ;;
     g <- ret (transpose g) ;;
     g <- gated (shuffleRows 0) g ;;
     g <- gated (shuffleRows 3) g ;;
     g <- gated (shuffleRows 6) g ;;
     g <- ret (transpose g) ;;
     g <- swapBands g ;;
     permuteNumbers g)%rand s.
Proof.
  unfold generateSolution, swapColumnsWithinBands, swapRowsWithinBands,
    maybeTranspose, shuffleBand, gated, shuffleRows, bind, ret, draw.
  repeat match goal with
         | |- context [rng ?x] => destruct (rng x) as [? ?]
         | |- context [gtHalf ?x] => destruct (gtHalf x)
         | |- context [shuffle ?a ?x] => destruct (shuffle a x) as [? ?]
         end.
  all: reflexivity.
Qed.

(** [m] calls the generator [k] times, and twice more for some of [e]
    shuffles. *)
Let Draws {A} (m : Rand A) (k e : nat) : Prop :=
  forall s, exists n, (n <= e)%nat /\ snd (m s) = seedAfter (N.of_nat (k + 2 * n)) s.

Lemma Draws_bind {A B} (m : Rand A) (f : A -> Rand B) k e k' e' :
  Draws m k e -> (forall a, Draws (f a) k' e') -> Draws (bind m f) (k + k') (e + e').
Proof.
  intros Hm Hf s. rewrite bind_eq.
  destruct (Hm s) as (n & Hn & E). destruct (Hf (fst (m s)) (snd (m s))) as (n' & Hn' & E').
  exists (n + n')%nat. split; [lia|]. rewrite E', E, <- seedAfter_add. f_equal. lia.
Qed.

Lemma Draws_gated_shuffleRows b g : Draws (gated (shuffleRows b) g) 1 1.
Proof.
  intros s. rewrite gated_eq. destruct (gtHalf (fst (rng s))).
  - exists 1%nat. split; [lia|]. rewrite shuffleRows_eq. cbn [snd].
    rewrite <- seedAfter_1, <- seedAfter_add. reflexivity.
  - exists 0%nat. split; [lia|]. reflexivity.
Qed.

Lemma Draws_gated_transpose g : Draws (gated (fun g => ret (transpose g)) g) 1 0.
Proof.
  intros s. exists 0%nat. split; [lia|]. rewrite gated_eq.
  now destruct (gtHalf (fst (rng s))).
Qed.

Lemma Draws_transpose (g : Grid) : Draws (ret (transpose g)) 0 0.
Proof. intros s. exists 0%nat. split; [lia|]. reflexivity. Qed.

Lemma Draws_swapBands g : Draws (swapBands g) 2 0.
Proof. intros s. exists 0%nat. split; [lia|]. now rewrite swapBands_eq. Qed.

Lemma Draws_permuteNumbers g : Draws (permuteNumbers g) 8 0.
Proof. intros s. exists 0%nat. split; [lia|]. now rewrite permuteNumbers_eq. Qed.

Lemma generateSolution_draws s :
  exists n, (n <= 6)%nat /\
            snd (generateSolution s) = seedAfter (N.of_nat (17 + 2 * n)) s.
Proof.
  rewrite generateSolution_steps. revert s.
  change (Draws (g <- gated (fun g => ret (transpose g)) baseGrid ;;
     g <- gated (shuffleRows 0) g ;;
     g <- gated (shuffleRows 3) g ;;
     g <- gated (shuffleRows 6) g ;;
     g <- ret (transpose g) ;;
     g <- gated (shuffleRows 0) g ;;
     g <- gated (shuffleRows 3) g ;;
     g <- gated (shuffleRows 6) g ;;
     g <- ret (transpose g) ;;
     g <- swapBands g ;;
     permuteNumbers g)%rand (1 + (1 + (1 + (1 + (0 + (1 + (1 + (1 + (0 + (2 + 8))))))))))
     (0 + (1 + (1 + (1 + (0 + (1 + (1 + (1 + (0 + (0 + 0))))))))))).
  repeat (apply Draws_bind; [|intros ?]);
    first [apply Draws_gated_transpose | apply Draws_gated_shuffleRows
          | apply Draws_transpose | apply Draws_swapBands | apply Draws_permuteNumbers].
Qed.

Lemma outputs_S n s : outputs (S n) s = fst (rng s) :: outputs n (snd (rng s)).
Proof. cbn [outputs]. now destruct (rng s). Qed.

Lemma forallb_cons {A} (f : A -> bool) x l : forallb f (x :: l) = f x && forallb f l.
Proof. reflexivity. Qed.

Lemma outputs_low n : forall s i,
  forallb (fun r => negb (gtHalf r)) (outputs n s) = true ->
  (i < n)%nat ->
  gtHalf (fst (rng (seedAfter (N.of_nat i) s))) = false.
Proof.
  induction n as [|n IH]; intros s i H Hi; [lia|].
  rewrite outputs_S, forallb_cons in H.
  apply andb_prop in H.
  destruct H as [H0 H]. destruct i as [|i].
  - rewrite seedAfter_0. apply negb_true_iff. exact H0.
  - rewrite Nat2N.inj_succ, seedAfter_succ_r. apply IH; [exact H|lia].
Qed.

Lemma skip_bind {B} (step : Grid -> Rand Grid) (k : Grid -> Rand B) g s s' :
  gtHalf (fst (rng s)) = false -> snd (rng s) = s' ->
  bind (gated step g) k s = k g s'.
Proof. intros H <-. now rewrite bind_eq, gated_eq, H. Qed.

Lemma transpose_bind {B} (k : Grid -> Rand B) (g : Grid) s :
  bind (ret (transpose g)) k s = k (transpose g) s.
Proof. reflexivity. Qed.

Lemma steps_skip s0 s1 s2 s3 s4 s5 s6 s7 :
  gtHalf (fst (rng s0)) = false -> snd (rng s0) = s1 ->
  gtHalf (fst (rng s1)) = false -> snd (rng s1) = s2 ->
  gtHalf (fst (rng s2)) = false -> snd (rng s2) = s3 ->
  gtHalf (fst (rng s3)) = false -> snd (rng s3) = s4 ->
  gtHalf (fst (rng s4)) = false -> snd (rng s4) = s5 ->
  gtHalf (fst (rng s5)) = false -> snd (rng s5) = s6 ->
  gtHalf (fst (rng s6)) = false -> snd (rng s6) = s7 ->
  generateSolution s0
  = (g <- swapBands baseGrid ;; permuteNumbers g)%rand s7.
Proof.
  intros H0 E0 H1 E1 H2 E2 H3 E3 H4 E4 H5 E5 H6 E6.
  rewrite generateSolution_steps.
  rewrite (skip_bind _ _ _ s0 s1 H0 E0).
  rewrite (skip_bind _ _ _ s1 s2 H1 E1).
  rewrite (skip_bind _ _ _ s2 s3 H2 E2).
  rewrite (skip_bind _ _ _ s3 s4 H3 E3).
  rewrite transpose_bind.
  rewrite (skip_bind _ _ _ s4 s5 H4 E4).
  rewrite (skip_bind _ _ _ s5 s6 H5 E5).
  rewrite (skip_bind _ _ _ s6 s7 H6 E6).
  rewrite transpose_bind.
  replace (transpose (transpose baseGrid)) with baseGrid by (vm_compute; reflexivity).
  reflexivity.
Qed.

(** When none of the first seven numbers drawn exceeds 0.5, the solution is
    the base grid with its bands shuffled and its digits relabelled. *)
Lemma no_coin_succeeds s :
  forallb (fun r => negb (gtHalf r)) (outputs 7 s) = true ->
  generateSolution s
  = (g <- swapBands baseGrid ;; permuteNumbers g)%rand (seedAfter 7 s).
Proof.
  intros H.
  apply (steps_skip (seedAfter (N.of_nat 0) s) (seedAfter (N.of_nat 1) s)
           (seedAfter (N.of_nat 2) s) (seedAfter (N.of_nat 3) s)
           (seedAfter (N.of_nat 4) s) (seedAfter (N.of_nat 5) s)
           (seedAfter (N.of_nat 6) s) (seedAfter (N.of_nat 7) s));
    first [ apply (outputs_low 7); [exact H|lia]
          | rewrite <- seedAfter_next; reflexivity ].
Qed.

End Gating.

(** C7, as it holds on the code.  The generator of [generateBoard] is the
    sequence of steps written below: the transpose (a) and the shuffle of
    each band of rows (b) and of columns (c) stand behind a coin flip, and
    are applied when the number drawn for them exceeds 0.5 and skipped
    otherwise, the two transposes around (c) being unconditional; the
    shuffle of the three bands (d) and the digit relabelling (e) stand
    behind no coin and are always performed, with the two and the eight
    draws of their Fisher-Yates shuffles.  So the generator draws at least
    17 numbers, and when none of the seven coins succeeds the solution is
    still the base grid with its bands shuffled and its digits
    relabelled. *)
Theorem transformations_gating (seed difficulty : jsstring) (s : Z) :
  generateSolution s
  = (g <- gated (fun g => ret (transpose g)) baseGrid ;;   (* a *)
     g <- gated (shuffleRows 0) g ;;                       (* b *)
     g <- gated (shuffleRows 3) g ;;
     g <- gated (shuffleRows 6) g ;;
     g <- ret (transpose g) ;;
     g <- gated (shuffleRows 0) g ;;                       (* c *)
     g <- gated (shuffleRows 3) g ;;
     g <- gated (shuffleRows 6) g ;;
     g <- ret (transpose g) ;;
     g <- swapBands g ;;                                   (* d *)
     permuteNumbers g)%rand s /\                           (* e *)
  solution (generateBoard seed difficulty)
  = fst (generateSolution (createSeededRNG seed)) /\
  (forall g s, maybeTranspose g s = gated (fun g => ret (transpose g)) g s) /\
  (forall b g s, shuffleBand b g s = gated (shuffleRows b) g s) /\
  (forall g s,
      swapColumnsWithinBands g s
      = (transpose (fst (swapRowsWithinBands (transpose g) s)),
         snd (swapRowsWithinBands (transpose g) s))) /\
  (forall step g s,
      gated step g s
      = if gtHalf (fst (rng s)) then step g (snd (rng s)) else (g, snd (rng s))) /\
  (forall b g s,
      shuffleRows b g s
      = (let rows := fst (shuffle [nth b g []; nth (b + 1) g []; nth (b + 2) g []] s) in
         set (b + 2) (nth 2 rows []) (set (b + 1) (nth 1 rows [])
                                         (set b (nth 0 rows []) g)),
         seedAfter 2 s)) /\
  (forall g s,
      swapBands g s
      = (let bands := fst (shuffle [slice 0 3 g; slice 3 6 g; slice 6 9 g] s) in
         nth 0 bands [] ++ nth 1 bands [] ++ nth 2 bands [],
         seedAfter 2 s)) /\
  (forall g s,
      permuteNumbers g s
      = (map (fun row => map (relabel (digitMap (fst (shuffle nums s)))) row) g,
         seedAfter 8 s)) /\
  (exists n, (n <= 6)%nat /\
             snd (generateSolution s) = seedAfter (N.of_nat (17 + 2 * n)) s) /\
  (forallb (fun r => negb (gtHalf r)) (outputs 7 s) = true ->
   generateSolution s
   = (g <- swapBands baseGrid ;; permuteNumbers g)%rand (seedAfter 7 s)).
Proof.
  split; [apply generateSolution_steps|].
  split.
  { unfold generateBoard.
    destruct (generateSolution (createSeededRNG seed)) as [sol s1].
    destruct (createPuzzleMask difficulty sol s1) as [puz s2]. reflexivity. }
  split.
  { intros g s0. unfold maybeTranspose, gated, bind, ret, draw.
    destruct (rng s0) as [r s1]. now destruct (gtHalf r). }
  split.
  { intros b g s0. unfold shuffleBand, gated, shuffleRows, bind, ret, draw.
    destruct (rng s0) as [r s1]. now destruct (gtHalf r). }
  split.
  { intros g s0. unfold swapColumnsWithinBands, bind, ret.
    now destruct (swapRowsWithinBands (transpose g) s0). }
  split; [apply gated_eq|].
  split; [apply shuffleRows_eq|].
  split; [apply swapBands_eq|].
  split; [apply permuteNumbers_eq|].
  split; [apply generateSolution_draws|apply no_coin_succeeds].
Qed.

Lemma transformations_gating_witness :
  generateSolution (createSeededRNG (str "2189-7-26"))
  = (g <- swapBands baseGrid ;; permuteNumbers g)%rand
      (seedAfter 7 (createSeededRNG (str "2189-7-26"))).
Proof.
  apply (transformations_gating (str "2189-7-26") (str "Easy")
           (createSeededRNG (str "2189-7-26"))).
  vm_compute. reflexivity.
Defined.

(** C7 as stated fails.  For the seed "2189-7-26" none of the seventeen
    numbers drawn while the solution is generated exceeds 0.5, so no coin
    flip succeeds, and gating every transformation would return the base
    grid; the generator nevertheless shuffles the bands and relabels the
    digits. *)
Lemma band_shuffle_and_relabelling_not_gated :
  forallb (fun r => negb (gtHalf r))
          (outputs 17 (createSeededRNG (str "2189-7-26"))) = true /\
  snd (generateSolution (createSeededRNG (str "2189-7-26")))
    = seedAfter 17 (createSeededRNG (str "2189-7-26")) /\
  fst (generateSolution_gated (createSeededRNG (str "2189-7-26"))) = baseGrid /\
  fst (generateSolution (createSeededRNG (str "2189-7-26"))) <> baseGrid /\
  fst (generateSolution (createSeededRNG (str "2189-7-26")))
    <> fst (generateSolution_gated (createSeededRNG (str "2189-7-26"))).
Proof.
  split; [|split; [|split; [|split]]]; vm_compute; try reflexivity; discriminate.
Qed.

(** ** The crossword grid: reads and writes never fail inside the grid *)

Import Crossword.

Section GridAccess.

Lemma getRow_Some grid r :
  0 <= r < Z.of_nat (length grid) -> exists x, getRow grid r = Some x.
Proof.
  intros H. unfold getRow.
  destruct (Z.ltb_spec r 0) as [|_]; [lia|].
  destruct (nth_error grid (Z.to_nat r)) as [x|] eqn:E; [eauto|].
  apply nth_error_None in E. lia.
Qed.

Lemma getRow_inside grid r x :
  getRow grid r = Some x -> 0 <= r < Z.of_nat (length grid).
Proof.
  unfold getRow. destruct (Z.ltb_spec r 0) as [|H]; [discriminate|].
  intros E. assert (nth_error grid (Z.to_nat r) <> None) as E' by congruence.
  apply nth_error_Some in E'. lia.
Qed.

Lemma getCell_Some grid r c :
  0 <= r < Z.of_nat (length grid) -> exists x, getCell grid r c = Some x.
Proof.
  intros H. unfold getCell. destruct (getRow_Some grid r H) as [x ->]. eauto.
Qed.

Lemma setCell_Some grid r c v :
  0 <= r < Z.of_nat (length grid) ->
  exists grid', setCell grid r c v = Some grid' /\ length grid' = length grid.
Proof.
  intros H. unfold setCell. destruct (getRow_Some grid r H) as [x ->].
  eexists. split; [reflexivity|]. apply length_set.
Qed.

Lemma setCell_length grid r c v grid' :
  setCell grid r c v = Some grid' -> length grid' = length grid.
Proof.
  unfold setCell. destruct (getRow grid r); [|discriminate].
  intros [= <-]. apply length_set.
Qed.

Lemma occupiedIf_total guard grid r c :
  (guard = true -> 0 <= r < Z.of_nat (length grid)) ->
  exists b, occupiedIf guard grid r c = Some b.
Proof.
  intros H. unfold occupiedIf. destruct guard; [|eauto].
  destruct (getCell_Some grid r c (H eq_refl)) as [x ->]. cbn. eauto.
Qed.

Lemma rejectIf_total cond rest :
  (exists b, cond = Some b) ->
  (cond = Some false -> exists b, rest = Some b) ->
  exists b, rejectIf cond rest = Some b.
Proof.
  intros [[|] ->] H; cbn; [eauto|]. now apply H.
Qed.

Lemma acrossLoop_total grid row col i chars :
  0 <= row < Z.of_nat (length grid) ->
  exists b, acrossLoop grid (Z.of_nat (length grid)) row col i chars = Some b.
Proof.
  intros Hrow. revert i. induction chars as [|char chars IH]; intros i; cbn [acrossLoop].
  - eauto.
  - destruct (getCell_Some grid row (col + i) Hrow) as [x ->].
    apply rejectIf_total; [eauto|]. intros _.
    destruct (notNull x); [apply IH|].
    apply rejectIf_total; [apply occupiedIf_total; lia|]. intros _.
    apply rejectIf_total; [apply occupiedIf_total; lia|]. intros _.
    apply IH.
Qed.

Lemma downLoop_total grid width row col i chars :
  0 <= row + i ->
  row + i + Z.of_nat (length chars) <= Z.of_nat (length grid) ->
  exists b, downLoop grid width row col i chars = Some b.
Proof.
  revert i. induction chars as [|char chars IH]; intros i H0 H1; cbn [downLoop].
  - eauto.
  - cbn [length] in H1.
    assert (Hr : 0 <= row + i < Z.of_nat (length grid)) by lia.
    destruct (getCell_Some grid (row + i) col Hr) as [x ->].
    assert (exists b, downLoop grid width row col (i + 1) chars = Some b)
      by (apply IH; lia).
    apply rejectIf_total; [eauto|]. intros _.
    destruct (notNull x); [assumption|].
    apply rejectIf_total; [apply occupiedIf_total; lia|]. intros _.
    apply rejectIf_total; [apply occupiedIf_total; lia|]. intros _.
    assumption.
Qed.

(** [canPlaceWord] raises no exception when the grid has a row 0 and the
    caller passes a row of the grid (for a word across) or a non-negative
    row (for a word down). *)
Lemma canPlaceWord_total grid word row col direction :
  (0 < length grid)%nat ->
  0 <= row ->
  (direction = across -> row < Z.of_nat (length grid)) ->
  exists b, canPlaceWord grid word row col direction = Some b.
Proof.
  intros Hg H0 Hacross. unfold canPlaceWord.
  destruct (getRow_Some grid 0 ltac:(lia)) as [row0 ->].
  destruct direction.
  - specialize (Hacross eq_refl).
    apply rejectIf_total; [eauto|]. intros _.
    apply rejectIf_total; [apply occupiedIf_total; lia|]. intros _.
    apply rejectIf_total; [apply occupiedIf_total; lia|]. intros _.
    apply acrossLoop_total. lia.
  - apply rejectIf_total; [eauto|]. intros Hfit.
    injection Hfit as Hfit. rewrite Z.gtb_ltb in Hfit. apply Z.ltb_ge in Hfit.
    apply rejectIf_total; [apply occupiedIf_total; lia|]. intros _.
    apply rejectIf_total.
    { apply occupiedIf_total. intros E. apply Z.ltb_lt in E. lia. }
    intros _. apply downLoop_total; lia.
Qed.

Lemma placeLoop_across_total grid row col i chars :
  0 <= row < Z.of_nat (length grid) ->
  exists grid', placeLoop grid row col i across chars = Some grid' /\
                length grid' = length grid.
Proof.
  revert grid i. induction chars as [|char chars IH]; intros grid i H; cbn [placeLoop].
  - eauto.
  - destruct (setCell_Some grid row (col + i) (letter char) H) as (g1 & -> & L1).
    destruct (IH g1 (i + 1)) as (g2 & E & L2); [lia|].
    exists g2. split; [assumption|congruence].
Qed.

Lemma placeLoop_down_total grid row col i chars :
  0 <= row + i ->
  row + i + Z.of_nat (length chars) <= Z.of_nat (length grid) ->
  exists grid', placeLoop grid row col i down chars = Some grid' /\
                length grid' = length grid.
Proof.
  revert grid i. induction chars as [|char chars IH]; intros grid i H0 H1;
    cbn [placeLoop].
  - eauto.
  - cbn [length] in H1.
    destruct (setCell_Some grid (row + i) col (letter char)) as (g1 & -> & L1); [lia|].
    destruct (IH g1 (i + 1)) as (g2 & E & L2); [lia|lia|].
    exists g2. split; [assumption|congruence].
Qed.

Lemma placeLoop_length grid row col i direction chars grid' :
  placeLoop grid row col i direction chars = Some grid' ->
  length grid' = length grid.
Proof.
  revert grid i. induction chars as [|char chars IH]; intros grid i; cbn [placeLoop].
  - now intros [= <-].
  - destruct direction.
    + destruct (setCell grid row (col + i) (letter char)) as [g1|] eqn:E; [|discriminate].
      intros H. rewrite (IH _ _ H). eapply setCell_length; eassumption.
    + destruct (setCell grid (row + i) col (letter char)) as [g1|] eqn:E; [|discriminate].
      intros H. rewrite (IH _ _ H). eapply setCell_length; eassumption.
Qed.

Lemma getCell_setCell grid r c v grid' r' c' :
  setCell grid r c v = Some grid' ->
  getCell grid' r' c'
  = if (r' =? r) && (c' =? c) then Some v else getCell grid r' c'.
Proof.
  unfold setCell. destruct (getRow grid r) as [x|] eqn:Ex; [|discriminate].
  intros [= <-]. pose proof (getRow_inside _ _ _ Ex) as Hr.
  unfold getCell, getRow in *.
  destruct (Z.ltb_spec r 0) as [|_]; [lia|].
  destruct (Z.eqb_spec r' r) as [->|Hne]; cbn [andb].
  - destruct (Z.ltb_spec r 0) as [|_]; [lia|].
    rewrite nth_error_set_same by lia. rewrite Ex. cbn [prop setProp].
    now destruct (c' =? c).
  - destruct (Z.ltb_spec r' 0) as [|H']; [reflexivity|].
    rewrite nth_error_set_other by lia. reflexivity.
Qed.

Lemma rejectIf_true cond rest :
  rejectIf cond rest = Some true -> cond = Some false /\ rest = Some true.
Proof. destruct cond as [[|]|]; cbn; intros H; try discriminate; auto. Qed.

Lemma compatible_cell cell char :
  notNull cell && differs cell char = false -> cell = null \/ cell = letter char.
Proof.
  destruct cell as [| |x]; cbn; intros H; try discriminate; auto.
  apply negb_false_iff, Z.eqb_eq in H. subst. auto.
Qed.

(** What [canPlaceWord] has checked of the cells of the word when it
    answers [true]: each is empty or holds the letter to be written. *)
Lemma acrossLoop_true grid height row col i chars :
  acrossLoop grid height row col i chars = Some true ->
  forall m, (m < length chars)%nat ->
    exists cell, getCell grid row (col + (i + Z.of_nat m)) = Some cell /\
                 (cell = null \/ cell = letter (nth m chars 0)).
Proof.
  revert i. induction chars as [|char chars IH]; intros i H m Hm; cbn [length] in Hm;
    [lia|].
  cbn [acrossLoop] in H.
  destruct (getCell grid row (col + i)) as [cell|] eqn:E; [|discriminate].
  apply rejectIf_true in H. destruct H as [Hc H]. injection Hc as Hc.
  assert (Hrest : acrossLoop grid height row col (i + 1) chars = Some true).
  { destruct (notNull cell); [assumption|].
    apply rejectIf_true in H. destruct H as [_ H].
    apply rejectIf_true in H. now destruct H. }
  destruct m as [|m].
  - exists cell. rewrite Z.add_0_r. split; [assumption|].
    now apply compatible_cell.
  - destruct (IH (i + 1) Hrest m ltac:(lia)) as (cell' & E' & Hcell').
    exists cell'. split; [|assumption].
    rewrite <- E'. f_equal. lia.
Qed.

Lemma downLoop_true grid width row col i chars :
  downLoop grid width row col i chars = Some true ->
  forall m, (m < length chars)%nat ->
    exists cell, getCell grid (row + (i + Z.of_nat m)) col = Some cell /\
                 (cell = null \/ cell = letter (nth m chars 0)).
Proof.
  revert i. induction chars as [|char chars IH]; intros i H m Hm; cbn [length] in Hm;
    [lia|].
  cbn [downLoop] in H.
  destruct (getCell grid (row + i) col) as [cell|] eqn:E; [|discriminate].
  apply rejectIf_true in H. destruct H as [Hc H]. injection Hc as Hc.
  assert (Hrest : downLoop grid width row col (i + 1) chars = Some true).
  { destruct (notNull cell); [assumption|].
    apply rejectIf_true in H. destruct H as [_ H].
    apply rejectIf_true in H. now destruct H. }
  destruct m as [|m].
  - exists cell. rewrite Z.add_0_r. split; [assumption|].
    now apply compatible_cell.
  - destruct (IH (i + 1) Hrest m ltac:(lia)) as (cell' & E' & Hcell').
    exists cell'. split; [|assumption].
    rewrite <- E'. f_equal. lia.
Qed.

Lemma canPlaceWord_true grid word row col d :
  canPlaceWord grid word row col d = Some true ->
  forall m, (m < length word)%nat ->
    exists cell,
      getCell grid (fst (cellOf d row col (Z.of_nat m)))
              (snd (cellOf d row col (Z.of_nat m))) = Some cell /\
      (cell = null \/ cell = letter (nth m word 0)).
Proof.
  unfold canPlaceWord. destruct (getRow grid 0); [|discriminate].
  destruct d; intros H;
    apply rejectIf_true in H; destruct H as [_ H];
    apply rejectIf_true in H; destruct H as [_ H];
    apply rejectIf_true in H; destruct H as [_ H]; intros m Hm; cbn [cellOf fst snd].
  - exact (acrossLoop_true _ _ _ _ 0 _ H m Hm).
  - exact (downLoop_true _ _ _ _ 0 _ H m Hm).
Qed.

(** The grid after [placeWord]: the cells of the word hold its letters and
    the other cells are unchanged. *)
Lemma placeLoop_get grid row col i d chars grid' :
  placeLoop grid row col i d chars = Some grid' ->
  forall r c,
    (exists m, (m < length chars)%nat /\
               (r, c) = cellOf d row col (i + Z.of_nat m) /\
               getCell grid' r c = Some (letter (nth m chars 0))) \/
    ((forall m, (m < length chars)%nat -> (r, c) <> cellOf d row col (i + Z.of_nat m)) /\
     getCell grid' r c = getCell grid r c).
Proof.
  revert grid i. induction chars as [|char chars IH]; intros grid i H r c.
  - injection H as <-. right. split; [|reflexivity]. cbn. intros m Hm. lia.
  - cbn [placeLoop] in H.
    destruct (match d with
              | across => setCell grid row (col + i) (letter char)
              | down => setCell grid (row + i) col (letter char)
              end) as [g1|] eqn:E; [|discriminate].
    assert (E1 : forall r' c', getCell g1 r' c'
                 = if (r' =? fst (cellOf d row col i)) && (c' =? snd (cellOf d row col i))
                   then Some (letter char) else getCell grid r' c').
    { intros r' c'. destruct d; cbn [cellOf fst snd];
        eapply getCell_setCell; eassumption. }
    destruct (IH g1 (i + 1) H r c) as [(m & Hm & Hc & Hg)|[Hnot Hg]].
    + left. exists (S m). cbn [length nth]. split; [lia|]. split; [|assumption].
      rewrite Hc. f_equal. lia.
    + rewrite E1 in Hg.
      destruct (Z.eqb_spec r (fst (cellOf d row col i))) as [Er|Er]; cbn [andb] in Hg.
      * destruct (Z.eqb_spec c (snd (cellOf d row col i))) as [Ec|Ec].
        -- left. exists 0%nat. cbn [length nth]. split; [lia|]. split; [|assumption].
           rewrite Z.add_0_r. rewrite Er, Ec. now destruct (cellOf d row col i).
        -- right. split; [|assumption]. intros [|m] Hm Hc.
           ++ rewrite Z.add_0_r in Hc. rewrite <- Hc in Ec. now cbn in Ec.
           ++ apply (Hnot m); [cbn [length] in Hm; lia|].
              rewrite Hc. f_equal. lia.
      * right. split; [|assumption]. intros [|m] Hm Hc.
        -- rewrite Z.add_0_r in Hc. rewrite <- Hc in Er. now cbn in Er.
        -- apply (Hnot m); [cbn [length] in Hm; lia|].
           rewrite Hc. f_equal. lia.
Qed.

Lemma cellOf_inj d row col i j : cellOf d row col i = cellOf d row col j -> i = j.
Proof. destruct d; cbn; intros [= H]; lia. Qed.

Lemma occupiedIf_false guard grid r c :
  occupiedIf guard grid r c = Some false ->
  guard = true -> getCell grid r c = Some null.
Proof.
  unfold occupiedIf. intros H ->.
  destruct (getCell grid r c) as [[| |x]|]; cbn in H; congruence.
Qed.

(** What [canPlaceWord] has checked of the two ends when it answers
    [true]. *)
Lemma canPlaceWord_across_ends grid word row col :
  canPlaceWord grid word row col across = Some true ->
  exists row0,
    getRow grid 0 = Some row0 /\
    col + Z.of_nat (length word) <= len row0 /\
    (0 < col -> getCell grid row (col - 1) = Some null) /\
    (col + Z.of_nat (length word) < len row0 ->
     getCell grid row (col + Z.of_nat (length word)) = Some null).
Proof.
  unfold canPlaceWord. destruct (getRow grid 0) as [row0|]; [|discriminate].
  intros H. exists row0. split; [reflexivity|].
  apply rejectIf_true in H. destruct H as [H1 H].
  apply rejectIf_true in H. destruct H as [H2 H].
  apply rejectIf_true in H. destruct H as [H3 _].
  injection H1 as H1. rewrite Z.gtb_ltb in H1. apply Z.ltb_ge in H1.
  repeat split.
  - exact H1.
  - intros Hc. apply (occupiedIf_false _ _ _ _ H2). now apply Z.gtb_lt.
  - intros Hc. apply (occupiedIf_false _ _ _ _ H3). now apply Z.ltb_lt.
Qed.

Lemma canPlaceWord_down_ends grid word row col :
  canPlaceWord grid word row col down = Some true ->
  row + Z.of_nat (length word) <= Z.of_nat (length grid) /\
  (0 < row -> getCell grid (row - 1) col = Some null) /\
  (row + Z.of_nat (length word) < Z.of_nat (length grid) ->
   getCell grid (row + Z.of_nat (length word)) col = Some null).
Proof.
  unfold canPlaceWord. destruct (getRow grid 0) as [row0|]; [|discriminate].
  intros H.
  apply rejectIf_true in H. destruct H as [H1 H].
  apply rejectIf_true in H. destruct H as [H2 H].
  apply rejectIf_true in H. destruct H as [H3 _].
  injection H1 as H1. rewrite Z.gtb_ltb in H1. apply Z.ltb_ge in H1.
  repeat split.
  - exact H1.
  - intros Hc. apply (occupiedIf_false _ _ _ _ H2). now apply Z.gtb_lt.
  - intros Hc. apply (occupiedIf_false _ _ _ _ H3). now apply Z.ltb_lt.
Qed.

(** Row 0 only grows. *)
Lemma setCell_row0 grid r c v grid' row0 :
  getRow grid 0 = Some row0 ->
  setCell grid r c v = Some grid' ->
  exists row0', getRow grid' 0 = Some row0' /\ len row0 <= len row0'.
Proof.
  unfold setCell. destruct (getRow grid r) as [x|] eqn:Ex; [|discriminate].
  intros E0 [= <-]. pose proof (getRow_inside _ _ _ Ex) as Hr.
  unfold getRow in *. cbn [Z.ltb Z.compare Z.to_nat] in *.
  destruct (Z.ltb_spec r 0) as [|_]; [lia|].
  destruct (Nat.eq_dec (Z.to_nat r) 0) as [E|E].
  - rewrite E in *. rewrite nth_error_set_same by lia.
    rewrite E0 in Ex. injection Ex as <-.
    eexists. split; [reflexivity|]. cbn [len setProp].
    destruct ((0 <=? c) && (len row0 <=? c)) eqn:B; [|lia].
    apply andb_prop in B. destruct B as [_ B]. apply Z.leb_le in B. lia.
  - rewrite nth_error_set_other by assumption.
    exists row0. split; [assumption|lia].
Qed.

Lemma placeLoop_row0 grid row col i d chars grid' row0 :
  getRow grid 0 = Some row0 ->
  placeLoop grid row col i d chars = Some grid' ->
  exists row0', getRow grid' 0 = Some row0' /\ len row0 <= len row0'.
Proof.
  revert grid i row0. induction chars as [|char chars IH]; intros grid i row0 E0 H.
  - injection H as <-. exists row0. split; [assumption|lia].
  - cbn [placeLoop] in H.
    destruct (match d with
              | across => setCell grid row (col + i) (letter char)
              | down => setCell grid (row + i) col (letter char)
              end) as [g1|] eqn:E; [|discriminate].
    assert (exists r1, getRow g1 0 = Some r1 /\ len row0 <= len r1) as (r1 & E1 & L1)
        by (destruct d; eapply setCell_row0; eassumption).
    destruct (IH g1 (i + 1) r1 E1 H) as (r2 & E2 & L2).
    exists r2. split; [assumption|lia].
Qed.

End GridAccess.

(** ** Invariants of the placement loops

    [Inv grid placedWords] is any property of the grid and of the list of
    placed words that gives the height of the grid and the rows of the words
    placed down, and that each successful placement preserves.  The loops
    then raise no exception, only append to the list, and preserve [Inv]. *)

Section LayoutInvariant.

Variable size : Z.
Variable Inv : Grid -> list PlacedWord -> Prop.

Hypothesis Inv_height :
  forall grid placed, Inv grid placed -> Z.of_nat (length grid) = size.

Hypothesis Inv_down :
  forall grid placed w,
    Inv grid placed -> In w placed -> direction w = down ->
    0 <= row w /\ row w + wlen w <= size.

Hypothesis Inv_place_down :
  forall grid placed w P j k grid',
    Inv grid placed -> In P placed -> direction P = across ->
    0 <= j < alen w -> 0 <= k < wlen P ->
    nth_error (answer w) (Z.to_nat j) = nth_error (answer (entry P)) (Z.to_nat k) ->
    0 <= row P - j -> row P - j + alen w <= size ->
    canPlaceWord grid (answer w) (row P - j) (col P + k) down = Some true ->
    placeWord grid (answer w) (row P - j) (col P + k) down = Some grid' ->
    Inv grid' (placed ++ [{| entry := w; row := row P - j; col := col P + k;
                             direction := down |}]).

Hypothesis Inv_place_across :
  forall grid placed w P j k grid',
    Inv grid placed -> In P placed -> direction P = down ->
    0 <= j < alen w -> 0 <= k < wlen P ->
    nth_error (answer w) (Z.to_nat j) = nth_error (answer (entry P)) (Z.to_nat k) ->
    0 <= col P - j -> col P - j + alen w <= size ->
    canPlaceWord grid (answer w) (row P + k) (col P - j) across = Some true ->
    placeWord grid (answer w) (row P + k) (col P - j) across = Some grid' ->
    Inv grid' (placed ++ [{| entry := w; row := row P + k; col := col P - j;
                             direction := across |}]).

Lemma Extends_refl grid placed flag :
  Inv grid placed -> Extends Inv placed (Some (grid, placed, flag)).
Proof.
  intros H. exists grid, [], flag. rewrite app_nil_r. auto.
Qed.

Lemma nth_error_middle {A} (pre : list A) x rest :
  nth_error (pre ++ x :: rest) (length pre) = Some x.
Proof.
  rewrite nth_error_app2 by lia. now rewrite Nat.sub_diag.
Qed.

Lemma tryIntersection_Extends w P j k grid placed flag prej char restj prek restk :
  Inv grid placed -> In P placed ->
  answer w = prej ++ char :: restj -> j = Z.of_nat (length prej) ->
  answer (entry P) = prek ++ char :: restk -> k = Z.of_nat (length prek) ->
  Extends Inv placed (tryIntersection size w P j k (grid, placed, flag)).
Proof.
  intros HI HP Ew Ej EP Ek.
  pose proof (Inv_height _ _ HI) as Hlen.
  assert (Hj : 0 <= j < alen w).
  { unfold alen. rewrite Ew, length_app. cbn [length]. lia. }
  assert (Hk : 0 <= k < wlen P).
  { unfold wlen, alen. rewrite EP, length_app. cbn [length]. lia. }
  assert (Hnth : nth_error (answer w) (Z.to_nat j)
                 = nth_error (answer (entry P)) (Z.to_nat k)).
  { subst j k. rewrite !Nat2Z.id, Ew, EP. now rewrite !nth_error_middle. }
  unfold tryIntersection. destruct (direction P) eqn:D.
  - destruct (Z.geb_spec (row P - j) 0) as [G1|G1]; cbn [andb];
      [|now apply Extends_refl].
    destruct (Z.leb_spec (row P - j + alen w) size) as [G2|G2];
      [|now apply Extends_refl].
    destruct (canPlaceWord_total grid (answer w) (row P - j) (col P + k) down)
      as [[|] C]; [lia|lia|discriminate| |]; rewrite C; [|now apply Extends_refl].
    destruct (placeLoop_down_total grid (row P - j) (col P + k) 0 (answer w))
      as (g' & E & L); [lia|unfold alen in G2; lia|].
    unfold placeWord. rewrite E.
    exists g', [{| entry := w; row := row P - j; col := col P + k; direction := down |}], true.
    split; [reflexivity|].
    eapply Inv_place_down; eauto; lia.
  - destruct (Inv_down _ _ _ HI HP D) as [R1 R2].
    destruct (Z.geb_spec (col P - j) 0) as [G1|G1]; cbn [andb];
      [|now apply Extends_refl].
    destruct (Z.leb_spec (col P - j + alen w) size) as [G2|G2];
      [|now apply Extends_refl].
    destruct (canPlaceWord_total grid (answer w) (row P + k) (col P - j) across)
      as [[|] C]; [lia|lia|intros _; lia| |]; rewrite C; [|now apply Extends_refl].
    destruct (placeLoop_across_total grid (row P + k) (col P - j) 0 (answer w))
      as (g' & E & L); [lia|].
    unfold placeWord. rewrite E.
    exists g', [{| entry := w; row := row P + k; col := col P - j; direction := across |}], true.
    split; [reflexivity|].
    eapply Inv_place_across; eauto; lia.
Qed.

Lemma Extends_bind placed (r : option LoopState) (f : LoopState -> option LoopState) :
  Extends Inv placed r ->
  (forall grid' extra flag,
      Inv grid' (placed ++ extra) ->
      Extends Inv (placed ++ extra) (f (grid', placed ++ extra, flag))) ->
  Extends Inv placed (match r with Some st => f st | None => None end).
Proof.
  intros (g1 & extra1 & flag1 & -> & HI1) Hf.
  destruct (Hf g1 extra1 flag1 HI1) as (g2 & extra2 & flag2 & E & HI2).
  exists g2, (extra1 ++ extra2), flag2. rewrite app_assoc. auto.
Qed.

Lemma kLoop_Extends w P j char prej restj pchars :
  answer w = prej ++ char :: restj -> j = Z.of_nat (length prej) ->
  forall prek k grid placed flag,
    Inv grid placed -> In P placed ->
    answer (entry P) = prek ++ pchars -> k = Z.of_nat (length prek) ->
    Extends Inv placed (kLoop size w P j char k pchars (grid, placed, flag)).
Proof.
  intros Ew Ej.
  induction pchars as [|pc pchars IH]; intros prek k grid placed flag HI HP EP Ek;
    cbn [kLoop].
  - now apply Extends_refl.
  - apply Extends_bind.
    + destruct (Z.eqb_spec pc char) as [->|_]; [|now apply Extends_refl].
      eapply tryIntersection_Extends; eauto.
    + intros g' extra flag' HI'.
      apply (IH (prek ++ [pc])); auto.
      * apply in_or_app. now left.
      * rewrite <- app_assoc. exact EP.
      * rewrite length_app. cbn [length]. lia.
Qed.

Lemma jLoop_Extends w P chars :
  forall prej j grid placed flag,
    Inv grid placed -> In P placed ->
    answer w = prej ++ chars -> j = Z.of_nat (length prej) ->
    Extends Inv placed (jLoop size w P j chars (grid, placed, flag)).
Proof.
  induction chars as [|char chars IH]; intros prej j grid placed flag HI HP Ew Ej;
    cbn [jLoop].
  - now apply Extends_refl.
  - cbn [snd]. destruct flag; [now apply Extends_refl|].
    apply Extends_bind.
    + eapply (kLoop_Extends w P j char prej chars) with (prek := []); eauto.
    + intros g' extra flag' HI'.
      apply (IH (prej ++ [char])); auto.
      * apply in_or_app. now left.
      * rewrite <- app_assoc. exact Ew.
      * rewrite length_app. cbn [length]. lia.
Qed.

Lemma ofLoop_Extends w todo :
  forall grid placed flag,
    Inv grid placed -> incl todo placed ->
    Extends Inv placed (ofLoop size w todo (grid, placed, flag)).
Proof.
  induction todo as [|P todo IH]; intros grid placed flag HI Hincl; cbn [ofLoop].
  - now apply Extends_refl.
  - cbn [snd]. destruct flag; [now apply Extends_refl|].
    apply Extends_bind.
    + apply (jLoop_Extends w P (answer w) []); auto.
      apply Hincl. now left.
    + intros g' extra flag' HI'. apply IH; auto.
      intros x Hx. apply in_or_app. left. apply Hincl. now right.
Qed.

Lemma tryWord_Extends grid placed w :
  Inv grid placed -> Extends2 Inv placed (tryWord size (grid, placed) w).
Proof.
  intros HI. unfold tryWord.
  destruct (existsb _ placed).
  - exists grid, []. rewrite app_nil_r. auto.
  - destruct (ofLoop_Extends w placed grid placed false HI (incl_refl _))
      as (g' & extra & flag & -> & HI').
    exists g', extra. auto.
Qed.

Lemma iLoop_Extends remaining :
  forall grid placed,
    Inv grid placed -> Extends2 Inv placed (iLoop size remaining (grid, placed)).
Proof.
  induction remaining as [|w remaining IH]; intros grid placed HI; cbn [iLoop].
  - exists grid, []. rewrite app_nil_r. auto.
  - destruct (tryWord_Extends grid placed w HI) as (g1 & extra1 & -> & HI1).
    destruct (IH g1 (placed ++ extra1) HI1) as (g2 & extra2 & -> & HI2).
    exists g2, (extra1 ++ extra2). rewrite app_assoc. auto.
Qed.

(** Both passes. *)
Lemma passes_Extends remaining grid placed :
  Inv grid placed ->
  Extends2 Inv placed
    (match iLoop size remaining (grid, placed) with
     | None => None
     | Some st => iLoop size remaining st
     end).
Proof.
  intros HI.
  destruct (iLoop_Extends remaining grid placed HI) as (g1 & extra1 & -> & HI1).
  destruct (iLoop_Extends remaining g1 (placed ++ extra1) HI1) as (g2 & extra2 & -> & HI2).
  exists g2, (extra1 ++ extra2). rewrite app_assoc. auto.
Qed.

End LayoutInvariant.

(** ** The layout returns, and keeps the first word at the head *)

Section LayoutResult.

Variable size : Z.

Lemma InvRows_generic :
  (forall grid placed, InvRows size grid placed -> Z.of_nat (length grid) = size) /\
  (forall grid placed w,
      InvRows size grid placed -> In w placed -> direction w = down ->
      0 <= row w /\ row w + wlen w <= size).
Proof.
  split.
  - now intros grid placed [H _].
  - intros grid placed w [_ H] Hw. rewrite Forall_forall in H. now apply H.
Qed.

Lemma InvRows_place grid placed w r c d grid' :
  InvRows size grid placed ->
  (d = down -> 0 <= r /\ r + alen w <= size) ->
  placeWord grid (answer w) r c d = Some grid' ->
  InvRows size grid' (placed ++ [{| entry := w; row := r; col := c; direction := d |}]).
Proof.
  intros [Hlen Hall] Hd E. split.
  - unfold placeWord in E. apply placeLoop_length in E. congruence.
  - apply Forall_app. split; [assumption|].
    constructor; [|constructor]. exact Hd.
Qed.

Lemma InvInside_place grid placed w r c d grid' :
  InvInside size grid placed ->
  inGrid size {| entry := w; row := r; col := c; direction := d |} ->
  placeWord grid (answer w) r c d = Some grid' ->
  InvInside size grid' (placed ++ [{| entry := w; row := r; col := c; direction := d |}]).
Proof.
  intros [Hlen Hall] Hd E. split.
  - unfold placeWord in E. apply placeLoop_length in E. congruence.
  - apply Forall_app. split; [assumption|]. constructor; [|constructor]. exact Hd.
Qed.

Lemma InvInside_In grid placed w :
  InvInside size grid placed -> In w placed -> inGrid size w.
Proof. intros [_ H] Hw. rewrite Forall_forall in H. now apply H. Qed.

(** The two passes, under each invariant. *)
Lemma passes_InvRows remaining grid placed :
  InvRows size grid placed ->
  Extends2 (InvRows size) placed
    (match iLoop size remaining (grid, placed) with
     | None => None
     | Some st => iLoop size remaining st
     end).
Proof.
  apply passes_Extends.
  - apply InvRows_generic.
  - apply InvRows_generic.
  - intros g p w P j k g' HI HP D Hj Hk _ G1 G2 _ E.
    eapply InvRows_place; eauto.
  - intros g p w P j k g' HI HP D Hj Hk _ G1 G2 _ E.
    eapply InvRows_place; eauto. discriminate.
Qed.

Lemma passes_InvInside remaining grid placed :
  InvInside size grid placed ->
  Extends2 (InvInside size) placed
    (match iLoop size remaining (grid, placed) with
     | None => None
     | Some st => iLoop size remaining st
     end).
Proof.
  apply passes_Extends.
  - now intros g p [H _].
  - intros g p w HI Hw D. destruct (InvInside_In _ _ _ HI Hw) as (R & C & H).
    rewrite D in H. lia.
  - intros g p w P j k g' HI HP D Hj Hk _ G1 G2 _ E.
    eapply InvInside_place; eauto.
    destruct (InvInside_In _ _ _ HI HP) as (R & C & H). rewrite D in H.
    unfold inGrid, wlen. cbn. unfold wlen in *. lia.
  - intros g p w P j k g' HI HP D Hj Hk _ G1 G2 _ E.
    eapply InvInside_place; eauto.
    destruct (InvInside_In _ _ _ HI HP) as (R & C & H). rewrite D in H.
    unfold inGrid, wlen. cbn. unfold wlen in *. lia.
Qed.

Lemma length_newGrid : 0 <= size -> Z.of_nat (length (newGrid size)) = size.
Proof. intros H. unfold newGrid. rewrite repeat_length. lia. Qed.

(** Placing the first word raises no exception when the grid has a row,
    or the word no letter. *)
Lemma place_first first :
  0 <= size -> 0 < size \/ answer first = [] ->
  exists grid,
    placeWord (newGrid size) (answer first) (size / 2) ((size - alen first) / 2) across
    = Some grid /\
    Z.of_nat (length grid) = size.
Proof.
  intros H0 [Hs|He].
  - destruct (placeLoop_across_total (newGrid size) (size / 2)
                ((size - alen first) / 2) 0 (answer first)) as (g & E & L).
    + rewrite length_newGrid by assumption.
      split; [apply Z.div_pos; lia|apply Z.div_lt_upper_bound; lia].
    + exists g. split; [exact E|]. rewrite L. now apply length_newGrid.
  - rewrite He. exists (newGrid size). split; [reflexivity|now apply length_newGrid].
Qed.

(** The shape of the result of [generateGridLayout]. *)
Lemma layout_shape (Inv : Grid -> list PlacedWord -> Prop) wordsData first remaining :
  0 <= size -> 0 < size \/ answer first = [] ->
  sortWords wordsData = first :: remaining ->
  (forall grid placed,
      Inv grid placed ->
      Extends2 Inv placed
        (match iLoop size remaining (grid, placed) with
         | None => None
         | Some st => iLoop size remaining st
         end)) ->
  (forall grid, Z.of_nat (length grid) = size -> Inv grid [firstPlaced size first]) ->
  exists rest,
    generateGridLayout wordsData size = Some (firstPlaced size first :: rest) /\
    exists grid, Inv grid (firstPlaced size first :: rest).
Proof.
  intros H0 H1 Hsort Hpasses Hfirst.
  unfold generateGridLayout, layout.
  destruct (Z.ltb_spec size 0) as [|_]; [lia|].
  rewrite Hsort.
  destruct (place_first first H0 H1) as (g1 & -> & L1).
  fold (firstPlaced size first).
  destruct (Hpasses g1 [firstPlaced size first] (Hfirst g1 L1))
    as (g2 & extra & -> & HI).
  exists extra. cbn. eauto.
Qed.

(** Whatever [generateGridLayout] returns starts with the first word and
    satisfies the invariant. *)
Lemma layout_result (Inv : Grid -> list PlacedWord -> Prop) wordsData out :
  generateGridLayout wordsData size = Some out ->
  (forall remaining grid placed,
      Inv grid placed ->
      Extends2 Inv placed
        (match iLoop size remaining (grid, placed) with
         | None => None
         | Some st => iLoop size remaining st
         end)) ->
  (forall first remaining grid,
      sortWords wordsData = first :: remaining ->
      placeWord (newGrid size) (answer first) (size / 2) ((size - alen first) / 2) across
      = Some grid ->
      0 <= size ->
      Inv grid [firstPlaced size first]) ->
  (sortWords wordsData = [] /\ out = []) \/
  exists first remaining rest grid,
    sortWords wordsData = first :: remaining /\
    out = firstPlaced size first :: rest /\
    Inv grid out.
Proof.
  intros E Hpasses Hfirst. unfold generateGridLayout, layout in E.
  destruct (Z.ltb_spec size 0) as [|H0]; [discriminate|].
  destruct (sortWords wordsData) as [|first remaining] eqn:Hs.
  { injection E as <-. now left. }
  destruct (placeWord (newGrid size) (answer first) (size / 2)
                      ((size - alen first) / 2) across) as [g1|] eqn:E1;
    [|discriminate].
  fold (firstPlaced size first) in E.
  destruct (Hpasses remaining g1 [firstPlaced size first]
                    (Hfirst first remaining g1 eq_refl E1 H0))
    as (g2 & extra & E2 & HI).
  rewrite E2 in E. injection E as <-. right.
  exists first, remaining, extra, g2. auto.
Qed.

Lemma holdsLetters_place grid placed w r c d grid' :
  holdsLetters grid placed ->
  canPlaceWord grid (answer w) r c d = Some true ->
  placeWord grid (answer w) r c d = Some grid' ->
  holdsLetters grid'
    (placed ++ [{| entry := w; row := r; col := c; direction := d |}]).
Proof.
  intros Hold Hcan Hplace w0 Hin m Hm.
  unfold placeWord in Hplace.
  assert (Hnew : forall i, cellAt {| entry := w; row := r; col := c; direction := d |} i
                           = cellOf d r c i) by (intros i; now destruct d).
  destruct (placeLoop_get _ _ _ _ _ _ _ Hplace
              (fst (cellAt w0 m)) (snd (cellAt w0 m)))
    as [(m' & Hm' & Hc & Hg)|[Hnot Hg]].
  - rewrite Hg. do 2 f_equal.
    rewrite <- surjective_pairing, Z.add_0_l in Hc.
    apply in_app_or in Hin. destruct Hin as [Hin|[<-|[]]].
    + destruct (canPlaceWord_true _ _ _ _ _ Hcan m' Hm') as (cell & Ecell & Hcell).
      rewrite <- Hc in Ecell. rewrite (Hold w0 Hin m Hm) in Ecell.
      injection Ecell as <-. destruct Hcell as [Hcell|Hcell]; [discriminate|].
      now injection Hcell.
    + rewrite Hnew in Hc. apply cellOf_inj in Hc. subst m.
      now rewrite Nat2Z.id.
  - apply in_app_or in Hin. destruct Hin as [Hin|[<-|[]]].
    + rewrite Hg. now apply Hold.
    + exfalso. apply (Hnot (Z.to_nat m)).
      * unfold wlen, alen in Hm. cbn [entry] in Hm. lia.
      * rewrite <- surjective_pairing, Hnew. f_equal. lia.
Qed.

Lemma passes_InvLetters remaining grid placed :
  InvLetters size grid placed ->
  Extends2 (InvLetters size) placed
    (match iLoop size remaining (grid, placed) with
     | None => None
     | Some st => iLoop size remaining st
     end).
Proof.
  apply passes_Extends.
  - now intros g p [H _].
  - intros g p w (_ & H & _) Hw. rewrite Forall_forall in H. now apply H.
  - intros g p w P j k g' (L & R & Hold) HP D Hj Hk _ G1 G2 C E.
    destruct (InvRows_place g p w (row P - j) (col P + k) down g' (conj L R)) as [L' R'];
      auto.
    repeat split; auto. eapply holdsLetters_place; eauto.
  - intros g p w P j k g' (L & R & Hold) HP D Hj Hk _ G1 G2 C E.
    destruct (InvRows_place g p w (row P + k) (col P - j) across g' (conj L R)) as [L' R'];
      auto; [discriminate|].
    repeat split; auto. eapply holdsLetters_place; eauto.
Qed.

Lemma holdsLetters_first first grid :
  placeWord (newGrid size) (answer first) (size / 2) ((size - alen first) / 2) across
  = Some grid ->
  holdsLetters grid [firstPlaced size first].
Proof.
  intros E w [<-|[]] m Hm. unfold placeWord in E.
  destruct (placeLoop_get _ _ _ _ _ _ _ E
              (fst (cellAt (firstPlaced size first) m))
              (snd (cellAt (firstPlaced size first) m)))
    as [(m' & Hm' & Hc & Hg)|[Hnot Hg]].
  - rewrite Hg. do 2 f_equal.
    rewrite <- surjective_pairing, Z.add_0_l in Hc.
    change (cellAt (firstPlaced size first) m)
      with (cellOf across (size / 2) ((size - alen first) / 2) m) in Hc.
    apply cellOf_inj in Hc. subst m. now rewrite Nat2Z.id.
  - exfalso. apply (Hnot (Z.to_nat m)).
    + unfold wlen, alen, firstPlaced in Hm. cbn [entry] in Hm. lia.
    + rewrite <- surjective_pairing.
      change (cellAt (firstPlaced size first) m)
        with (cellOf across (size / 2) ((size - alen first) / 2) m).
      f_equal. lia.
Qed.

End LayoutResult.

(** ** The head of the sorted list *)

Section SortWords.

(** The first word of the sorted list is the earliest of the longest words
    of the input. *)
Lemma sortWords_head wordsData :
  wordsData <> [] ->
  exists first remaining pre post,
    sortWords wordsData = first :: remaining /\
    wordsData = pre ++ first :: post /\
    (forall w, In w pre -> alen w < alen first) /\
    (forall w, In w post -> alen w <= alen first).
Proof.
  induction wordsData as [|x ws IH]; intros Hne; [contradiction|].
  cbn [sortWords fold_right]. fold (sortWords ws).
  destruct ws as [|y ws'].
  - exists x, [], [], []. cbn. repeat split; intros w [].
  - destruct IH as (f & tl & pre & post & Hs & Hw & Hpre & Hpost); [discriminate|].
    rewrite Hs. cbn [insertWord].
    destruct (Z.ltb_spec (alen x) (alen f)) as [Hlt|Hge].
    + exists f, (insertWord x tl), (x :: pre), post.
      repeat split; auto.
      * rewrite Hw. reflexivity.
      * intros w [<-|Hin]; auto.
    + exists x, (f :: tl), [], (y :: ws').
      repeat split; auto.
      * intros w [].
      * intros w Hin. rewrite Hw in Hin.
        apply in_app_or in Hin. destruct Hin as [Hin|[<-|Hin]].
        -- specialize (Hpre w Hin). lia.
        -- lia.
        -- specialize (Hpost w Hin). lia.
Qed.

Lemma insertWord_In w x sorted : In x (insertWord w sorted) -> x = w \/ In x sorted.
Proof.
  induction sorted as [|y sorted IH]; cbn [insertWord].
  - intros [<-|[]]. now left.
  - destruct (alen w <? alen y).
    + intros [<-|H]; [right; now left|].
      destruct (IH H) as [->|H']; [now left|right; now right].
    + intros [<-|H]; [now left|now right].
Qed.

Lemma sortWords_In wordsData x : In x (sortWords wordsData) -> In x wordsData.
Proof.
  induction wordsData as [|w ws IH]; cbn [sortWords fold_right]; [auto|].
  fold (sortWords ws). intros H.
  destruct (insertWord_In _ _ _ H) as [->|H']; [now left|right; auto].
Qed.

End SortWords.

(** ** Claims about the first word and about the bounds *)

Lemma InvRows_first size first grid :
  placeWord (newGrid size) (answer first) (size / 2) ((size - alen first) / 2) across
  = Some grid ->
  0 <= size ->
  InvRows size grid [firstPlaced size first].
Proof.
  intros E H0. split.
  - unfold placeWord in E. apply placeLoop_length in E.
    rewrite E. now apply length_newGrid.
  - constructor; [|constructor]. intros D. discriminate D.
Qed.

(** C9.  For a non-empty word list, the list returned by the layout starts
    with the first word of the sorted list, the earliest of the longest
    answers, placed across at row floor(size/2) and column
    floor((size - length)/2); and the layout does return a list when the
    grid has at least one row. *)
Theorem first_word_centered (wordsData : list WordEntry) (size : Z) :
  wordsData <> [] ->
  exists first remaining pre post,
    sortWords wordsData = first :: remaining /\
    wordsData = pre ++ first :: post /\
    (forall w, In w pre -> alen w < alen first) /\
    (forall w, In w post -> alen w <= alen first) /\
    (forall out,
        generateGridLayout wordsData size = Some out ->
        exists rest,
          out = {| entry := first; row := size / 2;
                   col := (size - alen first) / 2; direction := across |} :: rest) /\
    (0 < size -> exists out, generateGridLayout wordsData size = Some out).
Proof.
  intros Hne.
  destruct (sortWords_head wordsData Hne)
    as (first & remaining & pre & post & Hs & Hw & Hpre & Hpost).
  exists first, remaining, pre, post. repeat split; auto.
  - intros out E.
    destruct (layout_result size (InvRows size) wordsData out E)
      as [[Hnil _]|(first' & remaining' & rest & g & Hs' & -> & _)].
    + intros rem grid placed. apply passes_InvRows.
    + intros f rem grid _. apply InvRows_first.
    + congruence.
    + rewrite Hs in Hs'. injection Hs' as <- <-. now exists rest.
  - intros Hsize.
    destruct (layout_shape size (InvRows size) wordsData first remaining)
      as (rest & E & _); auto; try lia.
    + intros grid placed. apply passes_InvRows.
    + intros grid L. split; [assumption|].
      constructor; [|constructor]. intros D. discriminate D.
    + eauto.
Qed.

Lemma first_word_centered_witness :
  exists first remaining pre post,
    sortWords [mkWord "GRID"; mkWord "LOGIC"] = first :: remaining /\
    [mkWord "GRID"; mkWord "LOGIC"] = pre ++ first :: post /\
    (forall w, In w pre -> alen w < alen first) /\
    (forall w, In w post -> alen w <= alen first) /\
    (forall out,
        generateGridLayout [mkWord "GRID"; mkWord "LOGIC"] 12 = Some out ->
        exists rest,
          out = {| entry := first; row := 12 / 2;
                   col := (12 - alen first) / 2; direction := across |} :: rest) /\
    (0 < 12 -> exists out, generateGridLayout [mkWord "GRID"; mkWord "LOGIC"] 12 = Some out).
Proof.
  apply (first_word_centered [mkWord "GRID"; mkWord "LOGIC"] 12). discriminate.
Defined.

Lemma length_zero_nil {A} (l : list A) : Z.of_nat (length l) <= 0 -> l = [].
Proof. destruct l; cbn [length]; [reflexivity|lia]. Qed.

Lemma inGrid_first size first :
  0 <= size -> alen first <= size -> inGrid size (firstPlaced size first).
Proof.
  intros H0 H. unfold inGrid, firstPlaced, wlen. cbn.
  assert (0 <= alen first) by (unfold alen; lia).
  repeat split.
  - apply Z.div_pos; lia.
  - apply Z.div_pos; lia.
  - assert ((size - alen first) / 2 <= size - alen first)
      by (apply Z.div_le_upper_bound; lia).
    lia.
  - intros Hpos. apply Z.div_lt_upper_bound; lia.
Qed.

Lemma inGrid_bounds size w :
  inGrid size w ->
  0 <= row w /\ 0 <= col w /\ lastIndex w < size /\
  (forall i, 0 <= i < wlen w ->
             0 <= fst (cellAt w i) < size /\ 0 <= snd (cellAt w i) < size).
Proof.
  unfold inGrid, lastIndex, cellAt. intros (R & C & H).
  destruct (direction w); cbn [fst snd]; repeat split; try lia.
Qed.

(** C10.  If every answer is at most [size] long, every word of the output
    lies inside the grid: its row and column are at least 0, the index of
    its last cell along its direction is below [size], and so are both
    coordinates of each of its cells. *)
Theorem placed_words_inside_grid
        (wordsData : list WordEntry) (size : Z) (out : list PlacedWord) :
  (forall w, In w wordsData -> alen w <= size) ->
  generateGridLayout wordsData size = Some out ->
  forall w, In w out ->
    0 <= row w /\ 0 <= col w /\ lastIndex w < size /\
    (forall i, 0 <= i < wlen w ->
               0 <= fst (cellAt w i) < size /\ 0 <= snd (cellAt w i) < size).
Proof.
  intros Hlen E w Hw. apply inGrid_bounds.
  destruct (layout_result size (InvInside size) wordsData out E)
    as [[_ ->]|(first & remaining & rest & g & Hs & -> & _ & Hall)].
  - intros rem grid placed. apply passes_InvInside.
  - intros first remaining grid Hs E1 H0.
    destruct (InvRows_first size first grid E1 H0) as [L _].
    split; [assumption|].
    constructor; [|constructor]. apply inGrid_first; [assumption|].
    apply Hlen. apply (sortWords_In wordsData). rewrite Hs. now left.
  - contradiction.
  - rewrite Forall_forall in Hall. now apply Hall.
Qed.

Lemma placed_words_inside_grid_witness :
  0 <= row {| entry := mkWord "GRID"; row := 6; col := 5; direction := down |} /\
  0 <= col {| entry := mkWord "GRID"; row := 6; col := 5; direction := down |} /\
  lastIndex {| entry := mkWord "GRID"; row := 6; col := 5; direction := down |} < 12 /\
  (forall i,
      0 <= i < wlen {| entry := mkWord "GRID"; row := 6; col := 5; direction := down |} ->
      0 <= fst (cellAt {| entry := mkWord "GRID"; row := 6; col := 5;
                          direction := down |} i) < 12 /\
      0 <= snd (cellAt {| entry := mkWord "GRID"; row := 6; col := 5;
                          direction := down |} i) < 12).
Proof.
  apply (placed_words_inside_grid
           [mkWord "LOGIC"; mkWord "GRID"] 12
           [ {| entry := mkWord "LOGIC"; row := 6; col := 3; direction := across |};
             {| entry := mkWord "GRID"; row := 6; col := 5; direction := down |} ]).
  - intros w [<-|[<-|[]]]; vm_compute; discriminate.
  - vm_compute. reflexivity.
  - right. left. reflexivity.
Defined.

(** X1.  On every input, two placed words never give different letters to
    a common cell, because the grid holds the letters of all of them. *)
Lemma layout_no_conflict wordsData size out w w' m m' :
  generateGridLayout wordsData size = Some out ->
  In w out -> In w' out ->
  0 <= m < wlen w -> 0 <= m' < wlen w' ->
  cellAt w m = cellAt w' m' ->
  nth (Z.to_nat m) (answer (entry w)) 0 = nth (Z.to_nat m') (answer (entry w')) 0.
Proof.
  intros E Hw Hw' Hm Hm' Hcell.
  destruct (layout_result size (InvLetters size) wordsData out E)
    as [[_ ->]|(first & remaining & rest & g & _ & _ & _ & _ & Hold)].
  - intros remaining grid placed. apply passes_InvLetters.
  - intros f rem grid _ E1 H0.
    destruct (InvRows_first size f grid E1 H0) as [L R].
    repeat split; auto. now apply holdsLetters_first.
  - contradiction.
  - pose proof (Hold w Hw m Hm) as H1. pose proof (Hold w' Hw' m' Hm') as H2.
    rewrite Hcell, H2 in H1. now injection H1.
Qed.

(** ** Words of one direction that do not meet do not touch end to end *)

Section ClearEnds.

Variable size : Z.

Ltac to_Z :=
  repeat match goal with
         | H : _ && _ = true |- _ => apply andb_prop in H; destruct H
         | H : (_ =? _) = true |- _ => apply Z.eqb_eq in H
         | H : (_ <=? _) = true |- _ => apply Z.leb_le in H
         | H : (_ <? _) = true |- _ => apply Z.ltb_lt in H
         end.

Ltac is_cell :=
  repeat (apply andb_true_intro; split);
  [apply Z.eqb_eq | apply Z.leb_le | apply Z.ltb_lt].

Lemma isCellOf_cellAt w r c :
  isCellOf w (r, c) = true -> exists m, 0 <= m < wlen w /\ cellAt w m = (r, c).
Proof.
  unfold isCellOf, cellAt. destruct (direction w); intros H; to_Z.
  - exists (c - col w). split; [lia|]. f_equal; lia.
  - exists (r - row w). split; [lia|]. f_equal; lia.
Qed.

Lemma null_not_cell grid placed w r c :
  holdsLetters grid placed -> In w placed ->
  getCell grid r c = Some null -> isCellOf w (r, c) = false.
Proof.
  intros Hold Hw Hnull. destruct (isCellOf w (r, c)) eqn:E; [|reflexivity].
  destruct (isCellOf_cellAt _ _ _ E) as (m & Hm & Hc).
  pose proof (Hold w Hw m Hm) as H. rewrite Hc in H. cbn [fst snd] in H.
  congruence.
Qed.

Lemma InvLetters_place grid placed w r c d grid' :
  InvLetters size grid placed ->
  (d = down -> 0 <= r /\ r + alen w <= size) ->
  canPlaceWord grid (answer w) r c d = Some true ->
  placeWord grid (answer w) r c d = Some grid' ->
  InvLetters size grid'
    (placed ++ [{| entry := w; row := r; col := c; direction := d |}]).
Proof.
  intros (L & R & Hold) Hd C E.
  destruct (InvRows_place size grid placed w r c d grid' (conj L R)) as [L' R']; auto.
  repeat split; auto. eapply holdsLetters_place; eauto.
Qed.

Lemma wideEnough_place grid w r c d grid' :
  wideEnough size grid ->
  placeWord grid (answer w) r c d = Some grid' ->
  wideEnough size grid'.
Proof.
  intros H E Hs. destruct (H Hs) as (row0 & E0 & L).
  destruct (placeLoop_row0 _ _ _ _ _ _ _ _ E0 E) as (row0' & E0' & L').
  exists row0'. split; [assumption|lia].
Qed.

Lemma laterClear_snoc placed new :
  laterClear placed ->
  (forall w0, In w0 placed -> sameDirection w0 new = true ->
              disjointFrom w0 new -> endsClear w0 new) ->
  laterClear (placed ++ [new]).
Proof.
  intros H Hnew i j w w' Hij Ei Ej.
  assert (j < length (placed ++ [new]))%nat as Hj
      by (apply nth_error_Some; congruence).
  rewrite length_app in Hj. cbn [length] in Hj.
  destruct (Nat.lt_ge_cases j (length placed)) as [Hlt|Hge].
  - rewrite nth_error_app1 in Ei, Ej by lia. exact (H i j w w' Hij Ei Ej).
  - assert (j = length placed) as -> by lia.
    rewrite nth_error_app2, Nat.sub_diag in Ej by lia. injection Ej as <-.
    rewrite nth_error_app1 in Ei by lia. apply nth_error_In in Ei.
    now apply Hnew.
Qed.

(** A word that [canPlaceWord] accepts across has clear ends: a guarded
    end check that is skipped is at the border of the grid, where only a
    first word longer than the grid can have a cell, and such a word meets
    the new one. *)
Lemma endsClear_across grid placed w0 w r c :
  InvClear size grid placed -> In w0 placed ->
  0 < alen w -> 0 <= c -> c + alen w <= size ->
  canPlaceWord grid (answer w) r c across = Some true ->
  sameDirection w0 {| entry := w; row := r; col := c; direction := across |} = true ->
  disjointFrom w0 {| entry := w; row := r; col := c; direction := across |} ->
  endsClear w0 {| entry := w; row := r; col := c; direction := across |}.
Proof.
  intros ((L & R & Hold) & Hcols & Hwide & _) Hw0 Hpos Hc Hsize Hcan Hsame Hdis.
  rewrite Forall_forall in Hcols. pose proof (Hcols w0 Hw0) as Hcol.
  unfold sameDirection in Hsame. cbn [direction] in Hsame.
  destruct (direction w0) eqn:D; [|discriminate].
  specialize (Hcol D).
  destruct (canPlaceWord_across_ends _ _ _ _ Hcan) as (row0 & E0 & Hfit & Hleft & Hright).
  fold (alen w) in Hfit, Hright.
  destruct (Hwide ltac:(lia)) as (row0' & E0' & Hlen).
  rewrite E0 in E0'. injection E0' as <-.
  unfold endsClear, cellAt, wlen. cbn [direction row col entry].
  split.
  - destruct (Z.eq_dec c 0) as [->|Hne].
    + destruct (isCellOf w0 (r, 0 + -1)) eqn:E; [exfalso|reflexivity].
      unfold isCellOf in E. rewrite D in E. to_Z.
      destruct Hcol as [Hin|[Hover Hfirst]]; [lia|].
      specialize (Hdis 0). unfold wlen, cellAt in Hdis.
      cbn [direction row col entry] in Hdis. specialize (Hdis ltac:(lia)).
      enough (isCellOf w0 (r, 0 + 0) = true) by congruence.
      unfold isCellOf. rewrite D. is_cell; Z.div_mod_to_equations; lia.
    + eapply null_not_cell; eauto.
      replace (c + -1) with (c - 1) by lia. apply Hleft. lia.
  - destruct (Z.eq_dec (c + alen w) (len row0)) as [Heq|Hne].
    + destruct (isCellOf w0 (r, c + alen w)) eqn:E; [exfalso|reflexivity].
      unfold isCellOf in E. rewrite D in E. to_Z.
      destruct Hcol as [Hin|[Hover Hfirst]]; [lia|].
      specialize (Hdis (alen w - 1)). unfold wlen, cellAt in Hdis.
      cbn [direction row col entry] in Hdis. specialize (Hdis ltac:(lia)).
      enough (isCellOf w0 (r, c + (alen w - 1)) = true) by congruence.
      unfold isCellOf. rewrite D. is_cell; Z.div_mod_to_equations; lia.
    + eapply null_not_cell; eauto. apply Hright. lia.
Qed.

(** Down, the border rows hold no cell of another word placed down. *)
Lemma endsClear_down grid placed w0 w r c :
  InvClear size grid placed -> In w0 placed ->
  0 <= r -> r + alen w <= size ->
  canPlaceWord grid (answer w) r c down = Some true ->
  sameDirection w0 {| entry := w; row := r; col := c; direction := down |} = true ->
  endsClear w0 {| entry := w; row := r; col := c; direction := down |}.
Proof.
  intros ((L & R & Hold) & _ & _ & _) Hw0 Hr Hsize Hcan Hsame.
  rewrite Forall_forall in R. pose proof (R w0 Hw0) as Hrow.
  unfold sameDirection in Hsame. cbn [direction] in Hsame.
  destruct (direction w0) eqn:D; [discriminate|].
  specialize (Hrow D).
  destruct (canPlaceWord_down_ends _ _ _ _ Hcan) as (Hfit & Htop & Hbottom).
  fold (alen w) in Hfit, Hbottom.
  unfold endsClear, cellAt, wlen. cbn [direction row col entry].
  split.
  - destruct (Z.eq_dec r 0) as [->|Hne].
    + destruct (isCellOf w0 (0 + -1, c)) eqn:E; [exfalso|reflexivity].
      unfold isCellOf in E. rewrite D in E. to_Z. lia.
    + eapply null_not_cell; eauto.
      replace (r + -1) with (r - 1) by lia. apply Htop. lia.
  - destruct (Z.eq_dec (r + alen w) size) as [Heq|Hne].
    + destruct (isCellOf w0 (r + alen w, c)) eqn:E; [exfalso|reflexivity].
      unfold isCellOf in E. rewrite D in E. to_Z. lia.
    + eapply null_not_cell; eauto. apply Hbottom. lia.
Qed.

Lemma InvClear_place_down grid placed w r c grid' :
  InvClear size grid placed ->
  0 <= r -> r + alen w <= size ->
  canPlaceWord grid (answer w) r c down = Some true ->
  placeWord grid (answer w) r c down = Some grid' ->
  InvClear size grid'
    (placed ++ [{| entry := w; row := r; col := c; direction := down |}]).
Proof.
  intros HI G1 G2 C E.
  pose proof HI as (HL & Hcols & Hwide & Hlater).
  split; [|split; [|split]].
  - eapply InvLetters_place; eauto.
  - apply Forall_app. split; [assumption|].
    constructor; [|constructor]. intros D'. discriminate D'.
  - eapply wideEnough_place; eauto.
  - apply laterClear_snoc; [assumption|].
    intros w0 Hw0 Hsame _. eapply endsClear_down; eauto.
Qed.

Lemma InvClear_place_across grid placed w r c grid' :
  InvClear size grid placed ->
  0 < alen w -> 0 <= c -> c + alen w <= size ->
  canPlaceWord grid (answer w) r c across = Some true ->
  placeWord grid (answer w) r c across = Some grid' ->
  InvClear size grid'
    (placed ++ [{| entry := w; row := r; col := c; direction := across |}]).
Proof.
  intros HI Hpos G1 G2 C E.
  pose proof HI as (HL & Hcols & Hwide & Hlater).
  split; [|split; [|split]].
  - eapply InvLetters_place; eauto. discriminate.
  - apply Forall_app. split; [assumption|].
    constructor; [|constructor]. intros _. left. cbn [row col entry]. unfold wlen.
    cbn [entry]. lia.
  - eapply wideEnough_place; eauto.
  - apply laterClear_snoc; [assumption|].
    intros w0 Hw0 Hsame Hdis. eapply endsClear_across; eauto.
Qed.

Lemma passes_InvClear remaining grid placed :
  InvClear size grid placed ->
  Extends2 (InvClear size) placed
    (match iLoop size remaining (grid, placed) with
     | None => None
     | Some st => iLoop size remaining st
     end).
Proof.
  apply passes_Extends.
  - now intros g p ((H & _) & _).
  - intros g p w ((_ & H & _) & _) Hw. rewrite Forall_forall in H. now apply H.
  - intros g p w P j k g' HI HP D Hj Hk _ G1 G2 C E.
    now apply (InvClear_place_down g).
  - intros g p w P j k g' HI HP D Hj Hk _ G1 G2 C E.
    apply (InvClear_place_across g); auto; lia.
Qed.

Lemma InvClear_first first grid :
  placeWord (newGrid size) (answer first) (size / 2) ((size - alen first) / 2) across
  = Some grid ->
  0 <= size ->
  InvClear size grid [firstPlaced size first].
Proof.
  intros E H0. destruct (InvRows_first size first grid E H0) as [L R].
  split; [|split; [|split]].
  - repeat split; auto. now apply holdsLetters_first.
  - constructor; [|constructor]. intros _.
    unfold firstPlaced, wlen. cbn [row col entry].
    destruct (Z.le_gt_cases (alen first) size) as [Hle|Hgt].
    + left. split; [apply Z.div_pos; lia|].
      assert ((size - alen first) / 2 <= size - alen first)
        by (apply Z.div_le_upper_bound; lia).
      lia.
    + right. split; [lia|reflexivity].
  - intros Hs.
    assert (getRow (newGrid size) 0 = Some (newRow size)) as E0.
    { unfold getRow, newGrid. cbn [Z.ltb Z.compare Z.to_nat].
      destruct (Z.to_nat size) eqn:En; [lia|]. reflexivity. }
    unfold placeWord in E.
    destruct (placeLoop_row0 _ _ _ _ _ _ _ _ E0 E) as (row0 & Er & Lr).
    exists row0. split; [assumption|exact Lr].
  - intros i j w w' Hij Ei Ej.
    assert (j < 1)%nat by (change 1%nat with (length [firstPlaced size first]);
                           apply nth_error_Some; congruence).
    lia.
Qed.

End ClearEnds.

(** Two non-empty intervals of a line that do not meet: if an end of the
    second touches the first, an end of the first touches the second. *)
Lemma endsClear_sym w w' :
  sameDirection w w' = true -> 0 < wlen w -> 0 < wlen w' ->
  disjointFrom w w' -> endsClear w w' -> endsClear w' w.
Proof.
  unfold sameDirection, disjointFrom, endsClear, isCellOf, cellAt.
  intros Hsame Hw Hw' Hdis [H1 H2].
  pose proof (Hdis 0 ltac:(lia)) as D0.
  pose proof (Hdis (wlen w' - 1) ltac:(lia)) as D1.
  pose proof (Hdis (col w - col w')) as D2.
  pose proof (Hdis (row w - row w')) as D3.
  clear Hdis.
  destruct (direction w), (direction w'); try discriminate;
    rewrite !andb_false_iff in *;
    rewrite ?Z.eqb_neq, ?Z.leb_gt, ?Z.ltb_ge in *; lia.
Qed.

Lemma disjointFrom_sym w w' :
  sameDirection w w' = true -> 0 < wlen w -> 0 < wlen w' ->
  disjointFrom w w' -> disjointFrom w' w.
Proof.
  unfold sameDirection, disjointFrom, isCellOf, cellAt.
  intros Hsame Hw Hw' Hdis m Hm.
  pose proof (Hdis 0 ltac:(lia)) as D0.
  pose proof (Hdis (wlen w' - 1) ltac:(lia)) as D1.
  pose proof (Hdis (col w - col w')) as D2.
  pose proof (Hdis (row w - row w')) as D3.
  clear Hdis.
  destruct (direction w), (direction w'); try discriminate;
    rewrite !andb_false_iff in *;
    rewrite ?Z.eqb_neq, ?Z.leb_gt, ?Z.ltb_ge in *; lia.
Qed.

Lemma sameDirection_sym w w' : sameDirection w w' = sameDirection w' w.
Proof. unfold sameDirection. now destruct (direction w), (direction w'). Qed.

(** X2.  On every input, two non-empty placed words of one direction that
    have no common cell do not touch end to end, at either end and in
    either order. *)
Lemma layout_no_abutting wordsData size out w w' :
  generateGridLayout wordsData size = Some out ->
  In w out -> In w' out ->
  0 < wlen w -> 0 < wlen w' ->
  disjointFrom w w' ->
  touchesEnd w w' = false /\ touchesEnd w' w = false.
Proof.
  intros E Hw Hw' Hpos Hpos' Hdis.
  destruct (sameDirection w w') eqn:Hsame;
    [|unfold touchesEnd; now rewrite (sameDirection_sym w' w), Hsame].
  enough (endsClear w w' /\ endsClear w' w) as [[A B] [C D]].
  { unfold touchesEnd. rewrite (sameDirection_sym w' w), Hsame, A, B, C, D. auto. }
  destruct (layout_result size (InvClear size) wordsData out E)
    as [[_ ->]|(first & remaining & rest & g & _ & _ & _ & _ & _ & Hlater)].
  - intros remaining grid placed. apply passes_InvClear.
  - intros f rem grid _. apply InvClear_first.
  - contradiction.
  - apply In_nth_error in Hw, Hw'. destruct Hw as [i Ei], Hw' as [j Ej].
    destruct (Nat.lt_trichotomy i j) as [Hlt|[Heq|Hgt]].
    + assert (endsClear w w') by (eapply Hlater; eauto).
      split; [assumption|]. now apply endsClear_sym.
    + exfalso. subst j. rewrite Ei in Ej. injection Ej as <-.
      specialize (Hdis 0 ltac:(lia)).
      unfold isCellOf, cellAt in Hdis.
      destruct (direction w);
        rewrite !andb_false_iff in Hdis;
        rewrite ?Z.eqb_neq, ?Z.leb_gt, ?Z.ltb_ge in Hdis; lia.
    + assert (disjointFrom w' w) by now apply disjointFrom_sym.
      assert (endsClear w' w)
        by (eapply Hlater; eauto; now rewrite sameDirection_sym).
      split; [|assumption]. apply endsClear_sym; auto.
      now rewrite sameDirection_sym.
Qed.

(** ** Two defects of the placement loops *)

(** C8 fails on the code.  The loop over [k] has no [break]: after "AT" is
    placed on the first A of "BANANA" the loop goes on to the other two and
    places the word again, so the output holds it three times. *)
Lemma AT_placed_three_times :
  generateGridLayout [mkWord "BANANA"; mkWord "AT"] 12
  = Some [ {| entry := mkWord "BANANA"; row := 6; col := 3; direction := across |};
           {| entry := mkWord "AT"; row := 6; col := 4; direction := down |};
           {| entry := mkWord "AT"; row := 6; col := 6; direction := down |};
           {| entry := mkWord "AT"; row := 6; col := 8; direction := down |} ] /\
  option_map (occurrences (str "AT"))
             (generateGridLayout [mkWord "BANANA"; mkWord "AT"] 12) = Some 3%nat.
Proof. split; vm_compute; reflexivity. Qed.

(** C4 fails on the code.  "OR" is placed across at row 9, columns 5-6, in
    the first pass, on the O of "ARROW"; in the second pass "ORCHID" is
    placed across over it, at columns 5-10: every cell it meets is empty or
    holds its own letter.  The cell just after the end of "OR" is then the C
    of a word that runs in the same direction.  (The two words give the same
    letters to their common cells.) *)
Lemma ORCHID_runs_over_OR :
  generateGridLayout
    [mkWord "PLANET"; mkWord "ORCHID"; mkWord "ARROW"; mkWord "OR"] 12
  = Some [ {| entry := mkWord "PLANET"; row := 6; col := 3; direction := across |};
           {| entry := mkWord "ARROW"; row := 6; col := 5; direction := down |};
           {| entry := mkWord "OR"; row := 9; col := 5; direction := across |};
           {| entry := mkWord "ORCHID"; row := 9; col := 5; direction := across |} ] /\
  touchesEnd {| entry := mkWord "OR"; row := 9; col := 5; direction := across |}
             {| entry := mkWord "ORCHID"; row := 9; col := 5; direction := across |}
  = true /\
  cellAt {| entry := mkWord "OR"; row := 9; col := 5; direction := across |} 2
  = cellAt {| entry := mkWord "ORCHID"; row := 9; col := 5; direction := across |} 2 /\
  conflicts {| entry := mkWord "OR"; row := 9; col := 5; direction := across |}
            {| entry := mkWord "ORCHID"; row := 9; col := 5; direction := across |}
  = false.
Proof. repeat split; vm_compute; reflexivity. Qed.

(** ** Further properties of the layout *)

(** *** The words after the first stay inside the grid *)

Section LaterWords.

Variable size : Z.
Hypothesis size_ge_2 : 2 <= size.

(** A word accepted down stands in a column of the grid: outside, one of
    the cells that [canPlaceWord] reads is not [null]. *)
Lemma down_column_inside grid w r c :
  Z.of_nat (length grid) = size ->
  marginsKept size grid ->
  0 < alen w -> 0 <= r -> r + alen w <= size ->
  canPlaceWord grid (answer w) r c down = Some true ->
  0 <= c < size.
Proof.
  intros L M Hpos Hr Hfit Hcan.
  destruct (Z.lt_ge_cases c 0) as [Hout|Hc0];
    [|destruct (Z.lt_ge_cases c size) as [Hin|Hout]; [lia|]]; exfalso.
  all: assert (Hm : c < 0 \/ size <= c) by lia.
  all: destruct (canPlaceWord_down_ends _ _ _ _ Hcan) as (_ & Htop & Hbottom);
    fold (alen w) in Hbottom.
  all: destruct (Z.eq_dec r 0) as [->|Hr0];
    [|specialize (M (r - 1) c Hm); rewrite Htop in M by lia; exact M].
  all: destruct (Z.eq_dec (0 + alen w) size) as [Hfull|Hshort];
    [|specialize (M (0 + alen w) c Hm); rewrite Hbottom in M by lia; exact M].
  all: destruct (canPlaceWord_true _ _ _ _ _ Hcan 0%nat) as (cell & E & Hcell);
    [unfold alen in Hpos; lia|].
  all: cbn [cellOf fst snd Z.of_nat] in E; rewrite Z.add_0_r in E.
  all: specialize (M 0 c Hm); rewrite E in M.
  all: destruct Hcell as [-> | ->]; [exact M|].
  all: assert (1 <= size / 2) by (apply Z.div_le_lower_bound; lia); lia.
Qed.

Lemma marginsKept_place grid w r c d grid' :
  marginsKept size grid ->
  (forall i, 0 <= i < alen w -> 0 <= snd (cellOf d r c i) < size) ->
  placeWord grid (answer w) r c d = Some grid' ->
  marginsKept size grid'.
Proof.
  intros M Hcols E r' c' Hm. unfold placeWord in E.
  destruct (placeLoop_get _ _ _ _ _ _ _ E r' c') as [(m & Hlt & Hc & _)|[_ ->]].
  - exfalso. specialize (Hcols (Z.of_nat m)). rewrite Z.add_0_l in Hc.
    rewrite <- Hc in Hcols. cbn [snd] in Hcols. unfold alen in Hcols. lia.
  - now apply M.
Qed.

Lemma InvLater_place_down grid placed w r c grid' :
  InvLater size grid placed -> placed <> [] ->
  0 < alen w -> 0 <= r -> r + alen w <= size ->
  canPlaceWord grid (answer w) r c down = Some true ->
  placeWord grid (answer w) r c down = Some grid' ->
  0 <= c < size /\
  InvLater size grid'
    (placed ++ [{| entry := w; row := r; col := c; direction := down |}]).
Proof.
  intros (L & R & M & I) Hne Hpos G1 G2 C E.
  assert (Hc : 0 <= c < size) by (apply (down_column_inside grid w r); auto).
  split; [assumption|].
  destruct (InvRows_place size grid placed w r c down grid' (conj L R))
    as [L' R']; auto.
  repeat split; auto.
  - eapply marginsKept_place; eauto. intros i _. exact Hc.
  - destruct placed as [|f p]; [contradiction|]. cbn [tl app] in *.
    apply Forall_app. split; [assumption|].
    constructor; [|constructor]. unfold inGrid, wlen. cbn. lia.
Qed.

Lemma InvLater_place_across grid placed w r c grid' :
  InvLater size grid placed -> placed <> [] ->
  0 <= r < size -> 0 <= c -> c + alen w <= size ->
  placeWord grid (answer w) r c across = Some grid' ->
  InvLater size grid'
    (placed ++ [{| entry := w; row := r; col := c; direction := across |}]).
Proof.
  intros (L & R & M & I) Hne Hr G1 G2 E.
  destruct (InvRows_place size grid placed w r c across grid' (conj L R))
    as [L' R']; auto; [discriminate|].
  repeat split; auto.
  - eapply marginsKept_place; eauto. intros i Hi. cbn [cellOf snd]. lia.
  - destruct placed as [|f p]; [contradiction|]. cbn [tl app] in *.
    apply Forall_app. split; [assumption|].
    constructor; [|constructor]. unfold inGrid, wlen. cbn. lia.
Qed.

Lemma passes_InvLater remaining grid placed :
  InvLater size grid placed ->
  Extends2 (InvLater size) placed
    (match iLoop size remaining (grid, placed) with
     | None => None
     | Some st => iLoop size remaining st
     end).
Proof.
  apply passes_Extends.
  - now intros g p (H & _).
  - intros g p w (_ & H & _) Hw. rewrite Forall_forall in H. now apply H.
  - intros g p w P j k g' HI HP D Hj Hk _ G1 G2 C E.
    apply (InvLater_place_down g); auto; [|lia]. intros ->. contradiction.
  - intros g p w P j k g' HI HP D Hj Hk _ G1 G2 C E.
    assert (HR : 0 <= row P /\ row P + wlen P <= size).
    { destruct HI as (_ & R & _). rewrite Forall_forall in R. now apply R. }
    apply (InvLater_place_across g); auto; [|lia]. intros ->. contradiction.
Qed.

Lemma InvLater_first first grid :
  placeWord (newGrid size) (answer first) (size / 2) ((size - alen first) / 2) across
  = Some grid ->
  InvLater size grid [firstPlaced size first].
Proof.
  intros E. destruct (InvRows_first size first grid E ltac:(lia)) as [L R].
  split; [assumption|]. split; [assumption|]. split; [|constructor].
  intros r c Hm. unfold placeWord in E.
  destruct (placeLoop_get _ _ _ _ _ _ _ E r c) as [(m & Hlt & Hc & ->)|[_ ->]].
  - cbn [cellOf] in Hc. now injection Hc.
  - unfold getCell, getRow, newGrid.
    destruct (r <? 0); [exact I|].
    destruct (nth_error (repeat (newRow size) (Z.to_nat size)) (Z.to_nat r)) as [x|] eqn:Ex;
      [|exact I].
    apply nth_error_In, repeat_spec in Ex. subst x. cbn [prop newRow].
    destruct (Z.leb_spec 0 c); destruct (Z.ltb_spec c size); cbn [andb]; try exact I; lia.
Qed.

End LaterWords.

Lemma later_words_inGrid wordsData size out :
  2 <= size ->
  generateGridLayout wordsData size = Some out ->
  Forall (inGrid size) (tl out).
Proof.
  intros Hsize E.
  destruct (layout_result size (InvLater size) wordsData out E)
    as [[_ ->]|(first & remaining & rest & g & Hs & -> & _ & _ & _ & Hall)].
  - intros rem grid placed. now apply passes_InvLater.
  - intros first remaining grid _ E1 _. now apply InvLater_first.
  - constructor.
  - exact Hall.
Qed.

(** X3.  Whatever the lengths of the answers, in a grid of two rows or more
    every word of the output but the first lies inside the grid: a word
    down that crosses a first word longer than the grid outside the grid is
    refused, because the cells there are [undefined], not [null]. *)
Theorem later_words_inside_grid
        (wordsData : list WordEntry) (size : Z) (out : list PlacedWord) :
  2 <= size ->
  generateGridLayout wordsData size = Some out ->
  forall w, In w (tl out) ->
    0 <= row w /\ 0 <= col w /\ lastIndex w < size /\
    (forall i, 0 <= i < wlen w ->
               0 <= fst (cellAt w i) < size /\ 0 <= snd (cellAt w i) < size).
Proof.
  intros Hsize E w Hw. apply inGrid_bounds.
  pose proof (later_words_inGrid wordsData size out Hsize E) as Hall.
  rewrite Forall_forall in Hall. now apply Hall.
Qed.

Lemma later_words_inside_grid_witness :
  0 <= row {| entry := mkWord "PEA"; row := 6; col := 3; direction := down |} /\
  0 <= col {| entry := mkWord "PEA"; row := 6; col := 3; direction := down |} /\
  lastIndex {| entry := mkWord "PEA"; row := 6; col := 3; direction := down |} < 12 /\
  (forall i,
      0 <= i < wlen {| entry := mkWord "PEA"; row := 6; col := 3; direction := down |} ->
      0 <= fst (cellAt {| entry := mkWord "PEA"; row := 6; col := 3;
                          direction := down |} i) < 12 /\
      0 <= snd (cellAt {| entry := mkWord "PEA"; row := 6; col := 3;
                          direction := down |} i) < 12).
Proof.
  apply (later_words_inside_grid
           [mkWord "PEA"; mkWord "INCOMPREHENSIBLE"] 12
           [ {| entry := mkWord "INCOMPREHENSIBLE"; row := 6; col := -2;
                direction := across |};
             {| entry := mkWord "PEA"; row := 6; col := 3; direction := down |} ]).
  - lia.
  - vm_compute. reflexivity.
  - left. reflexivity.
Defined.

(** *** Every word but the first crosses an earlier word *)

Section Connected.

Variable size : Z.

Lemma connected_snoc placed new P :
  connected placed -> In P placed -> crosses new P ->
  connected (placed ++ [new]).
Proof.
  intros H HP Hcross n w E.
  assert (S n < length (placed ++ [new]))%nat as Hn
      by (apply nth_error_Some; congruence).
  rewrite length_app in Hn. cbn [length] in Hn.
  destruct (Nat.lt_ge_cases (S n) (length placed)) as [Hlt|Hge].
  - rewrite nth_error_app1 in E by lia.
    destruct (H n w E) as (m & Q & Hm & EQ & HQ).
    exists m, Q. split; [assumption|]. split; [|assumption].
    rewrite nth_error_app1 by lia. assumption.
  - assert (S n = length placed) as Hlen by lia.
    rewrite nth_error_app2, Hlen, Nat.sub_diag in E by lia. injection E as <-.
    apply In_nth_error in HP. destruct HP as [m EP].
    assert (m < length placed)%nat by (apply nth_error_Some; congruence).
    exists m, P. split; [lia|]. split; [|assumption].
    rewrite nth_error_app1 by lia. assumption.
Qed.

Lemma passes_InvConnected remaining grid placed :
  InvConnected size grid placed ->
  Extends2 (InvConnected size) placed
    (match iLoop size remaining (grid, placed) with
     | None => None
     | Some st => iLoop size remaining st
     end).
Proof.
  apply passes_Extends.
  - now intros g p ((H & _) & _).
  - intros g p w ((_ & H) & _) Hw. rewrite Forall_forall in H. now apply H.
  - intros g p w P j k g' (HR & HC) HP D Hj Hk Hnth G1 G2 C E. split.
    + eapply InvRows_place; eauto.
    + apply (connected_snoc p _ P); auto. split.
      * cbn [direction]. rewrite D. discriminate.
      * exists j, k. unfold wlen, cellAt in *. cbn [entry direction row col].
        rewrite D. repeat split; try lia; try assumption. f_equal; lia.
  - intros g p w P j k g' (HR & HC) HP D Hj Hk Hnth G1 G2 C E. split.
    + eapply InvRows_place; eauto. discriminate.
    + apply (connected_snoc p _ P); auto. split.
      * cbn [direction]. rewrite D. discriminate.
      * exists j, k. unfold wlen, cellAt in *. cbn [entry direction row col].
        rewrite D. repeat split; try lia; try assumption. f_equal; lia.
Qed.

End Connected.

(** X4.  The layout is connected: every word of the output but the first runs
    across or down through a cell of a word that stands before it in the
    output and runs in the other direction, and the two have the same
    letter there. *)
Theorem layout_connected
        (wordsData : list WordEntry) (size : Z) (out : list PlacedWord)
        (n : nat) (w : PlacedWord) :
  generateGridLayout wordsData size = Some out ->
  nth_error out (S n) = Some w ->
  exists m P, (m <= n)%nat /\ nth_error out m = Some P /\ crosses w P.
Proof.
  intros E Hw.
  destruct (layout_result size (InvConnected size) wordsData out E)
    as [[_ ->]|(first & remaining & rest & g & _ & _ & _ & HC)].
  - intros rem grid placed. apply passes_InvConnected.
  - intros first remaining grid _ E1 H0. split.
    + now apply InvRows_first.
    + intros [|k] x Hx; discriminate Hx.
  - discriminate Hw.
  - now apply HC.
Qed.

Lemma layout_connected_witness :
  exists m P,
    (m <= 0)%nat /\
    nth_error
      [ {| entry := mkWord "LOGIC"; row := 6; col := 3; direction := across |};
        {| entry := mkWord "GRID"; row := 6; col := 5; direction := down |} ] m
    = Some P /\
    crosses {| entry := mkWord "GRID"; row := 6; col := 5; direction := down |} P.
Proof.
  apply (layout_connected [mkWord "LOGIC"; mkWord "GRID"] 12).
  - vm_compute. reflexivity.
  - reflexivity.
Defined.

(** *** What [placeWord] does to a grid that [canPlaceWord] accepted *)

(** X5.  When [canPlaceWord] has answered [true], the grid that [placeWord]
    leaves holds the letters of the word in its cells, every other cell is
    as before, and no letter that was in the grid has changed. *)
Theorem placeWord_keeps_letters
        (grid grid' : Grid) (word : jsstring) (r c : Z) (d : Direction) :
  canPlaceWord grid word r c d = Some true ->
  placeWord grid word r c d = Some grid' ->
  (forall i, 0 <= i < Z.of_nat (length word) ->
     getCell grid' (fst (cellOf d r c i)) (snd (cellOf d r c i))
     = Some (letter (nth (Z.to_nat i) word 0))) /\
  (forall r' c',
     (forall i, 0 <= i < Z.of_nat (length word) -> cellOf d r c i <> (r', c')) ->
     getCell grid' r' c' = getCell grid r' c') /\
  (forall r' c' x,
     getCell grid r' c' = Some (letter x) -> getCell grid' r' c' = Some (letter x)).
Proof.
  intros Hcan Hplace. unfold placeWord in Hplace.
  pose proof (placeLoop_get _ _ _ _ _ _ _ Hplace) as Hget.
  split; [|split].
  - intros i Hi.
    destruct (Hget (fst (cellOf d r c i)) (snd (cellOf d r c i)))
      as [(m & Hm & Hc & ->)|[Hnot _]].
    + rewrite <- surjective_pairing, Z.add_0_l in Hc.
      apply cellOf_inj in Hc. subst i. now rewrite Nat2Z.id.
    + exfalso. apply (Hnot (Z.to_nat i)); [lia|].
      rewrite <- surjective_pairing. f_equal. lia.
  - intros r' c' Hother.
    destruct (Hget r' c') as [(m & Hm & Hc & _)|[_ E]]; [|exact E].
    exfalso. apply (Hother (Z.of_nat m)); [lia|]. now rewrite Hc, Z.add_0_l.
  - intros r' c' x Hx.
    destruct (Hget r' c') as [(m & Hm & Hc & ->)|[_ ->]]; [|exact Hx].
    destruct (canPlaceWord_true _ _ _ _ _ Hcan m Hm) as (cell & E & Hcell).
    rewrite Z.add_0_l in Hc. rewrite <- Hc in E. cbn [fst snd] in E.
    rewrite Hx in E. injection E as <-.
    destruct Hcell as [Hcell|Hcell]; [discriminate|congruence].
Qed.

Lemma placeWord_keeps_letters_witness :
  match placeWord (newGrid 3) (str "CAB") 1 0 across with
  | Some grid =>
      match placeWord grid (str "AT") 1 1 down with
      | Some grid' =>
          (forall i, 0 <= i < Z.of_nat (length (str "AT")) ->
             getCell grid' (fst (cellOf down 1 1 i)) (snd (cellOf down 1 1 i))
             = Some (letter (nth (Z.to_nat i) (str "AT") 0))) /\
          (forall r' c',
             (forall i, 0 <= i < Z.of_nat (length (str "AT")) ->
                        cellOf down 1 1 i <> (r', c')) ->
             getCell grid' r' c' = getCell grid r' c') /\
          (forall r' c' x,
             getCell grid r' c' = Some (letter x) ->
             getCell grid' r' c' = Some (letter x))
      | None => False
      end
  | None => False
  end.
Proof.
  destruct (placeWord (newGrid 3) (str "CAB") 1 0 across) as [grid|] eqn:E0;
    [|vm_compute in E0; discriminate E0].
  destruct (placeWord grid (str "AT") 1 1 down) as [grid'|] eqn:E.
  - apply (placeWord_keeps_letters grid grid' (str "AT") 1 1 down); [|exact E].
    vm_compute in E0. injection E0 as <-. vm_compute. reflexivity.
  - vm_compute in E0. injection E0 as <-. vm_compute in E. discriminate E.
Defined.

Lemma layout_no_conflict_witness :
  nth (Z.to_nat 2) (answer (entry {| entry := mkWord "LOGIC"; row := 6; col := 3;
                                     direction := across |})) 0
  = nth (Z.to_nat 0) (answer (entry {| entry := mkWord "GRID"; row := 6; col := 5;
                                       direction := down |})) 0.
Proof.
  apply (layout_no_conflict
           [mkWord "LOGIC"; mkWord "GRID"] 12
           [ {| entry := mkWord "LOGIC"; row := 6; col := 3; direction := across |};
             {| entry := mkWord "GRID"; row := 6; col := 5; direction := down |} ]).
  - vm_compute. reflexivity.
  - left. reflexivity.
  - right. left. reflexivity.
  - vm_compute. split; [discriminate|reflexivity].
  - vm_compute. split; [discriminate|reflexivity].
  - reflexivity.
Defined.

Lemma layout_no_abutting_witness :
  touchesEnd {| entry := mkWord "AT"; row := 6; col := 4; direction := down |}
             {| entry := mkWord "AT"; row := 6; col := 6; direction := down |}
  = false /\
  touchesEnd {| entry := mkWord "AT"; row := 6; col := 6; direction := down |}
             {| entry := mkWord "AT"; row := 6; col := 4; direction := down |}
  = false.
Proof.
  apply (layout_no_abutting
           [mkWord "BANANA"; mkWord "AT"] 12
           [ {| entry := mkWord "BANANA"; row := 6; col := 3; direction := across |};
             {| entry := mkWord "AT"; row := 6; col := 4; direction := down |};
             {| entry := mkWord "AT"; row := 6; col := 6; direction := down |};
             {| entry := mkWord "AT"; row := 6; col := 8; direction := down |} ]).
  - vm_compute. reflexivity.
  - right. left. reflexivity.
  - right. right. left. reflexivity.
  - vm_compute. reflexivity.
  - vm_compute. reflexivity.
  - intros m Hm. reflexivity.
Defined.

(** *** Letters side by side belong to one word *)

Section Runs.

Variable size : Z.
Hypothesis size_ge_2 : 2 <= size.

(** What [canPlaceWord] has checked beside the empty cells of the word. *)
Lemma acrossLoop_sides grid height row col i chars :
  acrossLoop grid height row col i chars = Some true ->
  forall m, (m < length chars)%nat ->
    getCell grid row (col + (i + Z.of_nat m)) = Some null ->
    occupiedIf (row >? 0) grid (row - 1) (col + (i + Z.of_nat m)) = Some false /\
    occupiedIf (row <? height - 1) grid (row + 1) (col + (i + Z.of_nat m)) = Some false.
Proof.
  revert i. induction chars as [|char chars IH]; intros i H m Hm Hnull;
    cbn [length] in Hm; [lia|].
  cbn [acrossLoop] in H.
  destruct (getCell grid row (col + i)) as [cell|] eqn:E; [|discriminate].
  apply rejectIf_true in H. destruct H as [_ H].
  destruct m as [|m].
  - rewrite Z.add_0_r in *. rewrite E in Hnull. injection Hnull as ->.
    cbn [notNull] in H.
    apply rejectIf_true in H. destruct H as [H1 H].
    apply rejectIf_true in H. destruct H as [H2 _]. auto.
  - assert (Hrest : acrossLoop grid height row col (i + 1) chars = Some true).
    { destruct (notNull cell); [assumption|].
      apply rejectIf_true in H. destruct H as [_ H].
      apply rejectIf_true in H. now destruct H. }
    replace (i + Z.of_nat (S m)) with (i + 1 + Z.of_nat m) in * by lia.
    apply (IH (i + 1) Hrest m); [lia|assumption].
Qed.

Lemma downLoop_sides grid width row col i chars :
  downLoop grid width row col i chars = Some true ->
  forall m, (m < length chars)%nat ->
    getCell grid (row + (i + Z.of_nat m)) col = Some null ->
    occupiedIf (col >? 0) grid (row + (i + Z.of_nat m)) (col - 1) = Some false /\
    occupiedIf (col <? width - 1) grid (row + (i + Z.of_nat m)) (col + 1) = Some false.
Proof.
  revert i. induction chars as [|char chars IH]; intros i H m Hm Hnull;
    cbn [length] in Hm; [lia|].
  cbn [downLoop] in H.
  destruct (getCell grid (row + i) col) as [cell|] eqn:E; [|discriminate].
  apply rejectIf_true in H. destruct H as [_ H].
  destruct m as [|m].
  - rewrite Z.add_0_r in *. rewrite E in Hnull. injection Hnull as ->.
    cbn [notNull] in H.
    apply rejectIf_true in H. destruct H as [H1 H].
    apply rejectIf_true in H. destruct H as [H2 _]. auto.
  - assert (Hrest : downLoop grid width row col (i + 1) chars = Some true).
    { destruct (notNull cell); [assumption|].
      apply rejectIf_true in H. destruct H as [_ H].
      apply rejectIf_true in H. now destruct H. }
    replace (i + Z.of_nat (S m)) with (i + 1 + Z.of_nat m) in * by lia.
    apply (IH (i + 1) Hrest m); [lia|assumption].
Qed.

Lemma canPlaceWord_across_sides grid word row col m :
  canPlaceWord grid word row col across = Some true ->
  0 <= m < Z.of_nat (length word) ->
  getCell grid row (col + m) = Some null ->
  (0 < row -> getCell grid (row - 1) (col + m) = Some null) /\
  (row < Z.of_nat (length grid) - 1 -> getCell grid (row + 1) (col + m) = Some null).
Proof.
  unfold canPlaceWord. destruct (getRow grid 0); [|discriminate].
  intros H Hm Hnull.
  apply rejectIf_true in H. destruct H as [_ H].
  apply rejectIf_true in H. destruct H as [_ H].
  apply rejectIf_true in H. destruct H as [_ H].
  destruct (acrossLoop_sides _ _ _ _ 0 _ H (Z.to_nat m)) as [H1 H2]; [lia| |].
  { rewrite Z2Nat.id, Z.add_0_l by lia. assumption. }
  rewrite Z2Nat.id, Z.add_0_l in H1, H2 by lia.
  split; intros G.
  - apply (occupiedIf_false _ _ _ _ H1). now apply Z.gtb_lt.
  - apply (occupiedIf_false _ _ _ _ H2). now apply Z.ltb_lt.
Qed.

Lemma canPlaceWord_down_sides grid word row col m :
  canPlaceWord grid word row col down = Some true ->
  0 <= m < Z.of_nat (length word) ->
  getCell grid (row + m) col = Some null ->
  exists row0,
    getRow grid 0 = Some row0 /\
    (0 < col -> getCell grid (row + m) (col - 1) = Some null) /\
    (col < len row0 - 1 -> getCell grid (row + m) (col + 1) = Some null).
Proof.
  unfold canPlaceWord. destruct (getRow grid 0) as [row0|]; [|discriminate].
  intros H Hm Hnull. exists row0. split; [reflexivity|].
  apply rejectIf_true in H. destruct H as [_ H].
  apply rejectIf_true in H. destruct H as [_ H].
  apply rejectIf_true in H. destruct H as [_ H].
  destruct (downLoop_sides _ _ _ _ 0 _ H (Z.to_nat m)) as [H1 H2]; [lia| |].
  { rewrite Z2Nat.id, Z.add_0_l by lia. assumption. }
  rewrite Z2Nat.id, Z.add_0_l in H1, H2 by lia.
  split; intros G.
  - apply (occupiedIf_false _ _ _ _ H1). now apply Z.gtb_lt.
  - apply (occupiedIf_false _ _ _ _ H2). now apply Z.ltb_lt.
Qed.

Lemma isCellOf_spec w r' c' :
  isCellOf w (r', c') = true <->
  match direction w with
  | across => r' = row w /\ col w <= c' < col w + wlen w
  | down => c' = col w /\ row w <= r' < row w + wlen w
  end.
Proof.
  unfold isCellOf. destruct (direction w);
    rewrite !andb_true_iff, Z.eqb_eq, Z.leb_le, Z.ltb_lt; tauto.
Qed.

Lemma isCellOf_false w r' c' :
  isCellOf w (r', c') = false <->
  match direction w with
  | across => ~ (r' = row w /\ col w <= c' < col w + wlen w)
  | down => ~ (c' = col w /\ row w <= r' < row w + wlen w)
  end.
Proof.
  rewrite <- not_true_iff_false, isCellOf_spec. now destruct (direction w).
Qed.

(** A cell after [placeWord]: a cell of the new word, which holds a letter,
    or a cell that has not changed. *)
Lemma place_cases grid w r c d grid' r' c' :
  placeWord grid (answer w) r c d = Some grid' ->
  (isCellOf {| entry := w; row := r; col := c; direction := d |} (r', c') = true /\
   exists x, getCell grid' r' c' = Some (letter x)) \/
  (isCellOf {| entry := w; row := r; col := c; direction := d |} (r', c') = false /\
   getCell grid' r' c' = getCell grid r' c').
Proof.
  intros E. unfold placeWord in E.
  destruct (placeLoop_get _ _ _ _ _ _ _ E r' c') as [(m & Hm & Hc & Hg)|[Hnot Hg]].
  - left. split; [|eauto]. apply isCellOf_spec. unfold wlen, alen. cbn.
    destruct d; cbn [cellOf] in Hc; injection Hc as -> ->; lia.
  - right. split; [|assumption]. apply isCellOf_false. unfold wlen, alen. cbn.
    destruct d; intros [H1 H2].
    + apply (Hnot (Z.to_nat (c' - c))); [lia|]. cbn [cellOf]. f_equal; lia.
    + apply (Hnot (Z.to_nat (r' - r))); [lia|]. cbn [cellOf]. f_equal; lia.
Qed.

(** A cell of the word to be placed, before [placeWord]: empty, or a
    letter. *)
Lemma before_cases grid w r c d r' c' :
  canPlaceWord grid (answer w) r c d = Some true ->
  isCellOf {| entry := w; row := r; col := c; direction := d |} (r', c') = true ->
  getCell grid r' c' = Some null \/ exists x, getCell grid r' c' = Some (letter x).
Proof.
  intros Hcan Hcell. apply isCellOf_spec in Hcell. unfold wlen, alen in Hcell.
  cbn in Hcell.
  destruct d.
  - destruct (canPlaceWord_true _ _ _ _ _ Hcan (Z.to_nat (c' - c)))
      as (cell & E & Hc); [lia|].
    cbn [cellOf fst snd] in E. replace (c + Z.of_nat (Z.to_nat (c' - c))) with c' in E by lia.
    destruct Hcell as [-> _]. rewrite E. destruct Hc as [-> | ->]; eauto.
  - destruct (canPlaceWord_true _ _ _ _ _ Hcan (Z.to_nat (r' - r)))
      as (cell & E & Hc); [lia|].
    cbn [cellOf fst snd] in E. replace (r + Z.of_nat (Z.to_nat (r' - r))) with r' in E by lia.
    destruct Hcell as [-> _]. rewrite E. destruct Hc as [-> | ->]; eauto.
Qed.

Lemma letter_of_cell grid placed w r' c' :
  holdsLetters grid placed -> In w placed -> isCellOf w (r', c') = true ->
  exists x, getCell grid r' c' = Some (letter x).
Proof.
  intros Hold Hw Hcell.
  destruct (isCellOf_cellAt _ _ _ Hcell) as (m & Hm & Hc).
  pose proof (Hold w Hw m Hm) as H. rewrite Hc in H. cbn [fst snd] in H. eauto.
Qed.

(** A first word that has a cell just outside the grid has the cell just
    inside too. *)
Lemma first_reaches_in first r' :
  let f := {| entry := first; row := size / 2; col := (size - alen first) / 2;
              direction := across |} in
  (isCellOf f (r', -1) = true -> isCellOf f (r', 0) = true) /\
  (isCellOf f (r', size) = true -> isCellOf f (r', size - 1) = true).
Proof.
  cbn zeta. rewrite !isCellOf_spec. unfold wlen. cbn.
  split; intros [-> H]; (split; [reflexivity|]); Z.div_mod_to_equations; lia.
Qed.

Lemma getCell_inside grid r' c' x :
  getCell grid r' c' = Some x -> 0 <= r' < Z.of_nat (length grid).
Proof.
  unfold getCell. destruct (getRow grid r') as [y|] eqn:E; [|discriminate].
  intros _. eapply getRow_inside; eassumption.
Qed.

Section Step.

Variables (grid grid' : Grid) (placed : list PlacedWord).
Variables (w : WordEntry) (r c : Z) (d : Direction).

Let new := {| entry := w; row := r; col := c; direction := d |}.

Hypothesis HClear : InvClear size grid placed.
Hypothesis HOut : outsideFirst size grid placed.
Hypothesis HRuns : runsCovered grid placed.
Hypothesis Hin : inGrid size new.
Hypothesis Hpos : 0 < alen w.
Hypothesis Hcan : canPlaceWord grid (answer w) r c d = Some true.
Hypothesis Hplace : placeWord grid (answer w) r c d = Some grid'.

Lemma outsideFirst_place : outsideFirst size grid' (placed ++ [new]).
Proof.
  destruct HOut as (first & rest & Ep & Hout).
  exists first, (rest ++ [new]). split; [rewrite Ep; reflexivity|].
  intros r' c' x Hm Hx.
  destruct (place_cases grid w r c d grid' r' c' Hplace) as [[A _]|[_ E]].
  - exfalso. apply isCellOf_spec in A. unfold inGrid, wlen, new in A, Hin.
    cbn [entry row col direction] in A, Hin. destruct d; cbn iota in Hin; lia.
  - rewrite E in Hx. eapply Hout; eassumption.
Qed.

Lemma runsCovered_place : runsCovered grid' (placed ++ [new]).
Proof.
  destruct HRuns as [Hh Hv].
  pose proof HClear as ((L & R & Hold) & Hcols & Hwide & _).
  destruct HOut as (first & rest & Ep & Hout).
  pose proof (first_reaches_in first) as Hreach. cbn zeta in Hreach.
  set (f := {| entry := first; row := size / 2; col := (size - alen first) / 2;
               direction := across |}) in *.
  assert (Hf : In f placed) by (rewrite Ep; now left).
  assert (Hletter : forall r' c', isCellOf f (r', c') = true ->
                                  exists x, getCell grid r' c' = Some (letter x))
    by (intros r' c'; now apply (letter_of_cell grid placed f)).
  assert (Hold' : forall w0, In w0 placed -> In w0 (placed ++ [new]))
    by (intros w0 H0; apply in_or_app; now left).
  assert (Hnew : In new (placed ++ [new]))
    by (apply in_or_app; right; now left).
  unfold inGrid, wlen, new in Hin. cbn [entry row col direction] in Hin.
  split.
  - intros r' c' x y H1 H2.
    destruct (place_cases grid w r c d grid' r' c' Hplace) as [[A1 _]|[A1 E1]];
      destruct (place_cases grid w r c d grid' r' (c' + 1) Hplace) as [[A2 _]|[A2 E2]].
    + exists new. repeat split; auto.
      apply isCellOf_spec in A1, A2. cbn [entry row col direction] in A1, A2.
      destruct d; [reflexivity|cbn iota in Hin; lia].
    + rewrite E2 in H2. destruct d; cbn iota in Hin.
      * pose proof A1 as B1. apply isCellOf_spec in B1. apply isCellOf_false in A2.
        unfold wlen in B1, A2. cbn [entry row col direction] in B1, A2.
        destruct (canPlaceWord_across_ends _ _ _ _ Hcan)
          as (row0 & E0 & Hfit & Hleft & Hright).
        fold (alen w) in Hfit, Hright.
        destruct (Hwide ltac:(lia)) as (row0' & E0' & Hlen).
        rewrite E0 in E0'. injection E0' as <-.
        destruct (Z.eq_dec (c + alen w) (len row0)) as [Heq|Hne].
        -- assert (c' + 1 = size) as Hc' by lia.
           rewrite Hc' in H2.
           assert (isCellOf f (r', size) = true) as Hs
               by (eapply Hout; [right; lia|eassumption]).
           exists f. repeat split; auto.
           ++ replace c' with (size - 1) by lia. now apply Hreach.
           ++ now rewrite Hc'.
        -- destruct B1 as [-> B1].
           replace (c' + 1) with (c + alen w) in H2 by lia.
           rewrite Hright in H2 by lia. discriminate H2.
      * destruct (before_cases _ _ _ _ _ _ _ Hcan A1) as [Hnull|[x0 Hx0]].
        -- exfalso. apply isCellOf_spec in A1. unfold wlen in A1. cbn [entry row col direction] in A1.
           destruct A1 as [-> A1].
           destruct (canPlaceWord_down_sides grid (answer w) r c (r' - r) Hcan)
             as (row0 & E0 & _ & Hright); [unfold alen in *; lia| |].
           { now replace (r + (r' - r)) with r' by lia. }
           replace (r + (r' - r)) with r' in Hright by lia.
           destruct (Hwide ltac:(lia)) as (row0' & E0' & Hlen).
           rewrite E0 in E0'. injection E0' as <-.
           destruct (Z.lt_ge_cases c (len row0 - 1)) as [Hlt|Hge].
           ++ rewrite Hright in H2 by assumption. discriminate H2.
           ++ assert (c = size - 1) as Hc by lia.
              assert (isCellOf f (r', size) = true) as Hs.
              { eapply Hout; [right; lia|]. replace size with (c + 1) by lia. eassumption. }
              apply Hreach, Hletter in Hs. destruct Hs as [z Hz].
              rewrite <- Hc, Hnull in Hz. discriminate Hz.
        -- destruct (Hh r' c' x0 y Hx0 H2) as (w0 & H0 & D0 & C1 & C2).
           exists w0. auto.
    + rewrite E1 in H1. destruct d; cbn iota in Hin.
      * pose proof A2 as B2. apply isCellOf_spec in B2. apply isCellOf_false in A1.
        unfold wlen in B2, A1. cbn [entry row col direction] in B2, A1.
        destruct (canPlaceWord_across_ends _ _ _ _ Hcan)
          as (row0 & E0 & Hfit & Hleft & Hright).
        destruct (Z.eq_dec c 0) as [Hc0|Hc0].
        -- assert (c' = -1) as Hc' by lia. subst c'.
           assert (isCellOf f (r', -1) = true) as Hs
               by (eapply Hout; [left; lia|eassumption]).
           exists f. repeat split; auto. now apply Hreach.
        -- destruct B2 as [-> B2].
           replace c' with (c - 1) in H1 by lia.
           rewrite Hleft in H1 by lia. discriminate H1.
      * destruct (before_cases _ _ _ _ _ _ _ Hcan A2) as [Hnull|[y0 Hy0]].
        -- exfalso. apply isCellOf_spec in A2. unfold wlen in A2.
           cbn [entry row col direction] in A2. destruct A2 as [Hc A2].
           destruct (canPlaceWord_down_sides grid (answer w) r c (r' - r) Hcan)
             as (row0 & E0 & Hleft & _); [unfold alen in *; lia| |].
           { replace (r + (r' - r)) with r' by lia. now rewrite <- Hc. }
           replace (r + (r' - r)) with r' in Hleft by lia.
           destruct (Z.eq_dec c 0) as [Hc0|Hc0].
           ++ assert (c' = -1) as Hc' by lia. subst c'.
              assert (isCellOf f (r', -1) = true) as Hs
                  by (eapply Hout; [left; lia|eassumption]).
              apply Hreach, Hletter in Hs. destruct Hs as [z Hz].
              change (-1 + 1) with 0 in Hnull. rewrite Hnull in Hz. discriminate Hz.
           ++ replace (c - 1) with c' in Hleft by lia.
              rewrite Hleft in H1 by lia. discriminate H1.
        -- destruct (Hh r' c' x y0 H1 Hy0) as (w0 & H0 & D0 & C1 & C2).
           exists w0. auto.
    + rewrite E1 in H1. rewrite E2 in H2.
      destruct (Hh r' c' x y H1 H2) as (w0 & H0 & D0 & C1 & C2).
      exists w0. auto.
  - intros r' c' x y H1 H2.
    destruct (place_cases grid w r c d grid' r' c' Hplace) as [[A1 _]|[A1 E1]];
      destruct (place_cases grid w r c d grid' (r' + 1) c' Hplace) as [[A2 _]|[A2 E2]].
    + exists new. repeat split; auto.
      apply isCellOf_spec in A1, A2. cbn [entry row col direction] in A1, A2.
      destruct d; [cbn iota in Hin; lia|reflexivity].
    + rewrite E2 in H2. pose proof (getCell_inside _ _ _ _ H2) as Hrow. destruct d; cbn iota in Hin.
      * destruct (before_cases _ _ _ _ _ _ _ Hcan A1) as [Hnull|[x0 Hx0]].
        -- exfalso. apply isCellOf_spec in A1. unfold wlen in A1. cbn [entry row col direction] in A1.
           destruct A1 as [-> A1].
           destruct (canPlaceWord_across_sides grid (answer w) r c (c' - c) Hcan)
             as (_ & Hbelow); [unfold alen in *; lia| |].
           { now replace (c + (c' - c)) with c' by lia. }
           replace (c + (c' - c)) with c' in Hbelow by lia.
           rewrite Hbelow in H2 by lia. discriminate H2.
        -- destruct (Hv r' c' x0 y Hx0 H2) as (w0 & H0 & D0 & C1 & C2).
           exists w0. auto.
      * exfalso. pose proof A1 as B1. apply isCellOf_spec in B1.
        apply isCellOf_false in A2. unfold wlen in B1, A2. cbn [entry row col direction] in B1, A2.
        destruct (canPlaceWord_down_ends _ _ _ _ Hcan) as (Hfit & Htop & Hbottom).
        fold (alen w) in Hfit, Hbottom.
        assert (r' + 1 = r + alen w) as Hr' by lia.
        rewrite Hr' in H2. destruct B1 as [-> B1].
        rewrite Hbottom in H2 by lia. discriminate H2.
    + rewrite E1 in H1. pose proof (getCell_inside _ _ _ _ H1) as Hrow. destruct d; cbn iota in Hin.
      * destruct (before_cases _ _ _ _ _ _ _ Hcan A2) as [Hnull|[y0 Hy0]].
        -- exfalso. apply isCellOf_spec in A2. unfold wlen in A2. cbn [entry row col direction] in A2.
           destruct A2 as [Hr A2].
           destruct (canPlaceWord_across_sides grid (answer w) r c (c' - c) Hcan)
             as (Habove & _); [unfold alen in *; lia| |].
           { replace (c + (c' - c)) with c' by lia. now rewrite <- Hr. }
           replace (c + (c' - c)) with c' in Habove by lia.
           replace (r - 1) with r' in Habove by lia.
           rewrite Habove in H1 by lia. discriminate H1.
        -- destruct (Hv r' c' x y0 H1 Hy0) as (w0 & H0 & D0 & C1 & C2).
           exists w0. auto.
      * exfalso. pose proof A2 as B2. apply isCellOf_spec in B2.
        apply isCellOf_false in A1. unfold wlen in B2, A1. cbn [entry row col direction] in B2, A1.
        destruct (canPlaceWord_down_ends _ _ _ _ Hcan) as (Hfit & Htop & Hbottom).
        assert (r' = r - 1) as Hr' by lia. destruct B2 as [-> B2].
        rewrite Hr', Htop in H1 by lia. discriminate H1.
    + rewrite E1 in H1. rewrite E2 in H2.
      destruct (Hv r' c' x y H1 H2) as (w0 & H0 & D0 & C1 & C2).
      exists w0. auto.
Qed.

End Step.

Lemma passes_InvRuns remaining grid placed :
  InvRuns size grid placed ->
  Extends2 (InvRuns size) placed
    (match iLoop size remaining (grid, placed) with
     | None => None
     | Some st => iLoop size remaining st
     end).
Proof.
  apply passes_Extends.
  - now intros g p (((H & _) & _) & _).
  - intros g p w (((_ & H & _) & _) & _) Hw. rewrite Forall_forall in H. now apply H.
  - intros g p w P j k g' (HC & HL & HO & HR) HP D Hj Hk _ G1 G2 C E.
    destruct (InvLater_place_down size size_ge_2 g p w (row P - j) (col P + k) g')
      as [Hc HL']; auto; [intros ->; contradiction|lia|].
    assert (inGrid size {| entry := w; row := row P - j; col := col P + k;
                           direction := down |})
      by (unfold inGrid, wlen; cbn; lia).
    split; [now apply (InvClear_place_down size g)|].
    split; [assumption|]. split.
    + apply (outsideFirst_place g); auto; lia.
    + apply (runsCovered_place g); auto. lia.
  - intros g p w P j k g' (HC & HL & HO & HR) HP D Hj Hk _ G1 G2 C E.
    assert (HR' : 0 <= row P /\ row P + wlen P <= size).
    { destruct HL as (_ & R & _). rewrite Forall_forall in R. now apply R. }
    assert (inGrid size {| entry := w; row := row P + k; col := col P - j;
                           direction := across |})
      by (unfold inGrid, wlen; cbn; lia).
    split; [apply (InvClear_place_across size g); auto; lia|].
    split; [apply (InvLater_place_across size g); auto; [intros ->; contradiction|lia]|].
    split.
    + apply (outsideFirst_place g); auto; lia.
    + apply (runsCovered_place g); auto. lia.
Qed.

Lemma newGrid_no_letter r c x : getCell (newGrid size) r c <> Some (letter x).
Proof.
  unfold getCell, getRow, newGrid.
  destruct (r <? 0); [discriminate|].
  destruct (nth_error (repeat (newRow size) (Z.to_nat size)) (Z.to_nat r)) as [y|] eqn:Ey;
    [|discriminate].
  apply nth_error_In, repeat_spec in Ey. subst y. cbn [prop newRow].
  destruct ((0 <=? c) && (c <? size)); discriminate.
Qed.

Lemma InvRuns_first first grid :
  placeWord (newGrid size) (answer first) (size / 2) ((size - alen first) / 2) across
  = Some grid ->
  InvRuns size grid [firstPlaced size first].
Proof.
  intros E.
  assert (Hcell : forall r c x,
             getCell grid r c = Some (letter x) ->
             isCellOf (firstPlaced size first) (r, c) = true).
  { intros r c x Hx.
    destruct (place_cases (newGrid size) first (size / 2) ((size - alen first) / 2)
                          across grid r c E) as [[A _]|[_ E']]; [exact A|].
    rewrite E' in Hx. now apply newGrid_no_letter in Hx. }
  split; [apply InvClear_first; [assumption|lia]|].
  split; [now apply InvLater_first|]. split.
  - exists first, []. split; [reflexivity|]. intros r c x _. apply Hcell.
  - split; intros r c x y H1 H2; apply Hcell in H1, H2.
    + exists (firstPlaced size first). repeat split; auto. now left.
    + exfalso. apply isCellOf_spec in H1, H2. cbn in H1, H2. lia.
Qed.

End Runs.

(** X6.  In a grid of two rows or more, two letters of the output that
    stand side by side are cells of one word across, and two letters one above the
    other are cells of one word down: the layout joins no letters that it
    did not place as a word. *)
Theorem adjacent_letters_share_a_word
        (wordsData : list WordEntry) (size : Z) (out : list PlacedWord)
        (w1 w2 : PlacedWord) (r c : Z) :
  2 <= size ->
  generateGridLayout wordsData size = Some out ->
  In w1 out -> In w2 out ->
  isCellOf w1 (r, c) = true ->
  (isCellOf w2 (r, c + 1) = true ->
   exists w, In w out /\ direction w = across /\
             isCellOf w (r, c) = true /\ isCellOf w (r, c + 1) = true) /\
  (isCellOf w2 (r + 1, c) = true ->
   exists w, In w out /\ direction w = down /\
             isCellOf w (r, c) = true /\ isCellOf w (r + 1, c) = true).
Proof.
  intros Hsize E H1 H2 C1.
  destruct (layout_result size (InvRuns size) wordsData out E)
    as [[_ ->]|(first & remaining & rest & g & _ & _ & HC & _ & _ & Hh & Hv)].
  - intros rem grid placed. now apply passes_InvRuns.
  - intros first remaining grid _ E1 _. now apply InvRuns_first.
  - contradiction.
  - destruct HC as ((_ & _ & Hold) & _).
    destruct (letter_of_cell g out w1 r c Hold H1 C1) as [x Hx].
    split; intros C2.
    + destruct (letter_of_cell g out w2 r (c + 1) Hold H2 C2) as [y Hy].
      exact (Hh r c x y Hx Hy).
    + destruct (letter_of_cell g out w2 (r + 1) c Hold H2 C2) as [y Hy].
      exact (Hv r c x y Hx Hy).
Qed.

(** ** The numbering of the clues *)

Section KeyInjective.
Import Puzzle.

Lemma digits_noDash d pre post :
  NilEmpty.string_of_uint d <> (pre ++ String "-" post)%string.
Proof.
  revert pre. induction d; intros [|a pre]; cbn; try discriminate;
    intros [= H1 H2]; try discriminate; eapply IHd; eassumption.
Qed.

Lemma split_at_dash s1 s2 x y :
  (forall pre post, s1 <> (pre ++ String "-" post)%string) ->
  (forall pre post, s2 <> (pre ++ String "-" post)%string) ->
  (s1 ++ String "-" x)%string = (s2 ++ String "-" y)%string ->
  s1 = s2 /\ x = y.
Proof.
  revert s2. induction s1 as [|a s1 IH]; intros [|b s2] H1 H2 E; cbn in E.
  - injection E as ->. auto.
  - injection E as <- E. exfalso. apply (H2 EmptyString s2). reflexivity.
  - injection E as -> E. exfalso. apply (H1 EmptyString s1). reflexivity.
  - injection E as -> E.
    destruct (IH s2) as [-> ->]; auto.
    + intros pre post ->. apply (H1 (String b pre) post). reflexivity.
    + intros pre post ->. apply (H2 (String b pre) post). reflexivity.
Qed.

Lemma digits_head d :
  d <> Decimal.Nil ->
  exists a s, NilEmpty.string_of_uint d = String a s /\ a <> "-"%char.
Proof.
  destruct d; intros H; try contradiction; cbn; eexists _, _; split;
    try reflexivity; discriminate.
Qed.

Lemma to_int_nonnil n :
  match Z.to_int n with Decimal.Pos d | Decimal.Neg d => d <> Decimal.Nil end.
Proof.
  destruct n; cbn; [discriminate| |]; apply Unsigned.to_uint_nonnil.
Qed.

Lemma toString_inj a b : toString a = toString b -> a = b.
Proof.
  unfold toString. intros H. apply DecimalZ.to_int_inj.
  pose proof (NilEmpty.isi (Z.to_int a)) as Ha.
  rewrite H, NilEmpty.isi in Ha. now injection Ha.
Qed.

Lemma toString_split a b x y :
  (toString a ++ String "-" x)%string = (toString b ++ String "-" y)%string ->
  toString a = toString b /\ x = y.
Proof.
  unfold toString. pose proof (to_int_nonnil a) as Na. pose proof (to_int_nonnil b) as Nb.
  destruct (Z.to_int a) as [da|da], (Z.to_int b) as [db|db]; cbn [NilEmpty.string_of_int].
  - apply split_at_dash; apply digits_noDash.
  - intros E. exfalso. destruct (digits_head da Na) as (c & s & Ec & Hc).
    rewrite Ec in E. cbn in E. injection E as E _. contradiction.
  - intros E. exfalso. destruct (digits_head db Nb) as (c & s & Ec & Hc).
    rewrite Ec in E. cbn in E. injection E as E _. now symmetry in E.
  - cbn. intros [= E]. destruct (split_at_dash _ _ _ _ (digits_noDash da) (digits_noDash db) E)
      as [-> ->]. auto.
Qed.

Lemma key_inj r c r' c' : key r c = key r' c' -> r = r' /\ c = c'.
Proof.
  unfold key. intros E.
  destruct (toString_split r r' (toString c) (toString c')) as [E1 E2].
  { exact E. }
  split; now apply toString_inj.
Qed.


Lemma key_eqb r c r' c' :
  String.eqb (key r c) (key r' c') = (r =? r') && (c =? c').
Proof.
  destruct (String.eqb_spec (key r c) (key r' c')) as [E|E].
  - apply key_inj in E. destruct E as [-> ->]. now rewrite !Z.eqb_refl.
  - destruct (Z.eqb_spec r r') as [->|]; [|reflexivity].
    destruct (Z.eqb_spec c c') as [->|]; [|reflexivity]. now contradiction E.
Qed.

End KeyInjective.

Section StartsMap.
Import Puzzle.

Lemma get_set m k v k' :
  get (set m k v) k' = if String.eqb k k' then Some v else get m k'.
Proof.
  induction m as [|[k0 v0] m IH]; cbn.
  - reflexivity.
  - destruct (String.eqb_spec k0 k) as [->|Hne]; cbn.
    + now destruct (String.eqb k k').
    + rewrite IH. destruct (String.eqb_spec k0 k') as [->|]; [|reflexivity].
      destruct (String.eqb_spec k k') as [->|]; [contradiction|reflexivity].
Qed.

Lemma isStart_snoc ws w rc : isStart (ws ++ [w]) rc = isStart ws rc || startsHere rc w.
Proof. unfold isStart. rewrite existsb_app. cbn. now rewrite orb_false_r. Qed.

Lemma lastAt_snoc d ws w rc :
  lastAt d (ws ++ [w]) rc
  = if startsHere rc w && dirb (direction w) d then Some w else lastAt d ws rc.
Proof. unfold lastAt. rewrite rev_app_distr. reflexivity. Qed.

Lemma lastAt_isStart d ws rc : isStart ws rc = false -> lastAt d ws rc = None.
Proof.
  unfold isStart, lastAt. intros H.
  destruct (find _ (rev ws)) as [w|] eqn:E; [|reflexivity].
  apply find_some in E. destruct E as [Hin Hw]. apply in_rev in Hin.
  apply andb_prop in Hw. destruct Hw as [Hw _].
  assert (existsb (startsHere rc) ws = true) by (apply existsb_exists; eauto).
  congruence.
Qed.

Lemma startsHere_key w rc :
  String.eqb (key (row w) (col w)) (key (fst rc) (snd rc)) = startsHere rc w.
Proof. apply key_eqb. Qed.

Lemma get_mark m ws w :
  (forall rc, get m (key (fst rc) (snd rc)) = entryFor ws rc) ->
  forall rc, get (mark m w) (key (fst rc) (snd rc)) = entryFor (ws ++ [w]) rc.
Proof.
  intros Hm rc. unfold mark, has. cbv zeta.
  pose proof (Hm (row w, col w)) as Hw. cbn [fst snd] in Hw.
  unfold entryFor. rewrite isStart_snoc, !lastAt_snoc.
  unfold entryFor in Hw.
  destruct (isStart ws (row w, col w)) eqn:Ew; rewrite Hw; cbv beta iota.
  - rewrite Hw. cbv beta iota. rewrite get_set, startsHere_key, Hm. unfold entryFor.
    destruct (startsHere rc w) eqn:Es.
    + assert (rc = (row w, col w)) as ->.
      { unfold startsHere in Es. apply andb_prop in Es. destruct Es as [E1 E2].
        apply Z.eqb_eq in E1, E2. destruct rc. cbn in *. congruence. }
      rewrite Ew, orb_true_r. cbn [andb atAcross atDown].
      destruct (direction w); reflexivity.
    + rewrite orb_false_r. cbn [andb]. reflexivity.
  - rewrite get_set, String.eqb_refl. rewrite get_set, startsHere_key.
    destruct (startsHere rc w) eqn:Es.
    + assert (rc = (row w, col w)) as ->.
      { unfold startsHere in Es. apply andb_prop in Es. destruct Es as [E1 E2].
        apply Z.eqb_eq in E1, E2. destruct rc. cbn in *. congruence. }
      rewrite Ew. cbn [orb andb atAcross atDown].
      rewrite !(lastAt_isStart _ _ _ Ew).
      destruct (direction w); reflexivity.
    + rewrite get_set, startsHere_key, Es, Hm. unfold entryFor.
      rewrite orb_false_r. cbn [andb]. reflexivity.
Qed.

Lemma get_fold ws :
  forall m pre,
    (forall rc, get m (key (fst rc) (snd rc)) = entryFor pre rc) ->
    forall rc, get (fold_left mark ws m) (key (fst rc) (snd rc)) = entryFor (pre ++ ws) rc.
Proof.
  induction ws as [|w ws IH]; intros m pre Hm rc; cbn [fold_left].
  - rewrite app_nil_r. apply Hm.
  - replace (pre ++ w :: ws) with ((pre ++ [w]) ++ ws) by now rewrite <- app_assoc.
    apply IH. now apply get_mark.
Qed.

Lemma get_startsAt ws rc :
  get (startsAt ws) (key (fst rc) (snd rc)) = entryFor ws rc.
Proof. apply (get_fold ws [] []). intros rc'. reflexivity. Qed.

End StartsMap.

Section Scan.
Import Puzzle.

Variable toUpperCase : jsstring -> jsstring.

Lemma visit_fold ws cs :
  forall n acc,
    fold_left (visit toUpperCase (startsAt ws)) cs (n, acc)
    = (n + Z.of_nat (length (filter (isStart ws) cs)), acc ++ cluesFrom toUpperCase ws cs n).
Proof.
  induction cs as [|rc cs IH]; intros n acc; cbn [fold_left filter cluesFrom].
  - now rewrite Z.add_0_r, app_nil_r.
  - unfold visit at 2. unfold has. rewrite get_startsAt. unfold entryFor.
    destruct (isStart ws rc); cbn [length].
    + rewrite IH, <- app_assoc. f_equal. lia.
    + apply IH.
Qed.

Lemma assignNumbers_cluesFrom ws :
  assignNumbers toUpperCase ws = cluesFrom toUpperCase ws cells 1.
Proof. unfold assignNumbers. now rewrite visit_fold. Qed.

Lemma In_cluesFrom ws cl cs :
  forall n,
    In cl (cluesFrom toUpperCase ws cs n) <->
    exists pre rc post cell,
      cs = pre ++ rc :: post /\ entryFor ws rc = Some cell /\
      In cl (cluesAt toUpperCase cell (n + Z.of_nat (length (filter (isStart ws) pre)))).
Proof.
  induction cs as [|rc cs IH]; intros n; cbn [cluesFrom].
  - split; [contradiction|]. intros (pre & rc & post & cell & E & _).
    now destruct pre.
  - assert (Hs : isStart ws rc = match entryFor ws rc with Some _ => true | None => false end)
      by (unfold entryFor; now destruct (isStart ws rc)).
    destruct (entryFor ws rc) as [cell|] eqn:Ec.
    + rewrite in_app_iff, IH. split.
      * intros [H|(pre & rc' & post & cell' & E & Ec' & H)].
        -- exists [], rc, cs, cell. cbn. rewrite Z.add_0_r. auto.
        -- exists (rc :: pre), rc', post, cell'. cbn [filter app]. rewrite Hs. cbn [length].
           rewrite E. repeat split; auto.
           replace (n + Z.of_nat (S (length (filter (isStart ws) pre))))
             with (n + 1 + Z.of_nat (length (filter (isStart ws) pre))) by lia.
           assumption.
      * intros (pre & rc' & post & cell' & E & Ec' & H).
        destruct pre as [|x pre]; cbn [app] in E; injection E as <- ->.
        -- left. cbn in H. rewrite Z.add_0_r in H. congruence.
        -- right. exists pre, rc', post, cell'. repeat split; auto.
           cbn [filter] in H. rewrite Hs in H. cbn [length] in H.
           replace (n + 1 + Z.of_nat (length (filter (isStart ws) pre)))
             with (n + Z.of_nat (S (length (filter (isStart ws) pre)))) by lia.
           assumption.
    + rewrite IH. split.
      * intros (pre & rc' & post & cell' & E & Ec' & H).
        exists (rc :: pre), rc', post, cell'. cbn [filter app]. rewrite Hs, E. auto.
      * intros (pre & rc' & post & cell' & E & Ec' & H).
        destruct pre as [|x pre]; cbn [app] in E; injection E as <- ->.
        -- congruence.
        -- exists pre, rc', post, cell'. repeat split; auto.
           cbn [filter] in H. now rewrite Hs in H.
Qed.

Lemma find_rev {A} (f : A -> bool) (l : list A) (x : A) :
  find f (rev l) = Some x <->
  exists pre post, l = pre ++ x :: post /\ f x = true /\
                   forallb (fun y => negb (f y)) post = true.
Proof.
  induction l as [|y l IH] using rev_ind.
  - cbn. split; [discriminate|]. intros (pre & post & E & _). now destruct pre.
  - rewrite rev_app_distr. cbn [rev app find]. destruct (f y) eqn:Ey.
    + split.
      * intros [= ->]. exists l, []. auto.
      * intros (pre & post & E & Hx & Hpost).
        destruct post as [|z post] using rev_ind.
        -- apply app_inj_tail in E. destruct E as [_ ->]. reflexivity.
        -- exfalso. rewrite app_comm_cons, app_assoc in E.
           apply app_inj_tail in E. destruct E as [_ ->].
           rewrite forallb_app in Hpost. cbn in Hpost. rewrite Ey in Hpost.
           cbn in Hpost. now rewrite andb_false_r in Hpost.
    + rewrite IH. split.
      * intros (pre & post & -> & Hx & Hpost).
        exists pre, (post ++ [y]). rewrite <- app_assoc. cbn [app].
        repeat split; auto. rewrite forallb_app, Hpost. cbn. now rewrite Ey.
      * intros (pre & post & E & Hx & Hpost).
        destruct post as [|z post] using rev_ind.
        -- apply app_inj_tail in E. destruct E as [_ ->]. congruence.
        -- rewrite app_comm_cons, app_assoc in E.
           apply app_inj_tail in E. destruct E as [-> ->].
           exists pre, post. rewrite forallb_app in Hpost.
           apply andb_prop in Hpost. destruct Hpost as [Hpost _]. auto.
Qed.

Lemma In_cells r c : In (r, c) cells <-> 0 <= r < gridSize /\ 0 <= c < gridSize.
Proof.
  unfold cells, range. rewrite in_flat_map. split.
  - intros (r' & Hr & Hc). apply in_map_iff in Hc.
    destruct Hc as (c' & [= <- <-] & Hc). apply in_map_iff in Hr, Hc.
    destruct Hr as (i & <- & Hi), Hc as (j & <- & Hj).
    apply in_seq in Hi, Hj. unfold gridSize in *. lia.
  - intros [Hr Hc]. exists r. split.
    + apply in_map_iff. exists (Z.to_nat r). split; [lia|]. apply in_seq.
      unfold gridSize in *. lia.
    + apply in_map_iff. exists c. split; [reflexivity|].
      apply in_map_iff. exists (Z.to_nat c). split; [lia|]. apply in_seq.
      unfold gridSize in *. lia.
Qed.

Lemma forallb_ext {A} (f g : A -> bool) l :
  (forall x, f x = g x) -> forallb f l = forallb g l.
Proof. intros H. induction l; cbn; [reflexivity|]. now rewrite H, IHl. Qed.

Lemma sameKind_dirb w y :
  sameKind w y = startsHere (row w, col w) y && dirb (direction y) (direction w).
Proof.
  unfold sameKind, sameDirection, dirb. now destruct (direction w), (direction y).
Qed.

Lemma lastAt_Some d ws rc w :
  lastAt d ws rc = Some w <->
  rc = (row w, col w) /\ direction w = d /\ lastOfKind ws w.
Proof.
  unfold lastAt, lastOfKind. rewrite find_rev. split.
  - intros (pre & post & E & Hw & Hpost).
    apply andb_prop in Hw. destruct Hw as [Hs Hd].
    assert (rc = (row w, col w)) as ->.
    { unfold startsHere in Hs. apply andb_prop in Hs. destruct Hs as [E1 E2].
      apply Z.eqb_eq in E1, E2. destruct rc. cbn in *. congruence. }
    assert (direction w = d) as <- by (destruct (direction w), d; auto; discriminate).
    repeat split; auto. exists pre, post. split; [assumption|].
    rewrite <- Hpost. apply forallb_ext. intros y. now rewrite sameKind_dirb.
  - intros (-> & <- & pre & post & E & Hpost).
    exists pre, post. repeat split; auto.
    + unfold startsHere. cbn [fst snd]. rewrite !Z.eqb_refl. now destruct (direction w).
    + rewrite <- Hpost. apply forallb_ext. intros y. now rewrite sameKind_dirb.
Qed.

Lemma lastOfKind_isStart ws w : lastOfKind ws w -> isStart ws (row w, col w) = true.
Proof.
  intros (pre & post & -> & _). unfold isStart. apply existsb_exists.
  exists w. split; [apply in_or_app; right; now left|].
  unfold startsHere. cbn [fst snd]. now rewrite !Z.eqb_refl.
Qed.

Lemma In_assignNumbers ws cl :
  In cl (assignNumbers toUpperCase ws) <->
  exists w pre post,
    cells = pre ++ (row w, col w) :: post /\
    lastOfKind ws w /\
    cl = clueOf toUpperCase w (1 + Z.of_nat (length (filter (isStart ws) pre)))
                (direction w).
Proof.
  rewrite assignNumbers_cluesFrom, In_cluesFrom. split.
  - intros (pre & rc & post & cell & E & Ec & H).
    unfold entryFor in Ec. destruct (isStart ws rc); [|discriminate].
    injection Ec as <-. unfold cluesAt in H. cbn [atAcross atDown] in H.
    apply in_app_or in H. destruct H as [H|H].
    + destruct (lastAt across ws rc) as [w|] eqn:Ew; [|contradiction].
      destruct H as [<-|[]]. apply lastAt_Some in Ew. destruct Ew as (-> & D & Hl).
      exists w, pre, post. rewrite D. auto.
    + destruct (lastAt down ws rc) as [w|] eqn:Ew; [|contradiction].
      destruct H as [<-|[]]. apply lastAt_Some in Ew. destruct Ew as (-> & D & Hl).
      exists w, pre, post. rewrite D. auto.
  - intros (w & pre & post & E & Hl & ->).
    exists pre, (row w, col w), post,
      {| atAcross := lastAt across ws (row w, col w);
         atDown := lastAt down ws (row w, col w) |}.
    split; [assumption|]. split.
    + unfold entryFor. now rewrite (lastOfKind_isStart ws w Hl).
    + unfold cluesAt. cbn [atAcross atDown]. apply in_or_app.
      destruct (direction w) eqn:D; [left|right].
      * replace (lastAt across ws (row w, col w)) with (Some w); [now left|].
        symmetry. apply lastAt_Some. auto.
      * replace (lastAt down ws (row w, col w)) with (Some w); [now left|].
        symmetry. apply lastAt_Some. auto.
Qed.

End Scan.

(** X8.  The clues are numbered from 1 in the order of the scan, by start cell:
    the clue numbered [n] belongs to a placed word that starts at the
    [n]-th start cell of the grid, rows first, and it carries the upper-cased
    answer and the clue text of that word. *)
Theorem clues_numbered_in_scan_order
        (toUpperCase : jsstring -> jsstring) (validWords : list PlacedWord)
        (cl : Puzzle.Clue) :
  In cl (Puzzle.assignNumbers toUpperCase validWords) ->
  In (Puzzle.word cl) validWords /\
  cl = Puzzle.clueOf toUpperCase (Puzzle.word cl) (Puzzle.number cl)
                     (direction (Puzzle.word cl)) /\
  1 <= Puzzle.number cl /\
  nth_error (Puzzle.startCells validWords) (Z.to_nat (Puzzle.number cl - 1))
  = Some (row (Puzzle.word cl), col (Puzzle.word cl)).
Proof.
  intros H.
  destruct (proj1 (In_assignNumbers toUpperCase validWords cl) H)
    as (w & pre & post & E & Hl & ->).
  cbn [Puzzle.word Puzzle.number Puzzle.clueOf].
  split; [|split; [reflexivity|split; [lia|]]].
  - destruct Hl as (p & q & -> & _). apply in_or_app. right. left. reflexivity.
  - unfold Puzzle.startCells. rewrite E, filter_app. cbn [filter].
    rewrite (lastOfKind_isStart _ _ Hl).
    replace (1 + Z.of_nat (length (filter (Puzzle.isStart validWords) pre)) - 1)
      with (Z.of_nat (length (filter (Puzzle.isStart validWords) pre))) by lia.
    rewrite Nat2Z.id. apply nth_error_middle.
Qed.

(** X9.  A placed word has a clue exactly when it starts inside the grid and no
    word placed after it starts at the same cell in the same direction. *)
Theorem word_has_clue_iff_last_of_kind
        (toUpperCase : jsstring -> jsstring) (validWords : list PlacedWord)
        (w : PlacedWord) :
  (exists num, In (Puzzle.clueOf toUpperCase w num (direction w))
                  (Puzzle.assignNumbers toUpperCase validWords)) <->
  Puzzle.lastOfKind validWords w /\
  0 <= row w < Puzzle.gridSize /\ 0 <= col w < Puzzle.gridSize.
Proof.
  split.
  - intros (num & H).
    destruct (proj1 (In_assignNumbers toUpperCase validWords _) H)
      as (w' & pre & post & E & Hl & Hc).
    assert (w = w') as <- by exact (f_equal Puzzle.word Hc).
    split; [assumption|]. apply In_cells. rewrite E. apply in_or_app. right. left.
    reflexivity.
  - intros (Hl & Hr & Hc).
    assert (Hin : In (row w, col w) Puzzle.cells) by now apply In_cells.
    apply in_split in Hin. destruct Hin as (pre & post & E).
    eexists. apply (proj2 (In_assignNumbers toUpperCase validWords _)).
    exists w, pre, post. split; [eassumption|]. split; [assumption|reflexivity].
Qed.

(** X7.  The key of the map tells the cells apart: two cells have the same key
    only if they have the same row and the same column, negative numbers
    included. *)
Theorem key_tells_cells_apart (r c r' c' : Z) :
  Puzzle.key r c = Puzzle.key r' c' <-> r = r' /\ c = c'.
Proof.
  split; [apply key_inj|]. now intros [-> ->].
Qed.

Lemma clues_numbered_in_scan_order_witness :
  In {| entry := mkWord "grid"; row := 6; col := 5; direction := down |}
     [ {| entry := mkWord "logic"; row := 6; col := 3; direction := across |};
       {| entry := mkWord "grid"; row := 6; col := 5; direction := down |} ] /\
  {| Puzzle.word := {| entry := mkWord "grid"; row := 6; col := 5; direction := down |};
     Puzzle.upperAnswer := str "GRID";
     Puzzle.number := 2;
     Puzzle.text := [];
     Puzzle.clueDirection := down |}
  = Puzzle.clueOf Puzzle.upperASCII
      {| entry := mkWord "grid"; row := 6; col := 5; direction := down |} 2 down /\
  1 <= 2 /\
  nth_error
    (Puzzle.startCells
       [ {| entry := mkWord "logic"; row := 6; col := 3; direction := across |};
         {| entry := mkWord "grid"; row := 6; col := 5; direction := down |} ])
    (Z.to_nat (2 - 1))
  = Some (6, 5).
Proof.
  apply (clues_numbered_in_scan_order
           Puzzle.upperASCII
           [ {| entry := mkWord "logic"; row := 6; col := 3; direction := across |};
             {| entry := mkWord "grid"; row := 6; col := 5; direction := down |} ]
           {| Puzzle.word := {| entry := mkWord "grid"; row := 6; col := 5;
                                direction := down |};
              Puzzle.upperAnswer := str "GRID";
              Puzzle.number := 2;
              Puzzle.text := [];
              Puzzle.clueDirection := down |}).
  vm_compute. right. left. reflexivity.
Defined.

Lemma adjacent_letters_share_a_word_witness :
  (isCellOf {| entry := mkWord "GRID"; row := 6; col := 5; direction := down |}
            (6, 4 + 1) = true ->
   exists w,
     In w [ {| entry := mkWord "LOGIC"; row := 6; col := 3; direction := across |};
            {| entry := mkWord "GRID"; row := 6; col := 5; direction := down |} ] /\
     direction w = across /\
     isCellOf w (6, 4) = true /\ isCellOf w (6, 4 + 1) = true) /\
  (isCellOf {| entry := mkWord "GRID"; row := 6; col := 5; direction := down |}
            (6 + 1, 4) = true ->
   exists w,
     In w [ {| entry := mkWord "LOGIC"; row := 6; col := 3; direction := across |};
            {| entry := mkWord "GRID"; row := 6; col := 5; direction := down |} ] /\
     direction w = down /\
     isCellOf w (6, 4) = true /\ isCellOf w (6 + 1, 4) = true).
Proof.
  apply (adjacent_letters_share_a_word
           [mkWord "LOGIC"; mkWord "GRID"] 12
           [ {| entry := mkWord "LOGIC"; row := 6; col := 3; direction := across |};
             {| entry := mkWord "GRID"; row := 6; col := 5; direction := down |} ]
           {| entry := mkWord "LOGIC"; row := 6; col := 3; direction := across |}).
  - lia.
  - vm_compute. reflexivity.
  - left. reflexivity.
  - right. left. reflexivity.
  - reflexivity.
Defined.

(** ** The puzzle handed to the game *)

Lemma layout_returns wordsData size :
  0 < size -> exists out, generateGridLayout wordsData size = Some out.
Proof.
  intros Hsize.
  destruct (sortWords wordsData) as [|first remaining] eqn:Hs.
  - exists []. unfold generateGridLayout, layout. rewrite Hs.
    destruct (Z.ltb_spec size 0); [lia|reflexivity].
  - destruct (layout_shape size (InvRows size) wordsData first remaining)
      as (rest & E & _); auto; try lia.
    + intros grid placed. apply passes_InvRows.
    + intros grid L. split; [assumption|].
      constructor; [|constructor]. intros D. discriminate D.
    + eauto.
Qed.

Lemma layout_head wordsData size out :
  generateGridLayout wordsData size = Some out ->
  out = [] \/ exists first rest, out = firstPlaced size first :: rest.
Proof.
  intros E.
  destruct (layout_result size (InvRows size) wordsData out E)
    as [[_ ->]|(first & remaining & rest & g & _ & -> & _)].
  - intros rem grid placed. apply passes_InvRows.
  - intros f rem grid _. apply InvRows_first.
  - now left.
  - right. eauto.
Qed.

(** X10.  Whatever the answers, [generateCrosswordPuzzle] gets a layout (the
    [catch] is not reached from there on), and the word of every clue lies
    inside the grid of 12 by 12 cells: a first word of more than 12 letters
    starts left of the grid and gets no clue. *)
Theorem puzzle_clues_inside_grid
        (toUpperCase : jsstring -> jsstring) (words : list WordEntry) :
  exists clues,
    Puzzle.generateCrosswordPuzzle toUpperCase words = Some clues /\
    forall cl, In cl clues ->
      0 <= row (Puzzle.word cl) /\ 0 <= col (Puzzle.word cl) /\
      lastIndex (Puzzle.word cl) < 12 /\
      (forall i, 0 <= i < wlen (Puzzle.word cl) ->
                 0 <= fst (cellAt (Puzzle.word cl) i) < 12 /\
                 0 <= snd (cellAt (Puzzle.word cl) i) < 12).
Proof.
  destruct (layout_returns words 12 ltac:(lia)) as [out E].
  exists (Puzzle.assignNumbers toUpperCase out). split.
  - unfold Puzzle.generateCrosswordPuzzle, Puzzle.gridSize. now rewrite E.
  - intros cl Hcl. apply inGrid_bounds.
    destruct (proj1 (In_assignNumbers toUpperCase out cl) Hcl)
      as (w & pre & post & Ecells & Hl & ->).
    cbn [Puzzle.word Puzzle.clueOf].
    assert (Hstart : 0 <= row w < 12 /\ 0 <= col w < 12).
    { apply In_cells. rewrite Ecells. apply in_or_app. right. left. reflexivity. }
    clear Ecells.
    assert (Hw : In w out).
    { destruct Hl as (p & q & -> & _). apply in_or_app. right. left. reflexivity. }
    pose proof (later_words_inGrid words 12 out ltac:(lia) E) as Hlater.
    rewrite Forall_forall in Hlater.
    destruct (layout_head words 12 out E) as [->|(first & rest & ->)];
      [contradiction|].
    destruct Hw as [<-|Hw]; [|apply Hlater; exact Hw].
    apply inGrid_first; [lia|].
    unfold firstPlaced in Hstart. cbn [row col] in Hstart.
    assert (0 <= alen first) by (unfold alen; lia).
    destruct (Z.le_gt_cases (alen first) 12) as [Hle|Hgt]; [assumption|].
    exfalso. assert ((12 - alen first) / 2 < 0); [|lia].
    apply Z.div_lt_upper_bound; lia.
Qed.

(** ** Further properties of the Sudoku generator *)

(** X11.  [shuffle] rearranges the array: the result has the same
    elements, each as many times, and the generator has been called once per index from
    the last down to 1, so not at all for an array of fewer than two
    elements. *)
Theorem shuffle_rearranges {A : Type} (array : list A) (s : Z) :
  Permutation array (fst (shuffle array s)) /\
  snd (shuffle array s) = seedAfter (N.of_nat (length array - 1)) s.
Proof.
  split; [apply shuffle_Permutation|apply shuffleFrom_draws].
Qed.

Section Nested.

Lemma mask_cell_mono (h h' : nat -> bool) (cells : list Z) off c v :
  (forall i, h i = true -> h' i = true) ->
  nth_error (mapiFrom off (fun val c => if h c then Some val else None) cells) c
  = Some (Some v) ->
  nth_error (mapiFrom off (fun val c => if h' c then Some val else None) cells) c
  = Some (Some v).
Proof.
  intros Hh. revert off c. induction cells as [|x cells IH]; intros off [|c] H;
    cbn in *; try discriminate.
  - destruct (h off) eqn:E; [|discriminate]. now rewrite (Hh _ E).
  - now apply IH.
Qed.

Lemma mask_rows_mono (F F' : list Z -> nat -> list (option Z)) (g : Sudoku.Grid)
      off r c v :
  (forall cells i c v, nth_error (F cells i) c = Some (Some v) ->
                       nth_error (F' cells i) c = Some (Some v)) ->
  nth_error (nth r (mapiFrom off F g) []) c = Some (Some v) ->
  nth_error (nth r (mapiFrom off F' g) []) c = Some (Some v).
Proof.
  intros HF. revert off r. induction g as [|cells g IH]; intros off [|r] H; cbn in *;
    try (destruct c; discriminate).
  - now apply HF.
  - now apply IH.
Qed.

Lemma maskGrid_mono kept kept' g r c v :
  (forall i, has kept i = true -> has kept' i = true) ->
  nth_error (nth r (maskGrid kept g) []) c = Some (Some v) ->
  nth_error (nth r (maskGrid kept' g) []) c = Some (Some v).
Proof.
  intros Hh. unfold maskGrid, mapi. apply mask_rows_mono.
  intros cells i c' v'.
  apply (mask_cell_mono (fun c => has kept (i * 9 + c)) (fun c => has kept' (i * 9 + c))).
  intros j. apply Hh.
Qed.

Lemma has_firstn_le {n m : nat} (idx : list nat) i :
  (n <= m)%nat -> has (firstn n idx) i = true -> has (firstn m idx) i = true.
Proof.
  intros Hle H. apply has_In in H. apply has_In.
  revert n m Hle H. induction idx as [|x idx IH]; intros [|n] [|m] Hle H;
    cbn [firstn] in *; try contradiction; try lia.
  destruct H as [->|H]; [now left|right]. apply (IH n m); [lia|assumption].
Qed.

End Nested.

(** X12.  On one seed the difficulty changes only the mask: the solution is the
    same, and a puzzle with fewer revealed cells reveals a part of what a
    puzzle with more revealed cells reveals.  So every cell shown on Hard
    is shown on Medium, and every cell shown on Medium is shown on Easy. *)
Theorem easier_puzzle_reveals_more (seed d1 d2 : jsstring) :
  (cellsToKeep d1 <= cellsToKeep d2)%nat ->
  solution (generateBoard seed d1) = solution (generateBoard seed d2) /\
  forall r c v,
    nth_error (nth r (puzzle (generateBoard seed d1)) []) c = Some (Some v) ->
    nth_error (nth r (puzzle (generateBoard seed d2)) []) c = Some (Some v).
Proof.
  intros Hle. unfold generateBoard.
  destruct (generateSolution (createSeededRNG seed)) as [sol s].
  unfold createPuzzleMask, bind, ret.
  destruct (shuffle (seq 0 81) s) as [indices s'].
  cbn [solution puzzle]. split; [reflexivity|].
  intros r c v. apply maskGrid_mono. intros i.
  unfold slice. rewrite !Nat.sub_0_r. cbn [skipn]. now apply has_firstn_le.
Qed.

Lemma easier_puzzle_reveals_more_witness :
  solution (generateBoard (str "2024-1-1") (str "Hard"))
  = solution (generateBoard (str "2024-1-1") (str "Easy")) /\
  forall r c v,
    nth_error (nth r (puzzle (generateBoard (str "2024-1-1") (str "Hard"))) []) c
    = Some (Some v) ->
    nth_error (nth r (puzzle (generateBoard (str "2024-1-1") (str "Easy"))) []) c
    = Some (Some v).
Proof.
  apply (easier_puzzle_reveals_more (str "2024-1-1") (str "Hard") (str "Easy")).
  vm_compute. lia.
Defined.

(** ** The Sudoku game *)

Section Game.
Import SudokuGame.

Lemma Forall2_mapiFrom {A B} (R : B -> A -> Prop) (f : A -> nat -> B) l :
  (forall x i, R (f x i) x) -> forall i, Forall2 R (mapiFrom i f l) l.
Proof.
  intros H. induction l as [|x l IH]; intros i; cbn; constructor; auto.
Qed.

Lemma Fits_maskGrid kept g : Fits (maskGrid kept g) g.
Proof.
  unfold Fits, maskGrid, mapi. apply Forall2_mapiFrom. intros cells r.
  apply Forall2_mapiFrom. intros val c. destruct (has kept (r * 9 + c)); auto.
Qed.

Lemma Fits_generateBoard seed difficulty :
  Fits (puzzle (generateBoard seed difficulty))
       (Sudoku.solution (generateBoard seed difficulty)).
Proof.
  unfold generateBoard.
  destruct (generateSolution (createSeededRNG seed)) as [sol s].
  unfold createPuzzleMask, bind, ret.
  destruct (shuffle (seq 0 81) s) as [indices s']. cbn [puzzle Sudoku.solution].
  apply Fits_maskGrid.
Qed.

(** A board that fits the solution is complete when it has no empty cell. *)
Lemma everyCell_fits row cells :
  Forall2 (fun val s => val = None \/ val = Some s) row cells ->
  forall pre, everyCell row (pre ++ cells) (length pre) = forallb isRevealed row.
Proof.
  induction 1 as [|val s row cells Hv H IH]; intros pre; cbn [everyCell forallb].
  - reflexivity.
  - rewrite nth_error_app2, Nat.sub_diag by lia. cbn [nth_error].
    destruct Hv as [-> | ->]; cbn [isRevealed andb]; [reflexivity|].
    rewrite Z.eqb_refl.
    replace (pre ++ s :: cells) with ((pre ++ [s]) ++ cells) by now rewrite <- app_assoc.
    replace (S (length pre)) with (length (pre ++ [s])) by (rewrite length_app; cbn; lia).
    apply IH.
Qed.

Lemma everyRow_fits b sol :
  Fits b sol ->
  forall pre, everyRow b (pre ++ sol) (length pre) = Some (full b).
Proof.
  unfold full.
  induction 1 as [|row cells b sol Hr H IH]; intros pre; cbn [everyRow forallb].
  - reflexivity.
  - assert (Hnext : everyRow b (pre ++ cells :: sol) (S (length pre))
                    = Some (forallb (forallb isRevealed) b)).
    { replace (pre ++ cells :: sol) with ((pre ++ [cells]) ++ sol)
        by now rewrite <- app_assoc.
      replace (S (length pre)) with (length (pre ++ [cells]))
        by (rewrite length_app; cbn; lia).
      apply IH. }
    destruct row as [|val row]; [exact Hnext|].
    rewrite nth_error_app2, Nat.sub_diag by lia. cbn [nth_error].
    pose proof (everyCell_fits _ _ Hr []) as Hc. cbn [app length] in Hc. rewrite Hc.
    destruct (forallb isRevealed (val :: row)); [exact Hnext|reflexivity].
Qed.

Lemma at_Fits b sol rc val :
  Fits b sol -> at_ b rc = Some val ->
  exists s, at_ sol rc = Some s /\ (val = None \/ val = Some s).
Proof.
  destruct rc as [r c]. unfold at_. cbn [fst snd]. intros H. revert r.
  induction H as [|row cells b sol Hr H IH]; intros [|r]; cbn [nth_error];
    try discriminate; [|apply IH].
  clear IH H. revert c. induction Hr as [|v s row cells Hv Hr IH]; intros [|c];
    cbn [nth_error]; try discriminate; [|apply IH].
  intros [= <-]. eauto.
Qed.

Lemma at_assign {A} (g g' : list (list A)) r c x :
  assign g r c x = Some g' ->
  forall rc, at_ g' rc = if (fst rc =? r)%nat && (snd rc =? c)%nat then Some x else at_ g rc.
Proof.
  unfold assign. destruct (nth_error g r) as [cells|] eqn:E; [|discriminate].
  destruct (Nat.ltb_spec c (length cells)) as [Hc|]; [|discriminate].
  intros [= <-] [r' c']. unfold at_. cbn [fst snd].
  assert (Hr : (r < length g)%nat) by (apply nth_error_Some; congruence).
  destruct (Nat.eqb_spec r' r) as [->|Hr']; cbn [andb].
  - rewrite nth_error_set_same by assumption. rewrite E.
    destruct (Nat.eqb_spec c' c) as [->|Hc'].
    + now apply nth_error_set_same.
    + apply nth_error_set_other. congruence.
  - rewrite nth_error_set_other by congruence. reflexivity.
Qed.

Lemma assign_defined {A} (g : list (list A)) r c x y :
  at_ g (r, c) = Some y -> exists g', assign g r c x = Some g'.
Proof.
  unfold at_, assign. cbn [fst snd].
  destruct (nth_error g r) as [cells|]; [|discriminate]. intros H.
  assert (c < length cells)%nat as Hc by (apply nth_error_Some; congruence).
  apply Nat.ltb_lt in Hc. rewrite Hc. eauto.
Qed.

Lemma set_same {A} i (x : A) a : nth_error a i = Some x -> set i x a = a.
Proof.
  revert i. induction a as [|y a IH]; intros [|i]; cbn; try discriminate.
  - now intros [= ->].
  - intros H. now rewrite IH.
Qed.

Lemma assign_same {A} (g : list (list A)) r c x :
  at_ g (r, c) = Some x -> assign g r c x = Some g.
Proof.
  unfold at_, assign. cbn [fst snd].
  destruct (nth_error g r) as [cells|] eqn:E; [|discriminate]. intros H.
  assert (c < length cells)%nat as Hc by (apply nth_error_Some; congruence).
  apply Nat.ltb_lt in Hc. rewrite Hc. f_equal.
  rewrite (set_same c x cells H). now apply set_same.
Qed.

Lemma Fits_set_cells (row : list (option Z)) (cells : list Z) c s :
  Forall2 (fun val s => val = None \/ val = Some s) row cells ->
  nth_error cells c = Some s ->
  Forall2 (fun val s => val = None \/ val = Some s) (set c (Some s) row) cells.
Proof.
  intros H. revert c. induction H as [|v t row cells Hv H IH]; intros [|c];
    cbn [nth_error set]; try discriminate.
  - intros [= ->]. constructor; auto.
  - intros Hc. constructor; auto.
Qed.

Lemma Fits_assign b sol r c s b' :
  Fits b sol -> at_ sol (r, c) = Some s ->
  assign b r c (Some s) = Some b' -> Fits b' sol.
Proof.
  unfold Fits, at_, assign. cbn [fst snd]. intros H. revert r b'.
  induction H as [|row cells b sol Hr H IH]; intros [|r] b'; cbn [nth_error set];
    try discriminate.
  - intros Hs. destruct (c <? length row)%nat; [|discriminate]. intros [= <-].
    constructor; [|assumption]. now apply Fits_set_cells.
  - intros Hs. specialize (IH r).
    destruct (nth_error b r) as [cells'|] eqn:E; [|discriminate].
    destruct (c <? length cells')%nat; [|discriminate]. intros [= <-].
    constructor; [assumption|]. now apply IH.
Qed.

Lemma row_hidden (row : list (option Z)) :
  forallb isRevealed row = false <-> exists c, nth_error row c = Some None.
Proof.
  split.
  - induction row as [|v row IH]; cbn [forallb]; [discriminate|].
    destruct v as [v|]; cbn [isRevealed andb].
    + intros H. destruct (IH H) as [c Hc]. exists (S c). exact Hc.
    + intros _. exists 0%nat. reflexivity.
  - intros [c H]. revert c H. induction row as [|v row IH]; intros [|c];
      cbn [nth_error forallb]; try discriminate.
    + now intros [= ->].
    + intros H. rewrite (IH c H). apply andb_false_r.
Qed.

Lemma full_hidden b : full b = false <-> exists rc, isHidden b rc.
Proof.
  unfold full, isHidden, at_. split.
  - induction b as [|row b IH]; cbn [forallb]; [discriminate|].
    destruct (forallb isRevealed row) eqn:Er; cbn [andb].
    + intros H. destruct (IH H) as [[r c] Hrc]. exists (S r, c). exact Hrc.
    + intros _. destruct (proj1 (row_hidden row) Er) as [c Hc].
      exists (0%nat, c). exact Hc.
  - intros [[r c] H]. cbn [fst snd] in H. revert r H.
    induction b as [|row b IH]; intros [|r]; cbn [nth_error forallb]; try discriminate.
    + intros H. rewrite (proj2 (row_hidden row) (ex_intro _ c H)). reflexivity.
    + intros H. rewrite (IH r H). apply andb_false_r.
Qed.

Lemma Fits_full b sol : Fits b sol -> full b = true -> b = map (map Some) sol.
Proof.
  unfold full. induction 1 as [|row cells b sol Hr H IH]; cbn [forallb map];
    [reflexivity|].
  intros Hf. apply andb_prop in Hf. destruct Hf as [Hrow Hb].
  f_equal; [|now apply IH]. clear IH H Hb.
  induction Hr as [|v s row cells Hv Hr IH]; cbn [forallb map] in *; [reflexivity|].
  apply andb_prop in Hrow. destruct Hrow as [Hv' Hrow].
  f_equal; [|now apply IH].
  destruct Hv as [-> | ->]; [discriminate|reflexivity].
Qed.

Lemma In_hiddenInRow row r c rc :
  In rc (hiddenInRow row r c) <->
  fst rc = r /\ (c <= snd rc)%nat /\ nth_error row (snd rc - c) = Some None.
Proof.
  revert c. induction row as [|v row IH]; intros c; cbn [hiddenInRow].
  - split; [intros []|]. intros (_ & _ & H). destruct (snd rc - c)%nat; discriminate.
  - rewrite in_app_iff, IH. destruct rc as [r' c']. cbn [fst snd]. split.
    + intros [H|(-> & Hc & H)].
      * destruct v; cbn [isRevealed] in H; [destruct H|].
        destruct H as [[= <- <-]|[]]. rewrite Nat.sub_diag. auto.
      * split; [reflexivity|]. split; [lia|].
        replace (c' - c)%nat with (S (c' - S c)) by lia. exact H.
    + intros (-> & Hc & H). destruct (Nat.eq_dec c' c) as [->|Hne].
      * rewrite Nat.sub_diag in H. cbn [nth_error] in H. injection H as ->.
        left. left. reflexivity.
      * right. split; [reflexivity|]. split; [lia|].
        replace (c' - c)%nat with (S (c' - S c)) in H by lia. exact H.
Qed.

Lemma NoDup_hiddenInRow row r c : NoDup (hiddenInRow row r c).
Proof.
  revert c. induction row as [|v row IH]; intros c; cbn [hiddenInRow]; [constructor|].
  destruct (isRevealed v); cbn [app]; [apply IH|].
  constructor; [|apply IH].
  intros H. apply In_hiddenInRow in H. cbn [fst snd] in H. lia.
Qed.

Lemma In_hiddenFrom b r rc :
  In rc (hiddenFrom b r) <->
  (r <= fst rc)%nat /\ isHidden b ((fst rc - r)%nat, snd rc).
Proof.
  unfold isHidden, at_. cbn [fst snd].
  revert r. induction b as [|row b IH]; intros r; cbn [hiddenFrom].
  - split; [intros []|]. intros (_ & H). destruct (fst rc - r)%nat; discriminate.
  - rewrite in_app_iff, IH, In_hiddenInRow. rewrite Nat.sub_0_r. split.
    + intros [(<- & _ & H)|(Hr & H)].
      * rewrite Nat.sub_diag. auto.
      * split; [lia|]. replace (fst rc - r)%nat with (S (fst rc - S r)) by lia.
        exact H.
    + intros (Hr & H). destruct (Nat.eq_dec (fst rc) r) as [E|Hne].
      * left. rewrite E, Nat.sub_diag in H. repeat split; [exact E|lia|exact H].
      * right. split; [lia|].
        replace (fst rc - r)%nat with (S (fst rc - S r)) in H by lia. exact H.
Qed.

Lemma NoDup_hiddenFrom b r : NoDup (hiddenFrom b r).
Proof.
  revert r. induction b as [|row b IH]; intros r; cbn [hiddenFrom]; [constructor|].
  apply NoDup_app; [apply NoDup_hiddenInRow|apply IH|].
  intros rc H1 H2. apply In_hiddenInRow in H1. apply In_hiddenFrom in H2. lia.
Qed.

Lemma In_hiddenCells b rc : In rc (hiddenCells b) <-> isHidden b rc.
Proof.
  unfold hiddenCells. rewrite In_hiddenFrom. rewrite Nat.sub_0_r.
  destruct rc as [r c]. cbn [fst snd]. split; [intros [_ H]; exact H|].
  intros H. split; [lia|exact H].
Qed.

Lemma isErrorAt_digit sol r c s :
  at_ sol (r, c) = Some s -> isErrorAt sol r c (digit sol (r, c)) = Some false.
Proof.
  unfold digit. intros H. rewrite H. revert H. unfold at_, isErrorAt. cbn [fst snd].
  destruct (nth_error sol r) as [cells|]; [|discriminate].
  intros ->. now rewrite Z.eqb_refl.
Qed.

Lemma lastOnly_S n :
  lastOnly (S (S n)) = (None, false) :: lastOnly (S n).
Proof.
  unfold lastOnly. change (seq 0 (S (S n))) with (0%nat :: seq 1 (S n)).
  rewrite <- seq_shift, map_cons, map_map. f_equal.
Qed.

Lemma play_fill order : forall st,
  NoDup order ->
  Fits (board st) (solution st) ->
  (forall rc, In rc order <-> isHidden (board st) rc) ->
  (forall rc, In rc order -> at_ (errors st) rc = Some false) ->
  exists st',
    play (moves (solution st) order) st = Some (st', lastOnly (length order)) /\
    board st' = map (map Some) (solution st) /\
    errors st' = errors st /\
    solution st' = solution st.
Proof.
  induction order as [|[r c] order IH]; intros st Hnd Hfit Hin Herr.
  - exists st. cbn [moves map play length lastOnly seq]. repeat split.
    apply Fits_full; [exact Hfit|].
    destruct (full (board st)) eqn:E; [reflexivity|].
    apply full_hidden in E. destruct E as [rc E]. apply Hin in E. destruct E.
  - apply NoDup_cons_iff in Hnd. destruct Hnd as [Hnot Hnd].
    assert (Hh : isHidden (board st) (r, c)) by (apply Hin; left; reflexivity).
    destruct (at_Fits _ _ _ _ Hfit Hh) as (s & Hs & _).
    destruct (assign_defined (board st) r c (Some (digit (solution st) (r, c))) _ Hh)
      as [b' Hb'].
    assert (He : assign (errors st) r c false = Some (errors st))
      by (apply assign_same, Herr; left; reflexivity).
    assert (Hd : digit (solution st) (r, c) = s) by (unfold digit; now rewrite Hs).
    assert (Hfit' : Fits b' (solution st)).
    { rewrite Hd in Hb'. exact (Fits_assign _ _ _ _ _ _ Hfit Hs Hb'). }
    pose proof (everyRow_fits _ _ Hfit' []) as Hev. cbn [app length] in Hev.
    assert (Hin' : forall rc, In rc order <-> isHidden b' rc).
    { intros rc. unfold isHidden. rewrite (at_assign _ _ _ _ _ Hb' rc).
      destruct rc as [r' c']. cbn [fst snd].
      destruct (Nat.eqb_spec r' r) as [->|Hr]; cbn [andb].
      - destruct (Nat.eqb_spec c' c) as [->|Hc].
        + split; [intros H; contradiction|discriminate].
        + rewrite <- (Hin (r, c')). cbn [In]. split; [auto|].
          intros [[= E]|H]; [congruence|exact H].
      - rewrite <- (Hin (r', c')). cbn [In]. split; [auto|].
        intros [[= E _]|H]; [congruence|exact H]. }
    set (st1 := {| board := b'; solution := solution st; errors := errors st;
                   selectedCell := Some (r, c) |}).
    destruct (IH st1 Hnd Hfit' Hin') as (st' & Hplay & Hb & He' & Hsol).
    { intros rc Hrc. apply Herr. right. exact Hrc. }
    exists st'. cbn [solution board errors st1] in Hplay, Hb, He', Hsol.
    split; [|auto].
    cbn [moves map play fst snd]. fold (moves (solution st) order).
    unfold handleNumberInput, handleCellClick.
    cbn [selectedCell solution board errors].
    rewrite (isErrorAt_digit _ _ _ _ Hs), Hb', He, Hev.
    cbn [next timer completed]. fold st1. rewrite Hplay. f_equal. f_equal.
    destruct order as [|rc' order'].
    + cbn [length]. unfold lastOnly. cbn [seq map Nat.eqb]. f_equal. f_equal.
      destruct (full b') eqn:E; [reflexivity|].
      apply full_hidden in E. destruct E as [rc E]. apply Hin' in E. destruct E.
    + cbn [length]. rewrite lastOnly_S. f_equal. f_equal.
      apply full_hidden. exists rc'. apply Hin'. left. reflexivity.
Qed.

Lemma Valid_at sol rc s :
  Valid sol -> at_ sol rc = Some s -> (fst rc < 9)%nat /\ (snd rc < 9)%nat.
Proof.
  intros (Hlen & Hrows & _). unfold at_.
  destruct (nth_error sol (fst rc)) as [cells|] eqn:E; [|discriminate].
  intros Hc. split.
  - rewrite <- Hlen. apply nth_error_Some. congruence.
  - rewrite Forall_forall in Hrows.
    rewrite <- (isPerm_length cells (Hrows _ (nth_error_In _ _ E))).
    apply nth_error_Some. congruence.
Qed.

Lemma at_repeat {A} (x : A) n m rc :
  (fst rc < n)%nat -> (snd rc < m)%nat -> at_ (repeat (repeat x m) n) rc = Some x.
Proof.
  intros Hr Hc. unfold at_. rewrite (nth_error_repeat _ Hr).
  apply nth_error_repeat. exact Hc.
Qed.

Lemma generateBoard_Valid seed difficulty :
  Valid (Sudoku.solution (generateBoard seed difficulty)).
Proof.
  unfold generateBoard.
  pose proof (generateSolution_Valid (createSeededRNG seed)) as H.
  destruct (generateSolution (createSeededRNG seed)) as [sol s].
  destruct (createPuzzleMask difficulty sol s) as [puz s'].
  exact H.
Qed.

Lemma fill_from (bd : Board) order :
  Fits (puzzle bd) (Sudoku.solution bd) ->
  Valid (Sudoku.solution bd) ->
  Permutation order (hiddenCells (puzzle bd)) ->
  exists st',
    play (moves (Sudoku.solution bd) order)
         {| board := puzzle bd; solution := Sudoku.solution bd;
            errors := repeat (repeat false 9) 9; selectedCell := None |}
      = Some (st', lastOnly (length order)) /\
    board st' = map (map Some) (Sudoku.solution bd) /\
    errors st' = repeat (repeat false 9) 9.
Proof.
  intros Hfit Hvalid Hp.
  set (st := {| board := puzzle bd; solution := Sudoku.solution bd;
                errors := repeat (repeat false 9) 9; selectedCell := None |}).
  destruct (play_fill order st) as (st' & H1 & H2 & H3 & _).
  - apply (Permutation_NoDup (Permutation_sym Hp)). apply NoDup_hiddenFrom.
  - exact Hfit.
  - intros rc. cbn [st board]. rewrite <- In_hiddenCells. split.
    + apply Permutation_in. exact Hp.
    + apply Permutation_in. apply Permutation_sym. exact Hp.
  - intros rc Hrc. cbn [st errors].
    apply (Permutation_in _ Hp) in Hrc. apply In_hiddenCells in Hrc.
    destruct (at_Fits _ _ _ _ Hfit Hrc) as (s & Hs & _).
    destruct (Valid_at _ _ _ Hvalid Hs) as [Hr Hc].
    apply at_repeat; assumption.
  - exists st'. split; [exact H1|]. split; [exact H2|exact H3].
Qed.

Lemma everyCell_wrong row cells c k val s :
  nth_error row c = Some val -> nth_error cells (k + c) = Some s ->
  val <> Some s -> everyCell row cells k = false.
Proof.
  revert c k. induction row as [|v row IH]; intros [|c] k; cbn [nth_error everyCell];
    try discriminate.
  - intros [= ->]. rewrite Nat.add_0_r. intros -> Hne.
    destruct val as [v|]; [|reflexivity].
    destruct (Z.eqb_spec v s) as [->|]; [now destruct Hne|reflexivity].
  - intros Hv Hs Hne. destruct v as [v|]; [|reflexivity].
    destruct (nth_error cells k) as [t|]; [|reflexivity].
    destruct (v =? t); [|reflexivity].
    apply (IH c (S k)); [exact Hv| |exact Hne].
    now replace (S k + c)%nat with (k + S c)%nat by lia.
Qed.

Lemma everyRow_wrong b sol r c k val s :
  at_ b (r, c) = Some val -> at_ sol ((k + r)%nat, c) = Some s ->
  val <> Some s -> everyRow b sol k = Some false.
Proof.
  unfold at_. cbn [fst snd]. revert r k.
  induction b as [|row b IH]; intros [|r] k; cbn [nth_error]; try discriminate.
  - rewrite Nat.add_0_r. intros Hv Hs Hne. cbn [everyRow].
    destruct row as [|v row]; [destruct c; discriminate|].
    destruct (nth_error sol k) as [cells|]; [|discriminate].
    now rewrite (everyCell_wrong _ _ c 0 val s Hv Hs Hne).
  - intros Hv Hs Hne.
    assert (IH' : everyRow b sol (S k) = Some false).
    { apply (IH r (S k)); [exact Hv| |exact Hne].
      now replace (S k + r)%nat with (k + S r)%nat by lia. }
    cbn [everyRow]. destruct row as [|v row]; [exact IH'|].
    destruct (nth_error sol k) as [cells|] eqn:E.
    + destruct (everyCell (v :: row) cells 0); [exact IH'|reflexivity].
    + exfalso. assert (k + S r < length sol)%nat.
      { apply nth_error_Some. destruct (nth_error sol (k + S r)); congruence. }
      apply nth_error_None in E. lia.
Qed.

Lemma isErrorAt_wrong sol r c num s :
  at_ sol (r, c) = Some s -> num <> s -> isErrorAt sol r c num = Some true.
Proof.
  unfold at_, isErrorAt. cbn [fst snd].
  destruct (nth_error sol r) as [cells|]; [|discriminate].
  intros -> Hne. destruct (Z.eqb_spec num s); [contradiction|reflexivity].
Qed.

Lemma at_assign_same {A} (g g' : list (list A)) r c x :
  assign g r c x = Some g' -> at_ g' (r, c) = Some x.
Proof.
  intros H. rewrite (at_assign _ _ _ _ _ H). cbn [fst snd].
  now rewrite !Nat.eqb_refl.
Qed.

Lemma wrong_digit_run st r c num old s e :
  at_ (board st) (r, c) = Some old ->
  at_ (solution st) (r, c) = Some s ->
  at_ (errors st) (r, c) = Some e ->
  num <> s ->
  exists o st',
    handleNumberInput num (handleCellClick r c st) = Some o /\
    timer o = Some (r, c) /\ completed o = false /\
    at_ (board (next o)) (r, c) = Some (Some num) /\
    at_ (errors (next o)) (r, c) = Some true /\
    onTimeout (r, c) (next o) = Some st' /\
    (forall rc, at_ (board st') rc
                = if isCell r c rc then Some None else at_ (board st) rc) /\
    (forall rc, at_ (errors st') rc
                = if isCell r c rc then Some false else at_ (errors st) rc).
Proof.
  intros Hb Hs He Hne.
  destruct (assign_defined (board st) r c (Some num) _ Hb) as [b1 Hb1].
  destruct (assign_defined (errors st) r c true _ He) as [e1 He1].
  pose proof (at_assign_same _ _ _ _ _ Hb1) as Hb1'.
  pose proof (at_assign_same _ _ _ _ _ He1) as He1'.
  destruct (assign_defined b1 r c None _ Hb1') as [b2 Hb2].
  destruct (assign_defined e1 r c false _ He1') as [e2 He2].
  assert (Hev : everyRow b1 (solution st) 0 = Some false).
  { apply (everyRow_wrong b1 (solution st) r c 0 (Some num) s Hb1' Hs). congruence. }
  eexists. eexists.
  unfold handleNumberInput, handleCellClick. cbn [selectedCell solution board errors].
  rewrite (isErrorAt_wrong _ _ _ _ _ Hs Hne), Hb1, He1, Hev.
  split; [reflexivity|].
  cbn [next timer completed board errors]. unfold onTimeout.
  cbn [board errors solution selectedCell]. rewrite Hb2, He2.
  split; [reflexivity|]. split; [reflexivity|].
  split; [exact Hb1'|]. split; [exact He1'|]. split; [reflexivity|].
  cbn [board errors]. unfold isCell. split; intros rc.
  - rewrite (at_assign _ _ _ _ _ Hb2 rc), (at_assign _ _ _ _ _ Hb1 rc).
    destruct ((fst rc =? r)%nat && (snd rc =? c)%nat); reflexivity.
  - rewrite (at_assign _ _ _ _ _ He2 rc), (at_assign _ _ _ _ _ He1 rc).
    destruct ((fst rc =? r)%nat && (snd rc =? c)%nat); reflexivity.
Qed.

End Game.

(** X13.  A player who, from the board that [generateBoard] has set, clicks
    each empty cell once, in any order, and presses the digit that the
    solution has there, is never shown an error: every [handleNumberInput]
    returns, none sets the timer that clears a cell, [onComplete] is called
    by the last one and by no other, and the board is then the solution,
    with no error flag raised. *)
Theorem solution_digits_complete_the_puzzle
        (seed difficulty : jsstring) (order : list (nat * nat)) :
  Permutation order
    (SudokuGame.hiddenCells (puzzle (generateBoard seed difficulty))) ->
  exists st',
    SudokuGame.play
      (SudokuGame.moves (solution (generateBoard seed difficulty)) order)
      (SudokuGame.started seed difficulty)
    = Some (st', SudokuGame.lastOnly (length order)) /\
    SudokuGame.board st'
    = map (map Some) (solution (generateBoard seed difficulty)) /\
    SudokuGame.errors st' = repeat (repeat false 9) 9.
Proof.
  intros Hp.
  exact (fill_from (generateBoard seed difficulty) order
           (Fits_generateBoard seed difficulty)
           (generateBoard_Valid seed difficulty) Hp).
Qed.

Lemma solution_digits_complete_the_puzzle_witness :
  exists st',
    SudokuGame.play
      (SudokuGame.moves (solution (generateBoard (str "2024-1-1") (str "Easy")))
         (rev (SudokuGame.hiddenCells
                 (puzzle (generateBoard (str "2024-1-1") (str "Easy"))))))
      (SudokuGame.started (str "2024-1-1") (str "Easy"))
    = Some (st', SudokuGame.lastOnly
                   (length (rev (SudokuGame.hiddenCells
                      (puzzle (generateBoard (str "2024-1-1") (str "Easy"))))))) /\
    SudokuGame.board st'
    = map (map Some) (solution (generateBoard (str "2024-1-1") (str "Easy"))) /\
    SudokuGame.errors st' = repeat (repeat false 9) 9.
Proof.
  apply (solution_digits_complete_the_puzzle (str "2024-1-1") (str "Easy")).
  symmetry. apply Permutation_rev.
Defined.

(** X14.  A digit that is not the solution's, pressed on a cell of the
    board, whatever the cell holds (a digit that [generateBoard] revealed as
    well as an empty cell): [handleNumberInput] writes the digit, raises the
    error flag of the cell, sets the timer and does not call [onComplete];
    and when the timer fires the cell is empty and its flag is down, the
    other cells and flags being what they were before the digit. *)
Theorem wrong_digit_empties_the_cell
        (st : SudokuGame.State) (r c : nat) (num : Z)
        (old : option Z) (s : Z) (e : bool) :
  SudokuGame.at_ (SudokuGame.board st) (r, c) = Some old ->
  SudokuGame.at_ (SudokuGame.solution st) (r, c) = Some s ->
  SudokuGame.at_ (SudokuGame.errors st) (r, c) = Some e ->
  num <> s ->
  exists o st',
    SudokuGame.handleNumberInput num (SudokuGame.handleCellClick r c st) = Some o /\
    SudokuGame.timer o = Some (r, c) /\
    SudokuGame.completed o = false /\
    SudokuGame.at_ (SudokuGame.board (SudokuGame.next o)) (r, c) = Some (Some num) /\
    SudokuGame.at_ (SudokuGame.errors (SudokuGame.next o)) (r, c) = Some true /\
    SudokuGame.onTimeout (r, c) (SudokuGame.next o) = Some st' /\
    (forall rc, SudokuGame.at_ (SudokuGame.board st') rc
                = if SudokuGame.isCell r c rc then Some None
                  else SudokuGame.at_ (SudokuGame.board st) rc) /\
    (forall rc, SudokuGame.at_ (SudokuGame.errors st') rc
                = if SudokuGame.isCell r c rc then Some false
                  else SudokuGame.at_ (SudokuGame.errors st) rc).
Proof.
  exact (wrong_digit_run st r c num old s e).
Qed.

Lemma wrong_digit_empties_the_cell_witness :
  exists o st',
    SudokuGame.handleNumberInput 5
      (SudokuGame.handleCellClick 0 1
         (SudokuGame.started (str "2024-1-1") (str "Easy"))) = Some o /\
    SudokuGame.timer o = Some (0%nat, 1%nat) /\
    SudokuGame.completed o = false /\
    SudokuGame.at_ (SudokuGame.board (SudokuGame.next o)) (0%nat, 1%nat)
    = Some (Some 5) /\
    SudokuGame.at_ (SudokuGame.errors (SudokuGame.next o)) (0%nat, 1%nat)
    = Some true /\
    SudokuGame.onTimeout (0%nat, 1%nat) (SudokuGame.next o) = Some st' /\
    (forall rc,
        SudokuGame.at_ (SudokuGame.board st') rc
        = if SudokuGame.isCell 0 1 rc then Some None
          else SudokuGame.at_
                 (SudokuGame.board
                    (SudokuGame.started (str "2024-1-1") (str "Easy"))) rc) /\
    (forall rc,
        SudokuGame.at_ (SudokuGame.errors st') rc
        = if SudokuGame.isCell 0 1 rc then Some false
          else SudokuGame.at_
                 (SudokuGame.errors
                    (SudokuGame.started (str "2024-1-1") (str "Easy"))) rc).
Proof.
  apply (wrong_digit_empties_the_cell
           (SudokuGame.started (str "2024-1-1") (str "Easy"))
           0 1 5 (Some 7) 7 false).
  - vm_compute. reflexivity.
  - vm_compute. reflexivity.
  - vm_compute. reflexivity.
  - lia.
Defined.

(** ** The placed words are words of the input *)

Section Entries.

Variable Q : WordEntry -> Prop.
Variable size : Z.

Let entriesIn (st : LoopState) : Prop :=
  Forall (fun w => Q (entry w)) (snd (fst st)).

Lemma tryIntersection_entries wordObj placedWord j k st st' :
  Q wordObj -> entriesIn st ->
  tryIntersection size wordObj placedWord j k st = Some st' -> entriesIn st'.
Proof.
  intros HQ Hst. destruct st as [[grid placedWords] placed].
  unfold tryIntersection, entriesIn in *. cbn [fst snd] in Hst.
  assert (Hnew : forall r c d,
             Forall (fun w => Q (entry w))
                    (placedWords ++
                       [{| entry := wordObj; row := r; col := c; direction := d |}])).
  { intros r c d. apply Forall_app. split; [exact Hst|].
    constructor; [exact HQ|constructor]. }
  destruct (direction placedWord).
  - destruct (_ && _); [|intros [= <-]; exact Hst].
    destruct (canPlaceWord _ _ _ _ _) as [[|]|]; try discriminate;
      [|intros [= <-]; exact Hst].
    destruct (placeWord _ _ _ _ _); [|discriminate].
    intros [= <-]. apply Hnew.
  - destruct (_ && _); [|intros [= <-]; exact Hst].
    destruct (canPlaceWord _ _ _ _ _) as [[|]|]; try discriminate;
      [|intros [= <-]; exact Hst].
    destruct (placeWord _ _ _ _ _); [|discriminate].
    intros [= <-]. apply Hnew.
Qed.

Lemma kLoop_entries wordObj placedWord j char pchars : forall k st st',
  Q wordObj -> entriesIn st ->
  kLoop size wordObj placedWord j char k pchars st = Some st' -> entriesIn st'.
Proof.
  induction pchars as [|pc pchars IH]; intros k st st' HQ Hst; cbn [kLoop].
  - intros [= <-]. exact Hst.
  - destruct (pc =? char).
    + destruct (tryIntersection size wordObj placedWord j k st) as [st1|] eqn:E;
        [|discriminate].
      apply IH; [exact HQ|]. exact (tryIntersection_entries _ _ _ _ _ _ HQ Hst E).
    + now apply IH.
Qed.

Lemma jLoop_entries wordObj placedWord chars : forall j st st',
  Q wordObj -> entriesIn st ->
  jLoop size wordObj placedWord j chars st = Some st' -> entriesIn st'.
Proof.
  induction chars as [|char chars IH]; intros j st st' HQ Hst; cbn [jLoop].
  - intros [= <-]. exact Hst.
  - destruct (snd st); [intros [= <-]; exact Hst|].
    destruct (kLoop size wordObj placedWord j char 0 _ st) as [st1|] eqn:E;
      [|discriminate].
    apply IH; [exact HQ|]. exact (kLoop_entries _ _ _ _ _ _ _ _ HQ Hst E).
Qed.

Lemma ofLoop_entries wordObj todo : forall st st',
  Q wordObj -> entriesIn st ->
  ofLoop size wordObj todo st = Some st' -> entriesIn st'.
Proof.
  induction todo as [|placedWord todo IH]; intros st st' HQ Hst; cbn [ofLoop].
  - intros [= <-]. exact Hst.
  - destruct (snd st); [intros [= <-]; exact Hst|].
    destruct (jLoop size wordObj placedWord 0 (answer wordObj) st) as [st1|] eqn:E;
      [|discriminate].
    apply IH; [exact HQ|]. exact (jLoop_entries _ _ _ _ _ _ HQ Hst E).
Qed.

Lemma tryWord_entries st wordObj st' :
  Q wordObj -> Forall (fun w => Q (entry w)) (snd st) ->
  tryWord size st wordObj = Some st' -> Forall (fun w => Q (entry w)) (snd st').
Proof.
  intros HQ Hst. destruct st as [grid placedWords]. unfold tryWord.
  destruct (existsb _ placedWords); [intros [= <-]; exact Hst|].
  destruct (ofLoop size wordObj placedWords (grid, placedWords, false))
    as [[[g p] f]|] eqn:E; [|discriminate].
  intros [= <-].
  exact (ofLoop_entries wordObj placedWords (grid, placedWords, false) (g, p, f)
           HQ Hst E).
Qed.

Lemma iLoop_entries remaining : forall st st',
  Forall Q remaining -> Forall (fun w => Q (entry w)) (snd st) ->
  iLoop size remaining st = Some st' -> Forall (fun w => Q (entry w)) (snd st').
Proof.
  induction remaining as [|w remaining IH]; intros st st' HQ Hst; cbn [iLoop].
  - intros [= <-]. exact Hst.
  - apply Forall_cons_iff in HQ. destruct HQ as [Hw HQ].
    destruct (tryWord size st w) as [st1|] eqn:E; [|discriminate].
    apply IH; [exact HQ|]. exact (tryWord_entries _ _ _ Hw Hst E).
Qed.

Lemma layout_entries wordsData out :
  Forall Q wordsData ->
  generateGridLayout wordsData size = Some out ->
  Forall (fun w => Q (entry w)) out.
Proof.
  intros HQ. unfold generateGridLayout, layout.
  destruct (size <? 0); [discriminate|].
  assert (Hs : Forall Q (sortWords wordsData)).
  { rewrite Forall_forall in *. intros x Hx. apply HQ. now apply sortWords_In. }
  destruct (sortWords wordsData) as [|first remaining].
  - intros [= <-]. constructor.
  - apply Forall_cons_iff in Hs. destruct Hs as [Hf Hr].
    destruct (placeWord _ _ _ _ _) as [g|]; [|discriminate].
    destruct (iLoop size remaining (g, _)) as [st1|] eqn:E1; [|discriminate].
    destruct (iLoop size remaining st1) as [st2|] eqn:E2; [|discriminate].
    cbn [option_map]. intros [= <-].
    apply (iLoop_entries _ _ _ Hr) in E1.
    + exact (iLoop_entries _ _ _ Hr E1 E2).
    + cbn [snd]. constructor; [exact Hf|constructor].
Qed.

End Entries.

(** X15.  [generateGridLayout] invents no word: whatever the input and the
    size of the grid, every placed word of the output carries an entry
    (answer and clue) that is one of the entries of the input list. *)
Theorem placed_words_come_from_input
        (wordsData : list WordEntry) (size : Z) (out : list PlacedWord) (w : PlacedWord) :
  generateGridLayout wordsData size = Some out -> In w out ->
  In (entry w) wordsData.
Proof.
  intros E Hw.
  pose proof (layout_entries (fun e => In e wordsData) size wordsData out) as H.
  rewrite !Forall_forall in H. apply (H (fun x Hx => Hx) E w Hw).
Qed.

(** ** The crossword game: reads and writes of the two grids *)

Section Boards.
Import CrosswordGame.

Lemma Forall_set {A} (P : A -> Prop) i x a :
  Forall P a -> P x -> Forall P (set i x a).
Proof.
  intros Ha Hx. revert i. induction Ha as [|y a Hy Ha IH]; intros [|i]; cbn [set];
    constructor; auto.
Qed.

Lemma line_Some b r l : line b r = Some l -> 0 <= r < Z.of_nat (length b).
Proof.
  unfold line. destruct (Z.ltb_spec r 0) as [Hn|Hn]; [discriminate|]. intros E.
  assert (Z.to_nat r < length b)%nat by (apply nth_error_Some; congruence). lia.
Qed.

Lemma line_inside b r :
  0 <= r < Z.of_nat (length b) -> exists l, line b r = Some l.
Proof.
  intros Hr. unfold line. destruct (Z.ltb_spec r 0) as [Hn|Hn]; [lia|].
  destruct (nth_error b (Z.to_nat r)) as [l|] eqn:E; [eauto|].
  apply nth_error_None in E. lia.
Qed.

Lemma line_set b r l x r' :
  line b r = Some l ->
  line (set (Z.to_nat r) x b) r' = if r' =? r then Some x else line b r'.
Proof.
  intros H. pose proof (line_Some _ _ _ H) as Hr. unfold line.
  destruct (Z.ltb_spec r' 0) as [Hn|Hn].
  - destruct (Z.eqb_spec r' r); [lia|reflexivity].
  - destruct (Z.eqb_spec r' r) as [->|Hne].
    + apply nth_error_set_same. lia.
    + apply nth_error_set_other. lia.
Qed.

Lemma read_write b r c v b' :
  write b r c v = Some b' ->
  forall r' c',
    read b' r' c' = if (r' =? r) && (c' =? c) then Some (Some v) else read b r' c'.
Proof.
  unfold write. destruct (line b r) as [l|] eqn:E; [|discriminate].
  intros [= <-] r' c'. unfold read. rewrite (line_set _ _ _ _ r' E).
  destruct (Z.eqb_spec r' r) as [->|Hr]; cbn [andb].
  - rewrite E. cbn [store item]. now destruct (c' =? c).
  - reflexivity.
Qed.

Lemma write_inside b r c v :
  0 <= r < Z.of_nat (length b) -> exists b', write b r c v = Some b'.
Proof.
  intros H. unfold write. destruct (line_inside b r H) as [l ->]. eauto.
Qed.

Lemma write_length b r c v b' :
  write b r c v = Some b' -> length b' = length b.
Proof.
  unfold write. destruct (line b r); [|discriminate]. intros [= <-].
  apply length_set.
Qed.

Lemma write_counts b r c v b' :
  counts b -> 0 <= c < GRID_SIZE -> write b r c v = Some b' -> counts b'.
Proof.
  unfold write, counts. intros Hb Hc. destruct (line b r) as [l|] eqn:E; [|discriminate].
  intros [= <-]. apply Forall_set; [assumption|].
  assert (Hl : count l = GRID_SIZE).
  { rewrite Forall_forall in Hb. apply Hb. unfold line in E.
    destruct (r <? 0); [discriminate|]. eapply nth_error_In, E. }
  cbn [store count]. rewrite Hl.
  destruct (Z.leb_spec 0 c); destruct (Z.leb_spec GRID_SIZE c); cbn [andb]; lia.
Qed.

Lemma copy_length b : length (copy b) = length b.
Proof. apply length_map. Qed.

Lemma copy_counts b : counts b -> counts (copy b).
Proof.
  unfold counts, copy. intros H. apply Forall_map.
  eapply Forall_impl; [|exact H]. intros l Hl. exact Hl.
Qed.

Lemma read_copy b r c :
  counts b -> 0 <= c < GRID_SIZE -> read (copy b) r c = read b r c.
Proof.
  intros Hb Hc. unfold read, line, copy. destruct (r <? 0); [reflexivity|].
  rewrite nth_error_map. destruct (nth_error b (Z.to_nat r)) as [l|] eqn:E;
    [|reflexivity].
  cbn [option_map copyLine item]. f_equal.
  assert (Hl : count l = GRID_SIZE).
  { unfold counts in Hb. rewrite Forall_forall in Hb. eapply Hb, nth_error_In, E. }
  rewrite Hl.
  destruct (Z.leb_spec 0 c); destruct (Z.ltb_spec c GRID_SIZE); cbn [andb];
    try lia; reflexivity.
Qed.

Lemma newBoard_counts v : counts (newBoard v).
Proof. unfold counts, newBoard. apply Forall_forall. intros l H.
  apply repeat_spec in H. now subst. Qed.

Lemma read_newBoard v rc :
  inside rc -> read (newBoard v) (fst rc) (snd rc) = Some (Some v).
Proof.
  unfold inside, GRID_SIZE. intros [Hr Hc]. unfold read, line, newBoard.
  destruct (Z.ltb_spec (fst rc) 0) as [Hn|Hn]; [lia|].
  rewrite nth_error_repeat by (unfold GRID_SIZE; lia).
  cbn [filled item]. unfold GRID_SIZE.
  destruct (Z.leb_spec 0 (snd rc)); destruct (Z.ltb_spec (snd rc) 12); cbn [andb];
    try lia; reflexivity.
Qed.

Lemma newBoard_length v : Z.of_nat (length (newBoard v)) = 12.
Proof. unfold newBoard. rewrite repeat_length. reflexivity. Qed.

End Boards.

(** ** The grid that [initGame] builds *)

Section InitGame.
Import CrosswordGame.

Lemma charted_ext g P Q :
  charted g P -> (forall x, inside x -> (P x <-> Q x)) -> charted g Q.
Proof.
  intros (Hc & Hl & H) HPQ. split; [exact Hc|]. split; [exact Hl|].
  intros rc Hrc. destruct (H rc Hrc) as [[E HP]|[E HP]].
  - left. split; [exact E|]. apply (HPQ rc Hrc). exact HP.
  - right. split; [exact E|]. intros HQ. apply HP. apply (HPQ rc Hrc). exact HQ.
Qed.

Lemma sameCell_eq (a b : Z * Z) : a = b \/ a <> b.
Proof.
  destruct a as [r c], b as [r' c'].
  destruct (Z.eq_dec r r') as [->|Hr]; [|right; congruence].
  destruct (Z.eq_dec c c') as [->|Hc]; [left; reflexivity|right; congruence].
Qed.

Lemma openCell_charted g P rc :
  charted g P -> inside rc ->
  exists g', openCell g rc = Some g' /\ charted g' (fun x => P x \/ x = rc).
Proof.
  intros (Hc & Hl & H) Hrc. destruct rc as [r c]. unfold openCell.
  pose proof Hrc as [Hr Hcc]. cbn [fst snd] in Hr, Hcc.
  destruct (Z.ltb_spec r GRID_SIZE) as [_|Hn]; [|lia].
  destruct (Z.ltb_spec c GRID_SIZE) as [_|Hn]; [|lia]. cbn [andb].
  destruct (write_inside g r c []) as [g' Hg'].
  { unfold GRID_SIZE in Hr. lia. }
  exists g'. split; [exact Hg'|]. split; [|split].
  - exact (write_counts _ _ _ _ _ Hc Hcc Hg').
  - rewrite (write_length _ _ _ _ _ Hg'). exact Hl.
  - intros [r' c'] Hx. cbn [fst snd]. rewrite (read_write _ _ _ _ _ Hg').
    destruct (Z.eqb_spec r' r) as [->|Hr']; cbn [andb].
    + destruct (Z.eqb_spec c' c) as [->|Hc'].
      * left. split; [reflexivity|]. right. reflexivity.
      * destruct (H (r, c') Hx) as [[E HP]|[E HP]]; cbn [fst snd] in E.
        -- left. split; [exact E|]. left. exact HP.
        -- right. split; [exact E|]. intros [HP'|[= E']]; [now apply HP|now apply Hc'].
    + destruct (H (r', c') Hx) as [[E HP]|[E HP]]; cbn [fst snd] in E.
      * left. split; [exact E|]. left. exact HP.
      * right. split; [exact E|]. intros [HP'|[= E' _]]; [now apply HP|now apply Hr'].
Qed.

Lemma openLetters_charted cl n : forall i g P,
  charted g P ->
  (forall j, i <= j < i + Z.of_nat n -> inside (cellOfClue cl j)) ->
  exists g', openLetters cl n i g = Some g' /\
    charted g' (fun x => P x \/ exists j, i <= j < i + Z.of_nat n /\ cellOfClue cl j = x).
Proof.
  induction n as [|n IH]; intros i g P Hg Hin; cbn [openLetters].
  - exists g. split; [reflexivity|]. apply (charted_ext g P); [exact Hg|].
    intros x _. split; [auto|]. intros [HP|(j & Hj & _)]; [exact HP|lia].
  - destruct (openCell_charted g P (cellOfClue cl i) Hg) as (g1 & -> & Hg1).
    { apply Hin. lia. }
    destruct (IH (i + 1) g1 _ Hg1) as (g2 & E2 & Hg2).
    { intros j Hj. apply Hin. lia. }
    exists g2. split; [exact E2|]. apply (charted_ext _ _ _ Hg2).
    intros x _. split.
    + intros [[HP | ->] | (j & Hj & <-)].
      * left. exact HP.
      * right. exists i. split; [lia|reflexivity].
      * right. exists j. split; [lia|reflexivity].
    + intros [HP|(j & Hj & <-)]; [left; left; exact HP|].
      destruct (Z.eq_dec j i) as [->|Hne]; [left; right; reflexivity|].
      right. exists j. split; [lia|reflexivity].
Qed.

Lemma openClues_charted clues : forall g P,
  charted g P -> (forall cl, In cl clues -> lies cl) ->
  exists g', fold_left openClue clues (Some g) = Some g' /\
    charted g' (fun x => P x \/
                  exists cl j, In cl clues /\ 0 <= j < answerLength cl /\
                               cellOfClue cl j = x).
Proof.
  induction clues as [|cl clues IH]; intros g P Hg Hin; cbn [fold_left].
  - exists g. split; [reflexivity|]. apply (charted_ext g P); [exact Hg|].
    intros x _. split; [auto|]. intros [HP|(cl & j & [] & _)]. exact HP.
  - cbn [openClue].
    destruct (openLetters_charted cl (length (Puzzle.upperAnswer cl)) 0 g P Hg)
      as (g1 & -> & Hg1).
    { intros j Hj. apply (Hin cl); [left; reflexivity|]. unfold answerLength. lia. }
    destruct (IH g1 _ Hg1) as (g2 & E2 & Hg2).
    { intros cl' Hcl'. apply Hin. right. exact Hcl'. }
    exists g2. split; [exact E2|]. apply (charted_ext _ _ _ Hg2).
    intros x _. unfold answerLength. split.
    + intros [[HP|(j & Hj & <-)]|(cl' & j & Hcl' & Hj & <-)].
      * left. exact HP.
      * right. exists cl, j. split; [left; reflexivity|]. split; [lia|reflexivity].
      * right. exists cl', j. split; [right; exact Hcl'|]. split; [exact Hj|reflexivity].
    + intros [HP|(cl' & j & [<-|Hcl'] & Hj & <-)].
      * left. left. exact HP.
      * left. right. exists j. split; [lia|reflexivity].
      * right. exists cl', j. split; [exact Hcl'|]. split; [exact Hj|reflexivity].
Qed.

Lemma covering_spec rc cl :
  covering rc cl = true <->
  exists j, 0 <= j < answerLength cl /\ cellOfClue cl j = rc.
Proof.
  destruct rc as [r c]. unfold covering, covers, cellOfClue. cbn [fst snd].
  destruct (Puzzle.clueDirection cl).
  - rewrite orb_false_r, !andb_true_iff, Z.eqb_eq, Z.leb_le, Z.ltb_lt. split.
    + intros [[-> H1] H2]. exists (c - col (Puzzle.word cl)). split; [lia|].
      f_equal. lia.
    + intros (j & Hj & [= <- <-]). lia.
  - cbn [orb]. rewrite !andb_true_iff, Z.eqb_eq, Z.leb_le, Z.ltb_lt. split.
    + intros [[-> H1] H2]. exists (r - row (Puzzle.word cl)). split; [lia|].
      f_equal. lia.
    + intros (j & Hj & [= <- <-]). lia.
Qed.

Lemma isCovered_spec clues rc :
  isCovered clues rc = true <->
  exists cl j, In cl clues /\ 0 <= j < answerLength cl /\ cellOfClue cl j = rc.
Proof.
  unfold isCovered. rewrite existsb_exists. split.
  - intros (cl & Hcl & H). apply covering_spec in H. destruct H as (j & Hj & E).
    exists cl, j. auto.
  - intros (cl & j & Hcl & Hj & E). exists cl. split; [exact Hcl|].
    apply covering_spec. exists j. auto.
Qed.

Lemma newBoard_charted : charted (newBoard black) (fun _ => False).
Proof.
  split; [apply newBoard_counts|]. split; [apply newBoard_length|].
  intros rc Hrc. right. split; [now apply read_newBoard|]. auto.
Qed.

Lemma initGame_spec newClues st0 :
  (forall cl, In cl newClues -> lies cl) ->
  exists g,
    initGame newClues st0
    = Some {| grid := g; userGrid := newBoard [];
              selectedCell := selectedCell st0; direction := direction st0;
              clues := newClues |} /\
    charted g (fun rc => isCovered newClues rc = true).
Proof.
  intros Hin. unfold initGame.
  destruct (openClues_charted newClues _ _ newBoard_charted Hin) as (g & -> & Hg).
  exists g. split; [reflexivity|]. apply (charted_ext _ _ _ Hg).
  intros x _. rewrite isCovered_spec. split.
  - intros [[]|H]. exact H.
  - intros H. right. exact H.
Qed.

End InitGame.

(** ** What the handlers of the crossword keep *)

Section Handlers.
Import CrosswordGame.

Variable G : Board.
Variable cls : list Puzzle.Clue.
Hypothesis G_charted : charted G (fun rc => isCovered cls rc = true).
Hypothesis cls_lie : forall cl, In cl cls -> lies cl.

Lemma seek_charted d step n : forall r c,
  exists res, seek G d step n r c = Some res /\
    forall rc, res = Some rc ->
      inside rc /\ read G (fst rc) (snd rc) = Some (Some []).
Proof.
  induction n as [|n IH]; intros r c; cbn [seek].
  - exists None. split; [reflexivity|]. discriminate.
  - set (nextR := match d with across => r | down => r + step end).
    set (nextC := match d with across => c + step | down => c end).
    destruct (Z.ltb_spec nextR 0) as [H1|H1]; cbn [orb].
    { exists None. split; [reflexivity|]. discriminate. }
    destruct (Z.geb_spec nextR GRID_SIZE) as [H2|H2]; cbn [orb].
    { exists None. split; [reflexivity|]. discriminate. }
    destruct (Z.ltb_spec nextC 0) as [H3|H3]; cbn [orb].
    { exists None. split; [reflexivity|]. discriminate. }
    destruct (Z.geb_spec nextC GRID_SIZE) as [H4|H4]; cbn [orb].
    { exists None. split; [reflexivity|]. discriminate. }
    assert (Hin : inside (nextR, nextC)) by (unfold inside; cbn [fst snd]; lia).
    destruct G_charted as (_ & _ & H).
    destruct (H _ Hin) as [[E _]|[E _]]; cbn [fst snd] in E; rewrite E.
    + exists (Some (nextR, nextC)). split; [reflexivity|].
      intros rc [= <-]. split; [exact Hin|exact E].
    + apply IH.
Qed.

Lemma moveCursor_keeps step st :
  Keeps G cls st ->
  exists st', moveCursor step st = Some st' /\ Keeps G cls st' /\
              userGrid st' = userGrid st /\ direction st' = direction st.
Proof.
  intros K. unfold moveCursor. destruct (selectedCell st) as [[r c]|] eqn:Es.
  - rewrite (keeps_grid G cls st K).
    destruct (seek_charted (direction st) step (Z.to_nat (GRID_SIZE * GRID_SIZE)) r c)
      as (res & -> & Hres).
    destruct res as [rc|].
    + exists (withCell st rc). split; [reflexivity|]. split; [|split; reflexivity].
      destruct K as [K1 K2 K3 K4 K5 K6].
      constructor; cbn [withCell grid clues selectedCell userGrid]; auto;
        intros rc' [= <-]; now apply Hres.
    + exists st. auto.
  - exists st. auto.
Qed.

Lemma handleCellClick_keeps r c st :
  Keeps G cls st -> inside (r, c) ->
  exists st', handleCellClick r c st = Some st' /\ Keeps G cls st' /\
              userGrid st' = userGrid st /\
              (read G r c = Some (Some []) -> selectedCell st' = Some (r, c)).
Proof.
  intros K Hin. unfold handleCellClick. rewrite (keeps_grid G cls st K).
  destruct G_charted as (_ & _ & H).
  destruct (H _ Hin) as [[E _]|[E _]]; cbn [fst snd] in E; rewrite E.
  - change (holds (Some []) black) with false. cbv iota.
    assert (K' : Keeps G cls (withCell st (r, c))).
    { destruct K as [K1 K2 K3 K4 K5 K6].
      constructor; cbn [withCell grid clues selectedCell userGrid]; auto;
        intros rc' [= <-]; split; [exact Hin|exact E]. }
    destruct (selectedCell st) as [rc|] eqn:Es.
    + destruct (sameCell rc (r, c)) eqn:Ec.
      * exists (withDirection st (other (direction st))).
        split; [reflexivity|]. split; [|split; [reflexivity|]].
        -- destruct K as [K1 K2 K3 K4 K5 K6].
           constructor; cbn [withDirection grid clues selectedCell userGrid]; auto.
        -- intros _. cbn [withDirection selectedCell]. rewrite Es. f_equal.
           unfold sameCell in Ec. cbn [fst snd] in Ec.
           apply andb_prop in Ec. destruct Ec as [E1 E2].
           apply Z.eqb_eq in E1, E2. destruct rc. cbn [fst snd] in *. congruence.
      * exists (withCell st (r, c)). auto.
    + exists (withCell st (r, c)). auto.
  - change (holds (Some black) black) with true. cbv iota.
    exists st. split; [reflexivity|]. split; [exact K|]. split; [reflexivity|].
    intros E'. discriminate E'.
Qed.

Lemma start_white cl :
  In cl cls -> Puzzle.upperAnswer cl <> [] ->
  inside (row (Puzzle.word cl), col (Puzzle.word cl)) /\
  read G (row (Puzzle.word cl)) (col (Puzzle.word cl)) = Some (Some []).
Proof.
  intros Hcl Hne.
  assert (Hlen : 0 < answerLength cl).
  { unfold answerLength. destruct (Puzzle.upperAnswer cl); [congruence|cbn; lia]. }
  assert (E : cellOfClue cl 0 = (row (Puzzle.word cl), col (Puzzle.word cl))).
  { unfold cellOfClue. destruct (Puzzle.clueDirection cl); f_equal; lia. }
  assert (Hin : inside (row (Puzzle.word cl), col (Puzzle.word cl))).
  { rewrite <- E. apply (cls_lie cl Hcl). lia. }
  split; [exact Hin|].
  destruct G_charted as (_ & _ & H).
  destruct (H _ Hin) as [[Er _]|[_ Hn]]; [exact Er|].
  exfalso. apply Hn. apply isCovered_spec. exists cl, 0. split; [exact Hcl|].
  split; [lia|exact E].
Qed.

Lemma handleClueClick_keeps cl st :
  Keeps G cls st -> In cl cls -> Puzzle.upperAnswer cl <> [] ->
  Keeps G cls (handleClueClick cl st).
Proof.
  intros [K1 K2 K3 K4 K5 K6] Hcl Hne.
  constructor;
    cbn [handleClueClick withDirection withCell grid clues selectedCell userGrid];
    auto;
    intros rc [= <-]; now apply start_white.
Qed.

Lemma lettersMatch_total b cl n : forall i,
  Z.of_nat (length b) = 12 ->
  (forall j, i <= j < i + Z.of_nat n -> inside (cellOfClue cl j)) ->
  exists res, lettersMatch b cl n i = Some res.
Proof.
  induction n as [|n IH]; intros i Hb Hin; cbn [lettersMatch]; [eauto|].
  destruct (cellOfClue cl i) as [r c] eqn:E.
  assert (Hrc : inside (r, c)) by (rewrite <- E; apply Hin; lia).
  destruct (line_inside b r) as [l Hl].
  { destruct Hrc as [Hr _]. unfold GRID_SIZE in Hr. cbn [fst] in Hr. lia. }
  unfold read. rewrite Hl.
  destruct (holds (item l c) _); [|eauto].
  apply IH; [exact Hb|]. intros j Hj. apply Hin. lia.
Qed.

Lemma isWin_total b clues :
  Z.of_nat (length b) = 12 -> (forall cl, In cl clues -> lies cl) ->
  exists res, isWin b clues = Some res.
Proof.
  intros Hb. induction clues as [|cl clues IH]; intros Hin; cbn [isWin]; [eauto|].
  destruct (lettersMatch_total b cl (length (Puzzle.upperAnswer cl)) 0 Hb)
    as [res ->].
  { intros j Hj. apply (Hin cl); [left; reflexivity|]. unfold answerLength. lia. }
  destruct res; [|eauto].
  apply IH. intros cl' Hcl'. apply Hin. right. exact Hcl'.
Qed.

Lemma write_keeps st r c v :
  Keeps G cls st -> selectedCell st = Some (r, c) -> 
  exists b, write (copy (userGrid st)) r c v = Some b /\
            Keeps G cls (withUserGrid st b) /\
            forall r' c', 0 <= c' < GRID_SIZE ->
              read b r' c' = if (r' =? r) && (c' =? c) then Some (Some v)
                             else read (userGrid st) r' c'.
Proof.
  intros K Es. destruct (keeps_cell G cls st K _ Es) as [Hin Hw]. cbn [fst snd] in Hw.
  pose proof Hin as [Hr Hc]. cbn [fst snd] in Hr, Hc.
  destruct (write_inside (copy (userGrid st)) r c v) as [b Hb].
  { rewrite copy_length, (keeps_length G cls st K). unfold GRID_SIZE in Hr. lia. }
  exists b. split; [exact Hb|].
  assert (Hread : forall r' c', 0 <= c' < GRID_SIZE ->
            read b r' c' = if (r' =? r) && (c' =? c) then Some (Some v)
                           else read (userGrid st) r' c').
  { intros r' c' Hc'. rewrite (read_write _ _ _ _ _ Hb).
    rewrite (read_copy _ _ _ (keeps_counts G cls st K) Hc'). reflexivity. }
  split; [|exact Hread].
  destruct K as [K1 K2 K3 K4 K5 K6].
  constructor; cbn [withUserGrid grid clues selectedCell userGrid]; auto.
  - apply (write_counts _ _ _ _ _ (copy_counts _ K4) Hc Hb).
  - rewrite (write_length _ _ _ _ _ Hb), copy_length. exact K5.
  - intros [r' c'] Hin' Hd. cbn [fst snd] in *. rewrite Hread by apply Hin'.
    destruct (Z.eqb_spec r' r) as [->|Hr']; cbn [andb]; [|now apply (K6 (r', c'))].
    destruct (Z.eqb_spec c' c) as [->|Hc']; [|now apply (K6 (r, c'))].
    rewrite Hw in Hd. discriminate Hd.
Qed.

Lemma arrow_keeps d step st :
  Keeps G cls st -> exists st', arrow d step st = Some st' /\ Keeps G cls st'.
Proof.
  intros K. unfold arrow.
  destruct (moveCursor_keeps step st K) as (st' & -> & [K1 K2 K3 K4 K5 K6] & _).
  exists (withDirection st' d). split; [reflexivity|].
  constructor; cbn [withDirection grid clues selectedCell userGrid]; auto.
Qed.

Lemma handleKeyDown_keeps key st :
  Keeps G cls st -> exists st' done, handleKeyDown key st = Some (st', done) /\ Keeps G cls st'.
Proof.
  intros K. unfold handleKeyDown.
  destruct (selectedCell st) as [[r c]|] eqn:Es; [|eauto].
  destruct (streq key (str "Backspace")).
  { destruct (write_keeps st r c [] K Es) as (b & Hb & Kb & Hread).
    destruct (keeps_cell G cls st K _ Es) as [[Hr Hc] _]. cbn [fst snd] in Hr, Hc.
    destruct (line_inside (copy (userGrid st)) r) as [l Hl].
    { rewrite copy_length, (keeps_length G cls st K). unfold GRID_SIZE in Hr. lia. }
    unfold read at 1. rewrite Hl, Hb.
    destruct (holds (item l c) []); [|eauto].
    destruct (moveCursor_keeps (-1) _ Kb) as (st' & -> & K' & _).
    cbn [option_map]. eauto. }
  destruct (streq key (str "ArrowRight")).
  { destruct (arrow_keeps across 1 st K) as (st' & -> & K'). cbn [option_map]. eauto. }
  destruct (streq key (str "ArrowLeft")).
  { destruct (arrow_keeps across (-1) st K) as (st' & -> & K'). cbn [option_map]. eauto. }
  destruct (streq key (str "ArrowDown")).
  { destruct (arrow_keeps down 1 st K) as (st' & -> & K'). cbn [option_map]. eauto. }
  destruct (streq key (str "ArrowUp")).
  { destruct (arrow_keeps down (-1) st K) as (st' & -> & K'). cbn [option_map]. eauto. }
  destruct (streq key (str "Tab")).
  { eexists. eexists. split; [reflexivity|]. destruct K as [K1 K2 K3 K4 K5 K6].
    constructor; cbn [withDirection grid clues selectedCell userGrid]; auto. }
  destruct (isLetterKey key); [|eauto].
  destruct (write_keeps st r c (Puzzle.upperASCII key) K Es) as (b & -> & Kb & _).
  destruct (moveCursor_keeps 1 _ Kb) as (st' & -> & K' & _).
  unfold checkWin. rewrite (keeps_clues G cls st K).
  destruct (isWin_total b cls) as [res ->]; [|exact cls_lie|eauto].
  apply (keeps_length G cls _ Kb).
Qed.

Lemma run_keeps events : forall st,
  Keeps G cls st ->
  (forall cl, In cl cls -> Puzzle.upperAnswer cl <> []) ->
  Forall (possible cls) events ->
  exists st' log, run events st = Some (st', log) /\ Keeps G cls st'.
Proof.
  induction events as [|e events IH]; intros st K Hne Hev; cbn [run]; [eauto|].
  apply Forall_cons_iff in Hev. destruct Hev as [He Hev].
  assert (Hstep : exists st1 done, handle e st = Some (st1, done) /\ Keeps G cls st1).
  { destruct e as [r c|cl|key]; cbn [handle possible] in *.
    - destruct (handleCellClick_keeps r c st K He) as (st1 & -> & K1 & _).
      cbn [option_map]. eauto.
    - eexists. eexists. split; [reflexivity|].
      apply handleClueClick_keeps; auto.
    - now apply handleKeyDown_keeps. }
  destruct Hstep as (st1 & done & -> & K1).
  destruct (IH st1 K1 Hne Hev) as (st' & log & -> & K'). eauto.
Qed.

End Handlers.

(** ** Typing the answers *)

Section Typing.
Import CrosswordGame.

Variable G : Board.
Variable cls : list Puzzle.Clue.
Hypothesis G_charted : charted G (fun rc => isCovered cls rc = true).
Hypothesis cls_lie : forall cl, In cl cls -> lies cl.
Hypothesis cls_capital : forall cl, In cl cls -> Forall capital (Puzzle.upperAnswer cl).
Hypothesis cls_agree :
  forall cl cl' i j,
    In cl cls -> In cl' cls ->
    0 <= i < answerLength cl -> 0 <= j < answerLength cl' ->
    cellOfClue cl i = cellOfClue cl' j ->
    nth (Z.to_nat i) (Puzzle.upperAnswer cl) 0
    = nth (Z.to_nat j) (Puzzle.upperAnswer cl') 0.

Lemma indexIn_cellOfClue cl j : indexIn cl (cellOfClue cl j) = j.
Proof.
  unfold indexIn, cellOfClue. destruct (Puzzle.clueDirection cl); cbn [fst snd]; lia.
Qed.

Lemma solutionAt_spec cl j :
  In cl cls -> 0 <= j < answerLength cl ->
  solutionAt cls (cellOfClue cl j) = nth (Z.to_nat j) (Puzzle.upperAnswer cl) 0.
Proof.
  intros Hcl Hj. unfold solutionAt.
  destruct (find (covering (cellOfClue cl j)) cls) as [cl0|] eqn:E.
  - apply find_some in E. destruct E as [Hcl0 Hc].
    apply covering_spec in Hc. destruct Hc as (j0 & Hj0 & E0).
    rewrite <- E0 at 1. rewrite indexIn_cellOfClue.
    now apply cls_agree.
  - exfalso. pose proof (find_none _ _ E cl Hcl) as Hn.
    assert (covering (cellOfClue cl j) cl = true); [|congruence].
    apply covering_spec. eauto.
Qed.

Lemma solutionAt_capital rc : isCovered cls rc = true -> capital (solutionAt cls rc).
Proof.
  intros H. apply isCovered_spec in H. destruct H as (cl & j & Hcl & Hj & <-).
  rewrite (solutionAt_spec cl j Hcl Hj).
  pose proof (cls_capital cl Hcl) as Hcap. rewrite Forall_forall in Hcap.
  apply Hcap, nth_In. unfold answerLength in Hj. lia.
Qed.

Lemma streq_refl s : streq s s = true.
Proof. unfold streq. destruct (list_eq_dec Z.eq_dec s s); congruence. Qed.

Lemma lettersMatch_true b cl n : forall i,
  (forall j, i <= j < i + Z.of_nat n ->
     read b (fst (cellOfClue cl j)) (snd (cellOfClue cl j))
     = Some (Some [nth (Z.to_nat j) (Puzzle.upperAnswer cl) 0])) ->
  lettersMatch b cl n i = Some true.
Proof.
  induction n as [|n IH]; intros i H; cbn [lettersMatch]; [reflexivity|].
  pose proof (H i ltac:(lia)) as Hi.
  destruct (cellOfClue cl i) as [r c]. cbn [fst snd] in Hi. rewrite Hi.
  cbn [holds]. rewrite streq_refl. apply IH. intros j Hj. apply H. lia.
Qed.

Lemma lettersMatch_false b cl n : forall i j,
  Z.of_nat (length b) = 12 ->
  (forall k, i <= k < i + Z.of_nat n -> inside (cellOfClue cl k)) ->
  i <= j < i + Z.of_nat n ->
  read b (fst (cellOfClue cl j)) (snd (cellOfClue cl j)) = Some (Some []) ->
  lettersMatch b cl n i = Some false.
Proof.
  induction n as [|n IH]; intros i j Hb Hin Hj Hr; [lia|]. cbn [lettersMatch].
  destruct (cellOfClue cl i) as [r c] eqn:E.
  assert (Hrc : inside (r, c)) by (rewrite <- E; apply Hin; lia).
  destruct (line_inside b r) as [l Hl].
  { destruct Hrc as [Hr' _]. unfold GRID_SIZE in Hr'. cbn [fst] in Hr'. lia. }
  unfold read at 1. rewrite Hl.
  destruct (holds (item l c) _) eqn:Eh; [|reflexivity].
  apply (IH (i + 1) j Hb).
  - intros k Hk. apply Hin. lia.
  - destruct (Z.eq_dec j i) as [->|Hne]; [|lia].
    rewrite E in Hr. cbn [fst snd] in Hr. unfold read in Hr. rewrite Hl in Hr.
    injection Hr as Hr. rewrite Hr in Eh. discriminate Eh.
  - exact Hr.
Qed.

Lemma isWin_true b clues :
  (forall cl j, In cl clues -> 0 <= j < answerLength cl ->
     read b (fst (cellOfClue cl j)) (snd (cellOfClue cl j))
     = Some (Some [nth (Z.to_nat j) (Puzzle.upperAnswer cl) 0])) ->
  isWin b clues = Some true.
Proof.
  induction clues as [|cl clues IH]; intros H; cbn [isWin]; [reflexivity|].
  rewrite lettersMatch_true.
  - apply IH. intros cl' j Hcl'. apply H. right. exact Hcl'.
  - intros j Hj. apply H; [left; reflexivity|]. unfold answerLength. lia.
Qed.

Lemma isWin_false b clues cl j :
  Z.of_nat (length b) = 12 ->
  (forall cl, In cl clues -> lies cl) ->
  In cl clues -> 0 <= j < answerLength cl ->
  read b (fst (cellOfClue cl j)) (snd (cellOfClue cl j)) = Some (Some []) ->
  isWin b clues = Some false.
Proof.
  intros Hb. induction clues as [|cl0 clues IH]; intros Hin Hcl Hj Hr; [destruct Hcl|].
  cbn [isWin]. destruct Hcl as [->|Hcl].
  - rewrite (lettersMatch_false b cl _ 0 j Hb); [reflexivity| | |exact Hr].
    + intros k Hk. apply (Hin cl); [left; reflexivity|]. unfold answerLength. lia.
    + unfold answerLength in Hj. lia.
  - destruct (lettersMatch_total b cl0 (length (Puzzle.upperAnswer cl0)) 0 Hb)
      as [res ->].
    { intros k Hk. apply (Hin cl0); [left; reflexivity|]. unfold answerLength. lia. }
    destruct res; [|reflexivity].
    apply IH; auto. intros cl' Hcl'. apply Hin. right. exact Hcl'.
Qed.

Lemma isWin_Filled U rest :
  Z.of_nat (length U) = 12 ->
  Filled cls U rest ->
  (forall rc, In rc rest -> inside rc /\ isCovered cls rc = true) ->
  isWin U cls = Some (match rest with [] => true | _ => false end).
Proof.
  intros HU HF Hrest. destruct rest as [|rc rest].
  - apply isWin_true. intros cl j Hcl Hj.
    assert (Hc : isCovered cls (cellOfClue cl j) = true).
    { apply isCovered_spec. eauto. }
    destruct (HF _ (cls_lie cl Hcl j Hj) Hc) as [[[] _]|[_ E]].
    rewrite E, (solutionAt_spec cl j Hcl Hj). reflexivity.
  - destruct (Hrest rc (or_introl eq_refl)) as [Hin Hc].
    destruct (HF rc Hin Hc) as [[_ E]|[Hn _]]; [|destruct Hn; left; reflexivity].
    apply isCovered_spec in Hc. destruct Hc as (cl & j & Hcl & Hj & <-).
    now apply (isWin_false U cls cl j).
Qed.

Lemma streq_key k s :
  (1 < length s)%nat -> streq [k] s = false.
Proof.
  intros H. unfold streq. destruct (list_eq_dec Z.eq_dec [k] s) as [<-|]; [|reflexivity].
  cbn in H. lia.
Qed.

Lemma handleKeyDown_letter k st r c :
  Keeps G cls st -> selectedCell st = Some (r, c) -> capital k ->
  exists b st' done,
    write (copy (userGrid st)) r c [k] = Some b /\
    handleKeyDown [k] st = Some (st', done) /\
    isWin b cls = Some done /\
    Keeps G cls st' /\ userGrid st' = b /\
    forall r' c', 0 <= c' < GRID_SIZE ->
      read b r' c' = if (r' =? r) && (c' =? c) then Some (Some [k])
                     else read (userGrid st) r' c'.
Proof.
  intros K Es Hk. unfold handleKeyDown. rewrite Es.
  rewrite !streq_key by (cbn; lia).
  assert (El : isLetterKey [k] = true).
  { unfold capital in Hk. cbn [isLetterKey].
    destruct (Z.leb_spec 65 k); [|lia]. destruct (Z.leb_spec k 90); [|lia].
    reflexivity. }
  assert (Eu : Puzzle.upperASCII [k] = [k]).
  { unfold capital in Hk. cbn [Puzzle.upperASCII map].
    destruct (Z.leb_spec 97 k); [lia|]. reflexivity. }
  rewrite El, Eu.
  destruct (write_keeps G cls st r c [k] K Es) as (b & Hb & Kb & Hread).
  rewrite Hb.
  destruct (moveCursor_keeps G cls G_charted 1 _ Kb) as (st' & -> & K' & EU & _).
  unfold checkWin. rewrite (keeps_clues G cls st K).
  destruct (isWin_total b cls) as [res Hres]; [|exact cls_lie|].
  { apply (keeps_length G cls _ Kb). }
  rewrite Hres. exists b, st', res.
  split; [reflexivity|]. split; [reflexivity|]. split; [exact Hres|].
  split; [exact K'|]. split; [exact EU|exact Hread].
Qed.

Lemma lastOnly_SS n : lastOnly (S (S n)) = false :: lastOnly (S n).
Proof.
  unfold lastOnly. change (seq 0 (S (S n))) with (0%nat :: seq 1 (S n)).
  rewrite <- seq_shift, map_cons, map_map. f_equal.
Qed.

Lemma run_typing order : forall st,
  Keeps G cls st -> NoDup order ->
  (forall rc, In rc order -> inside rc /\ isCovered cls rc = true) ->
  Filled cls (userGrid st) order ->
  exists st',
    run (typing cls order) st = Some (st', lastOnly (2 * length order)) /\
    Keeps G cls st' /\ Filled cls (userGrid st') [].
Proof.
  induction order as [|[r c] order IH]; intros st K Hnd Hin HF.
  - exists st. cbn [typing flat_map run length Nat.mul lastOnly seq map]. auto.
  - apply NoDup_cons_iff in Hnd. destruct Hnd as [Hnot Hnd].
    destruct (Hin (r, c) (or_introl eq_refl)) as [Hrc Hcov].
    assert (Hwhite : read G r c = Some (Some [])).
    { destruct G_charted as (_ & _ & H).
      destruct (H _ Hrc) as [[E _]|[_ Hn]]; [exact E|congruence]. }
    destruct (handleCellClick_keeps G cls G_charted r c st K Hrc)
      as (st1 & E1 & K1 & U1 & Hsel).
    specialize (Hsel Hwhite).
    destruct (handleKeyDown_letter (solutionAt cls (r, c)) st1 r c K1 Hsel
                (solutionAt_capital _ Hcov))
      as (b & st2 & done & Hb & E2 & Hwin & K2 & U2 & Hread).
    assert (HF2 : Filled cls (userGrid st2) order).
    { rewrite U2. intros [r' c'] Hin' Hcov'. cbn [fst snd].
      rewrite Hread by apply Hin'. rewrite U1.
      destruct (Z.eqb_spec r' r) as [->|Hr']; cbn [andb].
      - destruct (Z.eqb_spec c' c) as [->|Hc'].
        + right. split; [exact Hnot|reflexivity].
        + destruct (HF (r, c') Hin' Hcov') as [[[Hq|Hq] E]|[Hq E]]; cbn [fst snd] in E.
          * congruence.
          * left. auto.
          * right. split; [|exact E]. intros Hq'. apply Hq. right. exact Hq'.
      - destruct (HF (r', c') Hin' Hcov') as [[[Hq|Hq] E]|[Hq E]]; cbn [fst snd] in E.
        + congruence.
        + left. auto.
        + right. split; [|exact E]. intros Hq'. apply Hq. right. exact Hq'. }
    assert (Hdone : done = match order with [] => true | _ => false end).
    { rewrite <- U2 in Hwin.
      rewrite (isWin_Filled (userGrid st2) order (keeps_length G cls _ K2) HF2) in Hwin.
      - congruence.
      - intros rc Hq. apply Hin. right. exact Hq. }
    destruct (IH st2 K2 Hnd) as (st' & Hrun & K' & HF').
    { intros rc Hq. apply Hin. right. exact Hq. }
    { exact HF2. }
    exists st'. split; [|auto].
    cbn [typing flat_map app fst snd]. fold (typing cls order).
    cbn [run handle]. rewrite E1. cbn [option_map]. rewrite E2, Hrun.
    f_equal. f_equal. rewrite Hdone.
    replace (2 * length (((r, c)) :: order))%nat with (S (S (2 * length order)))
      by (cbn [length]; lia).
    destruct order as [|rc' order']; [reflexivity|].
    cbn [length]. replace (2 * S (length order'))%nat with (S (S (2 * length order')))
      by lia.
    rewrite !lastOnly_SS. reflexivity.
Qed.

End Typing.

(** ** The clues of a generated puzzle *)

Section GeneratedClues.
Import CrosswordGame.

Variable toUpperCase : jsstring -> jsstring.
Variable words : list WordEntry.
Variable out : list PlacedWord.
Hypothesis layout_out : generateGridLayout words 12 = Some out.

Lemma clue_of_layout cl :
  In cl (Puzzle.assignNumbers toUpperCase out) ->
  exists w num,
    In w out /\ inGrid 12 w /\ cl = Puzzle.clueOf toUpperCase w num (Crossword.direction w).
Proof.
  intros Hcl.
  destruct (proj1 (In_assignNumbers toUpperCase out cl) Hcl)
    as (w & pre & post & Ecells & Hl & Ecl).
  exists w, (1 + Z.of_nat (length (filter (Puzzle.isStart out) pre))).
  assert (Hstart : 0 <= row w < 12 /\ 0 <= col w < 12).
  { apply In_cells. rewrite Ecells. apply in_or_app. right. left. reflexivity. }
  clear Ecells.
  assert (Hw : In w out).
  { destruct Hl as (p & q & -> & _). apply in_or_app. right. left. reflexivity. }
  split; [exact Hw|]. split; [|exact Ecl].
  pose proof (later_words_inGrid words 12 out ltac:(lia) layout_out) as Hlater.
  rewrite Forall_forall in Hlater.
  destruct (layout_head words 12 out layout_out) as [E0|(first & rest & E0)].
  { rewrite E0 in Hw. destruct Hw. }
  rewrite E0 in Hw, Hlater. cbn [tl] in Hlater.
  destruct Hw as [Hw|Hw]; [|apply Hlater; exact Hw].
  rewrite <- Hw in *.
  apply inGrid_first; [lia|].
  unfold firstPlaced in Hstart. cbn [row col] in Hstart.
  assert (0 <= alen first) by (unfold alen; lia).
  destruct (Z.le_gt_cases (alen first) 12) as [Hle|Hgt]; [assumption|].
  exfalso. assert ((12 - alen first) / 2 < 0); [|lia].
  apply Z.div_lt_upper_bound; lia.
Qed.

Lemma layout_letters :
  out = [] \/ exists g, holdsLetters g out.
Proof.
  destruct (layout_result 12 (InvLetters 12) words out layout_out)
    as [[_ ->]|(first & remaining & rest & g & _ & _ & _ & _ & Hold)].
  - intros remaining grid placed. apply passes_InvLetters.
  - intros f rem grid _ E1 H0.
    destruct (InvRows_first 12 f grid E1 H0) as [L R].
    split; [exact L|]. split; [exact R|]. now apply holdsLetters_first.
  - left. reflexivity.
  - right. exists g. exact Hold.
Qed.

Lemma layout_agree w w' m m' :
  In w out -> In w' out ->
  0 <= m < wlen w -> 0 <= m' < wlen w' ->
  cellAt w m = cellAt w' m' ->
  nth (Z.to_nat m) (answer (entry w)) 0 = nth (Z.to_nat m') (answer (entry w')) 0.
Proof.
  intros Hw Hw' Hm Hm' Hcell.
  destruct layout_letters as [E0|[g Hold]].
  { rewrite E0 in Hw. destruct Hw. }
  pose proof (Hold w Hw m Hm) as H1. pose proof (Hold w' Hw' m' Hm') as H2.
  rewrite Hcell, H2 in H1. injection H1 as H1. symmetry. exact H1.
Qed.

Hypothesis words_capital : forall w, In w words -> Forall capital (answer w).
Hypothesis upper_capital : forall s, Forall capital s -> toUpperCase s = s.

Let newClues := Puzzle.assignNumbers toUpperCase out.

Lemma clue_answer cl :
  In cl newClues ->
  In (Puzzle.word cl) out /\ inGrid 12 (Puzzle.word cl) /\
  Puzzle.upperAnswer cl = answer (entry (Puzzle.word cl)) /\
  Puzzle.clueDirection cl = Crossword.direction (Puzzle.word cl) /\
  Forall capital (Puzzle.upperAnswer cl).
Proof.
  intros Hcl. destruct (clue_of_layout cl Hcl) as (w & num & Hw & Hg & ->).
  cbn [Puzzle.clueOf Puzzle.word Puzzle.upperAnswer Puzzle.clueDirection].
  assert (Hc : Forall capital (answer (entry w))).
  { apply words_capital.
    pose proof (layout_entries (fun e => In e words) 12 words out) as H.
    rewrite !Forall_forall in H. apply (H (fun x Hx => Hx) layout_out w Hw). }
  rewrite (upper_capital _ Hc).
  split; [exact Hw|]. split; [exact Hg|]. split; [reflexivity|].
  split; [reflexivity|exact Hc].
Qed.

Lemma clue_cells cl i :
  In cl newClues ->
  cellOfClue cl i = cellAt (Puzzle.word cl) i /\
  answerLength cl = wlen (Puzzle.word cl).
Proof.
  intros Hcl. destruct (clue_answer cl Hcl) as (_ & _ & Ea & Ed & _).
  unfold cellOfClue, cellAt, answerLength, wlen, alen. rewrite Ea, Ed.
  split; reflexivity.
Qed.

Lemma clues_lie cl : In cl newClues -> lies cl.
Proof.
  intros Hcl i Hi. destruct (clue_cells cl i Hcl) as [Ec El].
  destruct (clue_answer cl Hcl) as (_ & Hg & _).
  destruct (inGrid_bounds 12 _ Hg) as (_ & _ & _ & H).
  rewrite Ec. unfold inside, GRID_SIZE. apply H. lia.
Qed.

Lemma clues_agree cl cl' i j :
  In cl newClues -> In cl' newClues ->
  0 <= i < answerLength cl -> 0 <= j < answerLength cl' ->
  cellOfClue cl i = cellOfClue cl' j ->
  nth (Z.to_nat i) (Puzzle.upperAnswer cl) 0
  = nth (Z.to_nat j) (Puzzle.upperAnswer cl') 0.
Proof.
  intros Hcl Hcl' Hi Hj.
  destruct (clue_cells cl i Hcl) as [-> El].
  destruct (clue_cells cl' j Hcl') as [-> El'].
  destruct (clue_answer cl Hcl) as (Hw & _ & -> & _).
  destruct (clue_answer cl' Hcl') as (Hw' & _ & -> & _).
  apply layout_agree; [exact Hw|exact Hw'|lia|lia].
Qed.

End GeneratedClues.

Section OpenCells.
Import CrosswordGame.

Lemma distinct_NoDup l : distinct l = true -> NoDup l.
Proof.
  induction l as [|x l IH]; cbn [distinct]; [constructor|].
  intros H. apply andb_prop in H. destruct H as [Hx Hl].
  constructor; [|now apply IH].
  intros Hin. apply negb_true_iff in Hx.
  assert (existsb (sameCell x) l = true); [|congruence].
  apply existsb_exists. exists x. split; [exact Hin|].
  unfold sameCell. now rewrite !Z.eqb_refl.
Qed.

Lemma NoDup_openCells clues : NoDup (openCells clues).
Proof.
  unfold openCells. apply NoDup_filter. apply distinct_NoDup.
  vm_compute. reflexivity.
Qed.

Lemma In_openCells clues rc :
  In rc (openCells clues) <-> inside rc /\ isCovered clues rc = true.
Proof.
  unfold openCells. rewrite filter_In. destruct rc as [r c].
  rewrite In_cells. unfold inside, Puzzle.gridSize, GRID_SIZE. cbn [fst snd].
  reflexivity.
Qed.

End OpenCells.

Lemma upperASCII_capital s :
  Forall CrosswordGame.capital s -> Puzzle.upperASCII s = s.
Proof.
  unfold Puzzle.upperASCII, CrosswordGame.capital.
  induction 1 as [|c s Hc Hs IH]; cbn [map]; [reflexivity|].
  rewrite IH. destruct (Z.leb_spec 97 c); [lia|]. reflexivity.
Qed.

(** X16.  For clues whose letters all have their cells inside the grid of
    12 by 12 cells, [initGame] raises no [TypeError] and stores the clues;
    every cell of [userGrid] is empty; and a cell of [grid] is the empty
    string exactly when a clue has a letter there, and the black mark
    otherwise. *)
Theorem initGame_opens_the_clue_cells
        (newClues : list Puzzle.Clue) (st0 : CrosswordGame.State) :
  (forall cl, In cl newClues -> CrosswordGame.lies cl) ->
  exists st,
    CrosswordGame.initGame newClues st0 = Some st /\
    CrosswordGame.clues st = newClues /\
    forall rc, CrosswordGame.inside rc ->
      CrosswordGame.read (CrosswordGame.grid st) (fst rc) (snd rc)
      = Some (Some (if CrosswordGame.isCovered newClues rc then []
                    else CrosswordGame.black)) /\
      CrosswordGame.read (CrosswordGame.userGrid st) (fst rc) (snd rc)
      = Some (Some []).
Proof.
  intros Hlie. destruct (initGame_spec newClues st0 Hlie) as (g & -> & _ & _ & Hg).
  eexists. split; [reflexivity|]. split; [reflexivity|].
  intros rc Hrc. cbn [CrosswordGame.grid CrosswordGame.userGrid]. split.
  - destruct (Hg rc Hrc) as [[-> ->]|[-> Hn]]; [reflexivity|].
    destruct (CrosswordGame.isCovered newClues rc); [now destruct Hn|reflexivity].
  - now apply read_newBoard.
Qed.

(** X17.  After [initGame] on clues that lie inside the grid and have
    answers that are not empty, in a component that had no cell selected,
    any sequence of clicks on cells of the grid, clicks on listed clues and
    key presses runs without a [TypeError] and leaves [grid] as it was; the
    selected cell, if there is one, is a white cell inside the grid; and no
    letter is ever written in a black cell of [userGrid]. *)
Theorem cursor_keeps_to_open_cells
        (newClues : list Puzzle.Clue) (st0 : CrosswordGame.State)
        (events : list CrosswordGame.Event) :
  (forall cl, In cl newClues ->
              CrosswordGame.lies cl /\ Puzzle.upperAnswer cl <> []) ->
  CrosswordGame.selectedCell st0 = None ->
  Forall (CrosswordGame.possible newClues) events ->
  exists st st' log,
    CrosswordGame.initGame newClues st0 = Some st /\
    CrosswordGame.run events st = Some (st', log) /\
    CrosswordGame.grid st' = CrosswordGame.grid st /\
    (forall rc, CrosswordGame.selectedCell st' = Some rc ->
       CrosswordGame.inside rc /\
       CrosswordGame.read (CrosswordGame.grid st) (fst rc) (snd rc)
       = Some (Some [])) /\
    (forall rc, CrosswordGame.inside rc ->
       CrosswordGame.read (CrosswordGame.grid st) (fst rc) (snd rc)
       = Some (Some CrosswordGame.black) ->
       CrosswordGame.read (CrosswordGame.userGrid st') (fst rc) (snd rc)
       = Some (Some [])).
Proof.
  intros Hcl Hsel Hev.
  assert (Hlie : forall cl, In cl newClues -> CrosswordGame.lies cl)
    by (intros cl H; apply (Hcl cl H)).
  destruct (initGame_spec newClues st0 Hlie) as (g & E & Hg).
  set (st := {| CrosswordGame.grid := g;
                CrosswordGame.userGrid := CrosswordGame.newBoard [];
                CrosswordGame.selectedCell := CrosswordGame.selectedCell st0;
                CrosswordGame.direction := CrosswordGame.direction st0;
                CrosswordGame.clues := newClues |}) in *.
  assert (K : CrosswordGame.Keeps g newClues st).
  { constructor; cbn [st CrosswordGame.grid CrosswordGame.clues
                      CrosswordGame.selectedCell CrosswordGame.userGrid].
    - reflexivity.
    - reflexivity.
    - rewrite Hsel. discriminate.
    - apply newBoard_counts.
    - apply newBoard_length.
    - intros rc Hrc _. now apply read_newBoard. }
  destruct (run_keeps g newClues Hg Hlie events st K) as (st' & log & Hrun & K').
  { intros cl H. apply (Hcl cl H). }
  { exact Hev. }
  exists st, st', log. split; [exact E|]. split; [exact Hrun|].
  destruct K' as [K1 K2 K3 K4 K5 K6]. cbn [st CrosswordGame.grid].
  split; [exact K1|]. split; [exact K3|exact K6].
Qed.


Lemma placed_words_come_from_input_witness :
  In (entry {| entry := mkWord "TO"; row := 6; col := 6; direction := down |})
     [mkWord "CAT"; mkWord "TO"].
Proof.
  apply (placed_words_come_from_input
           [mkWord "CAT"; mkWord "TO"] 12
           [ {| entry := mkWord "CAT"; row := 6; col := 4; direction := across |};
             {| entry := mkWord "TO"; row := 6; col := 6; direction := down |} ]).
  - vm_compute. reflexivity.
  - right. left. reflexivity.
Defined.

Lemma initGame_opens_the_clue_cells_witness :
  exists st,
    CrosswordGame.initGame
      [ Puzzle.clueOf Puzzle.upperASCII
          {| entry := mkWord "CAT"; row := 6; col := 4; direction := across |}
          1 across;
        Puzzle.clueOf Puzzle.upperASCII
          {| entry := mkWord "TO"; row := 6; col := 6; direction := down |}
          2 down ]
      CrosswordGame.mounted = Some st /\
    CrosswordGame.clues st
    = [ Puzzle.clueOf Puzzle.upperASCII
          {| entry := mkWord "CAT"; row := 6; col := 4; direction := across |}
          1 across;
        Puzzle.clueOf Puzzle.upperASCII
          {| entry := mkWord "TO"; row := 6; col := 6; direction := down |}
          2 down ] /\
    forall rc, CrosswordGame.inside rc ->
      CrosswordGame.read (CrosswordGame.grid st) (fst rc) (snd rc)
      = Some (Some (if CrosswordGame.isCovered
                         [ Puzzle.clueOf Puzzle.upperASCII
                             {| entry := mkWord "CAT"; row := 6; col := 4;
                                direction := across |} 1 across;
                           Puzzle.clueOf Puzzle.upperASCII
                             {| entry := mkWord "TO"; row := 6; col := 6;
                                direction := down |} 2 down ] rc
                    then [] else CrosswordGame.black)) /\
      CrosswordGame.read (CrosswordGame.userGrid st) (fst rc) (snd rc)
      = Some (Some []).
Proof.
  apply (initGame_opens_the_clue_cells
           [ Puzzle.clueOf Puzzle.upperASCII
               {| entry := mkWord "CAT"; row := 6; col := 4; direction := across |}
               1 across;
             Puzzle.clueOf Puzzle.upperASCII
               {| entry := mkWord "TO"; row := 6; col := 6; direction := down |}
               2 down ]
           CrosswordGame.mounted).
  intros cl [<-|[<-|[]]] i Hi;
    unfold CrosswordGame.inside, CrosswordGame.cellOfClue,
           CrosswordGame.answerLength, CrosswordGame.GRID_SIZE in *;
    cbn -[Z.add] in *; lia.
Defined.

Lemma cursor_keeps_to_open_cells_witness :
  exists st st' log,
    CrosswordGame.initGame
      [ Puzzle.clueOf Puzzle.upperASCII
          {| entry := mkWord "CAT"; row := 6; col := 4; direction := across |}
          1 across;
        Puzzle.clueOf Puzzle.upperASCII
          {| entry := mkWord "TO"; row := 6; col := 6; direction := down |}
          2 down ]
      CrosswordGame.mounted = Some st /\
    CrosswordGame.run
      [ CrosswordGame.CellClick 6 4;
        CrosswordGame.KeyDown (str "c");
        CrosswordGame.KeyDown (str "ArrowDown");
        CrosswordGame.KeyDown (str "ArrowDown");
        CrosswordGame.KeyDown (str "Backspace");
        CrosswordGame.CellClick 0 0;
        CrosswordGame.ClueClick
          (Puzzle.clueOf Puzzle.upperASCII
             {| entry := mkWord "TO"; row := 6; col := 6; direction := down |}
             2 down);
        CrosswordGame.KeyDown (str "Tab") ] st = Some (st', log) /\
    CrosswordGame.grid st' = CrosswordGame.grid st /\
    (forall rc, CrosswordGame.selectedCell st' = Some rc ->
       CrosswordGame.inside rc /\
       CrosswordGame.read (CrosswordGame.grid st) (fst rc) (snd rc)
       = Some (Some [])) /\
    (forall rc, CrosswordGame.inside rc ->
       CrosswordGame.read (CrosswordGame.grid st) (fst rc) (snd rc)
       = Some (Some CrosswordGame.black) ->
       CrosswordGame.read (CrosswordGame.userGrid st') (fst rc) (snd rc)
       = Some (Some [])).
Proof.
  apply (cursor_keeps_to_open_cells
           [ Puzzle.clueOf Puzzle.upperASCII
               {| entry := mkWord "CAT"; row := 6; col := 4; direction := across |}
               1 across;
             Puzzle.clueOf Puzzle.upperASCII
               {| entry := mkWord "TO"; row := 6; col := 6; direction := down |}
               2 down ]
           CrosswordGame.mounted).
  - intros cl [<-|[<-|[]]]; (split; [|discriminate]); intros i Hi;
      unfold CrosswordGame.inside, CrosswordGame.cellOfClue,
             CrosswordGame.answerLength, CrosswordGame.GRID_SIZE in *;
      cbn -[Z.add] in *; lia.
  - reflexivity.
  - repeat constructor; unfold CrosswordGame.GRID_SIZE; cbn; lia.
Defined.


(** ** The sequence game *)

Section Sequence.
Import SpatialLogic.

Lemma str_inj a b : str a = str b -> a = b.
Proof.
  unfold str. intros H.
  assert (E : list_ascii_of_string a = list_ascii_of_string b).
  { revert H. generalize (list_ascii_of_string a) (list_ascii_of_string b).
    induction l as [|x l IH]; intros [|y l']; cbn [map]; try discriminate;
      [reflexivity|].
    intros [= Hx Hl]. f_equal; [|now apply IH].
    apply Nat2Z.inj in Hx. rewrite <- (ascii_nat_embedding x), <- (ascii_nat_embedding y).
    now rewrite Hx. }
  rewrite <- (string_of_list_ascii_of_string a), <- (string_of_list_ascii_of_string b).
  now rewrite E.
Qed.

Lemma str_app a b : str (a ++ b)%string = str a ++ str b.
Proof.
  unfold str. rewrite <- map_app. f_equal. f_equal.
  induction a as [|c a IH]; cbn [String.append list_ascii_of_string app];
    [reflexivity|now rewrite IH].
Qed.

Lemma dailyNode_range iso len : 0 <= dailyNode iso len < 8.
Proof.
  unfold dailyNode. cbv zeta.
  pose proof (shuffle_index (createSeededRNG (seedFor iso len)) 7). lia.
Qed.

Lemma clicks_right rest : forall seen st,
  sequence st = seen ++ rest -> userSequence st = seen ->
  isPlaying st = true -> isShowing st = false -> rest <> [] ->
  clicks rest st
  = ({| sequence := seen ++ rest; userSequence := seen ++ rest;
        isPlaying := false; isShowing := false |},
     repeat accepted (length rest - 1)
     ++ [roundDone (4 <=? length (seen ++ rest))%nat]).
Proof.
  induction rest as [|id rest IH]; intros seen st Hs Hu Hp Hsh Hne; [congruence|].
  cbn [clicks]. unfold handleNodeClick. rewrite Hp, Hsh. cbn [negb orb].
  rewrite Hu, Hs, length_app. cbn [length].
  replace (length seen + 1 - 1)%nat with (length seen) by lia.
  rewrite nth_error_app2 by lia. rewrite Nat.sub_diag. cbn [nth_error].
  rewrite Z.eqb_refl. cbn [negb]. rewrite length_app. cbn [length].
  destruct rest as [|id' rest'].
  - rewrite Nat.eqb_refl. cbn [clicks length Nat.sub repeat app]. reflexivity.
  - destruct (Nat.eqb_spec (length seen + 1)
                           (length seen + S (length (id' :: rest'))));
      [cbn [length] in *; lia|].
    assert (E : seen ++ id :: id' :: rest' = (seen ++ [id]) ++ id' :: rest')
      by (rewrite <- app_assoc; reflexivity).
    rewrite (IH (seen ++ [id])
               {| sequence := seen ++ id :: id' :: rest';
                  userSequence := seen ++ [id];
                  isPlaying := true; isShowing := false |}
               E eq_refl eq_refl eq_refl ltac:(discriminate)).
    rewrite <- E. cbn [length Nat.sub]. rewrite !Nat.sub_0_r.
    rewrite length_app. reflexivity.
Qed.

Lemma dailySequence_S iso k :
  dailySequence iso (S k) = dailySequence iso k ++ [dailyNode iso k].
Proof. unfold dailySequence. rewrite seq_S, map_app. reflexivity. Qed.

Lemma dailySequence_length iso k : length (dailySequence iso k) = k.
Proof. unfold dailySequence. now rewrite length_map, length_seq. Qed.

Lemma round_daily iso k st :
  sequence st = dailySequence iso k ->
  round (daily iso) st
  = ({| sequence := dailySequence iso (S k); userSequence := dailySequence iso (S k);
        isPlaying := false; isShowing := false |},
     repeat accepted k ++ [roundDone (4 <=? S k)%nat]).
Proof.
  intros Hs. unfold round, startNewRound, shown.
  cbn [sequence userSequence isPlaying isShowing newNum].
  rewrite Hs, dailySequence_length, <- dailySequence_S.
  rewrite (clicks_right (dailySequence iso (S k)) []); cbn [app];
    try reflexivity.
  - rewrite dailySequence_length. replace (S k - 1)%nat with k by lia. reflexivity.
  - rewrite dailySequence_S. intros E. now apply app_eq_nil in E.
Qed.

Lemma filter_accepted k : filter calledOnComplete (repeat accepted k) = [].
Proof. induction k; cbn; auto. Qed.

Lemma rounds_daily iso k : forall j st,
  sequence st = dailySequence iso j ->
  rounds iso (S k) st
  = ({| sequence := dailySequence iso (j + S k);
        userSequence := dailySequence iso (j + S k);
        isPlaying := false; isShowing := false |},
     ((j + S k) - Nat.max j 3)%nat).
Proof.
  induction k as [|k IH]; intros j st Hs.
  - cbn [rounds]. rewrite (round_daily iso j st Hs).
    rewrite filter_app, filter_accepted. cbn [app filter calledOnComplete].
    replace (j + 1)%nat with (S j) by lia. f_equal.
    destruct (Nat.leb_spec 4 (S j)); cbn [length]; lia.
  - change (rounds iso (S (S k)) st)
      with (let (st1, log) := round (daily iso) st in
            let (st2, n) := rounds iso (S k) st1 in
            (st2, (length (filter calledOnComplete log) + n)%nat)).
    rewrite (round_daily iso j st Hs).
    rewrite (IH (S j)) by reflexivity.
    rewrite filter_app, filter_accepted. cbn [app filter calledOnComplete].
    replace (S j + S k)%nat with (j + S (S k))%nat by lia. f_equal.
    destruct (Nat.leb_spec 4 (S j)); cbn [length]; lia.
Qed.

Lemma clicks_ignored ids st :
  isPlaying st = false -> clicks ids st = (st, repeat ignored (length ids)).
Proof.
  intros Hp. induction ids as [|id ids IH]; cbn [clicks length repeat]; [reflexivity|].
  unfold handleNodeClick. rewrite Hp. cbn [negb orb]. now rewrite IH.
Qed.

End Sequence.

(** X19.  [getDailyISO] tells days apart: the strings of two readings of
    the clock are equal only when the year, the month and the day of the
    month are, although none of the numbers is padded.  The seed of a round
    of the sequence game is that string followed by the length of the
    sequence, with nothing between the two: the same round of two
    different days gets two different seeds, but two rounds of two
    different days can get the same one, as the round after ten nodes on
    the 1st of a month and the first round on the 11th. *)
Theorem getDailyISO_tells_days_apart
        (year month date year' month' date' : Z) (len : nat) :
  (SpatialLogic.getDailyISO year month date
   = SpatialLogic.getDailyISO year' month' date'
   <-> year = year' /\ month = month' /\ date = date') /\
  (SpatialLogic.seedFor (SpatialLogic.getDailyISO year month date) len
   = SpatialLogic.seedFor (SpatialLogic.getDailyISO year' month' date') len
   <-> year = year' /\ month = month' /\ date = date') /\
  SpatialLogic.seedFor (SpatialLogic.getDailyISO year month 1) 10
  = SpatialLogic.seedFor (SpatialLogic.getDailyISO year month 11) 0 /\
  SpatialLogic.dailyNode (SpatialLogic.getDailyISO year month 1) 10
  = SpatialLogic.dailyNode (SpatialLogic.getDailyISO year month 11) 0.
Proof.
  assert (Hiso : SpatialLogic.getDailyISO year month date
                 = SpatialLogic.getDailyISO year' month' date'
                 <-> year = year' /\ month = month' /\ date = date').
  { split; [|now intros (-> & -> & ->)].
    unfold SpatialLogic.getDailyISO. intros E. apply str_inj in E.
    apply toString_split in E. destruct E as [Ey E].
    apply toString_split in E. destruct E as [Em Ed].
    apply toString_inj in Ey, Em, Ed. lia. }
  assert (Hseed : SpatialLogic.seedFor (SpatialLogic.getDailyISO year month 1) 10
                  = SpatialLogic.seedFor (SpatialLogic.getDailyISO year month 11) 0).
  { unfold SpatialLogic.seedFor, SpatialLogic.getDailyISO.
    rewrite !str_app, <- !app_assoc. reflexivity. }
  split; [exact Hiso|]. split.
  - split; [|now intros (-> & -> & ->)].
    unfold SpatialLogic.seedFor. intros E. apply app_inv_tail in E.
    now apply Hiso.
  - split; [exact Hseed|].
    unfold SpatialLogic.dailyNode. now rewrite Hseed.
Qed.

(** X20.  In daily mode, from the empty sequence, [k] rounds which the
    player repeats without a mistake leave a sequence of [k] nodes; the
    [i]-th is [Math.floor(rng() * 8)] for the generator seeded with the date
    followed by the decimal digits of [i], so every node is one of 0..7;
    and [onComplete] has been called [k - 3] times: in no round of the first
    three, and once in each round after them. *)
Theorem daily_rounds (iso : jsstring) (k : nat) :
  exists st,
    SpatialLogic.rounds iso k SpatialLogic.mounted = (st, (k - 3)%nat) /\
    SpatialLogic.sequence st = SpatialLogic.dailySequence iso k /\
    length (SpatialLogic.sequence st) = k /\
    Forall (fun id => 0 <= id < 8) (SpatialLogic.sequence st).
Proof.
  assert (H : forall st, SpatialLogic.sequence st = SpatialLogic.dailySequence iso k ->
                         length (SpatialLogic.sequence st) = k /\
                         Forall (fun id => 0 <= id < 8) (SpatialLogic.sequence st)).
  { intros st ->. split; [apply dailySequence_length|].
    unfold SpatialLogic.dailySequence. apply Forall_map, Forall_forall.
    intros i _. apply dailyNode_range. }
  destruct k as [|k].
  - exists SpatialLogic.mounted. split; [reflexivity|]. split; [reflexivity|].
    now apply H.
  - eexists. rewrite (rounds_daily iso k 0 SpatialLogic.mounted eq_refl).
    split; [f_equal; lia|]. split; [reflexivity|]. now apply H.
Qed.

(** X21.  While the player answers, a click on a node that is not the next
    node of the sequence empties the sequence and ends the round without a
    call of [onComplete], and every click after it is ignored. *)
Theorem wrong_click_resets_the_sequence
        (st : SpatialLogic.State) (id : Z) (more : list Z) :
  SpatialLogic.isPlaying st = true ->
  SpatialLogic.isShowing st = false ->
  nth_error (SpatialLogic.sequence st) (length (SpatialLogic.userSequence st))
  <> Some id ->
  SpatialLogic.clicks (id :: more) st
  = ({| SpatialLogic.sequence := [];
        SpatialLogic.userSequence := SpatialLogic.userSequence st ++ [id];
        SpatialLogic.isPlaying := false;
        SpatialLogic.isShowing := false |},
     SpatialLogic.mismatch :: repeat SpatialLogic.ignored (length more)).
Proof.
  intros Hp Hs Hne. cbn [SpatialLogic.clicks]. unfold SpatialLogic.handleNodeClick.
  rewrite Hp, Hs. cbn [negb orb]. rewrite length_app. cbn [length].
  replace (length (SpatialLogic.userSequence st) + 1 - 1)%nat
    with (length (SpatialLogic.userSequence st)) by lia.
  assert (E : match nth_error (SpatialLogic.sequence st)
                              (length (SpatialLogic.userSequence st)) with
              | Some x => id =? x
              | None => false
              end = false).
  { destruct (nth_error _ _) as [x|]; [|reflexivity].
    destruct (Z.eqb_spec id x) as [->|]; [now destruct Hne|reflexivity]. }
  rewrite E. cbn [negb]. rewrite clicks_ignored by reflexivity. reflexivity.
Qed.

Lemma wrong_click_resets_the_sequence_witness :
  SpatialLogic.clicks [3; 5; 0]
    {| SpatialLogic.sequence := [5; 0; 2; 7]; SpatialLogic.userSequence := [5; 0];
       SpatialLogic.isPlaying := true; SpatialLogic.isShowing := false |}
  = ({| SpatialLogic.sequence := [];
        SpatialLogic.userSequence := [5; 0] ++ [3];
        SpatialLogic.isPlaying := false;
        SpatialLogic.isShowing := false |},
     SpatialLogic.mismatch :: repeat SpatialLogic.ignored (length [5; 0])).
Proof.
  apply (wrong_click_resets_the_sequence
           {| SpatialLogic.sequence := [5; 0; 2; 7];
              SpatialLogic.userSequence := [5; 0];
              SpatialLogic.isPlaying := true; SpatialLogic.isShowing := false |}
           3 [5; 0]).
  - reflexivity.
  - reflexivity.
  - cbn. intros H. discriminate H.
Defined.

(** ** The retry helper *)

Section RetryBounds.
Import Retry.

Variable Response Error : Type.
Variable isQuotaError isRetryable : Error -> bool.
Variable generateContent : nat -> jsstring -> Response + Error.

Let call := callGemini Response Error isQuotaError isRetryable generateContent.
Let attempts := Attempts Response Error isQuotaError isRetryable generateContent.

Lemma streq_true a b : streq a b = true <-> a = b.
Proof.
  unfold streq. destruct (list_eq_dec Z.eq_dec a b); split; congruence.
Qed.

(** What is shown of a run. *)
Let Good (n : nat) (model : jsstring) (retries : nat) (delay : Z)
    (run : Run Response Error) : Prop :=
  (length (models run) <= limit model retries)%nat /\
  (exists a b, models run = repeat model (S a) ++ repeat flash b) /\
  (length (waited run) <= retries)%nat /\
  (length (waited run) < length (models run))%nat /\
  total (waited run) <= delay * (2 ^ Z.of_nat retries - 1) /\
  attempts n (models run) (result run) /\
  (forall e, result run = inr e -> isQuotaError e || isRetryable e = true ->
             length (waited run) = retries) /\
  ((exists k,
       steps run = request model :: retried model (backoff delay k) /\
       waited run = backoff delay k /\
       models run = repeat model (S k)) \/
   (exists k1 k2,
       model <> flash /\
       steps run = request model :: retried model (backoff delay k1)
                   ++ request flash
                      :: retried flash (backoff (delay * 2 ^ Z.of_nat k1) k2) /\
       waited run = backoff delay k1 ++ backoff (delay * 2 ^ Z.of_nat k1) k2 /\
       models run = repeat model (S k1) ++ repeat flash (S k2))).

Lemma pow_pos r : 0 < 2 ^ Z.of_nat r.
Proof. apply Z.pow_pos_nonneg; lia. Qed.

Lemma limit_pos model retries : (retries < limit model retries)%nat.
Proof. unfold limit. destruct (streq model flash); lia. Qed.

Lemma callGemini_run fuel : forall n model retries delay,
  (limit model retries <= fuel)%nat -> 0 <= delay ->
  exists run, call fuel n model retries delay = Some run /\
              Good n model retries delay run.
Proof.
  induction fuel as [|fuel IH]; intros n model retries delay Hf Hd.
  { pose proof (limit_pos model retries). lia. }
  unfold call. cbn [callGemini].
  destruct (generateContent n model) as [r|e] eqn:Ereply.
  - eexists. split; [reflexivity|]. unfold Good. cbn [models waited result steps length].
    pose proof (limit_pos model retries). pose proof (pow_pos retries).
    split; [lia|]. split; [exists 0%nat, 0%nat; reflexivity|].
    split; [lia|]. split; [lia|]. split; [cbn; nia|].
    split; [rewrite <- Ereply; constructor|]. split; [discriminate|].
    left. exists 0%nat. split; [reflexivity|]. split; reflexivity.
  - destruct ((isQuotaError e || isRetryable e && includes model (str "pro"))
              && negb (streq model flash)) eqn:Efall.
    + (* the fallback *)
      apply andb_prop in Efall. destruct Efall as [Ecls Enf].
      assert (Emodel : streq model flash = false) by now apply negb_true_iff.
      assert (Hmodel : model <> flash).
      { intros Heq. apply streq_true in Heq. congruence. }
      destruct (IH (S n) flash retries delay) as (run & E & G); [|exact Hd|].
      { revert Hf. unfold limit. rewrite Emodel.
        replace (streq flash flash) with true by (symmetry; now apply streq_true).
        lia. }
      fold call. rewrite E. cbn [option_map]. eexists. split; [reflexivity|].
      destruct G as (G1 & (a & b & G2) & G3 & G4 & G5 & G6 & G7 & G8).
      unfold Good. cbn [after models waited result steps length app map].
      revert G1. unfold limit. rewrite Emodel.
      replace (streq flash flash) with true by (symmetry; now apply streq_true).
      intros G1.
      split; [lia|]. split.
      { exists 0%nat, (S a + b)%nat. rewrite G2, repeat_app. reflexivity. }
      split; [exact G3|]. split; [lia|]. split; [exact G5|]. split.
      { apply (failedAttempt _ _ _ _ _ n model e); [exact Ereply| |exact G6].
        destruct (isQuotaError e); [reflexivity|]. cbn [orb] in *.
        now destruct (isRetryable e). }
      split; [exact G7|].
      right. destruct G8 as [(k & S1 & S2 & S3)|(k1 & k2 & Hne & _)];
        [|now contradiction Hne].
      exists 0%nat, k. split; [exact Hmodel|].
      cbn [backoff retried flat_map app repeat Z.of_nat]. fold (retried flash).
      rewrite Z.pow_0_r, Z.mul_1_r.
      split; [now rewrite S1|]. split; [exact S2|]. now rewrite S3.
    + destruct ((0 <? retries)%nat && (isRetryable e || isQuotaError e)) eqn:Eretry.
      * (* a retry *)
        apply andb_prop in Eretry. destruct Eretry as [Epos Ecls].
        apply Nat.ltb_lt in Epos. destruct retries as [|retries]; [lia|].
        cbn [Nat.sub]. rewrite Nat.sub_0_r.
        destruct (IH (S n) model retries (delay * 2)) as (run & E & G); [|lia|].
        { revert Hf. unfold limit. destruct (streq model flash); lia. }
        fold call. rewrite E. cbn [option_map]. eexists. split; [reflexivity|].
        destruct G as (G1 & (a & b & G2) & G3 & G4 & G5 & G6 & G7 & G8).
        unfold Good. cbn [after models waited result steps length app map].
        assert (Hpow : 2 ^ Z.of_nat (S retries) = 2 * 2 ^ Z.of_nat retries).
        { rewrite Nat2Z.inj_succ, Z.pow_succ_r by lia. reflexivity. }
        pose proof (pow_pos retries).
        split.
        { revert G1. unfold limit. destruct (streq model flash); lia. }
        split.
        { exists (S a), b. rewrite G2. reflexivity. }
        split; [lia|]. split; [lia|]. split.
        { unfold total. cbn [fold_right]. fold (total (waited run)). nia. }
        split.
        { apply (failedAttempt _ _ _ _ _ n model e); [exact Ereply| |exact G6].
          now rewrite orb_comm. }
        split.
        { intros e' He' Hc. f_equal. now apply (G7 e'). }
        destruct G8 as [(k & S1 & S2 & S3)|(k1 & k2 & Hne & S1 & S2 & S3)].
        -- left. exists (S k). cbn [backoff retried flat_map app]. fold (retried model).
           split; [now rewrite S1|]. split; [now rewrite S2|].
           rewrite S3. reflexivity.
        -- right. exists (S k1), k2. split; [exact Hne|].
           assert (Hd2 : delay * 2 ^ Z.of_nat (S k1) = delay * 2 * 2 ^ Z.of_nat k1).
           { rewrite Nat2Z.inj_succ, Z.pow_succ_r by lia. ring. }
           rewrite Hd2. cbn [backoff retried flat_map app]. fold (retried model).
           split; [now rewrite S1|]. split; [now rewrite S2|].
           rewrite S3. reflexivity.
      * (* the error is thrown *)
        eexists. split; [reflexivity|]. unfold Good.
        cbn [models waited result steps length].
        pose proof (limit_pos model retries). pose proof (pow_pos retries).
        split; [lia|]. split; [exists 0%nat, 0%nat; reflexivity|].
        split; [lia|]. split; [lia|]. split; [cbn; nia|].
        split; [rewrite <- Ereply; constructor|].
        split.
        { intros e' [= <-] Hc. rewrite orb_comm in Hc. rewrite Hc, andb_true_r in Eretry.
          apply Nat.ltb_ge in Eretry. cbn [length]. lia. }
        left. exists 0%nat. split; [reflexivity|]. split; reflexivity.
Qed.

End RetryBounds.

(** X22.  [callGemini] ends after a bounded number of requests and a
    bounded wait: with enough fuel for [limit model retries] requests
    ([retries + 2], or [retries + 1] when the model is the fallback model
    already) there is a run; it asks for the model of the configuration
    first and, once it has asked for the fallback model, for no other; it
    waits at most [retries] times and fewer times than it asks; and the
    waits add up to at most [delay * (2 ^ retries - 1)].  The requests and
    the waits come in this order: the request for the model, then a wait
    and a request for the same model for each retry, the waits being of
    [delay], [2 * delay], [4 * delay], ... milliseconds; then, if the call
    falls back, the request for the fallback model at once, with no wait
    before it, and a wait and a request for each retry of it, the delays
    doubling on. *)
Theorem callGemini_requests_are_bounded
        (Response Error : Type) (isQuotaError isRetryable : Error -> bool)
        (generateContent : nat -> jsstring -> Response + Error)
        (fuel n : nat) (model : jsstring) (retries : nat) (delay : Z) :
  (Retry.limit model retries <= fuel)%nat -> 0 <= delay ->
  exists run,
    Retry.callGemini Response Error isQuotaError isRetryable generateContent
                     fuel n model retries delay = Some run /\
    (length (Retry.models run) <= Retry.limit model retries)%nat /\
    (exists a b, Retry.models run = repeat model (S a) ++ repeat Retry.flash b) /\
    (length (Retry.waited run) <= retries)%nat /\
    (length (Retry.waited run) < length (Retry.models run))%nat /\
    Retry.total (Retry.waited run) <= delay * (2 ^ Z.of_nat retries - 1) /\
    ((exists k,
         Retry.steps run
         = Retry.request model :: Retry.retried model (Retry.backoff delay k) /\
         Retry.waited run = Retry.backoff delay k /\
         Retry.models run = repeat model (S k)) \/
     (exists k1 k2,
         model <> Retry.flash /\
         Retry.steps run
         = Retry.request model :: Retry.retried model (Retry.backoff delay k1)
           ++ Retry.request Retry.flash
              :: Retry.retried Retry.flash
                   (Retry.backoff (delay * 2 ^ Z.of_nat k1) k2) /\
         Retry.waited run
         = Retry.backoff delay k1 ++ Retry.backoff (delay * 2 ^ Z.of_nat k1) k2 /\
         Retry.models run = repeat model (S k1) ++ repeat Retry.flash (S k2))).
Proof.
  intros Hf Hd.
  destruct (callGemini_run Response Error isQuotaError isRetryable generateContent
              fuel n model retries delay Hf Hd)
    as (run & E & G1 & G2 & G3 & G4 & G5 & _ & _ & G8).
  exists run. split; [exact E|]. split; [exact G1|]. split; [exact G2|].
  split; [exact G3|]. split; [exact G4|]. split; [exact G5|exact G8].
Qed.

Lemma callGemini_requests_are_bounded_witness :
  exists run,
    Retry.callGemini Z Z (Z.eqb 429) (Z.eqb 503)
      (fun n _ => if (n <? 3)%nat then inr 503 else inl 7)
      4 0 (str "gemini-3-pro-image-preview") 2 1000 = Some run /\
    (length (Retry.models run)
     <= Retry.limit (str "gemini-3-pro-image-preview") 2)%nat /\
    (exists a b,
        Retry.models run
        = repeat (str "gemini-3-pro-image-preview") (S a) ++ repeat Retry.flash b) /\
    (length (Retry.waited run) <= 2)%nat /\
    (length (Retry.waited run) < length (Retry.models run))%nat /\
    Retry.total (Retry.waited run) <= 1000 * (2 ^ Z.of_nat 2 - 1) /\
    ((exists k,
         Retry.steps run
         = Retry.request (str "gemini-3-pro-image-preview")
           :: Retry.retried (str "gemini-3-pro-image-preview")
                (Retry.backoff 1000 k) /\
         Retry.waited run = Retry.backoff 1000 k /\
         Retry.models run = repeat (str "gemini-3-pro-image-preview") (S k)) \/
     (exists k1 k2,
         str "gemini-3-pro-image-preview" <> Retry.flash /\
         Retry.steps run
         = Retry.request (str "gemini-3-pro-image-preview")
           :: Retry.retried (str "gemini-3-pro-image-preview")
                (Retry.backoff 1000 k1)
           ++ Retry.request Retry.flash
              :: Retry.retried Retry.flash
                   (Retry.backoff (1000 * 2 ^ Z.of_nat k1) k2) /\
         Retry.waited run
         = Retry.backoff 1000 k1 ++ Retry.backoff (1000 * 2 ^ Z.of_nat k1) k2 /\
         Retry.models run
         = repeat (str "gemini-3-pro-image-preview") (S k1)
           ++ repeat Retry.flash (S k2))).
Proof.
  apply (callGemini_requests_are_bounded
           Z Z (Z.eqb 429) (Z.eqb 503)
           (fun n _ => if (n <? 3)%nat then inr 503 else inl 7)
           4 0 (str "gemini-3-pro-image-preview") 2 1000).
  - vm_compute. lia.
  - lia.
Defined.

(** X23.  What [callGemini] returns or throws is what its last request
    gave, and every request before it threw a quota error or an error that
    can be retried: the first response is returned at once, and an error of
    neither kind is thrown at once.  When the error thrown at the end is of
    one of the two kinds, all the retries have been used. *)
Theorem callGemini_gives_the_last_reply
        (Response Error : Type) (isQuotaError isRetryable : Error -> bool)
        (generateContent : nat -> jsstring -> Response + Error)
        (fuel n : nat) (model : jsstring) (retries : nat) (delay : Z) :
  (Retry.limit model retries <= fuel)%nat -> 0 <= delay ->
  exists run,
    Retry.callGemini Response Error isQuotaError isRetryable generateContent
                     fuel n model retries delay = Some run /\
    Retry.Attempts Response Error isQuotaError isRetryable generateContent
                   n (Retry.models run) (Retry.result run) /\
    (forall e, Retry.result run = inr e ->
               isQuotaError e || isRetryable e = true ->
               length (Retry.waited run) = retries).
Proof.
  intros Hf Hd.
  destruct (callGemini_run Response Error isQuotaError isRetryable generateContent
              fuel n model retries delay Hf Hd)
    as (run & E & _ & _ & _ & _ & _ & G6 & G7 & _).
  exists run. split; [exact E|]. split; [exact G6|exact G7].
Qed.

Lemma callGemini_gives_the_last_reply_witness :
  exists run,
    Retry.callGemini Z Z (Z.eqb 429) (Z.eqb 503)
      (fun n _ => if (n <? 3)%nat then inr 503 else inl 7)
      4 0 (str "gemini-3-pro-image-preview") 2 1000 = Some run /\
    Retry.Attempts Z Z (Z.eqb 429) (Z.eqb 503)
      (fun n _ => if (n <? 3)%nat then inr 503 else inl 7)
      0 (Retry.models run) (Retry.result run) /\
    (forall e, Retry.result run = inr e ->
               Z.eqb 429 e || Z.eqb 503 e = true ->
               length (Retry.waited run) = 2%nat).
Proof.
  apply (callGemini_gives_the_last_reply
           Z Z (Z.eqb 429) (Z.eqb 503)
           (fun n _ => if (n <? 3)%nat then inr 503 else inl 7)
           4 0 (str "gemini-3-pro-image-preview") 2 1000).
  - vm_compute. lia.
  - lia.
Defined.

(** ** The statistics of the player *)

Section StatsProofs.
Import App.

Variable NeuralSculpture : Type.

Lemma firstn_cons_firstn {A} (x : A) l :
  firstn 5 (x :: firstn 5 l) = firstn 5 (x :: l).
Proof.
  change (firstn 5 (x :: firstn 5 l)) with (x :: firstn 4 (firstn 5 l)).
  change (firstn 5 (x :: l)) with (x :: firstn 4 l).
  f_equal. rewrite firstn_firstn. reflexivity.
Qed.

Lemma points_range difficulty : 5 <= points difficulty <= 20.
Proof.
  unfold points. destruct (streq _ _); [lia|]. destruct (streq _ _); lia.
Qed.

Lemma games_fold (us : list (Update NeuralSculpture)) : forall st,
  let final := fold_left (apply NeuralSculpture) us st in
  gamesPlayed final = gamesPlayed st + Z.of_nat (length (dates _ us)) /\
  streak final = streak st + dayChanges (lastPlayedDate st) (dates _ us) /\
  lastPlayedDate final = last (lastPlayedDate st :: map Some (dates _ us)) None /\
  aptitudeScore st + 5 * Z.of_nat (length (dates _ us)) <= aptitudeScore final
  <= aptitudeScore st + 20 * Z.of_nat (length (dates _ us)).
Proof.
  induction us as [|u us IH]; intros st; cbv zeta.
  - cbn [fold_left dates length map last dayChanges]. repeat split; lia.
  - destruct u as [difficulty today|s]; cbn [fold_left apply dates].
    + specialize (IH (recordGame _ difficulty today st)). cbv zeta in IH.
      destruct IH as (H1 & H2 & H3 & H4).
      cbn [recordGame gamesPlayed streak lastPlayedDate aptitudeScore]
        in H1, H2, H3, H4.
      pose proof (points_range difficulty).
      cbn [length map dayChanges].
      rewrite H1, H2, H3. split; [lia|]. split.
      { destruct (playedOn (lastPlayedDate st) today); lia. }
      split; [reflexivity|lia].
    + specialize (IH (addSculpture _ s st)). cbv zeta in IH. exact IH.
Qed.

Lemma firstn_app_firstn {A} n (l x : list A) :
  firstn n (l ++ firstn n x) = firstn n (l ++ x).
Proof.
  rewrite !firstn_app, firstn_firstn. f_equal. f_equal. lia.
Qed.

Lemma sculptures_fold (us : list (Update NeuralSculpture)) : forall st,
  sculptures (fold_left (apply NeuralSculpture) us st)
  = match arrived _ us with
    | [] => sculptures st
    | _ => slice5 (arrived _ us ++ sculptures st)
    end.
Proof.
  induction us as [|u us IH]; intros st; cbn [fold_left arrived]; [reflexivity|].
  rewrite IH. destruct u as [difficulty today|s];
    cbn [apply recordGame addSculpture sculptures]; [reflexivity|].
  destruct (arrived _ us) as [|s' l] eqn:E; cbn [app]; [reflexivity|].
  unfold slice5. rewrite <- app_assoc. cbn [app].
  exact (firstn_app_firstn 5 (s' :: l) (s :: sculptures st)).
Qed.

Lemma dayChanges_range last days :
  0 <= dayChanges last days <= Z.of_nat (length days).
Proof.
  revert last. induction days as [|d days IH]; intros last; cbn [dayChanges length].
  - lia.
  - specialize (IH (Some d)). destruct (playedOn last d); lia.
Qed.

Lemma streq_same s : streq s s = true.
Proof. unfold streq. destruct (list_eq_dec Z.eq_dec s s); congruence. Qed.

Lemma dayChanges_same today days :
  Forall (fun d => d = today) days -> dayChanges (Some today) days = 0.
Proof.
  induction 1 as [|d days -> _ IH]; cbn [dayChanges playedOn]; [reflexivity|].
  rewrite streq_same, IH. reflexivity.
Qed.

End StatsProofs.

(** X24.  After any sequence of completed games and arriving sculptures,
    [gamesPlayed] has grown by the number of games; [streak] has grown by
    the number of games whose date differs from the date of the game before
    (from [lastPlayedDate] for the first), which lies between 0 and the
    number of games, so the streak never goes down and is not reset when
    days are skipped; [lastPlayedDate] is the date of the last game; and
    [aptitudeScore] has grown by 5 to 20 for each game. *)
Theorem streak_counts_the_day_changes
        (NeuralSculpture : Type) (us : list (App.Update NeuralSculpture))
        (st : App.GameStats NeuralSculpture) :
  let final := fold_left (App.apply NeuralSculpture) us st in
  let days := App.dates NeuralSculpture us in
  App.gamesPlayed final = App.gamesPlayed st + Z.of_nat (length days) /\
  App.streak final = App.streak st + App.dayChanges (App.lastPlayedDate st) days /\
  0 <= App.dayChanges (App.lastPlayedDate st) days <= Z.of_nat (length days) /\
  App.lastPlayedDate final = last (App.lastPlayedDate st :: map Some days) None /\
  App.aptitudeScore st + 5 * Z.of_nat (length days) <= App.aptitudeScore final
  <= App.aptitudeScore st + 20 * Z.of_nat (length days).
Proof.
  cbv zeta. destruct (games_fold NeuralSculpture us st) as (H1 & H2 & H3 & H4).
  split; [exact H1|]. split; [exact H2|]. split; [apply dayChanges_range|].
  split; [exact H3|exact H4].
Qed.

(** X25.  The streak grows once a day at most: after one game or more of
    the same date, it is the streak of before when [lastPlayedDate] was that
    date already, and one more otherwise. *)
Theorem streak_grows_once_a_day
        (NeuralSculpture : Type) (us : list (App.Update NeuralSculpture))
        (st : App.GameStats NeuralSculpture) (today : jsstring) :
  App.dates NeuralSculpture us <> [] ->
  Forall (fun d => d = today) (App.dates NeuralSculpture us) ->
  App.streak (fold_left (App.apply NeuralSculpture) us st)
  = if App.playedOn (App.lastPlayedDate st) today then App.streak st
    else App.streak st + 1.
Proof.
  intros Hne Hall.
  destruct (games_fold NeuralSculpture us st) as (_ & H2 & _). cbv zeta in H2.
  rewrite H2. destruct (App.dates NeuralSculpture us) as [|d days]; [congruence|].
  apply Forall_cons_iff in Hall. destruct Hall as [-> Hall].
  cbn [App.dayChanges]. rewrite (dayChanges_same today days Hall).
  destruct (App.playedOn (App.lastPlayedDate st) today); lia.
Qed.

Lemma streak_grows_once_a_day_witness :
  App.streak
    (fold_left (App.apply Z)
       [App.game Z (str "Hard") (str "Mon Jan 15 2024");
        App.sculpture Z 1;
        App.game Z (str "Easy") (str "Mon Jan 15 2024")]
       {| App.gamesPlayed := 7; App.streak := 3;
          App.lastPlayedDate := Some (str "Sat Jan 13 2024");
          App.aptitudeScore := 740; App.sculptures := [] |})
  = if App.playedOn
         (App.lastPlayedDate
            {| App.gamesPlayed := 7; App.streak := 3;
               App.lastPlayedDate := Some (str "Sat Jan 13 2024");
               App.aptitudeScore := 740; App.sculptures := @nil Z |})
         (str "Mon Jan 15 2024")
    then App.streak
           {| App.gamesPlayed := 7; App.streak := 3;
              App.lastPlayedDate := Some (str "Sat Jan 13 2024");
              App.aptitudeScore := 740; App.sculptures := @nil Z |}
    else App.streak
           {| App.gamesPlayed := 7; App.streak := 3;
              App.lastPlayedDate := Some (str "Sat Jan 13 2024");
              App.aptitudeScore := 740; App.sculptures := @nil Z |} + 1.
Proof.
  apply (streak_grows_once_a_day Z).
  - discriminate.
  - repeat constructor.
Defined.

(** X26.  The gallery holds five sculptures at most: from the statistics
    read from the storage, cut down to five sculptures, and after any
    sequence of games and arriving sculptures, the list is the first five
    of the arrived sculptures, the newest first, followed by the stored
    ones. *)
Theorem gallery_keeps_the_five_newest
        (NeuralSculpture : Type) (us : list (App.Update NeuralSculpture))
        (parsed : App.GameStats NeuralSculpture) :
  let final := fold_left (App.apply NeuralSculpture) us (App.loaded _ parsed) in
  App.sculptures final
  = firstn 5 (App.arrived _ us ++ App.sculptures parsed) /\
  (length (App.sculptures final) <= 5)%nat.
Proof.
  cbv zeta.
  assert (E : App.sculptures (fold_left (App.apply NeuralSculpture) us
                                        (App.loaded _ parsed))
              = firstn 5 (App.arrived _ us ++ App.sculptures parsed)).
  { rewrite sculptures_fold.
    assert (El : App.sculptures (App.loaded _ parsed)
                 = firstn 5 (App.sculptures parsed)).
    { cbn [App.loaded App.sculptures]. unfold App.slice5.
      destruct (Nat.ltb_spec 5 (length (App.sculptures parsed))); [reflexivity|].
      symmetry. apply firstn_all2. lia. }
    rewrite El. destruct (App.arrived _ us) as [|s l]; [reflexivity|].
    unfold App.slice5. apply firstn_app_firstn. }
  split; [exact E|]. rewrite E. apply firstn_le_length.
Qed.

(** ** The pages of the lobby *)

Section LobbyPages.
Import Lobby.

Variable Card : Type.
Variable gameCards : list Card.

Lemma pagesFrom_spec fuel : forall i pages,
  (length gameCards - i <= fuel)%nat ->
  exists out,
    pagesFrom Card gameCards fuel i pages = Some (pages ++ out) /\
    concat out = skipn i gameCards /\
    Forall (fun p => (1 <= length p <= 4)%nat) out /\
    Z.of_nat (length out) = (Z.of_nat (length gameCards - i) + 3) / 4.
Proof.
  induction fuel as [|fuel IH]; intros i pages Hf.
  - cbn [pagesFrom]. destruct (Nat.ltb_spec i (length gameCards)); [lia|].
    exists []. rewrite app_nil_r. split; [reflexivity|]. split.
    + rewrite skipn_all2 by lia. reflexivity.
    + split; [constructor|]. replace (length gameCards - i)%nat with 0%nat by lia.
      reflexivity.
  - cbn [pagesFrom]. destruct (Nat.ltb_spec i (length gameCards)) as [Hi|Hi].
    + destruct (IH (i + GAMES_PER_PAGE)%nat
                   (pages ++ [slice i (i + GAMES_PER_PAGE) gameCards]))
        as (out & E & Hc & Hp & Hl).
      { unfold GAMES_PER_PAGE. lia. }
      exists (slice i (i + GAMES_PER_PAGE) gameCards :: out).
      rewrite E, <- app_assoc. split; [reflexivity|].
      unfold slice, GAMES_PER_PAGE in *.
      replace (i + 4 - i)%nat with 4%nat by lia.
      split; [|split].
      * cbn [concat]. rewrite Hc.
        replace (i + 4)%nat with (4 + i)%nat by lia.
        rewrite <- skipn_skipn. apply firstn_skipn.
      * constructor; [|exact Hp].
        rewrite length_firstn, length_skipn. lia.
      * cbn [length]. rewrite Nat2Z.inj_succ, Hl.
        assert (Ha : Z.of_nat (length gameCards - (i + 4))
                     = Z.max 0 (Z.of_nat (length gameCards - i) - 4)) by lia.
        rewrite Ha.
        assert (Hm : 1 <= Z.of_nat (length gameCards - i)) by lia.
        revert Hm. generalize (Z.of_nat (length gameCards - i)). intros m Hm.
        destruct (Z.max_spec 0 (m - 4)) as [[Hc4 ->]|[Hc4 ->]];
          Z.div_mod_to_equations; lia.
    + exists []. rewrite app_nil_r. split; [reflexivity|]. split.
      * rewrite skipn_all2 by lia. reflexivity.
      * split; [constructor|]. replace (length gameCards - i)%nat with 0%nat by lia.
        reflexivity.
Qed.

Lemma paginate_range newDirection currentPage :
  0 <= currentPage < totalPages Card gameCards ->
  0 <= paginate Card gameCards newDirection currentPage < totalPages Card gameCards.
Proof.
  intros H. unfold paginate. cbv zeta.
  destruct (Z.leb_spec 0 (currentPage + newDirection)); cbn [andb]; [|exact H].
  destruct (Z.ltb_spec (currentPage + newDirection) (totalPages Card gameCards));
    [lia|exact H].
Qed.

End LobbyPages.

(** X27.  The pages of the lobby hold every card once and in order: the
    loop of [pagedGames] ends for every list of cards, the pages put end to
    end are the list, every page has from 1 to 4 cards, and there are
    [totalPages] pages. *)
Theorem pages_hold_every_card_once (Card : Type) (gameCards : list Card) :
  exists pages,
    Lobby.pagedGames Card gameCards = Some pages /\
    concat pages = gameCards /\
    Forall (fun p => (1 <= length p <= 4)%nat) pages /\
    Z.of_nat (length pages) = Lobby.totalPages Card gameCards.
Proof.
  destruct (pagesFrom_spec Card gameCards (length gameCards) 0 [])
    as (out & E & Hc & Hp & Hl); [lia|].
  exists out. split; [exact E|]. split; [exact Hc|]. split; [exact Hp|].
  rewrite Hl. unfold Lobby.totalPages, Lobby.GAMES_PER_PAGE.
  rewrite Nat.sub_0_r. f_equal. lia.
Qed.

(** X28.  The page that the lobby shows exists: when there is a card,
    after any sequence of calls of [paginate] from page 0, with any steps,
    [currentPage] is at least 0 and below [totalPages], and
    [pagedGames[currentPage]] is a page. *)
Theorem shown_page_exists
        (Card : Type) (gameCards : list Card) (moves : list Z) :
  gameCards <> [] ->
  exists pages page,
    Lobby.pagedGames Card gameCards = Some pages /\
    nth_error pages
      (Z.to_nat (fold_left (fun currentPage newDirection =>
                              Lobby.paginate Card gameCards newDirection currentPage)
                           moves 0))
    = Some page /\
    0 <= fold_left (fun currentPage newDirection =>
                      Lobby.paginate Card gameCards newDirection currentPage)
                   moves 0
      < Lobby.totalPages Card gameCards.
Proof.
  intros Hne.
  destruct (pagesFrom_spec Card gameCards (length gameCards) 0 [])
    as (pages & E & Hc & Hp & Hl); [lia|].
  assert (Ht : Z.of_nat (length pages) = Lobby.totalPages Card gameCards).
  { rewrite Hl. unfold Lobby.totalPages, Lobby.GAMES_PER_PAGE.
    rewrite Nat.sub_0_r. f_equal. lia. }
  assert (Hpos : 0 < Lobby.totalPages Card gameCards).
  { rewrite <- Ht. destruct pages as [|p pages]; [|cbn [length]; lia].
    cbn [concat] in Hc. cbn [skipn] in Hc. congruence. }
  assert (Hrange : forall cur,
             0 <= cur < Lobby.totalPages Card gameCards ->
             0 <= fold_left (fun currentPage newDirection =>
                               Lobby.paginate Card gameCards newDirection currentPage)
                            moves cur
               < Lobby.totalPages Card gameCards).
  { induction moves as [|d moves IH]; intros cur Hcur; cbn [fold_left]; [exact Hcur|].
    apply IH. now apply paginate_range. }
  specialize (Hrange 0 ltac:(lia)).
  set (cur := fold_left (fun currentPage newDirection =>
                           Lobby.paginate Card gameCards newDirection currentPage)
                        moves 0) in *.
  destruct (nth_error pages (Z.to_nat cur)) as [page|] eqn:En.
  - exists pages, page. split; [exact E|]. split; [exact En|exact Hrange].
  - exfalso. apply nth_error_None in En. lia.
Qed.

Lemma shown_page_exists_witness :
  exists pages page,
    Lobby.pagedGames Z [1; 2; 3; 4; 5; 6; 7; 8; 9] = Some pages /\
    nth_error pages
      (Z.to_nat (fold_left (fun currentPage newDirection =>
                              Lobby.paginate Z [1; 2; 3; 4; 5; 6; 7; 8; 9]
                                             newDirection currentPage)
                           [1; 1; 1; -1; -1; -1; -1; 1] 0))
    = Some page /\
    0 <= fold_left (fun currentPage newDirection =>
                      Lobby.paginate Z [1; 2; 3; 4; 5; 6; 7; 8; 9]
                                     newDirection currentPage)
                   [1; 1; 1; -1; -1; -1; -1; 1] 0
      < Lobby.totalPages Z [1; 2; 3; 4; 5; 6; 7; 8; 9].
Proof.
  apply (shown_page_exists Z [1; 2; 3; 4; 5; 6; 7; 8; 9]
                           [1; 1; 1; -1; -1; -1; -1; 1]).
  discriminate.
Defined.

(** ** The cipher game *)

Section CipherMaps.
Import Cipher.

Lemma run_app ev1 : forall ev2 st,
  run (ev1 ++ ev2) st
  = (let (st1, log1) := run ev1 st in
     let (st2, log2) := run ev2 st1 in (st2, log1 ++ log2)).
Proof.
  induction ev1 as [|e ev1 IH]; intros ev2 st; cbn [app run].
  - now destruct (run ev2 st).
  - destruct (handle e st) as [st1 d]. rewrite IH.
    destruct (run ev1 st1) as [st2 l1]. now destruct (run ev2 st2).
Qed.

Lemma cget_set m k v k' :
  get (set m k v) k' = if k' =? k then Some v else get m k'.
Proof.
  induction m as [|[a b] m IH]; cbn [set get].
  - rewrite Z.eqb_sym. reflexivity.
  - destruct (Z.eqb_spec a k) as [Eak|Hak]; cbn [get].
    + subst a. rewrite (Z.eqb_sym k' k). destruct (Z.eqb_spec k k'); reflexivity.
    + destruct (Z.eqb_spec a k') as [Eak'|Hak'].
      * subst a. destruct (Z.eqb_spec k' k); [congruence|reflexivity].
      * exact IH.
Qed.

Lemma cget_remove m k k' :
  get (remove m k) k' = if k' =? k then None else get m k'.
Proof.
  unfold remove. induction m as [|[a b] m IH]; cbn [filter get fst].
  - now destruct (k' =? k).
  - destruct (Z.eqb_spec a k) as [Eak|Hak]; cbn [negb get].
    + subst a. rewrite IH. destruct (Z.eqb_spec k' k) as [Ek|Hk].
      * reflexivity.
      * destruct (Z.eqb_spec k k'); [congruence|reflexivity].
    + rewrite IH. destruct (Z.eqb_spec a k') as [Eak'|Hak'].
      * subst a. destruct (Z.eqb_spec k' k); [congruence|reflexivity].
      * reflexivity.
Qed.


Lemma unassign_fold v ks : forall m k,
  get (fold_left (fun m key =>
                    match get m key with
                    | Some v' => if v' =? v then remove m key else m
                    | None => m
                    end) ks m) k
  = match get m k with
    | Some v' => if (v' =? v) && mem k ks then None else Some v'
    | None => None
    end.
Proof.
  induction ks as [|key ks IH]; intros m k; cbn [fold_left mem existsb].
  - destruct (get m k); [|reflexivity]. now rewrite andb_false_r.
  - rewrite IH. clear IH. fold (mem k ks).
    destruct (get m key) as [vk|] eqn:Ekey.
    + destruct (Z.eqb_spec vk v) as [Evk|Hvk].
      * subst vk. rewrite cget_remove. destruct (Z.eqb_spec k key) as [Ek|Hk].
        -- subst k. rewrite Ekey, Z.eqb_refl. reflexivity.
        -- reflexivity.
      * destruct (Z.eqb_spec k key) as [Ek|Hk]; [|reflexivity].
        subst k. rewrite Ekey. destruct (Z.eqb_spec vk v); [congruence|reflexivity].
    + destruct (Z.eqb_spec k key) as [Ek|Hk]; [|reflexivity].
      subst k. rewrite Ekey. reflexivity.
Qed.

Lemma mem_keys m k : mem k (keys m) = match get m k with Some _ => true | None => false end.
Proof.
  unfold mem, keys. induction m as [|[a b] m IH]; cbn [map existsb get fst];
    [reflexivity|].
  rewrite (Z.eqb_sym k a). destruct (a =? k); [reflexivity|exact IH].
Qed.

Lemma get_unassign v m k :
  get (unassign v m) k
  = match get m k with
    | Some v' => if v' =? v then None else Some v'
    | None => None
    end.
Proof.
  unfold unassign. rewrite unassign_fold, mem_keys.
  destruct (get m k); [|reflexivity]. now rewrite andb_true_r.
Qed.

Lemma injective_assign m sel v :
  injective m -> injective (set (unassign v m) sel v).
Proof.
  intros Hm k k' x. rewrite !cget_set, !get_unassign.
  destruct (Z.eqb_spec k sel) as [Ek|Hk], (Z.eqb_spec k' sel) as [Ek'|Hk'].
  - congruence.
  - intros [= Ex]. subst x. destruct (get m k') as [y|]; [|discriminate].
    destruct (Z.eqb_spec y v); [discriminate|congruence].
  - destruct (get m k) as [y|]; [|discriminate].
    destruct (Z.eqb_spec y v); [discriminate|]. intros [= Ex] [= E]. congruence.
  - destruct (get m k) as [y|] eqn:E1; [|discriminate].
    destruct (y =? v); [discriminate|]. intros [= Ex]. subst x.
    destruct (get m k') as [y'|] eqn:E2; [|discriminate].
    destruct (y' =? v); [discriminate|]. intros [= Ey]. subst y'.
    exact (Hm k k' y E1 E2).
Qed.

Lemma injective_remove m k : injective m -> injective (remove m k).
Proof.
  intros Hm a b x. rewrite !cget_remove.
  destruct (a =? k); [discriminate|]. destruct (b =? k); [discriminate|].
  apply Hm.
Qed.

Lemma run_injective events : forall st,
  injective (userMapping st) -> injective (userMapping (fst (run events st))).
Proof.
  induction events as [|e events IH]; intros st Hst; cbn [run fst]; [exact Hst|].
  destruct (handle e st) as [st1 done] eqn:E1.
  specialize (IH st1). destruct (run events st1) as [st2 log]. cbn [fst] in *.
  apply IH. clear IH.
  destruct e as [char|char|]; cbn [handle] in E1.
  - injection E1 as <- _. unfold select. destruct (isLetter char); exact Hst.
  - unfold assignMapping in E1. destruct (selectedChar st) as [sel|].
    + injection E1 as <- _. cbn [userMapping]. now apply injective_assign.
    + injection E1 as <- _. exact Hst.
  - unfold clearMapping in E1. destruct (selectedChar st) as [sel|].
    + injection E1 as <- _. cbn [userMapping]. now apply injective_remove.
    + injection E1 as <- _. exact Hst.
Qed.

Lemma distinctZ_NoDup l : distinctZ l = true -> NoDup l.
Proof.
  induction l as [|x l IH]; cbn [distinctZ]; [constructor|].
  intros H. apply andb_prop in H. destruct H as [Hx Hl].
  constructor; [|now apply IH].
  intros Hin. apply negb_true_iff in Hx.
  assert (existsb (Z.eqb x) l = true); [|congruence].
  apply existsb_exists. exists x. split; [exact Hin|apply Z.eqb_refl].
Qed.

Lemma NoDup_ALPHABET : NoDup ALPHABET.
Proof. apply distinctZ_NoDup. vm_compute. reflexivity. Qed.

Lemma isLetter_In c : isLetter c = true <-> In c ALPHABET.
Proof.
  unfold isLetter. rewrite existsb_exists. split.
  - intros (x & Hx & E). apply Z.eqb_eq in E. now subst.
  - intros H. exists c. split; [exact H|apply Z.eqb_refl].
Qed.

Lemma get_app_None m m' k : get m k = None -> get (m ++ m') k = get m' k.
Proof.
  induction m as [|[a b] m IH]; cbn [app get]; [reflexivity|].
  destruct (a =? k); [discriminate|exact IH].
Qed.

Lemma set_absent m k v : get m k = None -> set m k v = m ++ [(k, v)].
Proof.
  induction m as [|[a b] m IH]; cbn [set get app]; [reflexivity|].
  destruct (a =? k); [discriminate|]. intros H. now rewrite IH.
Qed.

Lemma fold_set_combine ks : forall vs acc,
  NoDup ks -> (forall k, In k ks -> get acc k = None) ->
  fold_left (fun map ci => set map (fst ci) (snd ci)) (combine ks vs) acc
  = acc ++ combine ks vs.
Proof.
  induction ks as [|k ks IH]; intros vs acc Hnd Hacc; cbn [combine fold_left].
  - now rewrite app_nil_r.
  - destruct vs as [|v vs]; cbn [fold_left]; [now rewrite app_nil_r|].
    apply NoDup_cons_iff in Hnd. destruct Hnd as [Hk Hnd]. cbn [fst snd].
    rewrite set_absent by (apply Hacc; left; reflexivity).
    rewrite IH; [now rewrite <- app_assoc|exact Hnd|].
    intros k' Hk'. rewrite get_app_None by (apply Hacc; right; exact Hk').
    cbn [get]. destruct (Z.eqb_spec k k'); [congruence|reflexivity].
Qed.

Lemma get_combine ks : forall vs k,
  length ks = length vs -> In k ks -> exists v, get (combine ks vs) k = Some v.
Proof.
  induction ks as [|a ks IH]; intros vs k Hl Hk; [destruct Hk|].
  destruct vs as [|b vs]; [discriminate|].
  cbn [combine get]. destruct (Z.eqb_spec a k) as [E|Hne]; [eauto|].
  apply IH; [now injection Hl|]. destruct Hk as [E|Hk]; [contradiction|exact Hk].
Qed.

Lemma get_combine_inv ks : forall vs k v,
  NoDup vs -> get (combine ks vs) k = Some v ->
  In v vs /\ plainOf (combine ks vs) v = k.
Proof.
  induction ks as [|a ks IH]; intros [|b vs] k v Hnd; cbn [combine get];
    try discriminate.
  apply NoDup_cons_iff in Hnd. destruct Hnd as [Hb Hnd].
  unfold plainOf. cbn [find snd fst].
  destruct (Z.eqb_spec a k) as [Eak|Hak].
  - intros [= Ev]. subst. rewrite Z.eqb_refl. split; [left|]; reflexivity.
  - intros H. destruct (IH vs k v Hnd H) as [Hin Hp]. split; [right; exact Hin|].
    destruct (Z.eqb_spec b v) as [Ebv|Hbv]; [subst; contradiction|].
    exact Hp.
Qed.

End CipherMaps.

Section CipherSolved.
Import Cipher.

Variable shuffled : list Z.
Hypothesis shuffled_perm : Permutation ALPHABET shuffled.

Let M := cipherMapOf shuffled.

Lemma cipherMap_combine : M = combine ALPHABET shuffled.
Proof.
  unfold M, cipherMapOf. rewrite fold_set_combine; [reflexivity|apply NoDup_ALPHABET|].
  reflexivity.
Qed.

Lemma cipher_of_letter p :
  isLetter p = true ->
  exists c, get M p = Some c /\ isLetter c = true /\ plainOf M c = p.
Proof.
  intros Hp. apply isLetter_In in Hp. rewrite cipherMap_combine.
  destruct (get_combine ALPHABET shuffled p) as [c Hc];
    [apply Permutation_length, shuffled_perm|exact Hp|].
  exists c. split; [exact Hc|].
  destruct (get_combine_inv ALPHABET shuffled p c) as [Hin Hpl];
    [exact (Permutation_NoDup shuffled_perm NoDup_ALPHABET)|exact Hc|].
  split; [|exact Hpl].
  apply isLetter_In. exact (Permutation_in _ (Permutation_sym shuffled_perm) Hin).
Qed.

(** A letter that the cipher writes. *)
Let written (c : Z) : Prop := exists p, isLetter p = true /\ get M p = Some c.

Lemma written_plain c : written c -> get M (plainOf M c) = Some c.
Proof.
  intros (p & Hp & Hc). destruct (cipher_of_letter p Hp) as (c' & Hc' & _ & Hpl).
  rewrite Hc in Hc'. injection Hc' as <-. now rewrite Hpl.
Qed.

Lemma written_in_encrypt text c :
  In c (encrypt M text) -> isLetter c = true -> written c.
Proof.
  unfold encrypt, mapChars. rewrite in_flat_map. intros (u & Hu & Hc) Hl.
  destruct (isLetter u) eqn:Eu.
  - destruct (get M u) as [x|] eqn:Ex; [|destruct Hc].
    destruct Hc as [<-|[]]. exists u. auto.
  - destruct Hc as [<-|[]]. congruence.
Qed.

(** The characters of [done] have their letters and no other has one. *)
Let Solved (m : Mapping) (done : list Z) : Prop :=
  (forall c, In c done -> written c /\ get m c = Some (plainOf M c)) /\
  (forall c v, get m c = Some v -> In c done).

Lemma decoded_text m done text :
  Solved m done ->
  (forall c, In c (encrypt M text) -> isLetter c = true -> In c done) ->
  mapChars (fun c => if negb (isLetter c) then Some c
                     else match get m c with
                          | Some v => Some v
                          | None => Some 95
                          end)
           (encrypt M text) = text.
Proof.
  intros [Hdone _]. induction text as [|u text IH]; intros Hall; [reflexivity|].
  unfold encrypt, mapChars in *. cbn [flat_map] in *. rewrite flat_map_app.
  rewrite IH by (intros c Hc; apply Hall; apply in_or_app; right; exact Hc).
  change (u :: text) with ([u] ++ text). f_equal.
  destruct (isLetter u) eqn:Eu.
  - destruct (cipher_of_letter u Eu) as (c & Hc & Hlc & Hpl). rewrite Hc.
    cbn [flat_map app]. rewrite Hlc. cbn [negb].
    destruct (Hdone c) as [_ Hm].
    { apply Hall; [|exact Hlc]. rewrite Hc. left. reflexivity. }
    rewrite Hm, Hpl. reflexivity.
  - cbn [flat_map app]. rewrite Eu. reflexivity.
Qed.

Lemma solve_step upper m done c sel :
  Solved m done -> written c -> isLetter c = true ->
  let st := {| originalMessage := upper; encryptedMessage := encrypt M upper;
               cipherMap := M; userMapping := m; selectedChar := sel |} in
  exists m',
    Solved m' (c :: done) /\
    run [Select c; Assign (plainOf M c)] st
    = (let st' := {| originalMessage := upper; encryptedMessage := encrypt M upper;
                     cipherMap := M; userMapping := m'; selectedChar := None |} in
       (st', [false; effect st'])).
Proof.
  intros [Hdone Hkeys] Hw Hl st.
  exists (set (unassign (plainOf M c) m) c (plainOf M c)). split.
  - split.
    + intros c' [<-|Hc'].
      * split; [exact Hw|]. rewrite cget_set, Z.eqb_refl. reflexivity.
      * destruct (Hdone c' Hc') as [Hw' Hm']. split; [exact Hw'|].
        rewrite cget_set, get_unassign, Hm'.
        destruct (Z.eqb_spec c' c) as [->|Hne]; [reflexivity|].
        destruct (Z.eqb_spec (plainOf M c') (plainOf M c)) as [E|]; [|reflexivity].
        exfalso. apply Hne.
        pose proof (written_plain c' Hw') as E1. pose proof (written_plain c Hw) as E2.
        rewrite E in E1. congruence.
    + intros k v. rewrite cget_set, get_unassign.
      destruct (Z.eqb_spec k c) as [->|Hne]; [intros _; left; reflexivity|].
      destruct (get m k) as [y|] eqn:Ek; [|discriminate].
      intros _. right. exact (Hkeys k y Ek).
  - cbn [run handle]. unfold select, st. rewrite Hl.
    unfold assignMapping. cbn [selectedChar originalMessage encryptedMessage
                               cipherMap userMapping]. reflexivity.
Qed.

Lemma solve_run upper order : forall m done sel,
  Solved m done ->
  (forall c, In c order -> written c /\ isLetter c = true) ->
  order <> [] ->
  let st := {| originalMessage := upper; encryptedMessage := encrypt M upper;
               cipherMap := M; userMapping := m; selectedChar := sel |} in
  exists m' log,
    Solved m' (rev order ++ done) /\
    run (solving M order) st
    = (let st' := {| originalMessage := upper; encryptedMessage := encrypt M upper;
                     cipherMap := M; userMapping := m'; selectedChar := None |} in
       (st', log ++ [effect st'])).
Proof.
  induction order as [|c order IH]; intros m done sel HS Hord Hne; [congruence|].
  cbv zeta. destruct (Hord c (or_introl eq_refl)) as [Hw Hl].
  destruct (solve_step upper m done c sel HS Hw Hl) as (m1 & HS1 & E1).
  cbv zeta in E1.
  change (solving M (c :: order))
    with ([Select c; Assign (plainOf M c)] ++ solving M order).
  rewrite run_app, E1.
  destruct order as [|c' order'].
  - exists m1, [false]. split; [exact HS1|reflexivity].
  - destruct (IH m1 (c :: done) None HS1) as (m2 & log & HS2 & E3);
      [intros x Hx; apply Hord; right; exact Hx|discriminate|].
    cbv zeta in E3. rewrite E3.
    exists m2, ([false; effect {| originalMessage := upper;
                                  encryptedMessage := encrypt M upper;
                                  cipherMap := M; userMapping := m1;
                                  selectedChar := None |}] ++ log).
    split; [|now rewrite <- app_assoc].
    change (rev (c :: c' :: order')) with (rev (c' :: order') ++ [c]).
    rewrite <- app_assoc. exact HS2.
Qed.

End CipherSolved.

(** X29.  The cipher game can be won: when [shuffled] is a rearrangement of
    the alphabet, a player who selects, in any order, the letters that occur
    in the encrypted message and gives each one the letter that the cipher
    writes so, ends with the decoded text equal to the original message, and
    the effect that follows the last assignment calls [onComplete]. *)
Theorem cipher_can_be_solved (upper : jsstring) (shuffled order : list Z) :
  Permutation Cipher.ALPHABET shuffled ->
  order <> [] ->
  let st0 := Cipher.initGame upper shuffled in
  (forall c, In c order ->
             In c (Cipher.encryptedMessage st0) /\ Cipher.isLetter c = true) ->
  (forall c, In c (Cipher.encryptedMessage st0) -> Cipher.isLetter c = true ->
             In c order) ->
  exists st log,
    Cipher.run (Cipher.solving (Cipher.cipherMap st0) order) st0
    = (st, log ++ [true]) /\
    Cipher.currentDecoded st = upper.
Proof.
  intros Hperm Hne st0 Hin Hall.
  destruct (solve_run shuffled Hperm upper order [] [] None) as (m & log & HS & E).
  - split; [intros c []|intros c v; discriminate].
  - intros c Hc. destruct (Hin c Hc) as [He Hl]. split; [|exact Hl].
    exact (written_in_encrypt shuffled upper c He Hl).
  - exact Hne.
  - cbv zeta in E.
    assert (Hdec : Cipher.currentDecoded
                     {| Cipher.originalMessage := upper;
                        Cipher.encryptedMessage :=
                          Cipher.encrypt (Cipher.cipherMapOf shuffled) upper;
                        Cipher.cipherMap := Cipher.cipherMapOf shuffled;
                        Cipher.userMapping := m;
                        Cipher.selectedChar := None |} = upper).
    { unfold Cipher.currentDecoded. cbn [Cipher.userMapping Cipher.encryptedMessage].
      apply (decoded_text shuffled Hperm m (rev order ++ [])); [exact HS|].
      intros c Hc Hl. apply in_or_app. left. apply -> in_rev. exact (Hall c Hc Hl). }
    eexists. exists log. split; [|exact Hdec].
    unfold st0, Cipher.initGame. cbn [Cipher.cipherMap]. rewrite E. f_equal. f_equal. f_equal.
    unfold Cipher.effect, Cipher.checkWin. cbn [Cipher.originalMessage]. rewrite Hdec.
    destruct upper as [|u upper']; [|apply streq_refl].
    exfalso. destruct order as [|c order']; [congruence|].
    destruct (Hin c (or_introl eq_refl)) as [[] _].
Qed.

Lemma cipher_can_be_solved_witness :
  exists st log,
    Cipher.run (Cipher.solving (Cipher.cipherMapOf (rev Cipher.ALPHABET))
                               (str "SRL"))
               (Cipher.initGame (str "HI, HO") (rev Cipher.ALPHABET))
    = (st, log ++ [true]) /\
    Cipher.currentDecoded st = str "HI, HO".
Proof.
  apply (cipher_can_be_solved (str "HI, HO") (rev Cipher.ALPHABET) (str "SRL")).
  - apply Permutation_rev.
  - discriminate.
  - vm_compute. intros c [<-|[<-|[<-|[]]]]; split; auto 10.
  - vm_compute. intros c [<-|[<-|[<-|[<-|[<-|[<-|[]]]]]]] Hl;
      solve [auto 10 | discriminate Hl].
Defined.

(** X30.  The player's mapping never gives one letter to two characters of
    the message, whatever is selected, assigned and cleared after
    [initGame]. *)
Theorem user_mapping_stays_injective (upper : jsstring) (shuffled : list Z)
    (events : list Cipher.Event) :
  Cipher.injective
    (Cipher.userMapping
       (fst (Cipher.run events (Cipher.initGame upper shuffled)))).
Proof.
  apply run_injective. intros k k' v. discriminate.
Qed.
